(** * Typesafe containers (lib/typesafe.h, lib/typesafe.c)

    A shallow embedding of the non-atomic intrusive containers: the unsorted
    singly-linked list (TYPEDLIST), the sorted singly-linked list (TYPEDSORT),
    the hash table (TYPEDHASH, with [typesafe_hash_grow] and
    [typesafe_hash_shrink]) and the skip list (TYPEDSKIP).

    Items are intrusive: a container only ever touches the link field that is
    embedded in the user's struct.  An item is therefore identified with the
    address of its link field ([container_of] only adds a constant offset),
    and memory is a finite map from addresses to link fields.  A dereference of
    an address that holds no item (in particular of NULL) is a fault, which the
    model renders as [None]. *)

From stdpp Require Import base numbers option list gmap.
From Stdlib Require Import ZArith Lia.

Local Open Scope Z_scope.

(** ** Pointers and machine integers *)

Definition NULL : N := 0%N.

(** [size_t] arithmetic (LP64) and [uint32_t] arithmetic wrap around. *)
Definition size_max : Z := 2 ^ 64.
Definition u32_max : Z := 2 ^ 32.

Definition size_inc (c : Z) : Z := (c + 1) mod size_max.
Definition size_dec (c : Z) : Z := (c - 1) mod size_max.
Definition u32 (x : Z) : Z := x mod u32_max.

(** Loads and stores of a link field through an item pointer. *)
Definition load {A} (m : gmap N A) (p : N) : option A :=
  if decide (p = NULL) then None else m !! p.

Definition store {A} (m : gmap N A) (p : N) (v : A) : option (gmap N A) :=
  if decide (p = NULL) then None else Some (<[p := v]> m).

(** A NULL-terminated chain of items: [chain nxt p l] says that following the
    next pointers from [p] visits exactly the items [l] and then reaches
    NULL. *)
Fixpoint chain (nxt : N → option N) (p : N) (l : list N) : Prop :=
  match l with
  | [] => p = NULL
  | a :: l' => p = a ∧ a ≠ NULL ∧ ∃ n, nxt a = Some n ∧ chain nxt n l'
  end.

(** The walk [for (item = first; item; item = next(item))], collecting the
    visited items.  [fuel] bounds the number of steps; [None] means the walk
    did not reach NULL within the bound or faulted. *)
Fixpoint walk (nxt : N → option N) (fuel : nat) (p : N) : option (list N) :=
  match fuel with
  | O => None
  | S f =>
      if decide (p = NULL) then Some []
      else n ← nxt p; l ← walk nxt f n; Some (p :: l)
  end.

(** A pointer to a next-pointer of a list ([struct slist_item **],
    [struct ssort_item **]): either [&h->sh.first] or
    [&item->field.si.next]. *)
Inductive slotp := SlotFirst | SlotNext (a : N).

#[global] Instance slotp_eq_dec : EqDecision slotp.
Proof. solve_decision. Defined.

(** ** Unsorted singly-linked list (TYPEDLIST) *)

Module SList.

(** [struct slist_head] *)
Record slist_head := {
  first : N;
  last_next : slotp;
  count : Z
}.

(** Memory holds, per item, its [next] field. *)
Definition state : Type := gmap N N * slist_head.

Definition slot_get (s : state) (p : slotp) : option N :=
  match p with
  | SlotFirst => Some (first s.2)
  | SlotNext a => load s.1 a
  end.

Definition slot_set (s : state) (p : slotp) (v : N) : option state :=
  match p with
  | SlotFirst =>
      Some (s.1, {| first := v; last_next := last_next s.2; count := count s.2 |})
  | SlotNext a => m ← store s.1 a v; Some (m, s.2)
  end.

Definition set_last_next (s : state) (p : slotp) : state :=
  (s.1, {| first := first s.2; last_next := p; count := count s.2 |}).

Definition set_count (s : state) (c : Z) : state :=
  (s.1, {| first := first s.2; last_next := last_next s.2; count := c |}).

(** [prefix##_init] *)
Definition init (m : gmap N N) : state :=
  (m, {| first := NULL; last_next := SlotFirst; count := 0 |}).

(** [prefix##_add_head] *)
Definition add_head (s : state) (item : N) : option state :=
  s1 ← slot_set s (SlotNext item) (first s.2);
  s2 ← slot_set s1 SlotFirst item;
  let s3 := if decide (last_next s2.2 = SlotFirst)
            then set_last_next s2 (SlotNext item) else s2 in
  Some (set_count s3 (size_inc (count s3.2))).

(** [prefix##_add_tail] *)
Definition add_tail (s : state) (item : N) : option state :=
  s1 ← slot_set s (SlotNext item) NULL;
  s2 ← slot_set s1 (last_next s1.2) item;
  let s3 := set_last_next s2 (SlotNext item) in
  Some (set_count s3 (size_inc (count s3.2))).

(** [prefix##_add_after]: the source reads
    [nextp = after ? &h->sh.first : &after->field.si.next]. *)
Definition add_after (s : state) (after item : N) : option state :=
  let nextp := if decide (after ≠ NULL) then SlotFirst else SlotNext after in
  v ← slot_get s nextp;
  s1 ← slot_set s (SlotNext item) v;
  s2 ← slot_set s1 nextp item;
  let s3 := if decide (last_next s2.2 = nextp)
            then set_last_next s2 (SlotNext item) else s2 in
  Some (set_count s3 (size_inc (count s3.2))).

(** The scan of [prefix##_del]:
    [while ( *iter && *iter != &item->field.si) iter = &( *iter)->next]. *)
Fixpoint del_scan (fuel : nat) (s : state) (item : N) (iter : slotp)
  : option slotp :=
  match fuel with
  | O => None
  | S f =>
      cur ← slot_get s iter;
      if decide (cur ≠ NULL ∧ cur ≠ item)
      then del_scan f s item (SlotNext cur)
      else Some iter
  end.

(** [prefix##_del] *)
Definition del (fuel : nat) (s : state) (item : N) : option state :=
  iter ← del_scan fuel s item SlotFirst;
  cur ← slot_get s iter;
  if decide (cur = NULL) then Some s
  else
    let s1 := set_count s (size_dec (count s.2)) in
    nx ← load s1.1 item;
    s2 ← slot_set s1 iter nx;
    nx' ← load s2.1 item;
    Some (if decide (nx' = NULL) then set_last_next s2 iter else s2).

(** [prefix##_pop] returns the popped item (NULL when empty) and the new
    state. *)
Definition pop (s : state) : option (N * state) :=
  let sitem := first s.2 in
  if decide (sitem = NULL) then Some (NULL, s)
  else
    let s1 := set_count s (size_dec (count s.2)) in
    nx ← load s1.1 sitem;
    s2 ← slot_set s1 SlotFirst nx;
    let s3 := if decide (first s2.2 = NULL)
              then set_last_next s2 SlotFirst else s2 in
    Some (sitem, s3).

(** [prefix##_first], [prefix##_next], [prefix##_next_safe], [prefix##_count] *)
Definition first_item (s : state) : N := first s.2.

Definition next (s : state) (item : N) : option N := load s.1 item.

Definition next_safe (s : state) (item : N) : option N :=
  if decide (item = NULL) then Some NULL else load s.1 item.

Definition count_items (s : state) : Z := count s.2.

(** Full [first]/[next] traversal. *)
Definition traverse (fuel : nat) (s : state) : option (list N) :=
  walk (next s) fuel (first_item s).

(** Representation invariant: the list holds exactly the items [l], in this
    order; [last_next] points at the next field of the last item, or at
    [first] when the list is empty; [count] is the length. *)
Definition wf (s : state) (l : list N) : Prop :=
  chain (load s.1) (first s.2) l ∧ NoDup l ∧
  last_next s.2 = match last l with
                  | None => SlotFirst
                  | Some a => SlotNext a
                  end ∧
  count s.2 = Z.of_nat (length l) mod size_max.

(** Inserting the items of [l] one after the other with [add]. *)
Fixpoint add_all (add : state → N → option state) (l : list N) (s : state)
  : option state :=
  match l with
  | [] => Some s
  | a :: l' => s' ← add s a; add_all add l' s'
  end.

(** Calling [pop] [n] times, collecting what it returns. *)
Fixpoint pop_n (n : nat) (s : state) : option (list N * state) :=
  match n with
  | O => Some ([], s)
  | S n' => r ← pop s; r' ← pop_n n' r.2; Some (r.1 :: r'.1, r'.2)
  end.

(** The slot that points at what follows the items [l1] of a list that
    starts at [iter]. *)
Definition cut (iter : slotp) (l1 : list N) : slotp :=
  match last l1 with
  | None => iter
  | Some b => SlotNext b
  end.

(** The operations as data, to run sequences of them. *)
Inductive op := OpAddHead (a : N) | OpAddTail (a : N) | OpDel (a : N) | OpPop.

Definition step (fuel : nat) (s : state) (o : op) : option state :=
  match o with
  | OpAddHead a => add_head s a
  | OpAddTail a => add_tail s a
  | OpDel a => del fuel s a
  | OpPop => r ← pop s; Some r.2
  end.

Fixpoint run (fuel : nat) (os : list op) (s : state) : option state :=
  match os with
  | [] => Some s
  | o :: os' => s' ← step fuel s o; run fuel os' s'
  end.

(** What an operation does to the sequence of resident items. *)
Definition abs_step (l : list N) (o : op) : list N :=
  match o with
  | OpAddHead a => a :: l
  | OpAddTail a => l ++ [a]
  | OpDel a => filter (λ x, x ≠ a) l
  | OpPop => tail l
  end.

(** The items handed to the insertions are non-NULL and not resident. *)
Definition op_ok (l : list N) (o : op) : Prop :=
  match o with
  | OpAddHead a | OpAddTail a => a ≠ NULL ∧ a ∉ l
  | OpDel _ | OpPop => True
  end.

Fixpoint ops_ok (l : list N) (os : list op) : Prop :=
  match os with
  | [] => True
  | o :: os' => op_ok l o ∧ ops_ok (abs_step l o) os'
  end.

End SList.

(** ** Sorted singly-linked list (TYPEDSORT) *)

Module SSort.

(** [struct ssort_head] *)
Record ssort_head := {
  first : N;
  count : Z
}.

Definition state : Type := gmap N N * ssort_head.

Definition slot_get (s : state) (p : slotp) : option N :=
  match p with
  | SlotFirst => Some (first s.2)
  | SlotNext a => load s.1 a
  end.

Definition slot_set (s : state) (p : slotp) (v : N) : option state :=
  match p with
  | SlotFirst => Some (s.1, {| first := v; count := count s.2 |})
  | SlotNext a => m ← store s.1 a v; Some (m, s.2)
  end.

Definition set_count (s : state) (c : Z) : state :=
  (s.1, {| first := first s.2; count := c |}).

(** [prefix##_init] *)
Definition init (m : gmap N N) : state := (m, {| first := NULL; count := 0 |}).

Section WithCmp.

(** The comparison function the container is instantiated with
    ([int cmpfn(const type *a, const type *b)]). *)
Variable cmpfn : N → N → Z.

(** The scan of [prefix##_add]:
    [while ( *np && cmpfn( *np, item) < 0) np = &( *np)->next]. *)
Fixpoint add_scan (fuel : nat) (s : state) (item : N) (np : slotp)
  : option slotp :=
  match fuel with
  | O => None
  | S f =>
      cur ← slot_get s np;
      if decide (cur ≠ NULL ∧ cmpfn cur item < 0)
      then add_scan f s item (SlotNext cur)
      else Some np
  end.

(** [prefix##_add]; the function is declared [void]. *)
Definition add (fuel : nat) (s : state) (item : N) : option state :=
  np ← add_scan fuel s item SlotFirst;
  cur ← slot_get s np;
  s1 ← slot_set s (SlotNext item) cur;
  s2 ← slot_set s1 np item;
  Some (set_count s2 (size_inc (count s2.2))).

(** The loop of [prefix##_find]:
    [while (sitem && (cmpval = cmpfn(sitem, item) < 0)) sitem = sitem->next].
    The assignment stores the result of the comparison [cmpfn(..) < 0], an
    [int] that is 1 or 0.  The loop state is the pair of [sitem] and
    [cmpval]. *)
Fixpoint find_scan (fuel : nat) (s : state) (item : N) (sitem : N)
    (cmpval : Z) : option (N * Z) :=
  match fuel with
  | O => None
  | S f =>
      if decide (sitem = NULL) then Some (sitem, cmpval)
      else
        let cmpval' := if decide (cmpfn sitem item < 0) then 1 else 0 in
        if decide (cmpval' ≠ 0)
        then nx ← load s.1 sitem; find_scan f s item nx cmpval'
        else Some (sitem, cmpval')
  end.

(** [prefix##_find]; [cmpval0] is the indeterminate initial value of the
    local [cmpval]. *)
Definition find (fuel : nat) (cmpval0 : Z) (s : state) (item : N)
  : option N :=
  r ← find_scan fuel s item (first s.2) cmpval0;
  if decide (r.1 = NULL ∨ r.2 > 0) then Some NULL else Some r.1.

End WithCmp.

(** The scan of [prefix##_del]. *)
Fixpoint del_scan (fuel : nat) (s : state) (item : N) (iter : slotp)
  : option slotp :=
  match fuel with
  | O => None
  | S f =>
      cur ← slot_get s iter;
      if decide (cur ≠ NULL ∧ cur ≠ item)
      then del_scan f s item (SlotNext cur)
      else Some iter
  end.

(** [prefix##_del] *)
Definition del (fuel : nat) (s : state) (item : N) : option state :=
  iter ← del_scan fuel s item SlotFirst;
  cur ← slot_get s iter;
  if decide (cur = NULL) then Some s
  else
    let s1 := set_count s (size_dec (count s.2)) in
    nx ← load s1.1 item;
    slot_set s1 iter nx.

(** [prefix##_pop] *)
Definition pop (s : state) : option (N * state) :=
  let sitem := first s.2 in
  if decide (sitem = NULL) then Some (NULL, s)
  else
    let s1 := set_count s (size_dec (count s.2)) in
    nx ← load s1.1 sitem;
    s2 ← slot_set s1 SlotFirst nx;
    Some (sitem, s2).

Definition first_item (s : state) : N := first s.2.

Definition next (s : state) (item : N) : option N := load s.1 item.

Definition next_safe (s : state) (item : N) : option N :=
  if decide (item = NULL) then Some NULL else load s.1 item.

Definition count_items (s : state) : Z := count s.2.

Definition traverse (fuel : nat) (s : state) : option (list N) :=
  walk (next s) fuel (first_item s).

(** Representation invariant: the list holds exactly the items [l], in this
    order, and [count] is the length. *)
Definition wf (s : state) (l : list N) : Prop :=
  chain (load s.1) (first s.2) l ∧
  count s.2 = Z.of_nat (length l) mod size_max.

Section Spec.

Variable cmpfn : N → N → Z.

(** Insertion in front of the first item that is not strictly less. *)
Fixpoint sorted_insert (item : N) (l : list N) : list N :=
  match l with
  | [] => [item]
  | a :: l' =>
      if decide (cmpfn a item < 0) then a :: sorted_insert item l'
      else item :: a :: l'
  end.

(** The first item that is not strictly less than [ref], NULL if there is
    none. *)
Fixpoint first_not_less (ref : N) (l : list N) : N :=
  match l with
  | [] => NULL
  | a :: l' => if decide (cmpfn a ref < 0) then first_not_less ref l' else a
  end.

(** No item compares greater than a later one. *)
Fixpoint sorted (l : list N) : Prop :=
  match l with
  | [] => True
  | a :: l' => Forall (λ b, cmpfn a b <= 0) l' ∧ sorted l'
  end.

End Spec.

(** The operations as data, to run sequences of them. *)
Inductive op := OpAdd (a : N) | OpDel (a : N) | OpPop.

Section Run.

Variable cmpfn : N → N → Z.

Definition step (fuel : nat) (s : state) (o : op) : option state :=
  match o with
  | OpAdd a => add cmpfn fuel s a
  | OpDel a => del fuel s a
  | OpPop => r ← pop s; Some r.2
  end.

Fixpoint run (fuel : nat) (os : list op) (s : state) : option state :=
  match os with
  | [] => Some s
  | o :: os' => s' ← step fuel s o; run fuel os' s'
  end.

(** What an operation does to the sequence of resident items. *)
Definition abs_step (l : list N) (o : op) : list N :=
  match o with
  | OpAdd a => sorted_insert cmpfn a l
  | OpDel a => filter (λ x, x ≠ a) l
  | OpPop => tail l
  end.

(** The items handed to the insertion are non-NULL and not resident. *)
Definition op_ok (l : list N) (o : op) : Prop :=
  match o with
  | OpAdd a => a ≠ NULL ∧ a ∉ l
  | OpDel _ | OpPop => True
  end.

Fixpoint ops_ok (l : list N) (os : list op) : Prop :=
  match os with
  | [] => True
  | o :: os' => op_ok l o ∧ ops_ok (abs_step l o) os'
  end.

End Run.

End SSort.

(** ** Hash table (TYPEDHASH) *)

Module THash.

(** [struct thash_head] together with the memory it points into.  The two
    fields of [struct thash_item] are kept in one map each, so that a store to
    one field of an item leaves the other field as it was (or unwritten).
    [entries] is the bucket array, of [tabsize] elements; the empty list is
    the NULL array of a table of size zero. *)
Record state := State {
  nexts : gmap N N;
  hashes : gmap N Z;
  entries : list N;
  tabsize : Z;
  count : Z;
  maxsize : Z;
  minsize : Z
}.

Definition set_nexts (s : state) (m : gmap N N) : state :=
  State m (hashes s) (entries s) (tabsize s) (count s) (maxsize s) (minsize s).
Definition set_hashes (s : state) (m : gmap N Z) : state :=
  State (nexts s) m (entries s) (tabsize s) (count s) (maxsize s) (minsize s).
Definition set_entries (s : state) (es : list N) : state :=
  State (nexts s) (hashes s) es (tabsize s) (count s) (maxsize s) (minsize s).
Definition set_tabsize (s : state) (n : Z) : state :=
  State (nexts s) (hashes s) (entries s) n (count s) (maxsize s) (minsize s).
Definition set_count (s : state) (n : Z) : state :=
  State (nexts s) (hashes s) (entries s) (tabsize s) n (maxsize s) (minsize s).

(** A [struct thash_item **]: either [&head->entries[i]] or [&item->next]. *)
Inductive hslot := SlotEntry (i : Z) | SlotItem (a : N).

#[global] Instance hslot_eq_dec : EqDecision hslot.
Proof. solve_decision. Defined.

Definition hslot_get (s : state) (p : hslot) : option N :=
  match p with
  | SlotEntry i => entries s !! Z.to_nat i
  | SlotItem a => load (nexts s) a
  end.

Definition hslot_set (s : state) (p : hslot) (v : N) : option state :=
  match p with
  | SlotEntry i =>
      if decide (Z.to_nat i < length (entries s))%nat
      then Some (set_entries s (<[Z.to_nat i := v]> (entries s)))
      else None
  | SlotItem a => m ← store (nexts s) a v; Some (set_nexts s m)
  end.

(** [prefix##_init]: [memset(h, 0, sizeof( *h))] *)
Definition init (nx : gmap N N) (hv : gmap N Z) : state :=
  State nx hv [] 0 0 0 0.

(** The size computed by grow and shrink from the item count:
    [newsize |= newsize >> 1; ...; newsize |= newsize >> 16; newsize++]. *)
Definition smear (n : Z) : Z :=
  let n := Z.lor n (Z.shiftr n 1) in
  let n := Z.lor n (Z.shiftr n 2) in
  let n := Z.lor n (Z.shiftr n 4) in
  let n := Z.lor n (Z.shiftr n 8) in
  let n := Z.lor n (Z.shiftr n 16) in
  n.

Definition hash_newsize (cnt : Z) : Z := u32 (smear cnt + 1).

(** [HASH_GROW_THRESHOLD] and [HASH_SHRINK_THRESHOLD] *)
Definition HASH_GROW_THRESHOLD (s : state) : Prop := count s >= tabsize s.
Definition HASH_SHRINK_THRESHOLD (s : state) : Prop :=
  count s <= u32 (tabsize s - 1) / 2.

#[global] Instance HASH_GROW_THRESHOLD_dec s : Decision (HASH_GROW_THRESHOLD s).
Proof. unfold HASH_GROW_THRESHOLD. apply _. Defined.
#[global] Instance HASH_SHRINK_THRESHOLD_dec s :
  Decision (HASH_SHRINK_THRESHOLD s).
Proof. unfold HASH_SHRINK_THRESHOLD. apply _. Defined.

(** The inner loop of [typesafe_hash_grow] on the chain that starts at
    [apos]:
    [while ((item = *apos)) { if ((item->hashval & (newsize - 1)) >= j) {
       *apos = NULL; head->entries[j] = item; j += head->tabsize; }
       apos = &item->next; }] *)
Fixpoint grow_chain (fuel : nat) (newsize oldsize : Z) (s : state)
    (apos : hslot) (j : Z) : option state :=
  match fuel with
  | O => None
  | S f =>
      item ← hslot_get s apos;
      if decide (item = NULL) then Some s
      else
        hv ← load (hashes s) item;
        if decide (Z.land hv (u32 (newsize - 1)) >= j)
        then
          s1 ← hslot_set s apos NULL;
          s2 ← hslot_set s1 (SlotEntry j) item;
          grow_chain f newsize oldsize s2 (SlotItem item) (u32 (j + oldsize))
        else grow_chain f newsize oldsize s (SlotItem item) j
  end.

(** The outer loop [for (i = 0; i < head->tabsize; i++)], with [n] iterations
    left. *)
Fixpoint grow_buckets (fuel : nat) (newsize oldsize : Z) (n : nat) (i : Z)
    (s : state) : option state :=
  match n with
  | O => Some s
  | S n' =>
      s1 ← grow_chain fuel newsize oldsize s (SlotEntry i) (u32 (i + oldsize));
      grow_buckets fuel newsize oldsize n' (i + 1) s1
  end.

(** [typesafe_hash_grow].  The array is reallocated to [newsize] elements and
    the part beyond the old size is zeroed; when [newsize] is below the old
    size the length given to [memset] wraps around, which is a fault. *)
Definition typesafe_hash_grow (fuel : nat) (s : state) : option state :=
  let newsize := hash_newsize (count s) in
  let newsize :=
    if decide (maxsize s ≠ 0 ∧ newsize > maxsize s) then maxsize s
    else newsize in
  if decide (newsize = tabsize s) then Some s
  else if decide (newsize < tabsize s) then None
  else
    let es := take (Z.to_nat (tabsize s)) (entries s)
              ++ replicate (Z.to_nat (newsize - tabsize s)) NULL in
    s1 ← grow_buckets fuel newsize (tabsize s) (Z.to_nat (tabsize s)) 0
           (set_entries s es);
    Some (set_tabsize s1 newsize).

(** [while ( *apos) apos = &( *apos)->next] *)
Fixpoint shrink_tail (fuel : nat) (s : state) (apos : hslot) : option hslot :=
  match fuel with
  | O => None
  | S f =>
      cur ← hslot_get s apos;
      if decide (cur ≠ NULL) then shrink_tail f s (SlotItem cur)
      else Some apos
  end.

(** [for (j = i + newsize; j < head->tabsize; j += newsize) {
       while ( *apos) apos = &( *apos)->next;  *apos = head->entries[j]; }] *)
Fixpoint shrink_fold (fuel fuelj : nat) (newsize : Z) (s : state)
    (apos : hslot) (j : Z) : option state :=
  match fuelj with
  | O => None
  | S fj =>
      if decide (j < tabsize s)
      then
        apos' ← shrink_tail fuel s apos;
        e ← entries s !! Z.to_nat j;
        s1 ← hslot_set s apos' e;
        shrink_fold fuel fj newsize s1 apos' (u32 (j + newsize))
      else Some s
  end.

(** [for (i = 0; i < newsize; i++)], with [n] iterations left. *)
Fixpoint shrink_buckets (fuel : nat) (newsize : Z) (n : nat) (i : Z)
    (s : state) : option state :=
  match n with
  | O => Some s
  | S n' =>
      s1 ← shrink_fold fuel fuel newsize s (SlotEntry i) (u32 (i + newsize));
      shrink_buckets fuel newsize n' (i + 1) s1
  end.

(** [typesafe_hash_shrink].  [XREALLOC] keeps the first [newsize] bucket
    heads.  When [minsize] makes the new size exceed the old one, the loops
    move nothing and the call returns as well, with [tabsize] set to the new
    size; the bucket heads beyond the old size are then uninitialised: the
    array of the model keeps its old length, and reading a head that it lacks
    is a fault. *)
Definition typesafe_hash_shrink (fuel : nat) (s : state) : option state :=
  if decide (count s = 0) then Some (set_tabsize (set_entries s []) 0)
  else
    let newsize := hash_newsize (count s) in
    let newsize :=
      if decide (minsize s ≠ 0 ∧ newsize < minsize s) then minsize s
      else newsize in
    if decide (newsize = tabsize s) then Some s
    else
      s1 ← shrink_buckets fuel newsize (Z.to_nat newsize) 0 s;
      Some (set_tabsize
              (set_entries s1 (take (Z.to_nat newsize) (entries s1)))
              newsize).

(** The bucket scans of [prefix##_pop], [prefix##_first] and [prefix##_next]:
    [for (; i < h->hh.tabsize; i++) if (h->hh.entries[i]) ...], with [n]
    iterations left.  The result is the index at which the loop stopped,
    the table size when no bucket is occupied. *)
Fixpoint scan_entries (es : list N) (n : nat) (i : Z) : option Z :=
  match n with
  | O => Some i
  | S n' =>
      e ← es !! Z.to_nat i;
      if decide (e ≠ NULL) then Some i else scan_entries es n' (i + 1)
  end.

Section WithFns.

(** The comparison and hash functions of the instantiation. *)
Variable cmpfn : N → N → Z.
Variable hashfn : N → Z.

(** [while ( *np && ( *np)->hashval < hval) np = &( *np)->next] *)
Fixpoint lt_scan (fuel : nat) (s : state) (hval : Z) (np : hslot)
  : option hslot :=
  match fuel with
  | O => None
  | S f =>
      cur ← hslot_get s np;
      if decide (cur = NULL) then Some np
      else
        hv ← load (hashes s) cur;
        if decide (hv < hval) then lt_scan f s hval (SlotItem cur)
        else Some np
  end.

(** [prefix##_add]; the function is declared [void]. *)
Definition add (fuel : nat) (s : state) (item : N) : option state :=
  let s1 := set_count s (u32 (count s + 1)) in
  s2 ← (if decide (tabsize s1 = 0 ∨ HASH_GROW_THRESHOLD s1)
        then typesafe_hash_grow fuel s1 else Some s1);
  let hval := u32 (hashfn item) in
  let hbits := Z.land hval (u32 (tabsize s2 - 1)) in
  hv ← store (hashes s2) item hval;
  let s3 := set_hashes s2 hv in
  np ← lt_scan fuel s3 hval (SlotEntry hbits);
  cur ← hslot_get s3 np;
  s4 ← hslot_set s3 (SlotItem item) cur;
  hslot_set s4 np item.

(** The second loop of [prefix##_find]:
    [while (hitem && hitem->hashval == hval) {
       if (!cmpfn(hitem, item)) return hitem;  hitem = hitem->next; }] *)
Fixpoint find_run (fuel : nat) (s : state) (item : N) (hval : Z) (hitem : N)
  : option N :=
  match fuel with
  | O => None
  | S f =>
      if decide (hitem = NULL) then Some NULL
      else
        hv ← load (hashes s) hitem;
        if decide (hv = hval)
        then
          if decide (cmpfn hitem item = 0) then Some hitem
          else nx ← load (nexts s) hitem; find_run f s item hval nx
        else Some NULL
  end.

(** [prefix##_find] *)
Definition find (fuel : nat) (s : state) (item : N) : option N :=
  if decide (tabsize s = 0) then Some NULL
  else
    let hval := u32 (hashfn item) in
    let hbits := Z.land hval (u32 (tabsize s - 1)) in
    np ← lt_scan fuel s hval (SlotEntry hbits);
    hitem ← hslot_get s np;
    find_run fuel s item hval hitem.

(** The second loop of [prefix##_del]:
    [while ( *np && *np != &item->field.hi && ( *np)->hashval == hval)
       np = &( *np)->next]. *)
Fixpoint del_run (fuel : nat) (s : state) (item : N) (hval : Z) (np : hslot)
  : option hslot :=
  match fuel with
  | O => None
  | S f =>
      cur ← hslot_get s np;
      if decide (cur = NULL ∨ cur = item) then Some np
      else
        hv ← load (hashes s) cur;
        if decide (hv = hval) then del_run f s item hval (SlotItem cur)
        else Some np
  end.

(** [prefix##_del] *)
Definition del (fuel : nat) (s : state) (item : N) : option state :=
  if decide (tabsize s = 0) then Some s
  else
    let hval := u32 (hashfn item) in
    let hbits := Z.land hval (u32 (tabsize s - 1)) in
    np ← lt_scan fuel s hval (SlotEntry hbits);
    np ← del_run fuel s item hval np;
    cur ← hslot_get s np;
    if decide (cur ≠ item) then Some s
    else
      nx ← load (nexts s) item;
      s1 ← hslot_set s np nx;
      s2 ← hslot_set s1 (SlotItem item) NULL;
      let s3 := set_count s2 (u32 (count s2 - 1)) in
      if decide (HASH_SHRINK_THRESHOLD s3) then typesafe_hash_shrink fuel s3
      else Some s3.

End WithFns.

(** [prefix##_pop] *)
Definition pop (fuel : nat) (s : state) : option (N * state) :=
  i ← scan_entries (entries s) (Z.to_nat (tabsize s)) 0;
  if decide (i < tabsize s)
  then
    hitem ← entries s !! Z.to_nat i;
    nx ← load (nexts s) hitem;
    s1 ← hslot_set s (SlotEntry i) nx;
    let s2 := set_count s1 (u32 (count s1 - 1)) in
    s3 ← hslot_set s2 (SlotItem hitem) NULL;
    s4 ← (if decide (HASH_SHRINK_THRESHOLD s3)
          then typesafe_hash_shrink fuel s3 else Some s3);
    Some (hitem, s4)
  else Some (NULL, s).

(** [prefix##_first] *)
Definition first_item (s : state) : option N :=
  i ← scan_entries (entries s) (Z.to_nat (tabsize s)) 0;
  if decide (i < tabsize s) then entries s !! Z.to_nat i else Some NULL.

(** [prefix##_next] *)
Definition next (s : state) (item : N) : option N :=
  nx ← load (nexts s) item;
  if decide (nx ≠ NULL) then Some nx
  else
    hv ← load (hashes s) item;
    let i0 := u32 (Z.land hv (u32 (tabsize s - 1)) + 1) in
    i ← scan_entries (entries s) (Z.to_nat (tabsize s - i0)) i0;
    if decide (i < tabsize s) then entries s !! Z.to_nat i else Some NULL.

(** [prefix##_next_safe] *)
Definition next_safe (s : state) (item : N) : option N :=
  if decide (item = NULL) then Some NULL else next s item.

(** [prefix##_count] *)
Definition count_items (s : state) : Z := count s.

(** Full [first]/[next] traversal. *)
Definition traverse (fuel : nat) (s : state) : option (list N) :=
  p ← first_item s; walk (next s) fuel p.


(** [covers c w x]: bit [n] of [x] is set exactly when one of the [w] bits
    of [c] from [n] upwards is set. *)
Definition covers (c w x : Z) : Prop :=
  ∀ n, 0 <= n →
    (Z.testbit x n = true ↔ ∃ k, 0 <= k < w ∧ Z.testbit c (n + k) = true).

(** No item is on two bucket chains, or twice on one. *)
Definition disjoint_chains (bs : list (list N)) : Prop :=
  (∀ i l, bs !! i = Some l → NoDup l) ∧
  (∀ i j li lj a,
     bs !! i = Some li → bs !! j = Some lj → a ∈ li → a ∈ lj → i = j).

(** The items of [l] have a cached hash value, a [uint32_t]. *)
Definition hashed (s : state) (l : list N) : Prop :=
  ∀ a, a ∈ l → ∃ hv, hashes s !! a = Some hv ∧ 0 <= hv < u32_max.

(** Representation invariant: the bucket array has [tabsize] elements, bucket
    [i] heads the chain [bs !! i], every item on a chain has its hash value
    cached, and the chains do not share items. *)
Definition wf (s : state) (bs : list (list N)) : Prop :=
  Z.of_nat (length (entries s)) = tabsize s ∧ tabsize s < u32_max ∧
  Forall2 (chain (load (nexts s))) (entries s) bs ∧
  (∀ i l, bs !! i = Some l → hashed s l) ∧
  disjoint_chains bs.

(** Where the inner loop of [typesafe_hash_grow] cuts a chain [l1 ++ l2]
    when it looks for bucket [j] in a table of [newsize] buckets: the hash
    value of every item of [l1], masked by the new size, is below [j], and
    that of the first item of [l2], if there is one, is not. *)
Definition cut_at (s : state) (newsize j : Z) (l1 l2 : list N) : Prop :=
  (∀ a, a ∈ l1 →
     ∃ hv, hashes s !! a = Some hv ∧ Z.land hv (u32 (newsize - 1)) < j) ∧
  (∀ a, head l2 = Some a →
     ∃ hv, hashes s !! a = Some hv ∧ j <= Z.land hv (u32 (newsize - 1))).

(** The invariant of the outer loop of [typesafe_hash_grow] when a table of
    [o] buckets with chains [bs0] is doubled, before bucket [k] is split:
    every old bucket [i] has kept a leading part of its chain and has given the
    rest to bucket [i + o]; the buckets below [k] are cut where [cut_at] says,
    and the buckets from [k] on have not given anything yet. *)
Definition grow_inv (o : nat) (bs0 : list (list N)) (k : nat) (s : state)
    (cur : list (list N)) : Prop :=
  length cur = (2 * o)%nat ∧ length (entries s) = (2 * o)%nat ∧
  Forall2 (chain (load (nexts s))) (entries s) cur ∧
  (∀ i l, cur !! i = Some l → hashed s l) ∧
  disjoint_chains cur ∧
  ∀ i, (i < o)%nat →
    ∃ l1 l2, bs0 !! i = Some (l1 ++ l2) ∧ cur !! i = Some l1 ∧
             cur !! (i + o)%nat = Some l2 ∧ ((k ≤ i)%nat → l2 = []) ∧
             ((i < k)%nat →
              cut_at s (2 * Z.of_nat o) (Z.of_nat i + Z.of_nat o) l1 l2).

(** The slot that points at what follows the items [l1] of a chain that
    starts at [apos]. *)
Definition cut_slot (apos : hslot) (l1 : list N) : hslot :=
  match last l1 with
  | None => apos
  | Some b => SlotItem b
  end.

(** A position on a chain: the slot [np] holds the head of the chain [l],
    whose items all have a cached hash value. *)
Definition on_chain (s : state) (np : hslot) (l : list N) : Prop :=
  ∃ p, hslot_get s np = Some p ∧ chain (load (nexts s)) p l ∧
       ∀ a, a ∈ l → is_Some (hashes s !! a).

(** The size regime of a table without configured bounds: no buckets when
    empty, otherwise the least power of two strictly greater than the
    count. *)
Definition sized (s : state) : Prop :=
  (count s = 0 ∧ tabsize s = 0) ∨
  (0 < count s ∧ tabsize s = 2 ^ (Z.log2 (count s) + 1)).

(** The invariant of a table without configured bounds: well formed, in the
    size regime, and counting its resident items. *)
Definition inv (s : state) (bs : list (list N)) : Prop :=
  wf s bs ∧ sized s ∧ maxsize s = 0 ∧ minsize s = 0 ∧
  count s = Z.of_nat (length (concat bs)).

(** The metadata that grow and shrink leave alone. *)
Definition same_meta (s s' : state) : Prop :=
  hashes s' = hashes s ∧ count s' = count s ∧
  maxsize s' = maxsize s ∧ minsize s' = minsize s.

(** The chains of a table folded to half its size [n]: bucket [i] is
    followed by bucket [i + n]. *)
Definition folded (n : nat) (bs : list (list N)) : list (list N) :=
  zip_with app (take n bs) (drop n bs).

(** The chain that bucket [idx] heads when the outer loop of
    [typesafe_hash_shrink] has folded the buckets below [k]. *)
Definition shrink_target (n : nat) (bs : list (list N)) (k idx : nat)
  : list N :=
  if decide (idx < k)%nat then (bs !!! idx) ++ (bs !!! (idx + n)%nat)
  else bs !!! idx.

(** The invariant of that loop, started in state [s0]. *)
Definition shrink_inv (n : nat) (bs : list (list N)) (k : nat)
    (s0 s : state) : Prop :=
  length (entries s) = (2 * n)%nat ∧ tabsize s = tabsize s0 ∧
  same_meta s0 s ∧
  ∀ idx e, entries s !! idx = Some e →
           chain (load (nexts s)) e (shrink_target n bs k idx).

(** The bucket scan that ends [prefix##_first] and [prefix##_next]:
    [for (; i < h->hh.tabsize; i++) if (h->hh.entries[i]) return ...;
     return NULL], with [n] iterations left. *)
Definition scan_from (s : state) (n : nat) (i0 : Z) : option N :=
  i ← scan_entries (entries s) n i0;
  if decide (i < tabsize s) then entries s !! Z.to_nat i else Some NULL.

(** Every item is on the chain of the bucket that its cached hash value
    selects. *)
Definition placed (s : state) (bs : list (list N)) : Prop :=
  ∀ i l a, bs !! i = Some l → a ∈ l →
    ∃ hv, hashes s !! a = Some hv ∧
          Z.land hv (u32 (tabsize s - 1)) = Z.of_nat i.

(** A chain in the order of the cached hash values. *)
Fixpoint hash_sorted (hs : gmap N Z) (l : list N) : Prop :=
  match l with
  | [] => True
  | a :: l' =>
      Forall (λ b, ∀ ha hb, hs !! a = Some ha → hs !! b = Some hb →
                            ha <= hb) l' ∧
      hash_sorted hs l'
  end.

Definition ordered (s : state) (bs : list (list N)) : Prop :=
  ∀ i l, bs !! i = Some l → hash_sorted (hashes s) l.



End THash.

(** ** Skip list (TYPEDSKIP) *)

Module SSkip.

Definition SKIPLIST_MAXDEPTH : nat := 16.
Definition SKIPLIST_EMBED : nat := 4.
Definition SKIPLIST_OVERFLOW : nat := SKIPLIST_EMBED - 1.

(** [UINTPTR_MAX - 3], the mask that strips the tag bits of an overflow
    pointer. *)
Definition PTR_MASK : N := (2 ^ 64 - 4)%N.

(** [struct sskip_head] and the memory around it.  [items] holds the inline
    [next[SKIPLIST_EMBED]] array of every [struct sskip_item], the head's own
    [hitem] included, which lives at address [hd]; [blocks] holds the
    [struct sskip_overflow] arrays, the head's [overflow] member included,
    which lives right behind [hitem].  Pointers are raw words, so that the tag
    in bit 0 of [next[SKIPLIST_OVERFLOW]] is visible. *)
Record state := State {
  items : gmap N (list N);
  blocks : gmap N (list N);
  hd : N;
  count : Z
}.

Definition set_items (s : state) (m : gmap N (list N)) : state :=
  State m (blocks s) (hd s) (count s).
Definition set_blocks (s : state) (m : gmap N (list N)) : state :=
  State (items s) m (hd s) (count s).

(** Address of [h->sh.overflow]: [hitem] is [SKIPLIST_EMBED] pointers long. *)
Definition head_overflow (h : N) : N := (h + 8 * N.of_nat SKIPLIST_EMBED)%N.

(** [prefix##_init] of the head placed at address [h]. *)
Definition init (its blks : gmap N (list N)) (h : N) : state :=
  State (<[h := [NULL; NULL; NULL; N.lor (head_overflow h) 1]]> its)
        (<[head_overflow h := replicate (SKIPLIST_MAXDEPTH - SKIPLIST_OVERFLOW) NULL]> blks)
        h 0.

(** [sl_level_get] *)
Definition sl_level_get (s : state) (item : N) (level : nat) : option N :=
  nx ← load (items s) item;
  if decide (level < SKIPLIST_OVERFLOW)%nat then nx !! level
  else
    n3 ← nx !! SKIPLIST_OVERFLOW;
    if decide (level = SKIPLIST_OVERFLOW ∧ N.land n3 1 = 0%N) then Some n3
    else
      oflow ← load (blocks s) (N.land n3 PTR_MASK);
      oflow !! (level - SKIPLIST_OVERFLOW)%nat.

(** An array store; out of bounds it is a fault. *)
Definition array_set (l : list N) (i : nat) (v : N) : option (list N) :=
  if decide (i < length l)%nat then Some (<[i := v]> l) else None.

(** [sl_level_set] *)
Definition sl_level_set (s : state) (item : N) (level : nat) (value : N)
  : option state :=
  nx ← load (items s) item;
  if decide (level < SKIPLIST_OVERFLOW)%nat
  then nx' ← array_set nx level value;
       Some (set_items s (<[item := nx']> (items s)))
  else
    n3 ← nx !! SKIPLIST_OVERFLOW;
    if decide (level = SKIPLIST_OVERFLOW ∧ N.land n3 1 = 0%N)
    then nx' ← array_set nx level value;
         Some (set_items s (<[item := nx']> (items s)))
    else
      let a := N.land n3 PTR_MASK in
      oflow ← load (blocks s) a;
      oflow' ← array_set oflow (level - SKIPLIST_OVERFLOW)%nat value;
      Some (set_blocks s (<[a := oflow']> (blocks s))).

(** [__builtin_ctz] of a non-zero word. *)
Fixpoint ctz (p : positive) : nat :=
  match p with
  | xO p' => S (ctz p')
  | _ => O
  end.

Section WithCmp.

Variable cmpfn : N → N → Z.

(** First loop of [typesafe_skiplist_add], levels counted from 1:
    [while (level >= newlevel) { next = sl_level_get(prev, level - 1);
       if (!next) { level--; continue; }
       cmpval = cmpfn(next, item);
       if (cmpval < 0) { prev = next; continue; }
       level--; }] *)
Fixpoint add_descend (fuel : nat) (s : state) (item : N) (newlevel : nat)
    (level : nat) (prev next : N) : option (nat * N * N) :=
  match fuel with
  | O => None
  | S f =>
      if decide (newlevel ≤ level)%nat
      then
        nx ← sl_level_get s prev (level - 1);
        if decide (nx = NULL)
        then add_descend f s item newlevel (level - 1) prev nx
        else if decide (cmpfn nx item < 0)
        then add_descend f s item newlevel level nx nx
        else add_descend f s item newlevel (level - 1) prev nx
      else Some (level, prev, next)
  end.

(** [next = sl_level_get(prev, level);
     while (next && cmpfn(next, item) < 0) {
       prev = next; next = sl_level_get(prev, level); }] *)
Fixpoint add_advance (fuel : nat) (s : state) (item : N) (level : nat)
    (prev : N) : option (N * N) :=
  match fuel with
  | O => None
  | S f =>
      next ← sl_level_get s prev level;
      if decide (next ≠ NULL ∧ cmpfn next item < 0)
      then add_advance f s item level next
      else Some (prev, next)
  end.

(** Second loop of [typesafe_skiplist_add], levels counted from 0:
    [while (level) { level--; ...; sl_level_set(item, level, next);
       sl_level_set(prev, level, item); }] *)
Fixpoint add_lower (fuel : nat) (s : state) (item : N) (level : nat)
    (prev : N) : option state :=
  match level with
  | O => Some s
  | S lv =>
      pn ← add_advance fuel s item lv prev;
      s1 ← sl_level_set s item lv pn.2;
      s2 ← sl_level_set s1 pn.1 lv item;
      add_lower fuel s2 item lv pn.1
  end.

(** [typesafe_skiplist_add].  [rnd] is the value returned by [random()] and
    [oflow] the address returned by [XMALLOC] when an overflow block is
    needed.  The block comes with indeterminate contents; every slot of it is
    stored before it is read, and the model starts it out as zeroes. *)
Definition typesafe_skiplist_add (fuel : nat) (rnd : Z) (oflow : N)
    (s : state) (item : N) : option state :=
  s0 ← (m ← store (items s) item (replicate SKIPLIST_EMBED NULL);
        Some (set_items s m));
  newlevel ← match rnd with
             | Zpos p => Some (Nat.min (ctz p + 1) SKIPLIST_MAXDEPTH)
             | _ => None
             end;
  s1 ← (if decide (SKIPLIST_EMBED < newlevel)%nat
        then
          blk ← store (blocks s0) oflow
                      (replicate (newlevel - SKIPLIST_OVERFLOW) NULL);
          nx ← load (items s0) item;
          nx' ← array_set nx SKIPLIST_OVERFLOW (N.lor oflow 1);
          Some (set_blocks (set_items s0 (<[item := nx']> (items s0))) blk)
        else Some s0);
  r ← add_descend fuel s1 item newlevel SKIPLIST_MAXDEPTH (hd s1) NULL;
  let '(level, prev, next) := r in
  s2 ← sl_level_set s1 item level next;
  s3 ← sl_level_set s2 prev level item;
  add_lower fuel s3 item level prev.

(** [typesafe_skiplist_find], levels counted from 1. *)
Fixpoint find_loop (fuel : nat) (s : state) (item : N) (level : nat)
    (prev : N) : option N :=
  match fuel with
  | O => None
  | S f =>
      if decide (level = O) then Some NULL
      else
        next ← sl_level_get s prev (level - 1);
        if decide (next = NULL) then find_loop f s item (level - 1) prev
        else if decide (cmpfn next item < 0) then find_loop f s item level next
        else if decide (cmpfn next item = 0) then Some next
        else find_loop f s item (level - 1) prev
  end.

Definition typesafe_skiplist_find (fuel : nat) (s : state) (item : N)
  : option N :=
  find_loop fuel s item SKIPLIST_MAXDEPTH (hd s).

(** The loop of [typesafe_skiplist_del], levels counted from 1. *)
Fixpoint del_loop (fuel : nat) (s : state) (item : N) (level : nat)
    (prev : N) : option state :=
  match fuel with
  | O => None
  | S f =>
      if decide (level = O) then Some s
      else
        next ← sl_level_get s prev (level - 1);
        if decide (next = NULL) then del_loop f s item (level - 1) prev
        else if decide (next = item)
        then
          v ← sl_level_get s item (level - 1);
          s1 ← sl_level_set s prev (level - 1) v;
          del_loop f s1 item (level - 1) prev
        else if decide (cmpfn next item < 0) then del_loop f s item level next
        else del_loop f s item (level - 1) prev
  end.

(** [typesafe_skiplist_del]: unlink, free the overflow block if the item has
    one, and zero the item. *)
Definition typesafe_skiplist_del (fuel : nat) (s : state) (item : N)
  : option state :=
  s1 ← del_loop fuel s item SKIPLIST_MAXDEPTH (hd s);
  nx ← load (items s1) item;
  n3 ← nx !! SKIPLIST_OVERFLOW;
  let s2 := if decide (N.land n3 1 ≠ 0%N)
            then set_blocks s1 (delete (N.land n3 PTR_MASK) (blocks s1))
            else s1 in
  m ← store (items s2) item (replicate SKIPLIST_EMBED NULL);
  Some (set_items s2 m).

(** [prefix##_add], [prefix##_find], [prefix##_del] *)
Definition add := typesafe_skiplist_add.
Definition find := typesafe_skiplist_find.
Definition del := typesafe_skiplist_del.

(** [prefix##_pop] *)
Definition pop (fuel : nat) (s : state) : option (N * state) :=
  nx ← load (items s) (hd s);
  sitem ← nx !! O;
  if decide (sitem = NULL) then Some (NULL, s)
  else s1 ← typesafe_skiplist_del fuel s sitem; Some (sitem, s1).

End WithCmp.

(** [prefix##_first] *)
Definition first_item (s : state) : option N :=
  nx ← load (items s) (hd s); nx !! O.

(** [prefix##_next] *)
Definition next (s : state) (item : N) : option N :=
  nx ← load (items s) item; nx !! O.

(** [prefix##_next_safe] *)
Definition next_safe (s : state) (item : N) : option N :=
  if decide (item = NULL) then Some NULL else next s item.

(** [prefix##_count] *)
Definition count_items (s : state) : Z := count s.

(** Full [first]/[next] traversal. *)
Definition traverse (fuel : nat) (s : state) : option (list N) :=
  p ← first_item s; walk (next s) fuel p.

(** The next pointer of [a] at level [k]. *)
Definition lev (s : state) (k : nat) (a : N) : option N := sl_level_get s a k.

(** The address that [next[SKIPLIST_OVERFLOW]] of [a] gives for the overflow
    block once the tag is stripped. *)
Definition block_of (s : state) (a : N) : option N :=
  nx ← items s !! a; n3 ← nx !! SKIPLIST_OVERFLOW; Some (N.land n3 PTR_MASK).

(** Memory of an item that takes part in the levels below [h]: the inline
    array is there; with at most [SKIPLIST_EMBED] levels its last slot is an
    untagged pointer, with more it is the tagged address of an overflow block
    that holds the levels from [SKIPLIST_OVERFLOW] on. *)
Definition item_ok (s : state) (a : N) (h : nat) : Prop :=
  a ≠ NULL ∧ (0 < h ≤ SKIPLIST_MAXDEPTH)%nat ∧
  ∃ nx n3, items s !! a = Some nx ∧ length nx = SKIPLIST_EMBED ∧
    nx !! SKIPLIST_OVERFLOW = Some n3 ∧
    if decide (h ≤ SKIPLIST_EMBED)%nat then N.land n3 1 = 0%N
    else N.land n3 1 ≠ 0%N ∧ N.land n3 PTR_MASK ≠ NULL ∧
         ∃ ob, blocks s !! N.land n3 PTR_MASK = Some ob ∧
               length ob = (h - SKIPLIST_OVERFLOW)%nat.

(** [hts] gives the number of levels of the head and of every linked item.
    Every one of them has its memory, and no two share an overflow block. *)
Definition layout (s : state) (hts : gmap N nat) : Prop :=
  (∀ a h, hts !! a = Some h → item_ok s a h) ∧
  (∀ a a' h h' b, hts !! a = Some h → hts !! a' = Some h' →
     (SKIPLIST_EMBED < h)%nat → (SKIPLIST_EMBED < h')%nat →
     block_of s a = Some b → block_of s a' = Some b → a = a').

(** Representation invariant.  [ls !! k] is the chain of level [k] behind the
    head; it holds the items of more than [k] levels that are linked on that
    level, which [link] says. *)
Definition wfg (link : N → nat → Prop) (s : state) (hts : gmap N nat)
    (ls : list (list N)) : Prop :=
  layout s hts ∧ hts !! hd s = Some SKIPLIST_MAXDEPTH ∧
  length ls = SKIPLIST_MAXDEPTH ∧
  (∀ a h, hts !! a = Some h → N.land a 1 = 0%N) ∧
  ∀ k l, ls !! k = Some l →
    chain (lev s k) (hd s) (hd s :: l) ∧
    ∀ a, a ∈ l ↔ a ≠ hd s ∧ ∃ h, hts !! a = Some h ∧ (k < h)%nat ∧ link a k.

(** While an item is being inserted, [pend = Some (item, m)] says that it is
    linked on the levels from [m] up only. *)
Definition wfp (pend : option (N * nat)) : state → gmap N nat →
    list (list N) → Prop :=
  wfg (λ a k, ∀ m, pend = Some (a, m) → (m ≤ k)%nat).

(** Every item is linked on all its levels. *)
Definition wf : state → gmap N nat → list (list N) → Prop := wfp None.

(** While [item] is being removed, it is linked on the levels below [m]
    only. *)
Definition wfd (item : N) (m : nat) : state → gmap N nat →
    list (list N) → Prop :=
  wfg (λ a k, a = item → (k < m)%nat).

(** The position behind [prev] on level [k]: [l2] is what follows. *)
Definition at_pos (s : state) (ls : list (list N)) (k : nat) (prev : N)
    (l1 l2 : list N) : Prop :=
  ∃ l, ls !! k = Some l ∧ hd s :: l = l1 ++ l2 ∧ last l1 = Some prev.

(** The level drawn from [random()]. *)
Definition newlevel_of (rnd : Z) : nat :=
  match rnd with
  | Zpos p => Nat.min (ctz p + 1) SKIPLIST_MAXDEPTH
  | _ => O
  end.

(** The state in which [typesafe_skiplist_add] enters its first loop: the
    item zeroed and, for more than [SKIPLIST_EMBED] levels, given the overflow
    block at [oflow]. *)
Definition add_prepared (s : state) (item : N) (h : nat) (oflow : N)
  : state :=
  let zero := replicate SKIPLIST_EMBED NULL in
  if decide (SKIPLIST_EMBED < h)%nat
  then State (<[item := <[SKIPLIST_OVERFLOW := N.lor oflow 1]> zero]>
                (<[item := zero]> (items s)))
             (<[oflow := replicate (h - SKIPLIST_OVERFLOW) NULL]> (blocks s))
             (hd s) (count s)
  else State (<[item := zero]> (items s)) (blocks s) (hd s) (count s).

(** A bound on the steps that a search makes below level [k]: one per item
    on each of these levels and one per level. *)
Definition steps (ls : list (list N)) (k : nat) : nat :=
  (length (concat (take k ls)) + k)%nat.

(** Every level is in the order of the comparison function. *)
Definition sorted_levels (cmpfn : N → N → Z) (ls : list (list N)) : Prop :=
  ∀ k l, ls !! k = Some l → SSort.sorted cmpfn l.

End SSkip.

(** ** Example instantiations *)

Module Examples.

(** Items of the sorted containers: the item at address [a] carries the
    value [val a]; the comparison function is [cmp(a, b) = a.val - b.val]. *)
Definition val (a : N) : Z :=
  match a with
  | 8%N => 5
  | 16%N => 1
  | 24%N => 3
  | 32%N => 3
  | _ => Z.of_N a
  end.

Definition cmp_val (a b : N) : Z := val a - val b.

(** Items of the hash table: the item at address [a] carries the key
    [key a], which is also its hash value; items are equal when their keys
    are. *)
Definition key (a : N) : Z := Z.of_N (a / 16) mod 16.

Definition cmp_key (a b : N) : Z := key a - key b.

(** The sorted list after [add] of the values 5, 1, 3, 3. *)
Definition sorted_5_1_3_3 : option SSort.state :=
  s ← SSort.add cmp_val 8 (SSort.init ∅) 8%N;
  s ← SSort.add cmp_val 8 s 16%N;
  s ← SSort.add cmp_val 8 s 24%N;
  SSort.add cmp_val 8 s 32%N.

(** The sorted list after [add] of the values 1 and 5. *)
Definition sorted_1_5 : option SSort.state :=
  s ← SSort.add cmp_val 8 (SSort.init ∅) 16%N;
  SSort.add cmp_val 8 s 8%N.

(** The unsorted list after [add_tail] of the items 8 and 16. *)
Definition list_8_16 : option SList.state :=
  s ← SList.add_tail (SList.init ∅) 8%N;
  SList.add_tail s 16%N.

(** The hash table after [add] of the keys 4, 8 and 1. *)
Definition hash_4_8_1 : option THash.state :=
  s ← THash.add key 8 (THash.init ∅ ∅) 64%N;
  s ← THash.add key 8 s 128%N;
  THash.add key 8 s 16%N.

(** ... and after [add] of the key 3, which grows the table from 4 to 8
    buckets. *)
Definition hash_4_8_1_3 : option THash.state :=
  s ← hash_4_8_1; THash.add key 8 s 48%N.

(** The hash table after [add] of the key 4, and the same table when the
    next [add] has just incremented the count. *)
Definition hash_4 : THash.state :=
  THash.State {[64%N := NULL]} {[64%N := 4]} [64%N; NULL] 2 1 0 0.

Definition hash_4_pending : THash.state := THash.set_count hash_4 2.

(** The states of [list_8_16] and [sorted_1_5], written out. *)
Definition list_8_16_state : SList.state :=
  (<[16%N := NULL]> {[8%N := 16%N]},
   {| SList.first := 8%N; SList.last_next := SlotNext 16%N;
      SList.count := 2 |}).

Definition sorted_1_5_state : SSort.state :=
  (<[16%N := 8%N]> {[8%N := NULL]},
   {| SSort.first := 16%N; SSort.count := 2 |}).

(** The hash table after [add] of the keys 1, 5 and 2: four buckets, the
    keys 1 and 5 on the chain of bucket 1 and the key 2 in bucket 2; and the
    same table when the next [add] has just incremented the count. *)
Definition hash_1_5_2 : THash.state :=
  THash.State (<[32%N := NULL]> (<[80%N := NULL]> {[16%N := 80%N]}))
              (<[32%N := 2]> (<[80%N := 5]> {[16%N := 1]}))
              [NULL; 16%N; 32%N; NULL] 4 3 0 0.

Definition hash_1_5_2_pending : THash.state := THash.set_count hash_1_5_2 4.

(** A hash table of four buckets that is left with the key 6, which sits in
    bucket 2. *)
Definition hash_6_of_4 : THash.state :=
  THash.State {[96%N := NULL]} {[96%N := 6]} [NULL; NULL; 96%N; NULL]
              4 1 0 0.

(** The skip list after [add] of the item 32 at level 1. *)
Definition skip_32_state : SSkip.state :=
  SSkip.State
    (<[32%N := [NULL; NULL; NULL; NULL]]>
       {[4096%N := [32%N; NULL; NULL; 4129%N]]})
    {[4128%N := replicate 13 NULL]} 4096 0.

(** ... and after [add] of the item 24, which has the same value, at level 1
    as well: the item 24 is linked in front. *)
Definition skip_24_32_state : SSkip.state :=
  SSkip.State
    (<[24%N := [32%N; NULL; NULL; NULL]]>
       (<[32%N := [NULL; NULL; NULL; NULL]]>
          {[4096%N := [24%N; NULL; NULL; 4129%N]]}))
    {[4128%N := replicate 13 NULL]} 4096 0.

(** A skip list with the single item 64, inserted at level 1. *)
Definition skip_64 : option SSkip.state :=
  SSkip.add cmp_val 64 1 NULL (SSkip.init ∅ ∅ 4096) 64%N.

(** The state of [skip_64], written out: the head at 4096 with its overflow
    block right behind it, and the item 64 on level 0. *)
Definition skip_64_state : SSkip.state :=
  SSkip.State
    (<[64%N := [NULL; NULL; NULL; NULL]]>
       {[4096%N := [64%N; NULL; NULL; 4129%N]]})
    {[4128%N := replicate 13 NULL]} 4096 0.

End Examples.

(** * Properties *)

(** ** Chains *)

Section Chains.

Implicit Types (nxt : N → option N) (p a : N) (l : list N).

Lemma chain_ext nxt nxt' p l :
  (∀ a, a ∈ l → nxt a = nxt' a) → chain nxt p l → chain nxt' p l.
Proof.
  revert p. induction l as [|b l IH]; intros p Hext; simpl; [done|].
  intros (-> & Hb & n & Hn & Hc). split; [done|]. split; [done|].
  exists n. split.
  - rewrite <- Hext; [done | left].
  - apply IH; [|done]. intros a Ha. apply Hext. by right.
Qed.

Lemma chain_not_null nxt p l : chain nxt p l → NULL ∉ l.
Proof.
  revert p. induction l as [|b l IH]; intros p; simpl.
  - intros _ H. inversion H.
  - intros (-> & Hb & n & Hn & Hc) Hin.
    apply elem_of_cons in Hin as [Heq | Hin]; [by subst | by eapply IH].
Qed.

Lemma walk_chain nxt p l fuel :
  chain nxt p l → (length l < fuel)%nat → walk nxt fuel p = Some l.
Proof.
  revert p fuel. induction l as [|b l IH]; intros p fuel; simpl.
  - intros -> Hf. destruct fuel; [lia|]. done.
  - intros (-> & Hb & n & Hn & Hc) Hf. destruct fuel as [|f]; [lia|]. simpl.
    rewrite decide_False by done. rewrite Hn. simpl.
    rewrite (IH n f); [done | done | lia].
Qed.

End Chains.

(** ** Unsorted list: representation invariant *)

Module SListFacts.
Import SList.

Lemma count_succ (n : nat) :
  size_inc (Z.of_nat n mod size_max) = Z.of_nat (S n) mod size_max.
Proof.
  unfold size_inc. rewrite Zplus_mod_idemp_l. f_equal. lia.
Qed.

Lemma count_pred (n : nat) :
  size_dec (Z.of_nat (S n) mod size_max) = Z.of_nat n mod size_max.
Proof.
  unfold size_dec. rewrite Zminus_mod_idemp_l. f_equal. lia.
Qed.

Lemma load_insert_eq {A} (m : gmap N A) a v :
  a ≠ NULL → load (<[a := v]> m) a = Some v.
Proof. intros. unfold load. rewrite decide_False by done. apply lookup_insert_eq. Qed.

Lemma load_insert_ne {A} (m : gmap N A) a b v :
  a ≠ b → load (<[a := v]> m) b = load m b.
Proof.
  intros. unfold load. destruct (decide (b = NULL)); [done|].
  by apply lookup_insert_ne.
Qed.

Lemma chain_insert_fresh (m : gmap N N) p l a v :
  a ∉ l → chain (load m) p l → chain (load (<[a := v]> m)) p l.
Proof.
  intros Ha. apply chain_ext. intros b Hb.
  symmetry. apply load_insert_ne. intros ->. done.
Qed.

Lemma wf_init m : wf (init m) [].
Proof. repeat split; simpl; try done. constructor. Qed.

Lemma add_head_wf s l item :
  wf s l → item ∉ l → item ≠ NULL →
  ∃ s', add_head s item = Some s' ∧ wf s' (item :: l).
Proof.
  destruct s as [m [f ln c]]. intros (Hc & Hnd & Hln & Hcnt) Hin Hnz.
  cbn [fst snd first last_next count] in *.
  unfold add_head, slot_set, store. cbn [fst snd first last_next count].
  rewrite decide_False by done. cbn.
  eexists. split; [reflexivity|].
  assert (Hchain : chain (load (<[item:=f]> m)) item (item :: l)).
  { split; [done|]. split; [done|]. exists f.
    split; [by apply load_insert_eq|]. by apply chain_insert_fresh. }
  assert (Hnd' : NoDup (item :: l)) by by constructor.
  subst ln c. destruct (last l) as [d|] eqn:Hlast.
  - rewrite decide_False by done.
    split; [|split; [|split]]; cbn -[last size_inc]; try done.
    + by rewrite last_cons, Hlast.
    + apply count_succ.
  - rewrite decide_True by done.
    split; [|split; [|split]]; cbn -[last size_inc]; try done.
    + by rewrite last_cons, Hlast.
    + apply count_succ.
Qed.

Lemma chain_snoc_store (m : gmap N N) p l a :
  chain (load m) p l → NoDup l → a ∉ l → a ≠ NULL →
  chain (load (match last l with
               | Some b => <[b := a]> (<[a := NULL]> m)
               | None => <[a := NULL]> m
               end))
        (match l with [] => a | _ => p end) (l ++ [a]).
Proof.
  revert p. induction l as [|b l IH]; intros p Hc Hnd Ha Hnz; simpl in *.
  - split; [done|]. split; [done|]. exists NULL.
    split; [by apply load_insert_eq | done].
  - destruct Hc as (-> & Hb & n & Hn & Hc).
    apply NoDup_cons in Hnd as [Hbl Hnd].
    apply not_elem_of_cons in Ha as [Hab Hal].
    split; [done|]. split; [done|].
    specialize (IH n Hc Hnd Hal Hnz).
    destruct l as [|c l]; simpl in *.
    + subst n. exists a. split; [by apply load_insert_eq|].
      split; [done|]. split; [done|]. exists NULL. split; [|done].
      rewrite load_insert_ne by done. by apply load_insert_eq.
    + exists n. split; [|done].
      assert (Hlast : ∃ d, last (c :: l) = Some d ∧ d ∈ c :: l).
      { destruct (last (c :: l)) as [d|] eqn:Hd.
        - exists d. split; [done|]. by apply last_Some_elem_of.
        - by apply last_None in Hd. }
      destruct Hlast as (d & Hd & Hdin).
      change (last (b :: c :: l)) with (last (c :: l)). rewrite Hd.
      rewrite !load_insert_ne; [done| congruence |].
      intros ->. done.
Qed.

Lemma add_tail_wf s l item :
  wf s l → item ∉ l → item ≠ NULL →
  ∃ s', add_tail s item = Some s' ∧ wf s' (l ++ [item]).
Proof.
  destruct s as [m [f ln c]]. intros (Hc & Hnd & Hln & Hcnt) Hin Hnz.
  simpl in *. unfold add_tail, slot_set, store. simpl.
  rewrite decide_False by done. simpl.
  pose proof (chain_snoc_store m f l item Hc Hnd Hin Hnz) as Hsn.
  pose proof (chain_not_null _ _ _ Hc) as Hnull.
  assert (Hcount : size_inc c = Z.of_nat (length (l ++ [item])) mod size_max).
  { rewrite Hcnt, length_app. simpl.
    replace (length l + 1)%nat with (S (length l)) by lia. apply count_succ. }
  assert (Hnd' : NoDup (l ++ [item])).
  { apply NoDup_app. split; [done|]. split.
    - intros x Hx Hx'. apply list_elem_of_singleton in Hx'. by subst.
    - by apply NoDup_singleton. }
  destruct (last l) as [b|] eqn:Hlast; subst ln; simpl.
  - assert (b ≠ NULL).
    { intros ->. apply Hnull. by apply last_Some_elem_of. }
    rewrite decide_False by done. simpl.
    eexists. split; [reflexivity|].
    split; [|split; [|split]]; simpl; try done.
    + destruct l; [done|]. done.
    + by rewrite last_snoc.
  - apply last_None in Hlast. subst l.
    eexists. split; [reflexivity|].
    split; [|split; [|split]]; simpl; try done.
Qed.

Lemma pop_wf s a l :
  wf s (a :: l) → ∃ s', pop s = Some (a, s') ∧ wf s' l.
Proof.
  destruct s as [m [f ln c]].
  intros ((Hf & Ha & n & Hn & Hc) & Hnd & Hln & Hcnt).
  simpl in *. subst f. unfold pop. simpl.
  rewrite decide_False by done. rewrite Hn. simpl.
  apply NoDup_cons in Hnd as [Hal Hnd].
  eexists. split; [reflexivity|].
  destruct l as [|b l]; simpl in *.
  - subst n. rewrite decide_True by done.
    repeat split; simpl; try done.
    rewrite Hcnt. apply (count_pred 0).
  - destruct Hc as (-> & Hb & Hc). rewrite decide_False by done.
    split; [|split; [|split]]; simpl; try done.
    rewrite Hcnt. apply (count_pred (S (length l))).
Qed.

Lemma pop_empty s : wf s [] → pop s = Some (NULL, s).
Proof.
  destruct s as [m [f ln c]]. intros (Hf & _). simpl in Hf. subst f.
  reflexivity.
Qed.

End SListFacts.

(** ** LIFO and FIFO round trips of the unsorted list *)

Module SListRoundTrip.
Import SList SListFacts.

Lemma add_all_head_wf l : ∀ s l0,
  wf s l0 → NoDup (l ++ l0) → NULL ∉ l →
  ∃ s', add_all add_head l s = Some s' ∧ wf s' (rev l ++ l0).
Proof.
  induction l as [|a l IH]; intros s l0 Hwf Hnd Hnull; simpl.
  - by exists s.
  - apply not_elem_of_cons in Hnull as [Ha Hnull].
    simpl in Hnd. apply NoDup_cons in Hnd as [Hal Hnd].
    destruct (add_head_wf s l0 a Hwf) as (s1 & -> & Hwf1).
    { intros Hin. apply Hal. apply elem_of_app. by right. }
    { congruence. }
    simpl. destruct (IH s1 (a :: l0) Hwf1) as (s' & Hs' & Hwf'); [|done|].
    { apply NoDup_app. apply NoDup_app in Hnd as (H1 & H2 & H3).
      split; [done|]. split; [|by constructor; [intros ?; apply Hal, elem_of_app; right|]].
      intros x Hx Hx'. apply elem_of_cons in Hx' as [-> | Hx'].
      - apply Hal, elem_of_app. by left.
      - by apply (H2 x). }
    exists s'. split; [done|]. by rewrite <- app_assoc.
Qed.

Lemma add_all_tail_wf l : ∀ s l0,
  wf s l0 → NoDup (l0 ++ l) → NULL ∉ l →
  ∃ s', add_all add_tail l s = Some s' ∧ wf s' (l0 ++ l).
Proof.
  induction l as [|a l IH]; intros s l0 Hwf Hnd Hnull; simpl.
  - exists s. by rewrite app_nil_r.
  - apply not_elem_of_cons in Hnull as [Ha Hnull].
    replace (l0 ++ a :: l) with ((l0 ++ [a]) ++ l) in * by by rewrite <- app_assoc.
    destruct (add_tail_wf s l0 a Hwf) as (s1 & -> & Hwf1).
    { apply NoDup_app in Hnd as (H1 & _ & _).
      apply NoDup_app in H1 as (_ & H2 & _).
      intros Hin. apply (H2 a Hin). by left. }
    { congruence. }
    simpl. by apply IH.
Qed.

Lemma pop_n_wf l : ∀ s,
  wf s l → ∃ s', pop_n (length l) s = Some (l, s') ∧ wf s' [].
Proof.
  induction l as [|a l IH]; intros s Hwf; simpl.
  - by exists s.
  - destruct (pop_wf s a l Hwf) as (s1 & -> & Hwf1). simpl.
    destruct (IH s1 Hwf1) as (s' & -> & Hwf'). simpl. by exists s'.
Qed.

End SListRoundTrip.

(** ** Deleting an item that is not on the container *)

Module DelAbsent.
Import THash (on_chain).

Lemma slist_del_scan_absent (s : SList.state) (item : N) l : ∀ fuel iter p,
  SList.slot_get s iter = Some p → chain (load s.1) p l → item ∉ l →
  (length l < fuel)%nat →
  ∃ iter', SList.del_scan fuel s item iter = Some iter' ∧
           SList.slot_get s iter' = Some NULL.
Proof.
  induction l as [|a l IH]; intros fuel iter p Hget Hc Hin Hf;
    (destruct fuel as [|f]; [simpl in Hf; lia|]); simpl in *.
  - subst p. rewrite Hget. cbn -[decide]. exists iter.
    by rewrite decide_False by tauto.
  - destruct Hc as (-> & Ha & n & Hn & Hc).
    apply not_elem_of_cons in Hin as [Hne Hin].
    rewrite Hget. cbn -[decide]. rewrite decide_True by (split; congruence).
    apply (IH f (SlotNext a) n); [done | done | done | lia].
Qed.

Lemma slist_del_absent (s : SList.state) l (item : N) (fuel : nat) :
  SList.wf s l → item ∉ l → (length l < fuel)%nat →
  SList.del fuel s item = Some s.
Proof.
  intros (Hc & _) Hin Hf. unfold SList.del.
  destruct (slist_del_scan_absent s item l fuel SlotFirst (SList.first s.2))
    as (iter & -> & Hget); [done..|].
  simpl. rewrite Hget. done.
Qed.

Lemma ssort_del_scan_absent (s : SSort.state) (item : N) l : ∀ fuel iter p,
  SSort.slot_get s iter = Some p → chain (load s.1) p l → item ∉ l →
  (length l < fuel)%nat →
  ∃ iter', SSort.del_scan fuel s item iter = Some iter' ∧
           SSort.slot_get s iter' = Some NULL.
Proof.
  induction l as [|a l IH]; intros fuel iter p Hget Hc Hin Hf;
    (destruct fuel as [|f]; [simpl in Hf; lia|]); simpl in *.
  - subst p. rewrite Hget. cbn -[decide]. exists iter.
    by rewrite decide_False by tauto.
  - destruct Hc as (-> & Ha & n & Hn & Hc).
    apply not_elem_of_cons in Hin as [Hne Hin].
    rewrite Hget. cbn -[decide]. rewrite decide_True by (split; congruence).
    apply (IH f (SlotNext a) n); [done | done | done | lia].
Qed.

Lemma ssort_del_absent (s : SSort.state) l (item : N) (fuel : nat) :
  SSort.wf s l → item ∉ l → (length l < fuel)%nat →
  SSort.del fuel s item = Some s.
Proof.
  intros (Hc & _) Hin Hf. unfold SSort.del.
  destruct (ssort_del_scan_absent s item l fuel SlotFirst (SSort.first s.2))
    as (iter & -> & Hget); [done..|].
  simpl. rewrite Hget. done.
Qed.

Lemma load_is_Some {A} (m : gmap N A) a :
  a ≠ NULL → is_Some (m !! a) → ∃ v, load m a = Some v.
Proof. intros Ha [v Hv]. exists v. unfold load. by rewrite decide_False. Qed.

Lemma thash_lt_scan_on_chain (s : THash.state) (hval : Z) l : ∀ fuel np,
  on_chain s np l → (length l < fuel)%nat →
  ∃ np' l', THash.lt_scan fuel s hval np = Some np' ∧ on_chain s np' l' ∧
            l' ⊆ l ∧ (length l' ≤ length l)%nat.
Proof.
  induction l as [|a l IH]; intros fuel np (p & Hget & Hc & Hh) Hf;
    (destruct fuel as [|f]; [simpl in Hf; lia|]); simpl in *.
  - subst p. rewrite Hget. cbn -[decide]. rewrite decide_True by done.
    exists np, []. split; [done|]. split; [|done]. by exists NULL.
  - destruct Hc as (-> & Ha & n & Hn & Hc).
    rewrite Hget. cbn -[decide]. rewrite decide_False by done.
    destruct (load_is_Some (THash.hashes s) a Ha) as (hv & ->);
      [apply Hh; by left|]. cbn -[decide].
    destruct (decide (hv < hval)).
    + destruct (IH f (THash.SlotItem a)) as (np' & l' & -> & Hon & Hsub & Hlen).
      { exists n. split; [done|]. split; [done|]. intros b Hb. apply Hh. by right. }
      { lia. }
      exists np', l'. split; [done|]. split; [done|]. split; [|lia].
      intros b Hb. right. by apply Hsub.
    + exists np, (a :: l). split; [done|]. split; [|done].
      exists a. split; [done|]. split; [|done]. split; [done|]. split; [done|].
      by exists n.
Qed.

Lemma thash_del_run_absent (s : THash.state) (item : N) (hval : Z) l :
  ∀ fuel np,
  on_chain s np l → item ∉ l → item ≠ NULL → (length l < fuel)%nat →
  ∃ np' cur, THash.del_run fuel s item hval np = Some np' ∧
             THash.hslot_get s np' = Some cur ∧ cur ≠ item.
Proof.
  induction l as [|a l IH]; intros fuel np (p & Hget & Hc & Hh) Hin Hnz Hf;
    (destruct fuel as [|f]; [simpl in Hf; lia|]); simpl in *.
  - subst p. rewrite Hget. cbn -[decide]. exists np, NULL.
    rewrite decide_True by by left. split; [done|]. split; [done|]. congruence.
  - destruct Hc as (-> & Ha & n & Hn & Hc).
    apply not_elem_of_cons in Hin as [Hne Hin].
    rewrite Hget. cbn -[decide]. rewrite decide_False by (intros [?|?]; congruence).
    destruct (load_is_Some (THash.hashes s) a Ha) as (hv & ->);
      [apply Hh; by left|]. cbn -[decide].
    destruct (decide (hv = hval)).
    + apply (IH f (THash.SlotItem a)); [|done|done|lia].
      exists n. split; [done|]. split; [done|]. intros b Hb. apply Hh. by right.
    + exists np, a. split; [done|]. split; [done|]. congruence.
Qed.

Lemma Z_land_le (x y : Z) : 0 <= x → 0 <= y → 0 <= Z.land x y <= y.
Proof.
  intros Hx Hy. rewrite <- (Z2N.id x), <- (Z2N.id y), <- N2Z.inj_land by done.
  split; [apply N2Z.is_nonneg | apply N2Z.inj_le, N.land_le_r].
Qed.

Lemma u32_range (x : Z) : 0 <= u32 x < u32_max.
Proof. unfold u32. apply Z.mod_pos_bound. done. Qed.

Lemma u32_id (x : Z) : 0 <= x < u32_max → u32 x = x.
Proof. intros. unfold u32. by apply Z.mod_small. Qed.

Lemma thash_bucket (s : THash.state) bs (hval : Z) :
  THash.wf s bs → THash.tabsize s ≠ 0 → 0 <= hval →
  ∃ l, bs !! Z.to_nat (Z.land hval (u32 (THash.tabsize s - 1))) = Some l ∧
       on_chain s (THash.SlotEntry (Z.land hval (u32 (THash.tabsize s - 1)))) l.
Proof.
  intros (Hlen & Hmax & Hch & Hh & _) Hnz Hhv.
  assert (0 < THash.tabsize s) by lia.
  rewrite u32_id by lia.
  pose proof (Z_land_le hval (THash.tabsize s - 1) Hhv ltac:(lia)) as Hb.
  set (i := Z.to_nat (Z.land hval (THash.tabsize s - 1))).
  assert (Hi : (i < length (THash.entries s))%nat) by lia.
  apply lookup_lt_is_Some in Hi as [p Hp].
  destruct (Forall2_lookup_l _ _ _ _ _ Hch Hp) as (l & Hl & Hc).
  exists l. split; [done|]. exists p. split; [done|]. split; [done|].
  intros a Ha. destruct (Hh _ _ Hl _ Ha) as (hv & -> & _). by eexists.
Qed.

Lemma thash_del_absent (hashfn : N → Z) (s : THash.state) bs (item : N)
    (fuel : nat) :
  THash.wf s bs → (∀ i l, bs !! i = Some l → item ∉ l) → item ≠ NULL →
  (∀ i l, bs !! i = Some l → (length l < fuel)%nat) →
  THash.del hashfn fuel s item = Some s.
Proof.
  intros Hwf Hin Hnz Hf. unfold THash.del.
  destruct (decide (THash.tabsize s = 0)) as [|Hts]; [done|].
  destruct (thash_bucket s bs (u32 (hashfn item)) Hwf Hts) as (l & Hl & Hon).
  { apply u32_range. }
  destruct (thash_lt_scan_on_chain s (u32 (hashfn item)) l fuel _ Hon)
    as (np & l' & -> & Hon' & Hsub & Hlen); [by eapply Hf|].
  cbn -[decide].
  destruct (thash_del_run_absent s item (u32 (hashfn item)) l' fuel np Hon')
    as (np' & cur & -> & Hget & Hne); [|done| |].
  { intros Hx. apply (Hin _ _ Hl). by apply Hsub. }
  { specialize (Hf _ _ Hl). lia. }
  cbn -[decide]. rewrite Hget. cbn -[decide]. by rewrite decide_True.
Qed.

End DelAbsent.

(** ** The size computed from the item count *)

Module HashSize.
Import THash.

Lemma covers_self c : covers c 1 c.
Proof.
  intros n Hn. split.
  - intros H. exists 0. split; [lia|]. by rewrite Z.add_0_r.
  - intros (k & Hk & H). by replace (n + k) with n in H by lia.
Qed.

Lemma covers_step c w x :
  0 <= w → covers c w x → covers c (2 * w) (Z.lor x (Z.shiftr x w)).
Proof.
  intros Hw Hx n Hn. rewrite Z.lor_spec, Z.shiftr_spec by done.
  rewrite orb_true_iff, (Hx n), (Hx (n + w)) by lia. split.
  - intros [(k & Hk & H) | (k & Hk & H)].
    + exists k. split; [lia | done].
    + exists (w + k). split; [lia|]. by rewrite Z.add_assoc.
  - intros (k & Hk & H). destruct (decide (k < w)).
    + left. exists k. split; [lia | done].
    + right. exists (k - w). split; [lia|].
      by replace (n + w + (k - w)) with (n + k) by lia.
Qed.

Lemma smear_covers c : covers c 32 (smear c).
Proof.
  unfold smear.
  apply (covers_step c 16); [lia|]. apply (covers_step c 8); [lia|].
  apply (covers_step c 4); [lia|]. apply (covers_step c 2); [lia|].
  apply (covers_step c 1); [lia|]. apply covers_self.
Qed.

Lemma smear_ones c :
  0 < c < u32_max → smear c = Z.ones (Z.log2 c + 1).
Proof.
  intros [Hc Hmax]. pose proof (Z.log2_nonneg c) as Hl.
  assert (Hl32 : Z.log2 c < 32) by (apply Z.log2_lt_pow2; done).
  apply Z.bits_inj'. intros n Hn. apply eq_true_iff_eq.
  rewrite (smear_covers c n Hn), Z.ones_spec_iff by lia. split.
  - intros (k & Hk & H). split; [done|].
    destruct (decide (n < Z.log2 c + 1)); [done|].
    rewrite Z.bits_above_log2 in H; [done | lia | lia].
  - intros [_ Hlt]. exists (Z.log2 c - n). split; [lia|].
    replace (n + (Z.log2 c - n)) with (Z.log2 c) by lia. by apply Z.bit_log2.
Qed.

(** Below 2^31 items the new size is the least power of two that is strictly
    greater than the count. *)
Lemma hash_newsize_pow2 c :
  0 < c < 2 ^ 31 → hash_newsize c = 2 ^ (Z.log2 c + 1).
Proof.
  intros [Hc Hmax]. pose proof (Z.log2_nonneg c) as Hl.
  assert (Hl31 : Z.log2 c < 31) by (apply Z.log2_lt_pow2; done).
  unfold hash_newsize. rewrite smear_ones by (unfold u32_max; lia).
  rewrite Z.ones_equiv. replace (Z.pred (2 ^ (Z.log2 c + 1)) + 1)
    with (2 ^ (Z.log2 c + 1)) by lia.
  unfold u32, u32_max. apply Z.mod_small. split; [lia|].
  apply Z.pow_lt_mono_r; lia.
Qed.

Lemma hash_newsize_range k c :
  0 <= k < 31 → 2 ^ k <= c < 2 ^ (k + 1) → hash_newsize c = 2 ^ (k + 1).
Proof.
  intros Hk Hc.
  assert (0 < 2 ^ k) by (apply Z.pow_pos_nonneg; lia).
  assert (2 ^ (k + 1) <= 2 ^ 31) by (apply Z.pow_le_mono_r; lia).
  rewrite hash_newsize_pow2 by lia. f_equal. f_equal.
  apply Z.log2_unique; lia.
Qed.

End HashSize.

(** ** Growing the hash table *)

Module GrowFacts.
Import THash DelAbsent SListFacts.

Lemma load_lookup {A} (m : gmap N A) a v :
  a ≠ NULL → m !! a = Some v → load m a = Some v.
Proof. intros. unfold load. by rewrite decide_False. Qed.

Lemma load_Some {A} (m : gmap N A) a v :
  load m a = Some v → a ≠ NULL ∧ m !! a = Some v.
Proof. unfold load. by destruct (decide (a = NULL)). Qed.

Lemma hslot_set_entry s (i : Z) v :
  (Z.to_nat i < length (entries s))%nat →
  hslot_set s (SlotEntry i) v
  = Some (set_entries s (<[Z.to_nat i := v]> (entries s))).
Proof. intros. unfold hslot_set. by rewrite decide_True. Qed.

Lemma hslot_set_item s q v :
  q ≠ NULL →
  hslot_set s (SlotItem q) v = Some (set_nexts s (<[q := v]> (nexts s))).
Proof. intros. unfold hslot_set, store. by rewrite decide_False. Qed.

Lemma masked_lt (hv n j : Z) :
  0 <= hv → 0 < n <= u32_max → n <= j → ¬ Z.land hv (u32 (n - 1)) >= j.
Proof.
  intros Hhv Hn Hj. rewrite u32_id by lia.
  pose proof (Z_land_le hv (n - 1) Hhv ltac:(lia)). lia.
Qed.

(** Once [j] has passed the new size, the rest of the chain is walked without
    a store. *)
Lemma grow_chain_done (n o : Z) l : ∀ fuel s apos j p,
  hslot_get s apos = Some p → chain (load (nexts s)) p l → hashed s l →
  0 < n <= u32_max → n <= j → (length l < fuel)%nat →
  grow_chain fuel n o s apos j = Some s.
Proof.
  induction l as [|a l IH]; intros fuel s apos j p Hget Hc Hh Hn Hj Hf;
    (destruct fuel as [|f]; [simpl in Hf; lia|]); simpl in Hc |- *.
  - subst p. rewrite Hget. cbn -[decide]. by rewrite decide_True.
  - destruct Hc as (-> & Ha & nx & Hnx & Hc).
    rewrite Hget. cbn -[decide]. rewrite decide_False by done.
    destruct (Hh a) as (hv & Hhv & Hr); [by left|].
    rewrite (load_lookup _ _ _ Ha Hhv). cbn -[decide].
    rewrite decide_False by (apply masked_lt; lia).
    apply (IH f s (SlotItem a) j nx); try done; [|simpl in Hf; lia].
    intros b Hb. apply Hh. by right.
Qed.

(** The chain is cut in front of the first item whose masked hash value
    reaches [j]; that item becomes the head of bucket [j]. *)
Lemma grow_chain_split (n o : Z) l : ∀ fuel s apos j p,
  hslot_get s apos = Some p → chain (load (nexts s)) p l → NoDup l →
  hashed s l → (∀ q, apos = SlotItem q → q ∉ l) →
  0 < n <= u32_max → n <= u32 (j + o) →
  (Z.to_nat j < length (entries s))%nat → (length l < fuel)%nat →
  ∃ l1 l2 s',
    l = l1 ++ l2 ∧ grow_chain fuel n o s apos j = Some s' ∧
    match l2 with
    | [] => s' = s
    | a :: _ =>
        (s1 ← hslot_set s (cut_slot apos l1) NULL;
         hslot_set s1 (SlotEntry j) a) = Some s'
    end ∧
    cut_at s n j l1 l2.
Proof.
  induction l as [|a l IH];
    intros fuel s apos j p Hget Hc Hnd Hh Hq Hn Hj Hlen Hf;
    (destruct fuel as [|f]; [simpl in Hf; lia|]); simpl in Hc |- *.
  - subst p. exists [], [], s. rewrite Hget. cbn -[decide].
    rewrite decide_True by done. split; [done|]. split; [done|].
    split; [done|]. split; [by intros a Ha; apply elem_of_nil in Ha | done].
  - destruct Hc as (-> & Ha & nx & Hnx & Hc).
    apply NoDup_cons in Hnd as [Hal Hnd].
    rewrite Hget. cbn -[decide]. rewrite decide_False by done.
    destruct (Hh a) as (hv & Hhv & Hr); [by left|].
    rewrite (load_lookup _ _ _ Ha Hhv). cbn -[decide].
    assert (Hh' : hashed s l) by (intros b Hb; apply Hh; by right).
    destruct (decide (Z.land hv (u32 (n - 1)) >= j)) as [Hmv|Hst].
    + (* the item moves to bucket [j] *)
      assert (Hs1 : ∃ s1, hslot_set s apos NULL = Some s1 ∧
                hashes s1 = hashes s ∧ length (entries s1) = length (entries s) ∧
                load (nexts s1) a = Some nx ∧ chain (load (nexts s1)) nx l).
      { destruct apos as [i|q].
        - simpl in Hget. apply lookup_lt_Some in Hget.
          rewrite hslot_set_entry by done. eexists. split; [done|].
          cbn. by rewrite length_insert.
        - simpl in Hget. apply load_Some in Hget as [Hqz _].
          specialize (Hq q eq_refl). apply not_elem_of_cons in Hq as [Hqa Hql].
          rewrite hslot_set_item by done. eexists. split; [done|]. cbn.
          split; [done|]. split; [done|]. split.
          + by rewrite load_insert_ne.
          + by apply chain_insert_fresh. }
      destruct Hs1 as (s1 & Hs1 & Hhs1 & Hlen1 & Hld1 & Hc1).
      exists [], (a :: l). unfold cut_slot. cbn -[decide hslot_set].
      rewrite Hs1. cbn -[decide].
      rewrite !decide_True by lia.
      eexists. split; [done|]. split; [|split; [done|]].
      * apply (grow_chain_done n o l f _ (SlotItem a) _ nx); try done.
        -- intros b Hb. cbn. rewrite Hhs1. by apply Hh'.
        -- simpl in Hf. lia.
      * split; [by intros b Hb; apply elem_of_nil in Hb|].
        intros b [= <-]. exists hv. split; [done | lia].
    + (* the item stays; go on behind it *)
      destruct (IH f s (SlotItem a) j nx)
        as (l1 & l2 & s' & -> & Hg & Hres & Hcut1 & Hcut2); try done.
      { intros q [= <-]. done. }
      { simpl in Hf. lia. }
      exists (a :: l1), l2, s'. split; [done|]. split; [done|]. split.
      * destruct l2 as [|b l2]; [done|].
        replace (cut_slot apos (a :: l1)) with (cut_slot (SlotItem a) l1);
          [done|].
        unfold cut_slot. rewrite last_cons. by destruct (last l1).
      * split; [|done]. intros b Hb.
        apply elem_of_cons in Hb as [->|Hb]; [|by apply Hcut1].
        exists hv. split; [done | lia].
Qed.

Lemma chain_suffix nxt l1 l2 : ∀ p,
  chain nxt p (l1 ++ l2) → ∃ q, chain nxt q l2.
Proof.
  induction l1 as [|a l1 IH]; intros p Hc; simpl in Hc.
  - by exists p.
  - destruct Hc as (_ & _ & nx & _ & Hc). by eapply IH.
Qed.

Lemma chain_truncate (m : gmap N N) l1 l2 b : ∀ p,
  chain (load m) p (l1 ++ l2) → NoDup (l1 ++ l2) → last l1 = Some b →
  chain (load (<[b := NULL]> m)) p l1.
Proof.
  induction l1 as [|a l1 IH]; intros p Hc Hnd Hlast; [done|].
  simpl in Hc, Hnd. destruct Hc as (-> & Ha & nx & Hnx & Hc).
  apply NoDup_cons in Hnd as [Hal Hnd].
  split; [done|]. split; [done|].
  destruct l1 as [|c l1].
  - simpl in Hlast. injection Hlast as <-. exists NULL.
    split; [by apply load_insert_eq | done].
  - rewrite last_cons_cons in Hlast. exists nx. split.
    + rewrite load_insert_ne; [done|]. intros ->. apply Hal.
      apply elem_of_app. left. by apply last_Some_elem_of.
    + by apply IH.
Qed.

Lemma split_lookup (cur : list (list N)) i j l1 l2 idx l :
  (i < length cur)%nat → (j < length cur)%nat → i ≠ j →
  <[i := l1]> (<[j := l2]> cur) !! idx = Some l →
  (idx = i ∧ l = l1) ∨ (idx = j ∧ l = l2) ∨
  (idx ≠ i ∧ idx ≠ j ∧ cur !! idx = Some l).
Proof.
  intros Hi Hj Hne Hl.
  apply list_lookup_insert_Some in Hl as [(<- & <- & _) | (Hn & Hl)];
    [by left|].
  apply list_lookup_insert_Some in Hl as [(<- & <- & _) | (Hn' & Hl)];
    [right; by left|].
  right. right. done.
Qed.

Lemma disjoint_split (cur : list (list N)) i j l1 l2 :
  disjoint_chains cur → cur !! i = Some (l1 ++ l2) → cur !! j = Some [] →
  i ≠ j → disjoint_chains (<[i := l1]> (<[j := l2]> cur)).
Proof.
  intros [Hnd Hdj] Hi Hj Hne.
  pose proof (lookup_lt_Some _ _ _ Hi) as Hil.
  pose proof (lookup_lt_Some _ _ _ Hj) as Hjl.
  pose proof (Hnd _ _ Hi) as Hnd12.
  apply NoDup_app in Hnd12 as (Hnd1 & Hnd12 & Hnd2).
  assert (Hown : ∀ a y ly, a ∈ l1 ++ l2 → y ≠ i → cur !! y = Some ly →
                           a ∈ ly → False).
  { intros a y ly Ha Hy Hly Haly. apply Hy. by apply (Hdj y i ly (l1 ++ l2) a). }
  split.
  - intros idx l Hl.
    apply split_lookup in Hl as [(-> & ->) | [(-> & ->) | (? & ? & Hl)]];
      try done. by eapply Hnd.
  - intros x y lx ly a Hx Hy Hax Hay.
    apply split_lookup in Hx as [(-> & ->) | [(-> & ->) | (? & ? & Hx)]];
      try done;
    apply split_lookup in Hy as [(-> & ->) | [(-> & ->) | (? & ? & Hy)]];
      try done; try (exfalso; by apply (Hnd12 a)).
    + exfalso. apply (Hown a y ly); try done. apply elem_of_app. by left.
    + exfalso. apply (Hown a y ly); try done. apply elem_of_app. by right.
    + exfalso. apply (Hown a x lx); try done. apply elem_of_app. by left.
    + exfalso. apply (Hown a x lx); try done. apply elem_of_app. by right.
    + by apply (Hdj x y lx ly a).
Qed.

Lemma hashed_split (s : state) (cur : list (list N)) i j l1 l2 :
  (∀ idx l, cur !! idx = Some l → hashed s l) →
  cur !! i = Some (l1 ++ l2) → cur !! j = Some [] → i ≠ j →
  ∀ idx l, <[i := l1]> (<[j := l2]> cur) !! idx = Some l → hashed s l.
Proof.
  intros Hh Hi Hj Hne idx l Hl.
  pose proof (lookup_lt_Some _ _ _ Hi) as Hil.
  pose proof (lookup_lt_Some _ _ _ Hj) as Hjl.
  apply split_lookup in Hl as [(-> & ->) | [(-> & ->) | (? & ? & Hl)]];
    try done.
  - intros a Ha. apply (Hh _ _ Hi). apply elem_of_app. by left.
  - intros a Ha. apply (Hh _ _ Hi). apply elem_of_app. by right.
  - by eapply Hh.
Qed.

(** Splitting one bucket of a table that is being doubled. *)
Lemma grow_bucket (o fuel : nat) s (cur : list (list N)) (i : nat) l :
  (0 < o)%nat → 2 * Z.of_nat o <= 2 ^ 31 →
  length cur = (2 * o)%nat → length (entries s) = (2 * o)%nat →
  Forall2 (chain (load (nexts s))) (entries s) cur →
  (∀ idx l, cur !! idx = Some l → hashed s l) → disjoint_chains cur →
  (i < o)%nat → cur !! i = Some l → cur !! (i + o)%nat = Some [] →
  (length l < fuel)%nat →
  ∃ l1 l2 s',
    l = l1 ++ l2 ∧
    grow_chain fuel (2 * Z.of_nat o) (Z.of_nat o) s (SlotEntry (Z.of_nat i))
               (u32 (Z.of_nat i + Z.of_nat o)) = Some s' ∧
    Forall2 (chain (load (nexts s'))) (entries s')
            (<[i := l1]> (<[(i + o)%nat := l2]> cur)) ∧
    length (entries s') = (2 * o)%nat ∧ hashes s' = hashes s ∧
    tabsize s' = tabsize s ∧ count s' = count s ∧
    maxsize s' = maxsize s ∧ minsize s' = minsize s ∧
    cut_at s (2 * Z.of_nat o) (Z.of_nat i + Z.of_nat o) l1 l2.
Proof.
  intros Ho Hmax Hlc Hle HF Hh [Hnd Hdj] Hi Hl Hj Hf.
  destruct (Forall2_lookup_r _ _ _ _ _ HF Hl) as (p & Hp & Hc).
  assert (Hu : u32 (Z.of_nat i + Z.of_nat o) = Z.of_nat (i + o)).
  { rewrite u32_id; unfold u32_max; lia. }
  rewrite Hu.
  destruct (grow_chain_split (2 * Z.of_nat o) (Z.of_nat o) l fuel s
              (SlotEntry (Z.of_nat i)) (Z.of_nat (i + o)) p)
    as (l1 & l2 & s' & -> & Hg & Hres & Hcut).
  - simpl. by rewrite Nat2Z.id.
  - done.
  - by eapply Hnd.
  - by eapply Hh.
  - intros q [=].
  - unfold u32_max; lia.
  - rewrite u32_id; unfold u32_max; lia.
  - rewrite Nat2Z.id. lia.
  - done.
  - replace (Z.of_nat (i + o)) with (Z.of_nat i + Z.of_nat o) in Hcut by lia.
    exists l1, l2, s'. split; [done|]. split; [done|].
    cut (Forall2 (chain (load (nexts s'))) (entries s')
           (<[i := l1]> (<[(i + o)%nat := l2]> cur)) ∧
         length (entries s') = (2 * o)%nat ∧ hashes s' = hashes s ∧
         tabsize s' = tabsize s ∧ count s' = count s ∧
         maxsize s' = maxsize s ∧ minsize s' = minsize s).
    { intros (? & ? & ? & ? & ? & ? & ?). done. }
    clear Hcut.
    destruct l2 as [|a l2].
    + subst s'. rewrite app_nil_r in Hl.
      rewrite (list_insert_id cur (i + o)) by done.
      rewrite list_insert_id by done. done.
    + pose proof (Hnd _ _ Hl) as Hnd12.
      destruct (chain_suffix _ _ _ _ Hc) as (qa & Hca).
      unfold cut_slot in Hres. destruct (last l1) as [b|] eqn:Hlast.
      * assert (Hbl1 : b ∈ l1) by by apply last_Some_elem_of.
        assert (Hbz : b ≠ NULL).
        { intros ->. apply (chain_not_null _ _ _ Hc).
          apply elem_of_app. by left. }
        rewrite hslot_set_item in Hres by done. cbn -[decide] in Hres.
        rewrite decide_True in Hres by (rewrite Nat2Z.id; lia).
        injection Hres as <-. cbn. rewrite Nat2Z.id.
        split; [|by rewrite length_insert].
        apply Forall2_same_length_lookup_2.
        { rewrite !length_insert. lia. }
        intros idx x y Hx Hy.
        apply split_lookup in Hy as [(-> & ->) | [(-> & ->) | (? & ? & Hy)]];
          try lia.
        -- rewrite list_lookup_insert_ne in Hx by lia.
           rewrite Hp in Hx. injection Hx as <-.
           by apply (chain_truncate _ l1 (a :: l2)).
        -- rewrite list_lookup_insert_eq in Hx by lia. injection Hx as <-.
           destruct Hca as (-> & Hca). apply chain_insert_fresh; [|done].
           apply NoDup_app in Hnd12 as (_ & Hd & _). by apply Hd.
        -- rewrite list_lookup_insert_ne in Hx by lia.
           apply chain_insert_fresh; [|by eapply Forall2_lookup_lr].
           intros Hby. apply H.
           apply (Hdj idx i y (l1 ++ a :: l2) b); try done.
           apply elem_of_app. by left.
      * apply last_None in Hlast. subst l1. simpl in Hl, Hc.
        rewrite hslot_set_entry in Hres by (rewrite Nat2Z.id; lia).
        cbn -[decide] in Hres.
        rewrite decide_True in Hres by (rewrite length_insert, Nat2Z.id; lia).
        injection Hres as <-. cbn. rewrite !Nat2Z.id.
        split; [|by rewrite !length_insert].
        rewrite list_insert_insert_ne by lia.
        apply Forall2_insert; [apply Forall2_insert; [done|] | done].
        destruct Hc as (_ & Hc). by split.
Qed.

Lemma hashed_eq s s' l : hashes s' = hashes s → hashed s l → hashed s' l.
Proof. intros Heq Hh a Ha. rewrite Heq. by apply Hh. Qed.

Lemma cut_at_eq s s' (n j : Z) l1 l2 :
  hashes s' = hashes s → cut_at s n j l1 l2 → cut_at s' n j l1 l2.
Proof. intros Heq Hc. unfold cut_at. by rewrite Heq. Qed.

(** The outer loop keeps [grow_inv]. *)
Lemma grow_buckets_inv (o fuel : nat) bs0 : ∀ n k s cur,
  (0 < o)%nat → 2 * Z.of_nat o <= 2 ^ 31 → (k + n = o)%nat →
  grow_inv o bs0 k s cur →
  (∀ i l, bs0 !! i = Some l → (length l < fuel)%nat) →
  ∃ s' cur',
    grow_buckets fuel (2 * Z.of_nat o) (Z.of_nat o) n (Z.of_nat k) s = Some s' ∧
    grow_inv o bs0 o s' cur' ∧ hashes s' = hashes s ∧
    tabsize s' = tabsize s ∧ count s' = count s ∧
    maxsize s' = maxsize s ∧ minsize s' = minsize s.
Proof.
  induction n as [|n IH]; intros k s cur Ho Hmax Hk Hinv Hf; simpl.
  - replace k with o in Hinv by lia. by exists s, cur.
  - destruct Hinv as (Hlc & Hle & HF & Hh & Hdj & Hsplit).
    destruct (Hsplit k) as (l1 & l2 & Hb0 & Hck & Hcko & Hl2 & _); [lia|].
    rewrite Hl2 in Hb0, Hcko by lia. rewrite app_nil_r in Hb0. clear l2 Hl2.
    destruct (grow_bucket o fuel s cur k l1) as
      (l1' & l2' & s1 & -> & Hg & HF1 & Hle1 & Hhs1 & Hts1 & Hcn1 & Hmx1 & Hmn1
       & Hcut1);
      try done; [lia | by eapply Hf |].
    rewrite Hg. cbn.
    replace (Z.of_nat k + 1) with (Z.of_nat (S k)) by lia.
    destruct (IH (S k) s1 (<[k := l1']> (<[(k + o)%nat := l2']> cur)))
      as (s' & cur' & Hgb & Hinv' & Hhs' & Hts' & Hcn' & Hmx' & Hmn');
      try done; [lia | |].
    + split; [by rewrite !length_insert|]. split; [done|]. split; [done|].
      split.
      { intros i l Hl. apply (hashed_eq s); [done|].
        by apply (hashed_split s cur k (k + o)%nat l1' l2' Hh Hck Hcko
                    ltac:(lia) i l). }
      split; [apply disjoint_split; try done; lia|].
      intros i Hi. destruct (decide (i = k)) as [->|Hne].
      * exists l1', l2'. split; [done|].
        split; [apply list_lookup_insert_eq; rewrite length_insert; lia|].
        split; [|split; [lia | by intros _; apply (cut_at_eq s)]].
        rewrite list_lookup_insert_ne by lia.
        apply list_lookup_insert_eq. lia.
      * destruct (Hsplit i Hi) as (m1 & m2 & Hm0 & Hm1 & Hm2 & Hm3 & Hm4).
        exists m1, m2. split; [done|].
        rewrite !list_lookup_insert_ne by lia.
        split; [done|]. split; [done|].
        split; [intros; apply Hm3; lia|].
        intros Hlt. apply (cut_at_eq s); [done|]. apply Hm4. lia.
    + exists s', cur'. split; [done|]. split; [done|].
      repeat split; congruence.
Qed.

Lemma disjoint_app_nil (bs : list (list N)) (n : nat) :
  disjoint_chains bs → disjoint_chains (bs ++ replicate n []).
Proof.
  intros [Hnd Hdj].
  assert (Hcase : ∀ i l, (bs ++ replicate n []) !! i = Some l →
                         bs !! i = Some l ∨ l = []).
  { intros i l Hl. apply lookup_app_Some in Hl as [Hl | [_ Hl]]; [by left|].
    right. by apply lookup_replicate in Hl as [-> _]. }
  split.
  - intros i l Hl. destruct (Hcase _ _ Hl) as [Hl' | ->];
      [by eapply Hnd | constructor].
  - intros i j li lj a Hi Hj Hai Haj.
    destruct (Hcase _ _ Hi) as [Hi' | ->]; [|by apply elem_of_nil in Hai].
    destruct (Hcase _ _ Hj) as [Hj' | ->]; [|by apply elem_of_nil in Haj].
    by eapply Hdj.
Qed.

(** Doubling a well-formed table: every chain is cut where [cut_at]
    says. *)
Lemma grow_double_cut (fuel : nat) (s : state) bs :
  wf s bs → 0 < tabsize s → 2 * tabsize s <= 2 ^ 31 →
  hash_newsize (count s) = 2 * tabsize s →
  maxsize s = 0 ∨ 2 * tabsize s <= maxsize s →
  (∀ i l, bs !! i = Some l → (length l < fuel)%nat) →
  ∃ s' bs',
    typesafe_hash_grow fuel s = Some s' ∧ tabsize s' = 2 * tabsize s ∧
    count s' = count s ∧ hashes s' = hashes s ∧ wf s' bs' ∧
    ∀ i, (i < Z.to_nat (tabsize s))%nat →
      ∃ l1 l2, bs !! i = Some (l1 ++ l2) ∧ bs' !! i = Some l1 ∧
               bs' !! (i + Z.to_nat (tabsize s))%nat = Some l2 ∧
               cut_at s (2 * tabsize s) (Z.of_nat i + tabsize s) l1 l2.
Proof.
  intros (Hlen & Hu32 & HF & Hh & Hdj) Hpos Hmax Hnew Hcap Hf.
  unfold typesafe_hash_grow. rewrite Hnew.
  rewrite (decide_False (P := _ ∧ _)) by lia.
  rewrite (decide_False (P := _ = _)) by lia.
  rewrite (decide_False (P := _ < _)) by lia.
  set (o := length (entries s)).
  assert (Ho : tabsize s = Z.of_nat o) by lia.
  assert (Hlb : length bs = o) by (symmetry; by eapply Forall2_length).
  rewrite Ho. replace (2 * Z.of_nat o - Z.of_nat o) with (Z.of_nat o) by lia.
  rewrite Nat2Z.id. rewrite take_ge by done.
  destruct (grow_buckets_inv o fuel bs o 0
              (set_entries s (entries s ++ replicate o NULL))
              (bs ++ replicate o []))
    as (s1 & cur & Hg & Hinv & Hhs & Hts & Hcn & Hmx & Hmn);
    try done; try lia.
  - split; [rewrite length_app, length_replicate; lia|].
    split; [cbn; rewrite length_app, length_replicate; lia|].
    split; [cbn; apply Forall2_app; [done | by apply Forall2_replicate]|].
    split.
    { intros i l Hl. apply lookup_app_Some in Hl as [Hl | [_ Hl]].
      - apply (hashed_eq s); [done | by eapply Hh].
      - apply lookup_replicate in Hl as [-> _]. intros a Ha.
        by apply elem_of_nil in Ha. }
    split; [by apply disjoint_app_nil|].
    intros i Hi. destruct (lookup_lt_is_Some_2 bs i) as [l Hl]; [lia|].
    exists l, []. rewrite app_nil_r. split; [done|].
    split; [by apply lookup_app_l_Some|]. split; [|split; [done | lia]].
    rewrite lookup_app_r by lia. apply lookup_replicate_2. lia.
  - change (Z.of_nat 0) with 0 in Hg. rewrite Hg. cbn.
    destruct Hinv as (Hlc & Hle & HF1 & Hh1 & Hdj1 & Hsplit).
    eexists _, cur. split; [done|]. cbn. split; [done|]. split; [done|].
    split; [done|]. split.
    + split; [cbn; lia|]. split; [cbn; unfold u32_max; lia|].
      split; [done|]. split; [|done].
      intros i l Hl. apply (hashed_eq s1); [done | by eapply Hh1].
    + intros i Hi.
      destruct (Hsplit i) as (l1 & l2 & ? & ? & ? & _ & Hcut); [lia|].
      exists l1, l2. split; [done|]. split; [done|]. split; [done|].
      apply (cut_at_eq s1); [done|]. apply Hcut. lia.
Qed.

(** Doubling a well-formed table. *)
Lemma grow_double (fuel : nat) (s : state) bs :
  wf s bs → 0 < tabsize s → 2 * tabsize s <= 2 ^ 31 →
  hash_newsize (count s) = 2 * tabsize s →
  maxsize s = 0 ∨ 2 * tabsize s <= maxsize s →
  (∀ i l, bs !! i = Some l → (length l < fuel)%nat) →
  ∃ s' bs',
    typesafe_hash_grow fuel s = Some s' ∧ tabsize s' = 2 * tabsize s ∧
    count s' = count s ∧ wf s' bs' ∧
    ∀ i, (i < Z.to_nat (tabsize s))%nat →
      ∃ l1 l2, bs !! i = Some (l1 ++ l2) ∧ bs' !! i = Some l1 ∧
               bs' !! (i + Z.to_nat (tabsize s))%nat = Some l2.
Proof.
  intros Hwf Hpos Hmax Hnew Hcap Hf.
  destruct (grow_double_cut fuel s bs Hwf Hpos Hmax Hnew Hcap Hf)
    as (s' & bs' & Hg & Hts & Hcn & _ & Hwf' & Hsplit).
  exists s', bs'. split; [done|]. split; [done|]. split; [done|].
  split; [done|]. intros i Hi.
  destruct (Hsplit i Hi) as (l1 & l2 & ? & ? & ? & _). by exists l1, l2.
Qed.


End GrowFacts.

(** ** Hash table: the scans of [find] *)

Module HashScan.
Import THash DelAbsent GrowFacts.

Lemma cut_slot_cons (np : hslot) (a : N) (l1 : list N) :
  cut_slot np (a :: l1) = cut_slot (SlotItem a) l1.
Proof. unfold cut_slot. rewrite last_cons. by destruct (last l1). Qed.

Lemma cut_slot_app (np : hslot) (l1 l2 : list N) :
  cut_slot (cut_slot np l1) l2 = cut_slot np (l1 ++ l2).
Proof. unfold cut_slot. rewrite last_app. by destruct (last l2). Qed.

(** The first scan stops in front of the first item whose hash value is not
    below [hval]. *)
Lemma lt_scan_split (s : state) (hval : Z) l : ∀ fuel np p,
  hslot_get s np = Some p → chain (load (nexts s)) p l → hashed s l →
  (length l < fuel)%nat →
  ∃ l1 l2 q,
    l = l1 ++ l2 ∧ lt_scan fuel s hval np = Some (cut_slot np l1) ∧
    hslot_get s (cut_slot np l1) = Some q ∧ chain (load (nexts s)) q l2 ∧
    Forall (λ a, ∃ hv, hashes s !! a = Some hv ∧ hv < hval) l1 ∧
    (∀ a, head l2 = Some a → ∃ hv, hashes s !! a = Some hv ∧ hval <= hv).
Proof.
  induction l as [|a l IH]; intros fuel np p Hget Hc Hh Hf;
    (destruct fuel as [|f]; [simpl in Hf; lia|]); simpl in Hc |- *.
  - subst p. exists [], [], NULL. rewrite Hget. cbn -[decide].
    rewrite decide_True by done. by repeat split.
  - pose proof Hc as Hc0. destruct Hc as (-> & Ha & n & Hn & Hc).
    rewrite Hget. cbn -[decide]. rewrite decide_False by done.
    destruct (Hh a) as (hv & Hhv & Hr); [by left|].
    rewrite (load_lookup _ _ _ Ha Hhv). cbn -[decide].
    destruct (decide (hv < hval)) as [Hlt|Hge].
    + destruct (IH f (SlotItem a) n)
        as (l1 & l2 & q & -> & Hs & Hg & Hq & Hall & Hhd);
        [done | done | by intros b Hb; apply Hh; right | simpl in Hf; lia|].
      exists (a :: l1), l2, q. rewrite cut_slot_cons.
      split; [done|]. split; [done|]. split; [done|]. split; [done|].
      split; [|done]. constructor; [by exists hv | done].
    + exists [], (a :: l), a. split; [done|]. split; [done|].
      split; [done|]. split; [done|]. split; [constructor|].
      intros b [= <-]. exists hv. split; [done | lia].
Qed.

(** The second loop of [find] returns NULL or an item of the chain with the
    hash value and an equal comparison. *)
Lemma find_run_sound (cmpfn : N → N → Z) (s : state) (item : N) (hval : Z) l :
  ∀ fuel p,
  chain (load (nexts s)) p l → hashed s l → (length l < fuel)%nat →
  ∃ r, find_run cmpfn fuel s item hval p = Some r ∧
       (r = NULL ∨
        (r ∈ l ∧ hashes s !! r = Some hval ∧ cmpfn r item = 0)).
Proof.
  induction l as [|a l IH]; intros fuel p Hc Hh Hf;
    (destruct fuel as [|f]; [simpl in Hf; lia|]); simpl in Hc |- *.
  - subst p. exists NULL. rewrite decide_True by done. by split; [|left].
  - destruct Hc as (-> & Ha & n & Hn & Hc). rewrite decide_False by done.
    destruct (Hh a) as (hv & Hhv & Hr); [by left|].
    rewrite (load_lookup _ _ _ Ha Hhv). cbn -[decide].
    destruct (decide (hv = hval)) as [->|Hne]; [|by exists NULL; split; [|left]].
    destruct (decide (cmpfn a item = 0)) as [Heq|Hneq].
    + exists a. split; [done|]. right. split; [by left | done].
    + rewrite Hn. cbn -[decide].
      destruct (IH f n) as (r & Hr' & Hres);
        [done | by intros b Hb; apply Hh; right | simpl in Hf; lia|].
      exists r. split; [done|]. destruct Hres as [?|(? & ? & ?)]; [by left|].
      right. split; [by right | done].
Qed.

End HashScan.

(** ** Hash table: what [find] returns, before and after growth *)

Module HashGrowFind.
Import THash DelAbsent GrowFacts HashScan.

Section Lists.

Context (cmpfn : N → N → Z) (hs : gmap N Z) (item : N) (hval : Z).







End Lists.





End HashGrowFind.

(** * The claims *)

(** The example states are the ones the operations produce. *)
Lemma example_states :
  Examples.list_8_16 = Some Examples.list_8_16_state ∧
  Examples.sorted_1_5 = Some Examples.sorted_1_5_state ∧
  THash.add Examples.key 8 (THash.init ∅ ∅) 64%N = Some Examples.hash_4.
Proof. vm_compute. done. Qed.

(** The one-item hash table is well formed, whatever its count field. *)
Lemma hash_4_wf (c : Z) :
  THash.wf (THash.set_count Examples.hash_4 c) [[64%N]; []].
Proof.
  split; [done|]. split; [done|]. split; [|split; [|split]].
  - repeat constructor; try done. by exists NULL.
  - intros [|[|i]] l Hl; simplify_eq/=.
    + intros a Ha. apply list_elem_of_singleton in Ha as ->.
      exists 4. split; [done | unfold u32_max; lia].
    + intros a Ha. by apply elem_of_nil in Ha.
  - intros [|[|i]] l Hl; simplify_eq/=; [apply NoDup_singleton | constructor].
  - intros [|[|i]] [|[|j]] li lj a Hi Hj Hai Haj; simplify_eq/=; try done;
      by (apply elem_of_nil in Hai || apply elem_of_nil in Haj).
Defined.

(** C1: the sorted list's [add] stores an item that compares equal to a
    resident one.  After [add] of the values 5, 1, 3, 3 the traversal visits
    four items, with values 1, 3, 3, 5, and the count is 4; [add] returns
    nothing. *)
Theorem ssort_add_stores_duplicate :
  (s ← Examples.sorted_5_1_3_3;
   l ← SSort.traverse 8 s;
   Some (l, map Examples.val l, SSort.count_items s))
  = Some ([16; 32; 24; 8]%N, [1; 3; 3; 5], 4).
Proof. vm_compute. reflexivity. Qed.

(** C2: [add_after] with a resident anchor links the item at the head of the
    list, not behind the anchor, and with a NULL anchor it faults. *)
Theorem slist_add_after_swapped :
  (s ← Examples.list_8_16;
   s ← SList.add_after s 8%N 24%N;
   l ← SList.traverse 8 s;
   Some (l, SList.count_items s)) = Some ([24; 8; 16]%N, 3) ∧
  (s ← Examples.list_8_16; SList.add_after s NULL 24%N) = None ∧
  (s ← Examples.list_8_16;
   s ← SList.add_head s 24%N;
   SList.traverse 8 s) = Some [24; 8; 16]%N.
Proof. vm_compute. done. Qed.

(** C3: the sorted list's [find] returns the first item that is not less than
    the reference, also when that item is greater: on the list of the values
    1 and 5, [find] of a reference of value 3 returns the item of value 5. *)
Theorem ssort_find_returns_greater (cmpval0 : Z) :
  (s ← Examples.sorted_1_5;
   SSort.find Examples.cmp_val 8 cmpval0 s 24%N) = Some 8%N ∧
  Examples.cmp_val 8 24 = 2.
Proof. split; reflexivity. Qed.

(** C4: the skip list never touches its count: after one [add] the traversal
    visits one item and [count] returns 0. *)
Theorem sskip_count_not_maintained :
  (s ← Examples.skip_64;
   l ← SSkip.traverse 8 s;
   Some (l, SSkip.count_items s)) = Some ([64]%N, 0).
Proof. vm_compute. reflexivity. Qed.


(** The table of [hash_1_5_2] is the one that three calls of [add] produce;
    growing it from 4 to 8 buckets leaves the key 1 in bucket 1, moves the
    key 5 to bucket 5 and leaves the key 2 in bucket 2. *)
Lemma hash_1_5_2_states :
  (s ← THash.add Examples.key 8 (THash.init ∅ ∅) 16%N;
   s ← THash.add Examples.key 8 s 80%N;
   THash.add Examples.key 8 s 32%N) = Some Examples.hash_1_5_2 ∧
  (s' ← THash.typesafe_hash_grow 4 Examples.hash_1_5_2_pending;
   Some (THash.entries s', THash.nexts s' !! 16%N, THash.tabsize s'))
  = Some ([NULL; 16; 32; NULL; NULL; 80; NULL; NULL]%N, Some NULL, 8).
Proof. vm_compute. done. Qed.




(** C6: the hash table's [add] stores an item that compares equal to a
    resident one: the items 16 and 272 have the same key, and after [add] of
    both the traversal visits both and the count is 2. *)
Theorem thash_add_stores_equal_item :
  Examples.cmp_key 272 16 = 0 ∧
  (s ← THash.add Examples.key 8 (THash.init ∅ ∅) 16%N;
   s ← THash.add Examples.key 8 s 272%N;
   l ← THash.traverse 8 s;
   Some (l, THash.count_items s)) = Some ([272; 16]%N, 2).
Proof. vm_compute. done. Qed.

(** C7: after [add] of the keys 4, 8, 1, 3 the table has 8 buckets and the
    item of hash value 8 sits on the chain of bucket 4, while 8 & 7 is 0 and
    bucket 0 is empty; [find] does not find it. *)
Theorem thash_item_in_wrong_bucket :
  ∃ s, Examples.hash_4_8_1_3 = Some s ∧ THash.tabsize s = 8 ∧
       THash.hashes s !! 128%N = Some 8 ∧
       Z.land 8 (THash.tabsize s - 1) = 0 ∧
       THash.entries s !! 0%nat = Some NULL ∧
       (p ← THash.entries s !! 4%nat; walk (load (THash.nexts s)) 8 p)
       = Some [64; 128]%N ∧
       THash.find Examples.cmp_key Examples.key 8 s 128%N = Some NULL.
Proof. eexists. split; [vm_compute; reflexivity|]. vm_compute. done. Qed.

(** C8: on the unsorted list, inserting distinct items with [add_head] and then
    popping as many times returns them in reverse insertion order; inserting
    them with [add_tail] and then popping returns them in insertion order; in
    both cases the container is empty afterwards and a further pop returns
    NULL. *)
Theorem slist_lifo_fifo (m : gmap N N) (l : list N) :
  NoDup l → NULL ∉ l →
  (∃ s s', SList.add_all SList.add_head l (SList.init m) = Some s ∧
           SList.pop_n (length l) s = Some (rev l, s') ∧
           SList.first_item s' = NULL ∧ SList.count_items s' = 0 ∧
           SList.pop s' = Some (NULL, s')) ∧
  (∃ s s', SList.add_all SList.add_tail l (SList.init m) = Some s ∧
           SList.pop_n (length l) s = Some (l, s') ∧
           SList.first_item s' = NULL ∧ SList.count_items s' = 0 ∧
           SList.pop s' = Some (NULL, s')).
Proof.
  intros Hnd Hnull. split.
  - destruct (SListRoundTrip.add_all_head_wf l (SList.init m) [])
      as (s & Hs & Hwf); [apply SListFacts.wf_init | by rewrite app_nil_r | done |].
    rewrite app_nil_r in Hwf.
    destruct (SListRoundTrip.pop_n_wf (rev l) s Hwf) as (s' & Hp & Hwf').
    rewrite length_rev in Hp. exists s, s'. split; [done|]. split; [done|].
    pose proof (SListFacts.pop_empty s' Hwf') as Hpop.
    destruct Hwf' as (Hf & _ & _ & Hc). by repeat split.
  - destruct (SListRoundTrip.add_all_tail_wf l (SList.init m) [])
      as (s & Hs & Hwf); [apply SListFacts.wf_init | done | done |].
    simpl in Hwf.
    destruct (SListRoundTrip.pop_n_wf l s Hwf) as (s' & Hp & Hwf').
    exists s, s'. split; [done|]. split; [done|].
    pose proof (SListFacts.pop_empty s' Hwf') as Hpop.
    destruct Hwf' as (Hf & _ & _ & Hc). by repeat split.
Qed.

Lemma slist_lifo_fifo_witness :
  (∃ s s', SList.add_all SList.add_head [8; 16; 24]%N (SList.init ∅) = Some s ∧
           SList.pop_n 3 s = Some ([24; 16; 8]%N, s') ∧
           SList.first_item s' = NULL ∧ SList.count_items s' = 0 ∧
           SList.pop s' = Some (NULL, s')) ∧
  (∃ s s', SList.add_all SList.add_tail [8; 16; 24]%N (SList.init ∅) = Some s ∧
           SList.pop_n 3 s = Some ([8; 16; 24]%N, s') ∧
           SList.first_item s' = NULL ∧ SList.count_items s' = 0 ∧
           SList.pop s' = Some (NULL, s')).
Proof.
  apply (slist_lifo_fifo ∅ [8; 16; 24]%N).
  - by apply (bool_decide_unpack _); vm_compute.
  - by apply (bool_decide_unpack _); vm_compute.
Defined.

(** C9: the skip list's [pop] returns the first item and unlinks it, and
    leaves the count as it was. *)
Theorem sskip_pop_keeps_count :
  (s ← Examples.skip_64;
   r ← SSkip.pop Examples.cmp_val 64 s;
   before ← SSkip.traverse 8 s;
   after ← SSkip.traverse 8 r.2;
   Some (r.1, before, after, SSkip.count_items s, SSkip.count_items r.2))
  = Some (64%N, [64]%N, [], 0, 0).
Proof. vm_compute. reflexivity. Qed.

(** C10: on the unsorted list, the sorted list and the hash table, [del] of
    an item that is not on the container returns with the container exactly as
    it was: same count, same items, same links. *)
Theorem del_absent_is_noop :
  (∀ (s : SList.state) l (item : N) (fuel : nat),
     SList.wf s l → item ∉ l → (length l < fuel)%nat →
     SList.del fuel s item = Some s) ∧
  (∀ (s : SSort.state) l (item : N) (fuel : nat),
     SSort.wf s l → item ∉ l → (length l < fuel)%nat →
     SSort.del fuel s item = Some s) ∧
  (∀ (hashfn : N → Z) (s : THash.state) bs (item : N) (fuel : nat),
     THash.wf s bs → (∀ i l, bs !! i = Some l → item ∉ l) → item ≠ NULL →
     (∀ i l, bs !! i = Some l → (length l < fuel)%nat) →
     THash.del hashfn fuel s item = Some s).
Proof.
  split; [|split].
  - apply DelAbsent.slist_del_absent.
  - apply DelAbsent.ssort_del_absent.
  - apply DelAbsent.thash_del_absent.
Qed.

Lemma del_absent_is_noop_witness :
  SList.del 4 Examples.list_8_16_state 24%N = Some Examples.list_8_16_state ∧
  SSort.del 4 Examples.sorted_1_5_state 24%N
  = Some Examples.sorted_1_5_state ∧
  THash.del Examples.key 4 Examples.hash_4 96%N = Some Examples.hash_4.
Proof.
  destruct del_absent_is_noop as (Hlist & Hsort & Hhash). split; [|split].
  - apply (Hlist _ [8; 16]%N).
    + split; [|split; [|split]]; try done.
      * split; [done|]. split; [done|]. exists 16%N. split; [done|].
        split; [done|]. split; [done|]. by exists NULL.
      * by apply (bool_decide_unpack _).
    + by apply (bool_decide_unpack _).
    + simpl. lia.
  - apply (Hsort _ [16; 8]%N).
    + split; [|done].
      split; [done|]. split; [done|]. exists 8%N. split; [done|].
      split; [done|]. split; [done|]. by exists NULL.
    + by apply (bool_decide_unpack _).
    + simpl. lia.
  - apply (Hhash Examples.key _ [[64%N]; []]).
    + exact (hash_4_wf 1).
    + intros [|[|i]] l Hl; simplify_eq/=; by apply (bool_decide_unpack _).
    + done.
    + intros [|[|i]] l Hl; simplify_eq/=; lia.
Defined.

(** * Further properties *)

(** ** Unsorted list: every operation *)

Module SListOps.
Import SList SListFacts.

Lemma load_Some_ne {A} (m : gmap N A) a v : load m a = Some v → a ≠ NULL.
Proof. unfold load. by destruct (decide (a = NULL)). Qed.

(** A NULL-terminated chain visits no item twice. *)
Lemma chain_functional nxt l1 : ∀ l2 p,
  chain nxt p l1 → chain nxt p l2 → l1 = l2.
Proof.
  induction l1 as [|a l1 IH]; intros [|b l2] p H1 H2; simpl in *; try done.
  - destruct H2 as (-> & Hb & _). done.
  - destruct H1 as (-> & Ha & _). done.
  - destruct H1 as (-> & _ & n1 & Hn1 & H1).
    destruct H2 as (<- & _ & n2 & Hn2 & H2).
    rewrite Hn1 in Hn2. injection Hn2 as <-. f_equal. by eapply IH.
Qed.

Lemma chain_app_inv nxt l1 : ∀ l2 p,
  chain nxt p (l1 ++ l2) →
  ∃ q, chain nxt q l2 ∧
       match last l1 with
       | None => q = p
       | Some b => nxt b = Some q
       end.
Proof.
  induction l1 as [|a l1 IH]; intros l2 p Hc; simpl in Hc.
  - by exists p.
  - destruct Hc as (-> & Ha & n & Hn & Hc).
    destruct (IH _ _ Hc) as (q & Hq & Hlast). exists q. split; [done|].
    rewrite last_cons. destruct (last l1); [done|]. by subst.
Qed.

Lemma chain_NoDup nxt l : ∀ p, chain nxt p l → NoDup l.
Proof.
  induction l as [|a l IH]; intros p Hc; [constructor|].
  pose proof Hc as Hc0. simpl in Hc. destruct Hc as (-> & Ha & n & Hn & Hc).
  constructor; [|by eapply IH].
  intros Hin. apply list_elem_of_split in Hin as (l1 & l2 & ->).
  destruct (chain_app_inv nxt l1 (a :: l2) n Hc) as (q & Hq & _).
  pose proof Hq as Hq0. simpl in Hq. destruct Hq as (-> & _).
  pose proof (chain_functional _ _ _ _ Hc0 Hq0) as Heq.
  apply (f_equal length) in Heq. simpl in Heq. rewrite length_app in Heq.
  simpl in Heq. lia.
Qed.

(** Unlinking the item behind [l1]. *)
Lemma chain_splice (m : gmap N N) l1 l2 item b nx : ∀ p,
  chain (load m) p (l1 ++ item :: l2) → last l1 = Some b →
  load m item = Some nx →
  chain (load (<[b := nx]> m)) p (l1 ++ l2).
Proof.
  intros p Hc. pose proof (chain_NoDup _ _ _ Hc) as Hnd. revert p Hc Hnd.
  induction l1 as [|a l1 IH]; intros p Hc Hnd Hlast Hnx; [done|].
  simpl in Hc, Hnd. destruct Hc as (-> & Ha & n & Hn & Hc).
  apply NoDup_cons in Hnd as [Hal Hnd].
  simpl. split; [done|]. split; [done|].
  destruct l1 as [|c l1].
  - simpl in Hlast. injection Hlast as <-. exists nx.
    split; [by apply load_insert_eq|].
    simpl in Hc. destruct Hc as (-> & _ & n' & Hn' & Hc).
    rewrite Hnx in Hn'. injection Hn' as <-.
    apply chain_insert_fresh; [|done].
    intros Hin. apply Hal. simpl. by right.
  - rewrite last_cons_cons in Hlast. exists n. split.
    + rewrite load_insert_ne; [done|]. intros ->. apply Hal.
      apply elem_of_app. left. by apply last_Some_elem_of.
    + by apply IH.
Qed.

Lemma del_scan_member (s : state) (item : N) l1 l2 : ∀ fuel iter p,
  slot_get s iter = Some p → chain (load s.1) p (l1 ++ item :: l2) →
  item ∉ l1 → (length l1 < fuel)%nat →
  del_scan fuel s item iter = Some (cut iter l1) ∧
  slot_get s (cut iter l1) = Some item.
Proof.
  induction l1 as [|a l1 IH]; intros fuel iter p Hget Hc Hin Hf;
    (destruct fuel as [|f]; [simpl in Hf; lia|]); simpl in Hc |- *.
  - destruct Hc as (-> & Ha & _). rewrite Hget. cbn -[decide].
    rewrite decide_False by tauto. done.
  - destruct Hc as (-> & Ha & n & Hn & Hc).
    apply not_elem_of_cons in Hin as [Hne Hin].
    rewrite Hget. cbn -[decide]. rewrite decide_True by (split; congruence).
    destruct (IH f (SlotNext a) n) as [Hd Hg]; [done..|simpl in Hf; lia|].
    replace (cut iter (a :: l1)) with (cut (SlotNext a) l1); [done|].
    unfold cut. rewrite last_cons. by destruct (last l1).
Qed.

Lemma filter_ne_absent (a : N) (l : list N) :
  a ∉ l → filter (λ x, x ≠ a) l = l.
Proof.
  induction l as [|b l IH]; intros Hin; [done|].
  apply not_elem_of_cons in Hin as [Hne Hin].
  rewrite filter_cons_True by congruence. by rewrite IH.
Qed.

Lemma filter_ne_split (a : N) (l1 l2 : list N) :
  a ∉ l1 → a ∉ l2 → filter (λ x, x ≠ a) (l1 ++ a :: l2) = l1 ++ l2.
Proof.
  intros H1 H2. rewrite filter_app, filter_cons_False by tauto.
  by rewrite !filter_ne_absent.
Qed.

Lemma del_member_wf (s : state) l (item : N) (fuel : nat) :
  wf s l → item ∈ l → (length l < fuel)%nat →
  ∃ s', del fuel s item = Some s' ∧ wf s' (filter (λ x, x ≠ item) l).
Proof.
  destruct s as [m [f ln c]]. intros (Hc & Hnd & Hln & Hcnt) Hin Hf.
  cbn [fst snd first last_next count] in *.
  apply list_elem_of_split in Hin as (l1 & l2 & ->).
  pose proof Hnd as Hnd0.
  apply NoDup_app in Hnd as (Hnd1 & Hd & Hnd2).
  apply NoDup_cons in Hnd2 as [Hi2 Hnd2].
  assert (Hi1 : item ∉ l1) by (intros H; apply (Hd _ H); by left).
  rewrite filter_ne_split by done.
  rewrite length_app in Hf, Hcnt. simpl in Hf, Hcnt.
  destruct (del_scan_member (m, Build_slist_head f ln c) item l1 l2 fuel
              SlotFirst f) as [Hscan Hget]; try done; [lia|].
  destruct (chain_app_inv _ _ _ _ Hc) as (q & Hq & Hlast1).
  simpl in Hq. destruct Hq as (-> & Hiz & nx & Hnx & Hc2).
  unfold del. rewrite Hscan. cbn -[decide cut]. rewrite Hget.
  cbn -[decide cut]. rewrite decide_False by done.
  cbn -[decide cut]. rewrite Hnx. cbn -[decide cut].
  assert (Hcount : size_dec c = Z.of_nat (length (l1 ++ l2)) mod size_max).
  { rewrite Hcnt, length_app.
    replace (length l1 + S (length l2))%nat with (S (length l1 + length l2))
      by lia. apply count_pred. }
  assert (Hnd' : NoDup (l1 ++ l2)).
  { apply NoDup_app. split; [done|]. split; [|done].
    intros x Hx Hx'. apply (Hd x Hx). by right. }
  assert (Hlastl : last (l1 ++ item :: l2)
                   = match last l2 with Some y => Some y | None => Some item end).
  { rewrite last_app. simpl. rewrite last_cons. by destruct (last l2). }
  rewrite Hlastl in Hln.
  assert (Hlast' : last (l1 ++ l2)
                   = match last l2 with Some y => Some y | None => last l1 end).
  { rewrite last_app. by destruct (last l2). }
  unfold cut in *. destruct (last l1) as [b|] eqn:Hl1.
  - assert (Hbz : b ≠ NULL).
    { intros ->. apply (chain_not_null _ _ _ Hc). apply elem_of_app. left.
      by apply last_Some_elem_of. }
    assert (Hbi : b ≠ item).
    { intros ->. apply Hi1. by apply last_Some_elem_of. }
    unfold slot_set, store. cbn -[decide]. rewrite decide_False by done.
    cbn -[decide]. rewrite load_insert_ne by done. rewrite Hnx.
    cbn -[decide].
    pose proof (chain_splice m l1 l2 item b nx f Hc Hl1 Hnx) as Hsp.
    eexists. split; [done|].
    destruct l2 as [|y l2].
    + simpl in Hc2. subst nx. rewrite decide_True by done.
      split; [|split; [|split]]; cbn -[last]; try done.
      by rewrite Hlast'.
    + simpl in Hc2. destruct Hc2 as (-> & Hyz & _).
      rewrite decide_False by done.
      split; [|split; [|split]]; cbn -[last]; try done.
      rewrite Hlast', Hln.
      destruct (last (y :: l2)) eqn:E; [done | by apply last_None in E].
  - apply last_None in Hl1. subst l1. simpl in *. subst f.
    cbn -[decide]. rewrite Hnx. cbn -[decide].
    eexists. split; [done|].
    destruct l2 as [|y l2].
    + simpl in Hc2. subst nx. rewrite decide_True by done.
      split; [|split; [|split]]; cbn -[last]; done.
    + simpl in Hc2. destruct Hc2 as (-> & Hyz & Hc2).
      rewrite decide_False by done.
      split; [|split; [|split]]; cbn -[last]; try done.
      rewrite Hln.
      destruct (last (y :: l2)) eqn:E; [done | by apply last_None in E].
Qed.

End SListOps.

(** ** Sorted list: every operation *)

Module SSortOps.
Import SSort SListFacts SListOps.

Section WithCmp.

Variable cmpfn : N → N → Z.

Lemma add_scan_spec (s : state) (item : N) l : ∀ fuel np p,
  slot_get s np = Some p → chain (load s.1) p l → (length l < fuel)%nat →
  ∃ l1 l2 q,
    l = l1 ++ l2 ∧ add_scan cmpfn fuel s item np = Some (SList.cut np l1) ∧
    slot_get s (SList.cut np l1) = Some q ∧ chain (load s.1) q l2 ∧
    sorted_insert cmpfn item l = l1 ++ item :: l2.
Proof.
  induction l as [|a l IH]; intros fuel np p Hget Hc Hf;
    (destruct fuel as [|f]; [simpl in Hf; lia|]); simpl in Hc |- *.
  - subst p. exists [], [], NULL. rewrite Hget. cbn -[decide].
    rewrite decide_False by tauto. done.
  - pose proof Hc as Hc0. destruct Hc as (-> & Ha & n & Hn & Hc).
    rewrite Hget. cbn -[decide].
    destruct (decide (cmpfn a item < 0)) as [Hlt|Hge].
    + rewrite decide_True by done.
      destruct (IH f (SlotNext a) n) as (l1 & l2 & q & -> & Hs & Hg & Hq & Hi);
        [done | done | simpl in Hf; lia|].
      exists (a :: l1), l2, q.
      replace (SList.cut np (a :: l1)) with (SList.cut (SlotNext a) l1).
      2:{ unfold SList.cut. rewrite last_cons. by destruct (last l1). }
      rewrite Hi. done.
    + rewrite decide_False by tauto.
      exists [], (a :: l), a. done.
Qed.

(** Linking an item behind [l1]. *)
Lemma chain_link (m : gmap N N) l1 l2 item q : ∀ p,
  chain (load m) p (l1 ++ l2) → item ∉ l1 ++ l2 → item ≠ NULL →
  (∃ p', chain (load m) p' l2 ∧ q = p') →
  match last l1 with None => q = p | Some b => load m b = Some q end →
  chain (load (match last l1 with
               | Some b => <[b := item]> (<[item := q]> m)
               | None => <[item := q]> m
               end))
        (match l1 with [] => item | _ => p end) (l1 ++ item :: l2).
Proof.
  intros p Hc. pose proof (chain_NoDup _ _ _ Hc) as Hnd. revert p Hc Hnd.
  induction l1 as [|a l1 IH]; intros p Hc Hnd Hin Hiz (p' & Hq & ->) Hlast.
  - simpl in *. subst p'. split; [done|]. split; [done|]. exists p.
    split; [by apply load_insert_eq|]. by apply chain_insert_fresh.
  - simpl in Hc, Hnd, Hin. destruct Hc as (-> & Ha & n & Hn & Hc).
    apply NoDup_cons in Hnd as [Hal Hnd].
    apply not_elem_of_cons in Hin as [Hia Hin].
    simpl. split; [done|]. split; [done|].
    destruct l1 as [|c l1].
    + simpl in Hlast, Hc |- *. rewrite Hn in Hlast. injection Hlast as ->.
      exists item. split; [by apply load_insert_eq|].
      split; [done|]. split; [done|]. exists p'. split.
      * rewrite load_insert_ne by done. by apply load_insert_eq.
      * apply chain_insert_fresh; [done|]. by apply chain_insert_fresh.
    + rewrite last_cons_cons in Hlast |- *.
      destruct (last (c :: l1)) as [b|] eqn:Hb.
      2:{ by apply last_None in Hb. }
      specialize (IH n Hc Hnd Hin Hiz (ex_intro _ p' (conj Hq eq_refl)) Hlast).
      exists n. split; [|done].
      rewrite !load_insert_ne; [done | congruence |].
      intros ->. apply Hal. apply elem_of_app. left.
      by apply last_Some_elem_of.
Qed.

Lemma add_wf (s : state) l (item : N) (fuel : nat) :
  wf s l → item ∉ l → item ≠ NULL → (length l < fuel)%nat →
  ∃ s', add cmpfn fuel s item = Some s' ∧
        wf s' (sorted_insert cmpfn item l).
Proof.
  destruct s as [m [f c]]. intros (Hc & Hcnt) Hin Hiz Hf.
  cbn [fst snd first count] in *.
  destruct (add_scan_spec (m, Build_ssort_head f c) item l fuel SlotFirst f)
    as (l1 & l2 & q & -> & Hscan & Hget & Hq & Hins); try done.
  rewrite Hins. unfold add. rewrite Hscan. cbn -[decide SList.cut].
  rewrite Hget. cbn -[decide SList.cut].
  unfold store. rewrite decide_False by done. cbn -[decide SList.cut].
  assert (Hcount : size_inc c
                   = Z.of_nat (length (l1 ++ item :: l2)) mod size_max).
  { rewrite Hcnt, !length_app. simpl.
    replace (length l1 + S (length l2))%nat with (S (length l1 + length l2))
      by lia. apply count_succ. }
  pose proof (chain_link m l1 l2 item q f Hc Hin Hiz
                (ex_intro _ q (conj Hq eq_refl))) as Hlink.
  unfold SList.cut in *. destruct (last l1) as [b|] eqn:Hl1.
  - simpl in Hget.
    assert (Hbz : b ≠ NULL) by (by apply load_Some_ne in Hget).
    unfold slot_set, store. cbn -[decide].
    rewrite decide_False by done. cbn -[decide].
    eexists. split; [done|]. split; [|done]. cbn.
    specialize (Hlink Hget). destruct l1; [done|]. done.
  - apply last_None in Hl1. subst l1. simpl in Hget. injection Hget as <-.
    cbn. eexists. split; [done|]. split; [|done]. cbn.
    by apply Hlink.
Qed.

Lemma find_scan_spec (s : state) (ref : N) l : ∀ fuel p cv,
  chain (load s.1) p l → (length l < fuel)%nat →
  ∃ cv', find_scan cmpfn fuel s ref p cv
         = Some (first_not_less cmpfn ref l, cv') ∧
         (first_not_less cmpfn ref l ≠ NULL → cv' = 0).
Proof.
  induction l as [|a l IH]; intros fuel p cv Hc Hf;
    (destruct fuel as [|f]; [simpl in Hf; lia|]); simpl in Hc |- *.
  - subst p. exists cv. by rewrite decide_True.
  - destruct Hc as (-> & Ha & n & Hn & Hc). rewrite decide_False by done.
    destruct (decide (cmpfn a ref < 0)) as [Hlt|Hge].
    + rewrite decide_True by done. rewrite Hn. cbn -[decide].
      apply IH; [done | simpl in Hf; lia].
    + rewrite decide_False by tauto. by exists 0.
Qed.

Lemma find_spec (s : state) l (ref : N) (fuel : nat) (cmpval0 : Z) :
  wf s l → (length l < fuel)%nat →
  find cmpfn fuel cmpval0 s ref = Some (first_not_less cmpfn ref l).
Proof.
  intros (Hc & _) Hf. unfold find.
  destruct (find_scan_spec s ref l fuel _ cmpval0 Hc Hf) as (cv & -> & Hcv).
  cbn -[decide].
  destruct (decide (first_not_less cmpfn ref l = NULL)) as [->|Hne].
  - by rewrite decide_True by by left.
  - rewrite decide_False; [done|]. rewrite (Hcv Hne). intros [?|?]; [done|lia].
Qed.

Lemma first_not_less_null (ref : N) l :
  NULL ∉ l →
  (first_not_less cmpfn ref l = NULL ↔ Forall (λ a, cmpfn a ref < 0) l).
Proof.
  induction l as [|a l IH]; intros Hnull; simpl; [done|].
  apply not_elem_of_cons in Hnull as [Ha Hnull].
  destruct (decide (cmpfn a ref < 0)) as [Hlt|Hge].
  - rewrite (IH Hnull). split; [by constructor | by inversion 1].
  - split; [congruence|]. by inversion 1.
Qed.

Lemma first_not_less_elem (ref : N) l :
  first_not_less cmpfn ref l ≠ NULL →
  first_not_less cmpfn ref l ∈ l ∧ 0 <= cmpfn (first_not_less cmpfn ref l) ref.
Proof.
  induction l as [|a l IH]; simpl; [done|].
  destruct (decide (cmpfn a ref < 0)) as [Hlt|Hge].
  - intros Hne. destruct (IH Hne). split; [by right | done].
  - intros _. split; [by left | lia].
Qed.

Lemma elem_of_sorted_insert (item x : N) l :
  x ∈ sorted_insert cmpfn item l ↔ x = item ∨ x ∈ l.
Proof.
  induction l as [|a l IH]; simpl.
  - rewrite list_elem_of_singleton. split; [by left|].
    intros [?|H]; [done | by apply elem_of_nil in H].
  - destruct (decide (cmpfn a item < 0)).
    + rewrite !elem_of_cons, IH. tauto.
    + rewrite !elem_of_cons. tauto.
Qed.

Lemma length_sorted_insert (item : N) l :
  length (sorted_insert cmpfn item l) = S (length l).
Proof.
  induction l as [|a l IH]; simpl; [done|].
  destruct (decide (cmpfn a item < 0)); simpl; by rewrite ?IH.
Qed.

Section Laws.

(** The comparison function orders the items. *)
Hypothesis cmp_trans : ∀ a b c, cmpfn a b <= 0 → cmpfn b c <= 0 → cmpfn a c <= 0.
Hypothesis cmp_anti : ∀ a b, 0 <= cmpfn a b → cmpfn b a <= 0.

Lemma sorted_insert_sorted (item : N) l :
  sorted cmpfn l → sorted cmpfn (sorted_insert cmpfn item l).
Proof.
  induction l as [|a l IH]; simpl; [by split|].
  intros [Hall Hs]. destruct (decide (cmpfn a item < 0)) as [Hlt|Hge]; simpl.
  - split; [|by apply IH]. apply Forall_forall. intros x Hx.
    apply elem_of_sorted_insert in Hx as [->|Hx]; [lia|].
    by apply (proj1 (Forall_forall _ _) Hall).
  - assert (Hia : cmpfn item a <= 0) by (apply cmp_anti; lia).
    split; [|by split]. constructor; [done|].
    apply Forall_forall. intros x Hx. apply (cmp_trans _ a); [done|].
    by apply (proj1 (Forall_forall _ _) Hall).
Qed.

Lemma first_not_less_equal (ref e : N) l :
  sorted cmpfn l → e ∈ l → cmpfn e ref = 0 →
  first_not_less cmpfn ref l ∈ l ∧
  cmpfn (first_not_less cmpfn ref l) ref = 0.
Proof.
  induction l as [|a l IH]; simpl; intros Hs He Heq.
  - by apply elem_of_nil in He.
  - destruct Hs as [Hall Hs]. destruct (decide (cmpfn a ref < 0)) as [Hlt|Hge].
    + apply elem_of_cons in He as [->|He]; [lia|].
      destruct (IH Hs He Heq). split; [by right | done].
    + split; [by left|].
      apply elem_of_cons in He as [->|He]; [done|].
      assert (cmpfn a e <= 0) by by apply (proj1 (Forall_forall _ _) Hall).
      assert (cmpfn a ref <= 0) by (apply (cmp_trans _ e); lia). lia.
Qed.

End Laws.

Lemma sorted_pop_wf (s : state) a l :
  wf s (a :: l) → ∃ s', pop s = Some (a, s') ∧ wf s' l.
Proof.
  destruct s as [m [f c]]. intros ((Hf & Ha & n & Hn & Hc) & Hcnt).
  cbn [fst snd first count] in *. subst f. unfold pop. cbn -[decide].
  rewrite decide_False by done. rewrite Hn. cbn -[decide].
  eexists. split; [done|]. split; [done|]. cbn.
  rewrite Hcnt. apply (count_pred (length l)).
Qed.

Lemma sorted_del_scan_member (s : state) (item : N) l1 l2 : ∀ fuel iter p,
  slot_get s iter = Some p → chain (load s.1) p (l1 ++ item :: l2) →
  item ∉ l1 → (length l1 < fuel)%nat →
  del_scan fuel s item iter = Some (SList.cut iter l1) ∧
  slot_get s (SList.cut iter l1) = Some item.
Proof.
  induction l1 as [|a l1 IH]; intros fuel iter p Hget Hc Hin Hf;
    (destruct fuel as [|f]; [simpl in Hf; lia|]); simpl in Hc |- *.
  - destruct Hc as (-> & Ha & _). rewrite Hget. cbn -[decide].
    rewrite decide_False by tauto. done.
  - destruct Hc as (-> & Ha & n & Hn & Hc).
    apply not_elem_of_cons in Hin as [Hne Hin].
    rewrite Hget. cbn -[decide]. rewrite decide_True by (split; congruence).
    destruct (IH f (SlotNext a) n) as [Hd Hg]; [done..|simpl in Hf; lia|].
    replace (SList.cut iter (a :: l1)) with (SList.cut (SlotNext a) l1);
      [done|].
    unfold SList.cut. rewrite last_cons. by destruct (last l1).
Qed.

Lemma sorted_del_member_wf (s : state) l (item : N) (fuel : nat) :
  wf s l → item ∈ l → (length l < fuel)%nat →
  ∃ s', del fuel s item = Some s' ∧ wf s' (filter (λ x, x ≠ item) l).
Proof.
  destruct s as [m [f c]]. intros (Hc & Hcnt) Hin Hf.
  cbn [fst snd first count] in *.
  pose proof (chain_NoDup _ _ _ Hc) as Hnd.
  apply list_elem_of_split in Hin as (l1 & l2 & ->).
  apply NoDup_app in Hnd as (Hnd1 & Hd & Hnd2).
  apply NoDup_cons in Hnd2 as [Hi2 Hnd2].
  assert (Hi1 : item ∉ l1) by (intros H; apply (Hd _ H); by left).
  rewrite filter_ne_split by done.
  rewrite length_app in Hf, Hcnt. simpl in Hf, Hcnt.
  destruct (sorted_del_scan_member (m, Build_ssort_head f c) item l1 l2 fuel
              SlotFirst f) as [Hscan Hget]; try done; [lia|].
  destruct (chain_app_inv _ _ _ _ Hc) as (q & Hq & Hlast1).
  simpl in Hq. destruct Hq as (-> & Hiz & nx & Hnx & Hc2).
  unfold del. rewrite Hscan. cbn -[decide SList.cut]. rewrite Hget.
  cbn -[decide SList.cut]. rewrite decide_False by done.
  cbn -[decide SList.cut]. rewrite Hnx. cbn -[decide SList.cut].
  assert (Hcount : size_dec c = Z.of_nat (length (l1 ++ l2)) mod size_max).
  { rewrite Hcnt, length_app.
    replace (length l1 + S (length l2))%nat with (S (length l1 + length l2))
      by lia. apply count_pred. }
  unfold SList.cut in *. destruct (last l1) as [b|] eqn:Hl1.
  - assert (Hbz : b ≠ NULL) by (by apply load_Some_ne in Hlast1).
    unfold slot_set, store. cbn -[decide]. rewrite decide_False by done.
    cbn -[decide]. eexists. split; [done|]. split; [|done]. cbn.
    by apply (chain_splice m l1 l2 item b nx).
  - apply last_None in Hl1. subst l1. simpl in *. subst f.
    eexists. split; [done|]. by split.
Qed.

End WithCmp.

End SSortOps.

(** * Further results *)

(** The example states are well formed. *)
Lemma list_8_16_state_wf : SList.wf Examples.list_8_16_state [8; 16]%N.
Proof.
  split; [|split; [|split]]; try done.
  - split; [done|]. split; [done|]. exists 16%N. split; [done|].
    split; [done|]. split; [done|]. by exists NULL.
  - by apply (bool_decide_unpack _).
Defined.

Lemma sorted_1_5_state_wf : SSort.wf Examples.sorted_1_5_state [16; 8]%N.
Proof.
  split; [|done].
  split; [done|]. split; [done|]. exists 8%N. split; [done|].
  split; [done|]. split; [done|]. by exists NULL.
Defined.

Lemma cmp_val_trans (a b c : N) :
  Examples.cmp_val a b <= 0 → Examples.cmp_val b c <= 0 →
  Examples.cmp_val a c <= 0.
Proof. unfold Examples.cmp_val. lia. Defined.

Lemma cmp_val_anti (a b : N) :
  0 <= Examples.cmp_val a b → Examples.cmp_val b a <= 0.
Proof. unfold Examples.cmp_val. lia. Defined.

(** X1: [del] of a resident item of the unsorted list unlinks exactly that
    item: the other items stay in their order, the tail pointer stays
    consistent (the result is well formed), the count goes down by one and
    the traversal visits the remaining items. *)
Theorem slist_del_removes_item (s : SList.state) (l : list N) (item : N)
    (fuel : nat) :
  SList.wf s l → item ∈ l → (length l < fuel)%nat →
  ∃ s', SList.del fuel s item = Some s' ∧
        SList.wf s' (filter (λ x, x ≠ item) l) ∧
        SList.traverse fuel s' = Some (filter (λ x, x ≠ item) l) ∧
        SList.count_items s' = size_dec (SList.count_items s) ∧
        item ∉ filter (λ x, x ≠ item) l.
Proof.
  intros Hwf Hin Hf.
  destruct (SListOps.del_member_wf s l item fuel Hwf Hin Hf) as (s' & Hd & Hwf').
  exists s'. split; [done|]. split; [done|].
  pose proof (length_filter (λ x, x ≠ item) l) as Hlen.
  split; [|split].
  - destruct Hwf' as (Hc & _). apply walk_chain; [done | lia].
  - destruct Hwf as (_ & Hnd & _ & Hcnt). destruct Hwf' as (_ & _ & _ & Hcnt').
    unfold SList.count_items. rewrite Hcnt', Hcnt.
    apply list_elem_of_split in Hin as (l1 & l2 & ->).
    apply NoDup_app in Hnd as (_ & Hd' & Hnd2).
    apply NoDup_cons in Hnd2 as [Hi2 _].
    rewrite SListOps.filter_ne_split; [|intros H; apply (Hd' _ H); by left|done].
    rewrite !length_app. simpl.
    replace (length l1 + S (length l2))%nat with (S (length l1 + length l2))
      by lia.
    symmetry. apply SListFacts.count_pred.
  - rewrite list_elem_of_filter. tauto.
Qed.

Lemma slist_del_removes_item_witness :
  ∃ s', SList.del 3 Examples.list_8_16_state 8%N = Some s' ∧
        SList.wf s' (filter (λ x, x ≠ 8%N) [8; 16]%N) ∧
        SList.traverse 3 s' = Some (filter (λ x, x ≠ 8%N) [8; 16]%N) ∧
        SList.count_items s'
        = size_dec (SList.count_items Examples.list_8_16_state) ∧
        8%N ∉ filter (λ x, x ≠ 8%N) [8; 16]%N.
Proof.
  apply (slist_del_removes_item Examples.list_8_16_state [8; 16]%N 8%N 3).
  - exact list_8_16_state_wf.
  - by apply (bool_decide_unpack _).
  - simpl. lia.
Defined.

(** ** Sequences of operations on the unsorted list *)

Module SListRun.
Import SList.

Lemma length_abs_step (l : list N) (o : op) :
  (length (abs_step l o) ≤ S (length l))%nat.
Proof.
  destruct o; simpl; try lia.
  - rewrite length_app. simpl. lia.
  - pose proof (length_filter (λ x, x ≠ a) l). lia.
  - destruct l; simpl; lia.
Qed.

Lemma step_wf (fuel : nat) (s : state) (l : list N) (o : op) :
  wf s l → op_ok l o → (length l < fuel)%nat →
  ∃ s', step fuel s o = Some s' ∧ wf s' (abs_step l o).
Proof.
  intros Hwf Hok Hf. destruct o as [a|a|a|]; simpl in *.
  - destruct Hok. by apply SListFacts.add_head_wf.
  - destruct Hok. by apply SListFacts.add_tail_wf.
  - destruct (decide (a ∈ l)) as [Hin|Hin].
    + by apply SListOps.del_member_wf.
    + exists s. rewrite SListOps.filter_ne_absent by done.
      split; [|done]. by apply (DelAbsent.slist_del_absent s l).
  - destruct l as [|a l].
    + exists s. rewrite (SListFacts.pop_empty s Hwf). done.
    + destruct (SListFacts.pop_wf s a l Hwf) as (s' & -> & Hwf').
      by exists s'.
Qed.

Lemma run_wf (fuel : nat) (os : list op) : ∀ (s : state) (l : list N),
  wf s l → ops_ok l os → (length l + length os < fuel)%nat →
  ∃ s', run fuel os s = Some s' ∧ wf s' (foldl abs_step l os).
Proof.
  induction os as [|o os IH]; intros s l Hwf Hok Hf; simpl in *.
  - by exists s.
  - destruct Hok as [Ho Hok].
    destruct (step_wf fuel s l o Hwf Ho) as (s1 & -> & Hwf1); [lia|].
    cbn. apply IH; [done | done |].
    pose proof (length_abs_step l o). lia.
Qed.

Lemma length_foldl_abs_step (os : list op) : ∀ l : list N,
  (length (foldl abs_step l os) ≤ length l + length os)%nat.
Proof.
  induction os as [|o os IH]; intros l; simpl; [lia|].
  pose proof (IH (abs_step l o)). pose proof (length_abs_step l o). lia.
Qed.

End SListRun.

(** X2: the unsorted list implements a sequence.  Starting from [init], any
    series of [add_head], [add_tail], [del] and [pop] calls in which the
    inserted items are non-NULL and not already resident runs without a fault
    and leaves a well-formed list that holds exactly the sequence obtained by
    consing, appending, filtering and taking the tail; the [first]/[next]
    traversal visits that sequence and [count] is its length. *)
Theorem slist_run_refines (m : gmap N N) (os : list SList.op) (fuel : nat) :
  SList.ops_ok [] os → (length os < fuel)%nat →
  ∃ s, SList.run fuel os (SList.init m) = Some s ∧
       SList.wf s (foldl SList.abs_step [] os) ∧
       SList.traverse fuel s = Some (foldl SList.abs_step [] os) ∧
       SList.count_items s
       = Z.of_nat (length (foldl SList.abs_step [] os)) mod size_max.
Proof.
  intros Hok Hf.
  destruct (SListRun.run_wf fuel os (SList.init m) [])
    as (s & Hrun & Hwf); [apply SListFacts.wf_init | done | simpl; lia |].
  exists s. split; [done|]. split; [done|].
  pose proof (SListRun.length_foldl_abs_step os []) as Hlen. simpl in Hlen.
  destruct Hwf as (Hc & _ & _ & Hcnt). split; [|done].
  apply walk_chain; [done | lia].
Qed.

Lemma slist_run_refines_witness :
  ∃ s, SList.run 6
         [SList.OpAddTail 8%N; SList.OpAddHead 16%N; SList.OpAddTail 24%N;
          SList.OpDel 8%N; SList.OpPop] (SList.init ∅) = Some s ∧
       SList.wf s [24%N] ∧ SList.traverse 6 s = Some [24%N] ∧
       SList.count_items s = 1.
Proof.
  apply (slist_run_refines ∅
           [SList.OpAddTail 8%N; SList.OpAddHead 16%N; SList.OpAddTail 24%N;
            SList.OpDel 8%N; SList.OpPop] 6).
  - simpl. repeat split; try done; by apply (bool_decide_unpack _).
  - simpl. lia.
Defined.

(** X3: the sorted list's [add] links a non-resident item in front of the
    first resident item that does not compare strictly less than it (behind
    all items when there is none), keeps everything else in place and
    increments the count; the traversal visits the resulting sequence. *)
Theorem ssort_add_inserts_in_order (cmpfn : N → N → Z) (s : SSort.state)
    (l : list N) (item : N) (fuel : nat) :
  SSort.wf s l → item ∉ l → item ≠ NULL → (length l < fuel)%nat →
  ∃ s', SSort.add cmpfn fuel s item = Some s' ∧
        SSort.wf s' (SSort.sorted_insert cmpfn item l) ∧
        SSort.traverse (S fuel) s'
        = Some (SSort.sorted_insert cmpfn item l) ∧
        SSort.count_items s' = size_inc (SSort.count_items s).
Proof.
  intros Hwf Hin Hiz Hf.
  destruct (SSortOps.add_wf cmpfn s l item fuel Hwf Hin Hiz Hf)
    as (s' & Ha & Hwf').
  exists s'. split; [done|]. split; [done|].
  destruct Hwf as (_ & Hcnt). destruct Hwf' as (Hc' & Hcnt'). split.
  - apply walk_chain; [done|]. rewrite SSortOps.length_sorted_insert. lia.
  - unfold SSort.count_items. rewrite Hcnt', Hcnt.
    rewrite SSortOps.length_sorted_insert. symmetry.
    apply SListFacts.count_succ.
Qed.

Lemma ssort_add_inserts_in_order_witness :
  ∃ s', SSort.add Examples.cmp_val 3 Examples.sorted_1_5_state 24%N = Some s' ∧
        SSort.wf s' [16; 24; 8]%N ∧
        SSort.traverse 4 s' = Some [16; 24; 8]%N ∧
        SSort.count_items s'
        = size_inc (SSort.count_items Examples.sorted_1_5_state).
Proof.
  apply (ssort_add_inserts_in_order Examples.cmp_val
           Examples.sorted_1_5_state [16; 8]%N 24%N 3).
  - exact sorted_1_5_state_wf.
  - by apply (bool_decide_unpack _).
  - done.
  - simpl. lia.
Defined.

(** X4: when the comparison function is transitive and antisymmetric in the
    sense of an order, [add] keeps a sorted list sorted: the resulting
    sequence is sorted and holds the new item and the old items. *)
Theorem ssort_add_keeps_sorted (cmpfn : N → N → Z) (s : SSort.state)
    (l : list N) (item : N) (fuel : nat) :
  (∀ a b c, cmpfn a b <= 0 → cmpfn b c <= 0 → cmpfn a c <= 0) →
  (∀ a b, 0 <= cmpfn a b → cmpfn b a <= 0) →
  SSort.wf s l → SSort.sorted cmpfn l →
  item ∉ l → item ≠ NULL → (length l < fuel)%nat →
  ∃ s' l', SSort.add cmpfn fuel s item = Some s' ∧ SSort.wf s' l' ∧
           SSort.sorted cmpfn l' ∧ ∀ x, x ∈ l' ↔ x = item ∨ x ∈ l.
Proof.
  intros Htr Han Hwf Hs Hin Hiz Hf.
  destruct (SSortOps.add_wf cmpfn s l item fuel Hwf Hin Hiz Hf)
    as (s' & Ha & Hwf').
  exists s', (SSort.sorted_insert cmpfn item l). split; [done|].
  split; [done|]. split.
  - by apply SSortOps.sorted_insert_sorted.
  - intros x. apply SSortOps.elem_of_sorted_insert.
Qed.

Lemma ssort_add_keeps_sorted_witness :
  ∃ s' l', SSort.add Examples.cmp_val 3 Examples.sorted_1_5_state 24%N
           = Some s' ∧ SSort.wf s' l' ∧
           SSort.sorted Examples.cmp_val l' ∧
           ∀ x, x ∈ l' ↔ x = 24%N ∨ x ∈ [16; 8]%N.
Proof.
  apply (ssort_add_keeps_sorted Examples.cmp_val
           Examples.sorted_1_5_state [16; 8]%N 24%N 3).
  - exact cmp_val_trans.
  - exact cmp_val_anti.
  - exact sorted_1_5_state_wf.
  - simpl. repeat constructor. vm_compute. discriminate.
  - by apply (bool_decide_unpack _).
  - done.
  - simpl. lia.
Defined.

(** X5: the sorted list's [find] returns the first resident item that does
    not compare strictly less than the reference, whatever the initial
    content of its local variable: it returns NULL exactly when every
    resident item is strictly less, and otherwise a resident item that
    compares greater than or equal. *)
Theorem ssort_find_first_not_less (cmpfn : N → N → Z) (s : SSort.state)
    (l : list N) (ref : N) (fuel : nat) (cmpval0 : Z) :
  SSort.wf s l → (length l < fuel)%nat →
  ∃ r, SSort.find cmpfn fuel cmpval0 s ref = Some r ∧
       r = SSort.first_not_less cmpfn ref l ∧
       (r = NULL ↔ Forall (λ a, cmpfn a ref < 0) l) ∧
       (r ≠ NULL → r ∈ l ∧ 0 <= cmpfn r ref).
Proof.
  intros Hwf Hf. exists (SSort.first_not_less cmpfn ref l).
  split; [by apply SSortOps.find_spec|]. split; [done|]. split.
  - apply SSortOps.first_not_less_null. destruct Hwf as (Hc & _).
    by eapply chain_not_null.
  - apply SSortOps.first_not_less_elem.
Qed.

Lemma ssort_find_first_not_less_witness :
  ∃ r, SSort.find Examples.cmp_val 3 7 Examples.sorted_1_5_state 24%N = Some r ∧
       r = SSort.first_not_less Examples.cmp_val 24%N [16; 8]%N ∧
       (r = NULL ↔ Forall (λ a, Examples.cmp_val a 24%N < 0) [16; 8]%N) ∧
       (r ≠ NULL → r ∈ [16; 8]%N ∧ 0 <= Examples.cmp_val r 24%N).
Proof.
  apply (ssort_find_first_not_less Examples.cmp_val
           Examples.sorted_1_5_state [16; 8]%N 24%N 3 7).
  - exact sorted_1_5_state_wf.
  - simpl. lia.
Defined.

(** X6: on a sorted list, under a transitive comparison function, [find]
    returns a resident item that compares equal to the reference whenever
    such an item is resident. *)
Theorem ssort_find_finds_equal (cmpfn : N → N → Z) (s : SSort.state)
    (l : list N) (ref e : N) (fuel : nat) (cmpval0 : Z) :
  (∀ a b c, cmpfn a b <= 0 → cmpfn b c <= 0 → cmpfn a c <= 0) →
  SSort.wf s l → SSort.sorted cmpfn l → (length l < fuel)%nat →
  e ∈ l → cmpfn e ref = 0 →
  ∃ r, SSort.find cmpfn fuel cmpval0 s ref = Some r ∧ r ∈ l ∧
       cmpfn r ref = 0.
Proof.
  intros Htr Hwf Hs Hf He Heq. exists (SSort.first_not_less cmpfn ref l).
  split; [by apply SSortOps.find_spec|].
  by apply (SSortOps.first_not_less_equal cmpfn Htr ref e).
Qed.

Lemma ssort_find_finds_equal_witness :
  ∃ r, SSort.find Examples.cmp_val 3 7 Examples.sorted_1_5_state 8%N = Some r ∧
       r ∈ [16; 8]%N ∧ Examples.cmp_val r 8%N = 0.
Proof.
  apply (ssort_find_finds_equal Examples.cmp_val Examples.sorted_1_5_state
           [16; 8]%N 8%N 8%N 3 7).
  - exact cmp_val_trans.
  - exact sorted_1_5_state_wf.
  - simpl. repeat constructor. vm_compute. discriminate.
  - simpl. lia.
  - by apply (bool_decide_unpack _).
  - reflexivity.
Defined.

(** X7: [pop] on a non-empty sorted list returns the first item and leaves
    the rest, with the count decremented; on a sorted list the returned item
    compares less than or equal to every remaining one, and the rest is
    sorted. *)
Theorem ssort_pop_returns_least (cmpfn : N → N → Z) (s : SSort.state)
    (a : N) (l : list N) :
  SSort.wf s (a :: l) → SSort.sorted cmpfn (a :: l) →
  ∃ s', SSort.pop s = Some (a, s') ∧ SSort.wf s' l ∧
        SSort.sorted cmpfn l ∧ Forall (λ b, cmpfn a b <= 0) l ∧
        SSort.count_items s' = size_dec (SSort.count_items s).
Proof.
  intros Hwf [Hall Hs].
  destruct (SSortOps.sorted_pop_wf s a l Hwf) as (s' & Hp & Hwf').
  exists s'. split; [done|]. split; [done|]. split; [done|]. split; [done|].
  destruct Hwf as (_ & Hcnt). destruct Hwf' as (_ & Hcnt').
  unfold SSort.count_items. rewrite Hcnt', Hcnt. symmetry.
  apply (SListFacts.count_pred (length l)).
Qed.

Lemma ssort_pop_returns_least_witness :
  ∃ s', SSort.pop Examples.sorted_1_5_state = Some (16%N, s') ∧
        SSort.wf s' [8%N] ∧ SSort.sorted Examples.cmp_val [8%N] ∧
        Forall (λ b, Examples.cmp_val 16%N b <= 0) [8%N] ∧
        SSort.count_items s'
        = size_dec (SSort.count_items Examples.sorted_1_5_state).
Proof.
  apply (ssort_pop_returns_least Examples.cmp_val Examples.sorted_1_5_state
           16%N [8%N]).
  - exact sorted_1_5_state_wf.
  - simpl. repeat constructor. vm_compute. discriminate.
Defined.

(** X8: [del] of a resident item of the sorted list unlinks exactly that
    item; the other items stay in their order, so a sorted list stays
    sorted. *)
Theorem ssort_del_removes_item (cmpfn : N → N → Z) (s : SSort.state)
    (l : list N) (item : N) (fuel : nat) :
  SSort.wf s l → SSort.sorted cmpfn l → item ∈ l → (length l < fuel)%nat →
  ∃ s', SSort.del fuel s item = Some s' ∧
        SSort.wf s' (filter (λ x, x ≠ item) l) ∧
        SSort.sorted cmpfn (filter (λ x, x ≠ item) l) ∧
        item ∉ filter (λ x, x ≠ item) l.
Proof.
  intros Hwf Hs Hin Hf.
  destruct (SSortOps.sorted_del_member_wf cmpfn s l item fuel Hwf Hin Hf)
    as (s' & Hd & Hwf').
  exists s'. split; [done|]. split; [done|]. split.
  - clear -Hs. induction l as [|a l IH]; [done|].
    destruct Hs as [Hall Hs]. destruct (decide (a ≠ item)).
    + rewrite filter_cons_True by done. split; [|by apply IH].
      apply Forall_forall. intros x Hx. apply list_elem_of_filter in Hx as [_ Hx].
      by apply (proj1 (Forall_forall _ _) Hall).
    + rewrite filter_cons_False by done. by apply IH.
  - rewrite list_elem_of_filter. tauto.
Qed.

Lemma ssort_del_removes_item_witness :
  ∃ s', SSort.del 3 Examples.sorted_1_5_state 8%N = Some s' ∧
        SSort.wf s' (filter (λ x, x ≠ 8%N) [16; 8]%N) ∧
        SSort.sorted Examples.cmp_val (filter (λ x, x ≠ 8%N) [16; 8]%N) ∧
        8%N ∉ filter (λ x, x ≠ 8%N) [16; 8]%N.
Proof.
  apply (ssort_del_removes_item Examples.cmp_val Examples.sorted_1_5_state
           [16; 8]%N 8%N 3).
  - exact sorted_1_5_state_wf.
  - simpl. repeat constructor. vm_compute. discriminate.
  - by apply (bool_decide_unpack _).
  - simpl. lia.
Defined.

(** X9: the hash table's [find] never returns an item that does not compare
    equal: on a well-formed table it returns NULL or a resident item of the
    bucket selected by the reference's hash value whose cached hash value is
    that of the reference and which compares equal to the reference. *)
Theorem thash_find_sound (cmpfn : N → N → Z) (hashfn : N → Z)
    (s : THash.state) (bs : list (list N)) (item : N) (fuel : nat) :
  THash.wf s bs → (∀ i l, bs !! i = Some l → (length l < fuel)%nat) →
  ∃ r, THash.find cmpfn hashfn fuel s item = Some r ∧
       (r = NULL ∨
        ∃ l, bs !! Z.to_nat (Z.land (u32 (hashfn item))
                                    (u32 (THash.tabsize s - 1))) = Some l ∧
             r ∈ l ∧ THash.hashes s !! r = Some (u32 (hashfn item)) ∧
             cmpfn r item = 0).
Proof.
  intros Hwf Hf. unfold THash.find.
  destruct (decide (THash.tabsize s = 0)) as [|Hts].
  { exists NULL. split; [done | by left]. }
  destruct (DelAbsent.thash_bucket s bs (u32 (hashfn item)) Hwf Hts)
    as (l & Hl & (p & Hget & Hc & _)); [apply DelAbsent.u32_range|].
  assert (Hh : THash.hashed s l) by (destruct Hwf as (_ & _ & _ & Hh & _); eauto).
  destruct (HashScan.lt_scan_split s (u32 (hashfn item)) l fuel _ p Hget Hc Hh)
    as (l1 & l2 & q & -> & Hs & Hg & Hq & _); [by eapply Hf|].
  rewrite Hs. cbn -[decide]. rewrite Hg. cbn -[decide].
  destruct (HashScan.find_run_sound cmpfn s item (u32 (hashfn item)) l2 fuel q)
    as (r & Hr & Hres); [done | | |].
  { intros b Hb. apply Hh. apply elem_of_app. by right. }
  { specialize (Hf _ _ Hl). rewrite length_app in Hf. lia. }
  exists r. split; [done|]. destruct Hres as [?|(? & ? & ?)]; [by left|].
  right. exists (l1 ++ l2). split; [done|].
  split; [apply elem_of_app; by right | done].
Qed.

Lemma thash_find_sound_witness :
  ∃ r, THash.find Examples.cmp_key Examples.key 3 Examples.hash_4 64%N = Some r ∧
       (r = NULL ∨
        ∃ l, [[64%N]; []] !! Z.to_nat (Z.land (u32 (Examples.key 64%N))
                                 (u32 (THash.tabsize Examples.hash_4 - 1)))
             = Some l ∧
             r ∈ l ∧
             THash.hashes Examples.hash_4 !! r = Some (u32 (Examples.key 64%N)) ∧
             Examples.cmp_key r 64%N = 0).
Proof.
  apply (thash_find_sound Examples.cmp_key Examples.key Examples.hash_4
           [[64%N]; []] 64%N 3).
  - exact (hash_4_wf 1).
  - intros [|[|i]] l Hl; simplify_eq/=; lia.
Defined.

(** ** Hash table: insertion *)

Module HashAdd.
Import THash SListFacts DelAbsent GrowFacts HashScan.

Lemma store_ok {A} (m : gmap N A) (a : N) (v : A) :
  a ≠ NULL → store m a v = Some (<[a := v]> m).
Proof. intros. unfold store. by rewrite decide_False. Qed.

Lemma buckets_frame (m m' : gmap N N) (es es' : list N)
    (bs : list (list N)) (i : nat) (l' : list N) :
  Forall2 (chain (load m)) es bs → length es' = length es →
  (∀ j, j ≠ i → es' !! j = es !! j) →
  (∀ j l a, j ≠ i → bs !! j = Some l → a ∈ l → load m' a = load m a) →
  (∀ e, es' !! i = Some e → chain (load m') e l') →
  Forall2 (chain (load m')) es' (<[i := l']> bs).
Proof.
  intros HF Hlen Hes Hfr Hi.
  apply Forall2_same_length_lookup_2.
  { rewrite length_insert, Hlen. by eapply Forall2_length. }
  intros j e l He Hl.
  apply list_lookup_insert_Some in Hl as [(<- & <- & _) | (Hne & Hl)].
  - by apply Hi.
  - rewrite Hes in He by done.
    apply (chain_ext (load m)); [|by eapply Forall2_lookup_lr].
    intros a Ha. symmetry. by eapply Hfr.
Qed.

Lemma disjoint_insert_fresh (bs : list (list N)) (i : nat) l1 l2 (item : N) :
  disjoint_chains bs → bs !! i = Some (l1 ++ l2) →
  (∀ j l, bs !! j = Some l → item ∉ l) →
  disjoint_chains (<[i := l1 ++ item :: l2]> bs).
Proof.
  intros [Hnd Hdj] Hi Hfresh.
  pose proof (lookup_lt_Some _ _ _ Hi) as Hil.
  assert (Hsrc : ∀ j l a, <[i := l1 ++ item :: l2]> bs !! j = Some l →
                          a ∈ l → a ≠ item →
                          ∃ l0, bs !! j = Some l0 ∧ a ∈ l0).
  { intros j l a Hl Ha Hne.
    apply list_lookup_insert_Some in Hl as [(<- & <- & _) | (_ & Hl)].
    - exists (l1 ++ l2). split; [done|].
      rewrite elem_of_app, elem_of_cons in Ha. rewrite elem_of_app. tauto.
    - by exists l. }
  split.
  - intros j l Hl.
    apply list_lookup_insert_Some in Hl as [(<- & <- & _) | (_ & Hl)];
      [|by eapply Hnd].
    pose proof (Hnd _ _ Hi) as Hnd12. pose proof (Hfresh _ _ Hi) as Hf.
    apply NoDup_app in Hnd12 as (H1 & H2 & H3).
    apply NoDup_app. split; [done|]. split.
    + intros x Hx Hx'. apply elem_of_cons in Hx' as [->|Hx'].
      * apply Hf. apply elem_of_app. by left.
      * by apply (H2 x).
    + constructor; [|done]. intros Hx. apply Hf. apply elem_of_app. by right.
  - intros x y lx ly a Hx Hy Hax Hay.
    destruct (decide (a = item)) as [->|Hne].
    + apply list_lookup_insert_Some in Hx as [(<- & _) | (_ & Hx)];
        [|by destruct (Hfresh _ _ Hx)].
      apply list_lookup_insert_Some in Hy as [(<- & _) | (_ & Hy)];
        [done | by destruct (Hfresh _ _ Hy)].
    + destruct (Hsrc _ _ _ Hx Hax Hne) as (lx0 & Hx0 & Hax0).
      destruct (Hsrc _ _ _ Hy Hay Hne) as (ly0 & Hy0 & Hay0).
      by eapply Hdj.
Qed.

(** [add] on a table that has room: the item is linked into the bucket
    selected by its hash value, in front of the first item whose hash value
    is not smaller. *)
Lemma add_nogrow (hashfn : N → Z) (s : state) bs (item : N) (fuel : nat) :
  wf s bs → tabsize s ≠ 0 → u32 (count s + 1) < tabsize s →
  item ≠ NULL → (∀ j l, bs !! j = Some l → item ∉ l) →
  (∀ i l, bs !! i = Some l → (length l < fuel)%nat) →
  ∃ s' l1 l2,
    add hashfn fuel s item = Some s' ∧
    bs !! Z.to_nat (Z.land (u32 (hashfn item)) (u32 (tabsize s - 1)))
    = Some (l1 ++ l2) ∧
    wf s' (<[Z.to_nat (Z.land (u32 (hashfn item)) (u32 (tabsize s - 1)))
             := l1 ++ item :: l2]> bs) ∧
    Forall (λ a, ∃ hv, hashes s !! a = Some hv ∧ hv < u32 (hashfn item)) l1 ∧
    (∀ a, head l2 = Some a →
          ∃ hv, hashes s !! a = Some hv ∧ u32 (hashfn item) <= hv) ∧
    hashes s' = <[item := u32 (hashfn item)]> (hashes s) ∧
    count s' = u32 (count s + 1) ∧ tabsize s' = tabsize s ∧
    maxsize s' = maxsize s ∧ minsize s' = minsize s.
Proof.
  intros Hwf Hts Hroom Hiz Hfresh Hf.
  set (hval := u32 (hashfn item)).
  set (i := Z.to_nat (Z.land hval (u32 (tabsize s - 1)))).
  destruct (thash_bucket s bs hval Hwf Hts) as (l & Hl & (p & Hget & Hc & _)).
  { apply u32_range. }
  fold i in Hl. destruct Hwf as (Hlen & Hu32 & HF & Hh & Hdj).
  assert (Hget' : entries s !! i = Some p) by exact Hget.
  pose proof (Hh _ _ Hl) as Hhl.
  set (s3 := set_hashes (set_count s (u32 (count s + 1)))
                        (<[item := hval]> (hashes s))).
  assert (Hh3 : hashed s3 l).
  { intros a Ha. destruct (Hhl a Ha) as (hv & Hhv & Hr). exists hv.
    split; [|done]. cbn. rewrite lookup_insert_ne; [done|].
    intros ->. by apply (Hfresh _ _ Hl). }
  destruct (lt_scan_split s3 hval l fuel
              (SlotEntry (Z.land hval (u32 (tabsize s - 1)))) p)
    as (l1 & l2 & q & -> & Hs & Hg & Hq & Hall & Hhd);
    [done | done | done | by eapply Hf |].
  unfold add. cbn -[decide].
  rewrite decide_False.
  2:{ unfold HASH_GROW_THRESHOLD. cbn. lia. }
  cbn -[decide store]. rewrite (store_ok (hashes s) item) by done.
  cbn -[decide store]. fold hval. fold s3. rewrite Hs. cbn -[decide store].
  rewrite Hg. cbn -[decide store].
  rewrite (store_ok (nexts s) item) by done. cbn -[decide cut_slot].
  pose proof (SSortOps.chain_link (nexts s) l1 l2 item q p Hc
                (Hfresh _ _ Hl) Hiz (ex_intro _ q (conj Hq eq_refl))) as Hlink.
  assert (Hfr : ∀ j l a, j ≠ i → bs !! j = Some l → a ∈ l → a ≠ item ∧
                (∀ b, last l1 = Some b → a ≠ b)).
  { intros j l a Hj Hjl Ha. split.
    - intros ->. by apply (Hfresh _ _ Hjl).
    - intros b Hb ->. destruct Hdj as [_ Hdj]. apply Hj.
      apply (Hdj j i l (l1 ++ l2) b); try done.
      apply elem_of_app. left. by apply last_Some_elem_of. }
  assert (Hall' : Forall (λ a, ∃ hv, hashes s !! a = Some hv ∧ hv < hval) l1).
  { apply Forall_forall. intros a Ha.
    destruct (proj1 (Forall_forall _ _) Hall a Ha) as (hv & Hhv & Hlt).
    exists hv. split; [|done]. cbn in Hhv.
    rewrite lookup_insert_ne in Hhv; [done|].
    intros ->. apply (Hfresh _ _ Hl). apply elem_of_app. by left. }
  assert (Hhd' : ∀ a, head l2 = Some a →
                      ∃ hv, hashes s !! a = Some hv ∧ hval <= hv).
  { intros a Ha. destruct (Hhd a Ha) as (hv & Hhv & Hle).
    exists hv. split; [|done]. cbn in Hhv.
    rewrite lookup_insert_ne in Hhv; [done|].
    intros ->. apply (Hfresh _ _ Hl). apply elem_of_app. right.
    destruct l2; [done|]. injection Ha as ->. by left. }
  assert (Hhash' : ∀ j l, <[i := l1 ++ item :: l2]> bs !! j = Some l →
            ∀ a, a ∈ l → ∃ hv, <[item := hval]> (hashes s) !! a = Some hv ∧
                               0 <= hv < u32_max).
  { intros j l Hjl a Ha. destruct (decide (a = item)) as [->|Hne].
    - exists hval. split; [apply lookup_insert_eq | apply u32_range].
    - rewrite lookup_insert_ne by done.
      apply list_lookup_insert_Some in Hjl as [(<- & <- & _) | (_ & Hjl)].
      + apply Hhl. rewrite elem_of_app, elem_of_cons in Ha.
        rewrite elem_of_app. tauto.
      + by apply (Hh _ _ Hjl). }
  unfold cut_slot in *. destruct (last l1) as [b|] eqn:Hl1.
  - simpl in Hg. pose proof (load_Some _ _ _ Hg) as [Hbz _].
    rewrite hslot_set_item by done. cbn -[decide].
    eexists _, l1, l2. split; [done|]. split; [done|].
    split; [|by repeat split].
    split; [done|]. split; [done|]. split; [|split; [done|]].
    + cbn. apply (buckets_frame (nexts s) _ (entries s) (entries s) bs i);
        try done.
      * intros j l a Hj Hjl Ha. destruct (Hfr j l a Hj Hjl Ha) as [H1 H2].
        assert (a ≠ b) by by apply H2.
        by rewrite !load_insert_ne by congruence.
      * intros e He. rewrite Hget' in He. injection He as <-.
        specialize (Hlink Hg). destruct l1; [done|]. done.
    + by apply disjoint_insert_fresh.
  - apply last_None in Hl1. subst l1. simpl in Hg, Hlink.
    fold i in Hg. rewrite Hget' in Hg. injection Hg as <-.
    assert (Hil : (i < length (entries s))%nat) by by eapply lookup_lt_Some.
    unfold hslot_set. cbn -[decide]. rewrite decide_True by done.
    eexists _, [], l2. split; [done|]. split; [done|].
    split; [|by repeat split].
    split; [cbn; by rewrite length_insert|]. split; [done|].
    split; [|split; [done|]].
    + cbn. apply (buckets_frame (nexts s) _ (entries s) _ bs i); try done.
      * by rewrite length_insert.
      * intros j Hj. by apply list_lookup_insert_ne.
      * intros j l a Hj Hjl Ha. destruct (Hfr j l a Hj Hjl Ha) as [H1 _].
        by rewrite load_insert_ne.
      * intros e He. rewrite list_lookup_insert_eq in He by done.
        injection He as <-. by apply Hlink.
    + by apply (disjoint_insert_fresh bs i [] l2).
Qed.

End HashAdd.

(** ** Hash table: what grow leaves alone, and where the items go *)

Module HashMeta.
Import THash DelAbsent GrowFacts.

Lemma hslot_set_meta (s s' : state) (p : hslot) (v : N) :
  hslot_set s p v = Some s' → same_meta s s' ∧ tabsize s' = tabsize s.
Proof.
  destruct p as [i|a]; simpl.
  - destruct (decide _); [|done]. intros [= <-]. by repeat split.
  - unfold store. destruct (decide _); [done|]. intros [= <-]. by repeat split.
Qed.

Lemma same_meta_trans (s1 s2 s3 : state) :
  same_meta s1 s2 → same_meta s2 s3 → same_meta s1 s3.
Proof. intros (?&?&?&?) (?&?&?&?). repeat split; congruence. Qed.

Lemma grow_chain_meta (n o : Z) : ∀ fuel s apos j s',
  grow_chain fuel n o s apos j = Some s' →
  same_meta s s' ∧ tabsize s' = tabsize s.
Proof.
  induction fuel as [|f IH]; intros s apos j s' H; [done|]. simpl in H.
  destruct (hslot_get s apos) as [item|]; [|done]. cbn -[decide] in H.
  destruct (decide (item = NULL)); [injection H as <-; by repeat split|].
  destruct (load (hashes s) item) as [hv|]; [|done]. cbn -[decide] in H.
  destruct (decide _); [|by eapply IH].
  destruct (hslot_set s apos NULL) as [s1|] eqn:H1; [|done].
  cbn -[decide] in H.
  destruct (decide (Z.to_nat j < _)%nat); [|done]. cbn -[decide] in H.
  apply hslot_set_meta in H1 as [M1 T1]. apply IH in H as [M3 T3].
  cbn in T3. split; [|congruence].
  eapply same_meta_trans; [exact M1|]. exact M3.
Qed.

Lemma grow_buckets_meta (fuel : nat) (n o : Z) : ∀ k i s s',
  grow_buckets fuel n o k i s = Some s' →
  same_meta s s' ∧ tabsize s' = tabsize s.
Proof.
  induction k as [|k IH]; intros i s s' H; simpl in H.
  - injection H as <-. by repeat split.
  - destruct (grow_chain fuel n o s (SlotEntry i) (u32 (i + o))) as [s1|] eqn:H1;
      [|done]. cbn in H.
    apply grow_chain_meta in H1 as [M1 T1]. apply IH in H as [M2 T2].
    split; [by eapply same_meta_trans | congruence].
Qed.

Lemma grow_meta (fuel : nat) (s s' : state) :
  typesafe_hash_grow fuel s = Some s' → same_meta s s'.
Proof.
  unfold typesafe_hash_grow. intros H.
  destruct (decide (_ = tabsize s)); [injection H as <-; by repeat split|].
  destruct (decide (_ < tabsize s)); [done|].
  destruct (grow_buckets _ _ _ _ _ _) as [s1|] eqn:H1; [|done].
  cbn in H. injection H as <-.
  apply grow_buckets_meta in H1 as [M1 _]. exact M1.
Qed.

Lemma concat_zip_app (A : list (list N)) : ∀ B : list (list N),
  length A = length B →
  concat (zip_with app A B) ≡ₚ concat A ++ concat B.
Proof.
  induction A as [|a A IH]; intros [|b B] Hlen; simpl in *; try done.
  rewrite IH by lia. rewrite <- !app_assoc. apply Permutation_app_head.
  rewrite !app_assoc. apply Permutation_app_tail. apply Permutation_app_comm.
Qed.

(** The items of a doubled table are those of the old table. *)
Lemma split_perm (bs bs' : list (list N)) (o : nat) :
  length bs = o → length bs' = (2 * o)%nat →
  (∀ i, (i < o)%nat →
     ∃ l1 l2, bs !! i = Some (l1 ++ l2) ∧ bs' !! i = Some l1 ∧
              bs' !! (i + o)%nat = Some l2) →
  concat bs' ≡ₚ concat bs.
Proof.
  intros Hl Hl' Hsp.
  assert (Hbs : bs = zip_with app (take o bs') (drop o bs')).
  { apply list_eq. intros i. destruct (decide (i < o)%nat) as [Hi|Hi].
    - destruct (Hsp i Hi) as (l1 & l2 & -> & H1 & H2).
      rewrite lookup_zip_with, lookup_take_lt, H1 by done. cbn.
      rewrite lookup_drop. replace (o + i)%nat with (i + o)%nat by lia.
      by rewrite H2.
    - rewrite lookup_ge_None_2 by lia. symmetry. apply lookup_ge_None_2.
      rewrite length_zip_with, length_take. lia. }
  rewrite Hbs, concat_zip_app.
  - by rewrite <- concat_app, take_drop.
  - rewrite length_take, length_drop. lia.
Qed.

Lemma concat_insert_perm (bs : list (list N)) (i : nat) l1 l2 (item : N) :
  bs !! i = Some (l1 ++ l2) →
  concat (<[i := l1 ++ item :: l2]> bs) ≡ₚ item :: concat bs.
Proof.
  intros Hi. pose proof (lookup_lt_Some _ _ _ Hi) as Hlt.
  rewrite insert_take_drop by done.
  rewrite <- (take_drop_middle bs i (l1 ++ l2) Hi) at 3.
  rewrite !concat_app. simpl. rewrite <- !app_assoc. simpl.
  rewrite (Permutation_middle (concat (take i bs))).
  apply Permutation_app_head. symmetry. apply Permutation_middle.
Qed.

Lemma length_bucket_le (bs : list (list N)) (i : nat) l :
  bs !! i = Some l → (length l ≤ length (concat bs))%nat.
Proof.
  intros Hi. rewrite <- (take_drop_middle bs i l Hi).
  rewrite concat_app, length_app. simpl. rewrite length_app. lia.
Qed.

Lemma elem_of_concat (bs : list (list N)) (a : N) :
  a ∈ concat bs ↔ ∃ i l, bs !! i = Some l ∧ a ∈ l.
Proof.
  induction bs as [|b bs IH]; simpl.
  - split; [by intros H%elem_of_nil | by intros (i & l & H & _)].
  - rewrite elem_of_app, IH. split.
    + intros [H | (i & l & Hl & Ha)]; [by exists 0%nat, b|].
      by exists (S i), l.
    + intros ([|i] & l & Hl & Ha); simpl in Hl.
      * left. by injection Hl as ->.
      * right. by exists i, l.
Qed.

Lemma elem_of_bucket (bs : list (list N)) (i : nat) l (a : N) :
  bs !! i = Some l → a ∈ l → a ∈ concat bs.
Proof. intros Hi Ha. apply elem_of_concat. by exists i, l. Qed.

Lemma wf_set_count (s : state) bs (c : Z) : wf s bs → wf (set_count s c) bs.
Proof. by intros (?&?&?&?&?). Qed.

(** The first growth leaves every bucket empty. *)
Lemma grow_first_empty (fuel : nat) (s : state) :
  wf s [] → tabsize s = 0 → 0 < hash_newsize (count s) < u32_max →
  maxsize s = 0 →
  ∃ s', typesafe_hash_grow fuel s = Some s' ∧
        tabsize s' = hash_newsize (count s) ∧
        wf s' (replicate (Z.to_nat (hash_newsize (count s))) []).
Proof.
  intros (Hlen & Hu32 & HF & Hh & Hdj) Hts Hnew Hcap.
  unfold typesafe_hash_grow.
  rewrite (decide_False (P := _ ∧ _)) by lia.
  rewrite (decide_False (P := _ = _)) by lia.
  rewrite (decide_False (P := _ < _)) by lia.
  rewrite Hts. change (Z.to_nat 0) with 0%nat. rewrite take_0. cbn.
  rewrite Z.sub_0_r.
  set (n := Z.to_nat (hash_newsize (count s))).
  eexists. split; [done|]. cbn. split; [done|].
  split; [cbn; rewrite length_replicate; lia|]. split; [cbn; lia|].
  split; [cbn; by apply Forall2_replicate|]. split.
  - intros i l Hl a Ha. apply lookup_replicate in Hl as [-> _].
    by apply elem_of_nil in Ha.
  - apply (disjoint_app_nil [] n). split; intros *; by rewrite lookup_nil.
Qed.

(** When [add] grows the table, the rest of it is an [add] on the grown
    table that has room. *)
Lemma add_after_grow (hashfn : N → Z) (fuel : nat) (s s2 : state) (item : N) :
  tabsize s = 0 ∨ HASH_GROW_THRESHOLD (set_count s (u32 (count s + 1))) →
  typesafe_hash_grow fuel (set_count s (u32 (count s + 1))) = Some s2 →
  count s2 = u32 (count s + 1) → tabsize s2 ≠ 0 → count s2 < tabsize s2 →
  add hashfn fuel s item = add hashfn fuel (set_count s2 (count s)) item.
Proof.
  intros Hthr Hg Hc Hts Hroom. unfold add at 1.
  rewrite decide_True by (destruct Hthr; [left | right]; done).
  rewrite Hg. cbn -[decide]. unfold add.
  rewrite decide_False.
  2:{ unfold HASH_GROW_THRESHOLD. cbn. lia. }
  destruct s2 as [nx hv es ts c mx mn]. cbn in *. by subst c.
Qed.

End HashMeta.

(** ** Hash table: [add] keeps the invariant *)

Module HashAddInv.
Import THash DelAbsent GrowFacts HashScan HashAdd HashMeta.

Lemma add_room (hashfn : N → Z) (s : state) bs (item : N) (fuel : nat) :
  wf s bs → tabsize s ≠ 0 → 0 <= count s → count s + 1 < tabsize s →
  tabsize s = 2 ^ (Z.log2 (count s + 1) + 1) →
  maxsize s = 0 → minsize s = 0 → count s = Z.of_nat (length (concat bs)) →
  item ≠ NULL → item ∉ concat bs → (length (concat bs) < fuel)%nat →
  ∃ s' bs',
    add hashfn fuel s item = Some s' ∧ inv s' bs' ∧
    concat bs' ≡ₚ item :: concat bs ∧
    hashes s' = <[item := u32 (hashfn item)]> (hashes s) ∧
    ∃ l, bs' !! Z.to_nat (Z.land (u32 (hashfn item)) (u32 (tabsize s' - 1)))
         = Some l ∧ item ∈ l.
Proof.
  intros Hwf Hts Hc0 Hroom Hsz Hmx Hmn Hcnt Hiz Hfresh Hf.
  pose proof Hwf as (_ & Hu32 & _).
  assert (Hu : u32 (count s + 1) = count s + 1) by (apply u32_id; lia).
  destruct (add_nogrow hashfn s bs item fuel Hwf Hts)
    as (s' & l1 & l2 & Ha & Hl & Hwf' & _ & _ & Hh' & Hc' & Hts' & Hmx' & Hmn');
    [lia | done | | |].
  { intros j l Hjl Hin. apply Hfresh. by eapply elem_of_bucket. }
  { intros i l Hil. pose proof (length_bucket_le _ _ _ Hil). lia. }
  pose proof (concat_insert_perm bs _ l1 l2 item Hl) as Hperm.
  eexists s', _. split; [done|]. split; [|split; [done|split; [done|]]].
  - split; [done|]. split.
    + right. rewrite Hc', Hu, Hts'. split; [lia | done].
    + split; [congruence|]. split; [congruence|].
      rewrite Hc', Hu, (Permutation_length Hperm), Hcnt. simpl. lia.
  - rewrite Hts'. eexists. split.
    + apply list_lookup_insert_eq. by eapply lookup_lt_Some.
    + apply elem_of_app. right. by left.
Qed.

Lemma add_inv (hashfn : N → Z) (s : state) bs (item : N) (fuel : nat) :
  inv s bs → count s + 1 < 2 ^ 31 → item ≠ NULL → item ∉ concat bs →
  (length (concat bs) < fuel)%nat →
  ∃ s' bs',
    add hashfn fuel s item = Some s' ∧ inv s' bs' ∧
    concat bs' ≡ₚ item :: concat bs ∧
    hashes s' = <[item := u32 (hashfn item)]> (hashes s) ∧
    ∃ l, bs' !! Z.to_nat (Z.land (u32 (hashfn item)) (u32 (tabsize s' - 1)))
         = Some l ∧ item ∈ l.
Proof.
  intros (Hwf & Hsz & Hmx & Hmn & Hcnt) Hlim Hiz Hfresh Hf.
  assert (Hc0 : 0 <= count s) by lia.
  assert (Hu : u32 (count s + 1) = count s + 1)
    by (apply u32_id; unfold u32_max; lia).
  destruct Hsz as [[Hcz Htz] | [Hcp Hts]].
  - (* the first item *)
    assert (Hbs : bs = []).
    { destruct Hwf as (Hlen & _ & HF & _).
      apply Forall2_length in HF. destruct bs; [done|]. simpl in *. lia. }
    subst bs.
    assert (Hn1 : hash_newsize (u32 (count s + 1)) = 2)
      by (rewrite Hcz; by vm_compute).
    destruct (grow_first_empty fuel (set_count s (u32 (count s + 1))))
      as (s2 & Hg & Hts2 & Hwf2).
    { by apply wf_set_count. }
    { done. }
    { cbn. rewrite Hn1. unfold u32_max. lia. }
    { done. }
    pose proof (grow_meta _ _ _ Hg) as (Hh2 & Hc2 & Hmx2 & Hmn2).
    cbn in Hts2, Hwf2, Hh2, Hc2, Hmx2, Hmn2.
    rewrite Hn1 in Hts2, Hwf2.
    rewrite (add_after_grow hashfn fuel s s2 item);
      [| by left | done | done | lia | lia].
    destruct (add_room hashfn (set_count s2 (count s))
                (replicate (Z.to_nat 2) []) item fuel)
      as (s' & bs' & Ha & Hinv & Hperm & Hh' & Hpl).
    { by apply wf_set_count. }
    { cbn. lia. }
    { cbn. lia. }
    { cbn. lia. }
    { cbn. rewrite Hts2, Hcz. by vm_compute. }
    { cbn. congruence. }
    { cbn. congruence. }
    { cbn. by rewrite Hcz. }
    { done. }
    { intros H. by apply elem_of_nil in H. }
    { simpl. lia. }
    exists s', bs'. split; [done|]. split; [done|]. split; [done|].
    split; [cbn in Hh'; congruence | done].
  - pose proof (Z.log2_nonneg (count s)) as Hl0.
    destruct (Z.log2_spec (count s) Hcp) as [Hlo Hhi].
    rewrite <- Z.add_1_r in Hhi. rewrite <- Hts in Hhi.
    assert (Hpos : 0 < 2 ^ Z.log2 (count s)) by (apply Z.pow_pos_nonneg; lia).
    assert (Hdbl : tabsize s = 2 * 2 ^ Z.log2 (count s)).
    { rewrite Hts, Z.pow_add_r; lia. }
    destruct (decide (count s + 1 < tabsize s)) as [Hroom|Hfull].
    + apply add_room; try done; try lia.
      rewrite Hts. f_equal. f_equal. symmetry.
      apply Z.log2_unique; [done|]. rewrite <- Z.add_1_r, <- Hts. lia.
    + assert (Heq : count s + 1 = tabsize s) by lia.
      assert (Hl31 : Z.log2 (count s) + 1 < 31).
      { apply (Z.pow_lt_mono_r_iff 2); [lia | lia | lia]. }
      assert (Hlog : Z.log2 (count s + 1) = Z.log2 (count s) + 1).
      { rewrite Heq, Hts. apply Z.log2_pow2. lia. }
      assert (H2t : 2 * tabsize s = 2 ^ (Z.log2 (count s + 1) + 1)).
      { rewrite Hlog, (Z.pow_add_r 2 (Z.log2 (count s) + 1) 1) by lia. lia. }
      assert (H2le : 2 * tabsize s <= 2 ^ 31).
      { rewrite H2t, Hlog. apply Z.pow_le_mono_r; lia. }
      destruct (grow_double fuel (set_count s (u32 (count s + 1))) bs)
        as (s2 & bs2 & Hg & Hts2 & Hc2 & Hwf2 & Hsplit).
      { by apply wf_set_count. }
      { cbn. lia. }
      { cbn. lia. }
      { cbn. rewrite Hu, HashSize.hash_newsize_pow2 by lia. lia. }
      { by left. }
      { intros i l Hil. pose proof (length_bucket_le _ _ _ Hil). lia. }
      cbn in Hts2, Hc2, Hsplit.
      pose proof (grow_meta _ _ _ Hg) as (Hh2 & _ & Hmx2 & Hmn2).
      cbn in Hh2, Hmx2, Hmn2.
      assert (Hperm2 : concat bs2 ≡ₚ concat bs).
      { apply (split_perm bs bs2 (Z.to_nat (tabsize s))); [| |done].
        - destruct Hwf as (Hlen & _ & HF & _).
          apply Forall2_length in HF. lia.
        - destruct Hwf2 as (Hlen2 & _ & HF2 & _).
          apply Forall2_length in HF2. lia. }
      rewrite (add_after_grow hashfn fuel s s2 item);
        [| right; unfold HASH_GROW_THRESHOLD; cbn; lia | done | done
         | lia | lia].
      destruct (add_room hashfn (set_count s2 (count s)) bs2 item fuel)
        as (s' & bs' & Ha & Hinv & Hperm & Hh' & Hpl).
      { by apply wf_set_count. }
      { cbn. lia. }
      { cbn. lia. }
      { cbn. lia. }
      { cbn. lia. }
      { cbn. congruence. }
      { cbn. congruence. }
      { cbn. by rewrite (Permutation_length Hperm2). }
      { done. }
      { by rewrite Hperm2. }
      { by rewrite (Permutation_length Hperm2). }
      exists s', bs'. split; [done|]. split; [done|].
      split; [by rewrite Hperm, Hperm2|].
      split; [cbn in Hh'; congruence | done].
Qed.

End HashAddInv.

Lemma hash_4_inv : THash.inv Examples.hash_4 [[64%N]; []].
Proof.
  split; [exact (hash_4_wf 1)|]. split; [right; split; [done | reflexivity]|].
  done.
Defined.

(** X10: the hash table's [add] keeps the invariant of a table without
    configured bounds (well formed, no buckets when empty and otherwise the
    least power of two above the count, count equal to the number of resident
    items).  Adding a non-NULL item that is not resident, while the count
    stays below 2^31, returns a table that holds the old items and the new
    one, caches the item's hash value, and has the item on the chain of the
    bucket its hash value selects. *)
Theorem thash_add_keeps_invariant (hashfn : N → Z) (s : THash.state)
    (bs : list (list N)) (item : N) (fuel : nat) :
  THash.inv s bs → THash.count s + 1 < 2 ^ 31 → item ≠ NULL →
  item ∉ concat bs → (length (concat bs) < fuel)%nat →
  ∃ s' bs',
    THash.add hashfn fuel s item = Some s' ∧ THash.inv s' bs' ∧
    concat bs' ≡ₚ item :: concat bs ∧
    THash.hashes s' = <[item := u32 (hashfn item)]> (THash.hashes s) ∧
    ∃ l, bs' !! Z.to_nat (Z.land (u32 (hashfn item))
                                 (u32 (THash.tabsize s' - 1))) = Some l ∧
         item ∈ l.
Proof. apply HashAddInv.add_inv. Qed.

Lemma thash_add_keeps_invariant_witness :
  ∃ s' bs',
    THash.add Examples.key 3 Examples.hash_4 128%N = Some s' ∧
    THash.inv s' bs' ∧
    concat bs' ≡ₚ 128%N :: concat [[64%N]; []] ∧
    THash.hashes s'
    = <[128%N := u32 (Examples.key 128%N)]> (THash.hashes Examples.hash_4) ∧
    ∃ l, bs' !! Z.to_nat (Z.land (u32 (Examples.key 128%N))
                                 (u32 (THash.tabsize s' - 1))) = Some l ∧
         128%N ∈ l.
Proof.
  apply (thash_add_keeps_invariant Examples.key Examples.hash_4
           [[64%N]; []] 128%N 3).
  - exact hash_4_inv.
  - reflexivity.
  - done.
  - by apply (bool_decide_unpack _).
  - simpl. lia.
Defined.


(** ** Hash table: shrinking to half the size *)

Module HashShrink.
Import THash SListFacts SListOps DelAbsent GrowFacts HashScan HashAdd HashMeta.

Lemma shrink_tail_spec (s : state) l : ∀ fuel apos p,
  hslot_get s apos = Some p → chain (load (nexts s)) p l →
  (length l < fuel)%nat →
  shrink_tail fuel s apos = Some (cut_slot apos l) ∧
  hslot_get s (cut_slot apos l) = Some NULL.
Proof.
  induction l as [|a l IH]; intros fuel apos p Hget Hc Hf;
    (destruct fuel as [|f]; [simpl in Hf; lia|]); simpl in Hc |- *.
  - subst p. rewrite Hget. cbn -[decide]. by rewrite decide_False by tauto.
  - destruct Hc as (-> & Ha & n & Hn & Hc). rewrite Hget. cbn -[decide].
    rewrite decide_True by done. rewrite cut_slot_cons.
    apply (IH f (SlotItem a) n); [done | done | simpl in Hf; lia].
Qed.

(** Hanging the chain [l2] behind the last item of [l1]. *)
Lemma chain_append (m : gmap N N) l1 l2 b q : ∀ p,
  chain (load m) p l1 → chain (load m) q l2 → (∀ x, x ∈ l1 → x ∉ l2) →
  last l1 = Some b → chain (load (<[b := q]> m)) p (l1 ++ l2).
Proof.
  intros p Hc. pose proof (chain_NoDup _ _ _ Hc) as Hnd. revert p Hc Hnd.
  induction l1 as [|a l1 IH]; intros p Hc Hnd Hq Hdj Hlast; [done|].
  simpl in Hc. destruct Hc as (-> & Ha & n & Hn & Hc).
  apply NoDup_cons in Hnd as [Hal Hnd]. simpl. split; [done|]. split; [done|].
  destruct l1 as [|c l1].
  - simpl in Hlast. injection Hlast as <-. exists q.
    split; [by apply load_insert_eq|]. simpl in *. subst n.
    apply chain_insert_fresh; [|done]. apply Hdj. by left.
  - rewrite last_cons_cons in Hlast. exists n. split.
    + rewrite load_insert_ne; [done|]. intros ->. apply Hal.
      by apply last_Some_elem_of.
    + apply IH; try done. intros x Hx. apply Hdj. by right.
Qed.

Lemma lookup_total_elem (bs : list (list N)) (i : nat) (a : N) :
  a ∈ bs !!! i → bs !! i = Some (bs !!! i).
Proof.
  rewrite list_lookup_total_alt. destruct (bs !! i); [done|].
  simpl. by intros H%elem_of_nil.
Qed.

Lemma disjoint_total (bs : list (list N)) (i j : nat) (a : N) :
  disjoint_chains bs → a ∈ bs !!! i → a ∈ bs !!! j → i = j.
Proof.
  intros [_ Hdj] Hi Hj.
  apply (Hdj i j _ _ a (lookup_total_elem _ _ _ Hi)
           (lookup_total_elem _ _ _ Hj) Hi Hj).
Qed.

Lemma NoDup_total (bs : list (list N)) (i : nat) :
  disjoint_chains bs → NoDup (bs !!! i).
Proof.
  intros [Hnd _]. rewrite list_lookup_total_alt.
  destruct (bs !! i) eqn:E; [by eapply Hnd | constructor].
Qed.

Lemma elem_of_shrink_target (n : nat) (bs : list (list N)) (k idx : nat)
    (a : N) :
  a ∈ shrink_target n bs k idx → a ∈ bs !!! idx ∨ a ∈ bs !!! (idx + n)%nat.
Proof.
  unfold shrink_target. destruct (decide _); [|by left].
  by rewrite elem_of_app.
Qed.

(** Folding one bucket. *)
Lemma shrink_bucket (fuel n k : nat) (bs : list (list N)) (s0 s : state) :
  disjoint_chains bs → shrink_inv n bs k s0 s → (k < n)%nat →
  tabsize s0 = 2 * Z.of_nat n → 2 * Z.of_nat n <= 2 ^ 31 →
  (length (concat bs) < fuel)%nat → (2 ≤ fuel)%nat →
  ∃ s', shrink_fold fuel fuel (Z.of_nat n) s (SlotEntry (Z.of_nat k))
                    (u32 (Z.of_nat k + Z.of_nat n)) = Some s' ∧
        shrink_inv n bs (S k) s0 s'.
Proof.
  intros Hdj (Hlen & Hts & Hmeta & Hch) Hk Hts0 Hmax Hf Hf2.
  destruct fuel as [|[|f]]; [lia | lia |].
  assert (Hu1 : u32 (Z.of_nat k + Z.of_nat n) = Z.of_nat (k + n))
    by (rewrite u32_id; unfold u32_max; lia).
  assert (Hu2 : u32 (Z.of_nat (k + n) + Z.of_nat n) = Z.of_nat (k + n + n))
    by (rewrite u32_id; unfold u32_max; lia).
  destruct (lookup_lt_is_Some_2 (entries s) k) as [p Hp]; [lia|].
  destruct (lookup_lt_is_Some_2 (entries s) (k + n)) as [e He]; [lia|].
  pose proof (Hch _ _ Hp) as Hcp. pose proof (Hch _ _ He) as Hce.
  unfold shrink_target in Hcp, Hce.
  rewrite decide_False in Hcp by lia. rewrite decide_False in Hce by lia.
  set (l := bs !!! k) in *. set (lu := bs !!! (k + n)%nat) in *.
  assert (Hlf : (length l < S (S f))%nat).
  { destruct (bs !! k) as [l'|] eqn:E.
    - pose proof (length_bucket_le _ _ _ E). subst l.
      rewrite list_lookup_total_alt, E. simpl. lia.
    - subst l. rewrite list_lookup_total_alt, E. simpl. lia. }
  destruct (shrink_tail_spec s l (S (S f)) (SlotEntry (Z.of_nat k)) p)
    as [Htail Hnull]; [simpl; by rewrite Nat2Z.id | done | done |].
  rewrite Hu1. cbn [shrink_fold].
  rewrite decide_True by lia. rewrite Htail. cbn -[decide cut_slot shrink_fold].
  rewrite Nat2Z.id, He. cbn -[decide cut_slot shrink_fold].
  assert (Hdisj : ∀ x, x ∈ l → x ∉ lu).
  { intros x Hx Hx'. pose proof (disjoint_total bs _ _ x Hdj Hx Hx'). lia. }
  assert (Hother : ∀ idx a, idx ≠ k → a ∈ shrink_target n bs k idx →
                            a ∉ l).
  { intros idx a Hne Ha Hal.
    apply elem_of_shrink_target in Ha as [Ha|Ha].
    - pose proof (disjoint_total bs _ _ a Hdj Ha Hal). lia.
    - pose proof (disjoint_total bs _ _ a Hdj Ha Hal). lia. }
  assert (Htgt : ∀ idx, idx ≠ k →
                        shrink_target n bs (S k) idx = shrink_target n bs k idx).
  { intros idx Hne. unfold shrink_target.
    destruct (decide (idx < S k)%nat), (decide (idx < k)%nat); try done; lia. }
  assert (Htk : shrink_target n bs (S k) k = l ++ lu).
  { unfold shrink_target. by rewrite decide_True by lia. }
  unfold cut_slot in *. destruct (last l) as [b|] eqn:Hl.
  - simpl in Hnull. pose proof (load_Some _ _ _ Hnull) as [Hbz _].
    rewrite hslot_set_item by done. cbn -[decide shrink_fold].
    rewrite Hu2. cbn. rewrite decide_False by lia.
    eexists. split; [done|]. split; [done|]. split; [done|].
    split; [done|]. cbn. intros idx e' He'.
    destruct (decide (idx = k)) as [->|Hne].
    + rewrite Hp in He'. injection He' as <-. rewrite Htk.
      by apply chain_append.
    + rewrite Htgt by done. apply chain_insert_fresh; [|by apply Hch].
      intros Hb. apply (Hother idx b Hne Hb). by apply last_Some_elem_of.
  - apply last_None in Hl.
    rewrite hslot_set_entry by (rewrite Nat2Z.id; lia).
    cbn -[decide shrink_fold]. rewrite Hu2. cbn.
    rewrite decide_False by lia. rewrite Nat2Z.id.
    eexists. split; [done|]. split; [cbn; by rewrite length_insert|].
    split; [done|]. split; [done|]. cbn. intros idx e' He'.
    destruct (decide (idx = k)) as [->|Hne].
    + rewrite list_lookup_insert_eq in He' by lia. injection He' as <-.
      rewrite Htk, Hl. done.
    + rewrite list_lookup_insert_ne in He' by done. rewrite Htgt by done.
      by apply Hch.
Qed.

Lemma shrink_buckets_inv (fuel n : nat) (bs : list (list N)) (s0 : state) :
  ∀ m k s,
  disjoint_chains bs → shrink_inv n bs k s0 s → (k + m = n)%nat →
  tabsize s0 = 2 * Z.of_nat n → 2 * Z.of_nat n <= 2 ^ 31 →
  (length (concat bs) < fuel)%nat → (2 ≤ fuel)%nat →
  ∃ s', shrink_buckets fuel (Z.of_nat n) m (Z.of_nat k) s = Some s' ∧
        shrink_inv n bs n s0 s'.
Proof.
  induction m as [|m IH]; intros k s Hdj Hinv Hk Hts Hmax Hf Hf2; simpl.
  - replace k with n in Hinv by lia. by exists s.
  - destruct (shrink_bucket fuel n k bs s0 s) as (s1 & -> & Hinv1);
      try done; [lia|].
    cbn. replace (Z.of_nat k + 1) with (Z.of_nat (S k)) by lia.
    apply IH; try done. lia.
Qed.

Lemma folded_lookup (n : nat) (bs : list (list N)) (i : nat) :
  length bs = (2 * n)%nat → (i < n)%nat →
  folded n bs !! i = Some ((bs !!! i) ++ (bs !!! (i + n)%nat)).
Proof.
  intros Hlen Hi. unfold folded.
  destruct (lookup_lt_is_Some_2 bs i) as [l1 H1]; [lia|].
  destruct (lookup_lt_is_Some_2 bs (i + n)) as [l2 H2]; [lia|].
  rewrite lookup_zip_with, lookup_take_lt, H1 by done. cbn.
  rewrite lookup_drop. replace (n + i)%nat with (i + n)%nat by lia.
  rewrite H2. cbn.
  by rewrite !list_lookup_total_alt, H1, H2.
Qed.

Lemma folded_length (n : nat) (bs : list (list N)) :
  length bs = (2 * n)%nat → length (folded n bs) = n.
Proof.
  intros Hlen. unfold folded.
  rewrite length_zip_with, length_take, length_drop. lia.
Qed.

Lemma folded_perm (n : nat) (bs : list (list N)) :
  length bs = (2 * n)%nat → concat (folded n bs) ≡ₚ concat bs.
Proof.
  intros Hlen. unfold folded. rewrite concat_zip_app.
  - by rewrite <- concat_app, take_drop.
  - rewrite length_take, length_drop. lia.
Qed.

Lemma folded_disjoint (n : nat) (bs : list (list N)) :
  length bs = (2 * n)%nat → disjoint_chains bs →
  disjoint_chains (folded n bs).
Proof.
  intros Hlen Hdj.
  assert (Hlk : ∀ i l, folded n bs !! i = Some l →
                       (i < n)%nat ∧ l = (bs !!! i) ++ (bs !!! (i + n)%nat)).
  { intros i l Hl. pose proof (lookup_lt_Some _ _ _ Hl) as Hi.
    rewrite folded_length in Hi by done. split; [done|].
    rewrite folded_lookup in Hl by done. congruence. }
  split.
  - intros i l Hl. destruct (Hlk _ _ Hl) as [Hi ->].
    apply NoDup_app. split; [by apply NoDup_total|].
    split; [|by apply NoDup_total].
    intros x Hx Hx'. pose proof (disjoint_total bs _ _ x Hdj Hx Hx'). lia.
  - intros i j li lj a Hli Hlj Hai Haj.
    destruct (Hlk _ _ Hli) as [Hi ->]. destruct (Hlk _ _ Hlj) as [Hj ->].
    apply elem_of_app in Hai as [Hai|Hai];
      apply elem_of_app in Haj as [Haj|Haj];
      pose proof (disjoint_total bs _ _ a Hdj Hai Haj); lia.
Qed.

(** [typesafe_hash_shrink] from [2 n] to [n] buckets. *)
Lemma shrink_half (fuel : nat) (s : state) bs (n : nat) :
  wf s bs → tabsize s = 2 * Z.of_nat n → (0 < n)%nat →
  2 * Z.of_nat n <= 2 ^ 31 → count s ≠ 0 →
  hash_newsize (count s) = Z.of_nat n → minsize s = 0 →
  (length (concat bs) < fuel)%nat → (2 ≤ fuel)%nat →
  ∃ s', typesafe_hash_shrink fuel s = Some s' ∧ tabsize s' = Z.of_nat n ∧
        wf s' (folded n bs) ∧ same_meta s s'.
Proof.
  intros (Hlen & Hu32 & HF & Hh & Hdj) Hts Hn Hmax Hc Hnew Hmn Hf Hf2.
  assert (Hlb : length bs = (2 * n)%nat).
  { apply Forall2_length in HF. lia. }
  unfold typesafe_hash_shrink. rewrite decide_False by done. rewrite Hnew.
  rewrite (decide_False (P := _ ∧ _)) by lia.
  rewrite (decide_False (P := _ = _)) by lia.
  rewrite Nat2Z.id.
  destruct (shrink_buckets_inv fuel n bs s n 0 s) as (s1 & Hsb & Hinv);
    try done.
  { split; [lia|]. split; [done|]. split; [by repeat split|].
    intros idx e He. unfold shrink_target. rewrite decide_False by lia.
    destruct (Forall2_lookup_l _ _ _ _ _ HF He) as (l & Hl & Hcl).
    by rewrite list_lookup_total_alt, Hl. }
  change (Z.of_nat 0) with 0 in Hsb. rewrite Hsb. cbn -[decide].
  destruct Hinv as (Hlen1 & Hts1 & Hmeta & Hch).
  eexists. split; [done|]. cbn.
  split; [done|]. split; [|done].
  split; [cbn; rewrite length_take; lia|]. split; [cbn; lia|].
  split; [|split].
  - cbn. apply Forall2_same_length_lookup_2.
    { rewrite length_take, folded_length by done. lia. }
    intros i e l He Hl. pose proof (lookup_lt_Some _ _ _ Hl) as Hi.
    rewrite folded_length in Hi by done.
    rewrite lookup_take_lt in He by done. rewrite folded_lookup in Hl by done.
    injection Hl as <-. specialize (Hch _ _ He).
    unfold shrink_target in Hch. by rewrite decide_True in Hch by done.
  - intros i l Hl a Ha. pose proof (lookup_lt_Some _ _ _ Hl) as Hi.
    rewrite folded_length in Hi by done. rewrite folded_lookup in Hl by done.
    injection Hl as <-. destruct Hmeta as (Hhs & _). cbn. rewrite Hhs.
    apply elem_of_app in Ha as [Ha|Ha];
      apply (Hh _ _ (lookup_total_elem _ _ _ Ha) a Ha).
  - by apply folded_disjoint.
Qed.

End HashShrink.


Lemma hash_6_of_4_wf : THash.wf Examples.hash_6_of_4 [[]; []; [96%N]; []].
Proof.
  split; [done|]. split; [done|]. split; [|split; [|split]].
  - repeat constructor; try done. by exists NULL.
  - intros [|[|[|[|i]]]] l Hl; simplify_eq/=;
      try (intros a Ha; by apply elem_of_nil in Ha).
    intros a Ha. apply list_elem_of_singleton in Ha as ->.
    exists 6. split; [done | unfold u32_max; lia].
  - intros [|[|[|[|i]]]] l Hl; simplify_eq/=;
      try constructor; try apply NoDup_nil_2; by apply not_elem_of_nil.
  - intros [|[|[|[|i]]]] [|[|[|[|j]]]] li lj a Hi Hj Hai Haj; simplify_eq/=;
      try done;
      by (apply elem_of_nil in Hai || apply elem_of_nil in Haj).
Defined.

(** X11: [typesafe_hash_shrink] from [2 n] buckets to the [n] buckets that
    the count asks for hangs the chain of bucket [i + n] behind the chain of
    bucket [i], for every [i < n]: the table stays well formed, no item is
    lost, and the cached hash values and the count are left alone. *)
Theorem thash_shrink_folds (s : THash.state) (bs : list (list N)) (n : nat)
    (fuel : nat) :
  THash.wf s bs → THash.tabsize s = 2 * Z.of_nat n → (0 < n)%nat →
  2 * Z.of_nat n <= 2 ^ 31 → THash.count s ≠ 0 →
  THash.hash_newsize (THash.count s) = Z.of_nat n → THash.minsize s = 0 →
  (length (concat bs) < fuel)%nat → (2 ≤ fuel)%nat →
  ∃ s' bs',
    THash.typesafe_hash_shrink fuel s = Some s' ∧
    THash.tabsize s' = Z.of_nat n ∧ THash.wf s' bs' ∧ length bs' = n ∧
    (∀ i, (i < n)%nat →
          bs' !! i = Some ((bs !!! i) ++ (bs !!! (i + n)%nat))) ∧
    concat bs' ≡ₚ concat bs ∧
    THash.hashes s' = THash.hashes s ∧ THash.count s' = THash.count s.
Proof.
  intros Hwf Hts Hn Hmax Hc Hnew Hmn Hf Hf2.
  destruct (HashShrink.shrink_half fuel s bs n)
    as (s' & Hs & Hts' & Hwf' & Hh & Hc' & _); try done.
  assert (Hlb : length bs = (2 * n)%nat).
  { destruct Hwf as (Hlen & _ & HF & _). apply Forall2_length in HF. lia. }
  exists s', (THash.folded n bs). split; [done|]. split; [done|].
  split; [done|]. split; [by apply HashShrink.folded_length|].
  split; [intros i Hi; by apply HashShrink.folded_lookup|].
  split; [by apply HashShrink.folded_perm | done].
Qed.

Lemma thash_shrink_folds_witness :
  ∃ s' bs',
    THash.typesafe_hash_shrink 2 Examples.hash_6_of_4 = Some s' ∧
    THash.tabsize s' = Z.of_nat 2 ∧ THash.wf s' bs' ∧ length bs' = 2%nat ∧
    (∀ i, (i < 2)%nat →
          bs' !! i = Some (([[]; []; [96%N]; []] !!! i) ++
                           ([[]; []; [96%N]; []] !!! (i + 2)%nat))) ∧
    concat bs' ≡ₚ concat [[]; []; [96%N]; []] ∧
    THash.hashes s' = THash.hashes Examples.hash_6_of_4 ∧
    THash.count s' = THash.count Examples.hash_6_of_4.
Proof.
  apply (thash_shrink_folds Examples.hash_6_of_4 [[]; []; [96%N]; []] 2 2).
  - exact hash_6_of_4_wf.
  - reflexivity.
  - lia.
  - by vm_compute.
  - done.
  - reflexivity.
  - reflexivity.
  - simpl. lia.
  - lia.
Defined.

(** ** Hash table: removing an item *)

Module HashRemove.
Import THash SListFacts SListOps DelAbsent HashSize GrowFacts HashScan.
Import HashAdd HashMeta HashShrink.

Lemma inv_count_bound (s : state) bs : inv s bs → 0 <= count s < 2 ^ 31.
Proof.
  intros ((_ & Hu & _) & Hsz & _ & _ & Hc). split; [lia|].
  destruct Hsz as [[-> _]|[Hp Ht]]; [done|].
  unfold u32_max in Hu. rewrite Ht in Hu.
  apply Z.pow_lt_mono_r_iff in Hu; [|lia|lia].
  apply Z.log2_lt_pow2; [done | lia].
Qed.

(** The second loop of [del] stops on the chain it walks. *)
Lemma del_run_split (s : state) (item : N) (hval : Z) l : ∀ fuel np p,
  hslot_get s np = Some p → chain (load (nexts s)) p l → hashed s l →
  (length l < fuel)%nat →
  ∃ l1 l2 q,
    l = l1 ++ l2 ∧ del_run fuel s item hval np = Some (cut_slot np l1) ∧
    hslot_get s (cut_slot np l1) = Some q ∧ chain (load (nexts s)) q l2.
Proof.
  induction l as [|a l IH]; intros fuel np p Hget Hc Hh Hf;
    (destruct fuel as [|f]; [simpl in Hf; lia|]); simpl in Hc |- *.
  - subst p. exists [], [], NULL. rewrite Hget. cbn -[decide].
    rewrite decide_True by by left. by repeat split.
  - pose proof Hc as Hc0. destruct Hc as (-> & Ha & n & Hn & Hc).
    rewrite Hget. cbn -[decide].
    destruct (decide (a = NULL ∨ a = item)) as [Hst|Hgo].
    { exists [], (a :: l), a. split; [done|]. split; [done|]. by split. }
    destruct (Hh a) as (hv & Hhv & Hr); [by left|].
    rewrite (load_lookup _ _ _ Ha Hhv). cbn -[decide].
    destruct (decide (hv = hval)).
    + destruct (IH f (SlotItem a) n) as (l1 & l2 & q & -> & Hs & Hg & Hq);
        [done | done | by intros b Hb; apply Hh; right | simpl in Hf; lia|].
      exists (a :: l1), l2, q. rewrite cut_slot_cons. by repeat split.
    + exists [], (a :: l), a. split; [done|]. split; [done|]. by split.
Qed.

Lemma disjoint_sub (bs : list (list N)) (i : nat) l l' :
  disjoint_chains bs → bs !! i = Some l → NoDup l' → l' ⊆ l →
  disjoint_chains (<[i := l']> bs).
Proof.
  intros [Hnd Hdj] Hi Hnd' Hsub.
  assert (Hsrc : ∀ j lj a, <[i := l']> bs !! j = Some lj → a ∈ lj →
                           ∃ l0, bs !! j = Some l0 ∧ a ∈ l0).
  { intros j lj a Hl Ha.
    apply list_lookup_insert_Some in Hl as [(<- & <- & _) | (_ & Hl)].
    - exists l. split; [done | by apply Hsub].
    - by exists lj. }
  split.
  - intros j lj Hl.
    apply list_lookup_insert_Some in Hl as [(<- & <- & _) | (_ & Hl)];
      [done | by eapply Hnd].
  - intros x y lx ly a Hx Hy Hax Hay.
    destruct (Hsrc _ _ _ Hx Hax) as (lx0 & Hx0 & Hax0).
    destruct (Hsrc _ _ _ Hy Hay) as (ly0 & Hy0 & Hay0).
    by eapply Hdj.
Qed.

(** Unlinking the item behind the items [l1] of bucket [i]. *)
Lemma unlink_wf (s : state) bs (i : nat) l1 l2 (item : N) (c : Z) :
  wf s bs → bs !! i = Some (l1 ++ item :: l2) →
  ∃ nx s1,
    item ≠ NULL ∧ load (nexts s) item = Some nx ∧
    hslot_get s (cut_slot (SlotEntry (Z.of_nat i)) l1) = Some item ∧
    hslot_set s (cut_slot (SlotEntry (Z.of_nat i)) l1) nx = Some s1 ∧
    same_meta s s1 ∧ tabsize s1 = tabsize s ∧
    wf (set_count (set_nexts s1 (<[item := NULL]> (nexts s1))) c)
       (<[i := l1 ++ l2]> bs).
Proof.
  intros (Hlen & Hu32 & HF & Hh & Hdj) Hi.
  destruct (Forall2_lookup_r _ _ _ _ _ HF Hi) as (p & Hp & Hc).
  pose proof (lookup_lt_Some _ _ _ Hp) as Hil.
  pose proof (chain_NoDup _ _ _ Hc) as Hnd.
  destruct (chain_app_inv _ _ _ _ Hc) as (q & Hq & Hlast).
  simpl in Hq. destruct Hq as (-> & Hiz & nx & Hnx & Hc2).
  apply NoDup_app in Hnd as (Hnd1 & Hnd12 & Hnd2).
  apply NoDup_cons in Hnd2 as [Hi2 Hnd2].
  assert (Hi1 : item ∉ l1).
  { intros Hx. apply (Hnd12 _ Hx). by left. }
  assert (Hnd' : NoDup (l1 ++ l2)).
  { apply NoDup_app. split; [done|]. split; [|done].
    intros x Hx Hx'. apply (Hnd12 _ Hx). by right. }
  assert (Hsub : l1 ++ l2 ⊆ l1 ++ item :: l2).
  { intros x. rewrite !elem_of_app, elem_of_cons. tauto. }
  assert (Hoth : ∀ j l a, j ≠ i → bs !! j = Some l → a ∈ l →
                          a ∉ l1 ++ item :: l2).
  { intros j l a Hne Hl Ha Ha'. destruct Hdj as [_ Hdj].
    apply Hne. by eapply (Hdj j i). }
  assert (Hhs : ∀ j l, <[i := l1 ++ l2]> bs !! j = Some l →
                       ∀ a, a ∈ l → ∃ hv, hashes s !! a = Some hv ∧
                                          0 <= hv < u32_max).
  { intros j l Hl a Ha.
    apply list_lookup_insert_Some in Hl as [(<- & <- & _) | (_ & Hl)].
    - apply (Hh _ _ Hi). by apply Hsub.
    - by apply (Hh _ _ Hl). }
  exists nx. unfold cut_slot. destruct (last l1) as [b|] eqn:Hl1.
  - assert (Hb : b ∈ l1) by by apply last_Some_elem_of.
    pose proof (load_Some_ne _ _ _ Hlast) as Hbz.
    rewrite hslot_set_item by done. eexists. split; [done|].
    split; [done|]. split; [done|]. split; [done|]. split; [by repeat split|].
    split; [done|]. cbn. split; [done|]. split; [done|].
    split; [|split; [done | by eapply disjoint_sub]]. cbn.
    apply (buckets_frame (nexts s) _ (entries s)); try done.
    + intros j l a Hne Hl Ha. pose proof (Hoth _ _ _ Hne Hl Ha) as Hn.
      rewrite !load_insert_ne; [done | |].
      * intros ->. apply Hn. apply elem_of_app. by left.
      * intros ->. apply Hn. apply elem_of_app. right. by left.
    + intros e He. rewrite Hp in He. injection He as <-.
      apply chain_insert_fresh.
      * rewrite elem_of_app. tauto.
      * by eapply chain_splice.
  - apply last_None in Hl1. subst l1. simpl in *. subst p.
    rewrite !Nat2Z.id. rewrite decide_True by done.
    eexists. split; [done|]. split; [done|]. split; [done|]. split; [done|].
    split; [by repeat split|]. split; [done|]. unfold wf. cbn.
    split; [by rewrite length_insert|]. split; [done|].
    split; [|split; [done | by eapply disjoint_sub]].
    apply (buckets_frame (nexts s) _ (entries s)); try done.
    + by rewrite length_insert.
    + intros j Hne. by apply list_lookup_insert_ne.
    + intros j l a Hne Hl Ha. pose proof (Hoth _ _ _ Hne Hl Ha) as Hn.
      rewrite load_insert_ne; [done|]. intros ->. apply Hn. by left.
    + intros e He. rewrite list_lookup_insert_eq in He by done.
      injection He as <-. by apply chain_insert_fresh.
Qed.

(** The bucket of a hash value in a table of half the size. *)
Lemma land_half (hv m i : Z) :
  0 <= m → 0 <= i < 2 ^ m →
  Z.land hv (2 ^ (m + 1) - 1) = i ∨ Z.land hv (2 ^ (m + 1) - 1) = i + 2 ^ m →
  Z.land hv (2 ^ m - 1) = i.
Proof.
  intros Hm Hi Hj.
  replace (2 ^ (m + 1) - 1) with (Z.ones (m + 1)) in Hj
    by (rewrite Z.ones_equiv; lia).
  replace (2 ^ m - 1) with (Z.ones m) by (rewrite Z.ones_equiv; lia).
  rewrite Z.land_ones in Hj by lia. rewrite Z.land_ones by lia.
  assert (HP : 2 ^ (m + 1) = 2 * 2 ^ m) by (rewrite Z.pow_add_r; lia).
  assert (HP0 : 0 < 2 ^ m) by (apply Z.pow_pos_nonneg; lia).
  pose proof (Z.div_mod hv (2 ^ (m + 1)) ltac:(lia)) as Hdm.
  set (q := hv / 2 ^ (m + 1)) in *. set (j := hv mod 2 ^ (m + 1)) in *.
  rewrite Hdm, HP.
  destruct Hj as [Hj|Hj]; rewrite Hj.
  - replace (2 * 2 ^ m * q + i) with (i + (2 * q) * 2 ^ m) by lia.
    rewrite Z_mod_plus_full. by apply Z.mod_small.
  - replace (2 * 2 ^ m * q + (i + 2 ^ m)) with (i + (2 * q + 1) * 2 ^ m)
      by lia.
    rewrite Z_mod_plus_full. by apply Z.mod_small.
Qed.

(** Folding a table of [2^(m+1)] buckets to [2^m] keeps every item in the
    bucket of its hash value. *)
Lemma folded_placed (s s' : state) bs (m : Z) :
  0 <= m → m < 31 → tabsize s = 2 ^ (m + 1) → tabsize s' = 2 ^ m →
  hashes s' = hashes s → length bs = (2 * Z.to_nat (2 ^ m))%nat →
  placed s bs → placed s' (folded (Z.to_nat (2 ^ m)) bs).
Proof.
  intros Hm Hm31 Hts Hts' Hh Hlen Hpl i l a Hl Ha.
  assert (HP0 : 0 < 2 ^ m) by (apply Z.pow_pos_nonneg; lia).
  assert (HP : 2 ^ (m + 1) = 2 * 2 ^ m) by (rewrite Z.pow_add_r; lia).
  assert (HP31 : 2 ^ m <= 2 ^ 30) by (apply Z.pow_le_mono_r; lia).
  pose proof (lookup_lt_Some _ _ _ Hl) as Hi.
  rewrite folded_length in Hi by done.
  rewrite folded_lookup in Hl by done. injection Hl as <-.
  rewrite Hh, Hts'. rewrite u32_id by (unfold u32_max; lia).
  assert (Hcase : ∃ hv, hashes s !! a = Some hv ∧
            (Z.land hv (2 ^ (m + 1) - 1) = Z.of_nat i ∨
             Z.land hv (2 ^ (m + 1) - 1) = Z.of_nat i + 2 ^ m)).
  { apply elem_of_app in Ha as [Ha|Ha].
    - destruct (Hpl _ _ _ (lookup_total_elem _ _ _ Ha) Ha) as (hv & Hhv & Hb).
      rewrite Hts in Hb. rewrite u32_id in Hb by (unfold u32_max; lia).
      exists hv. split; [done | by left].
    - destruct (Hpl _ _ _ (lookup_total_elem _ _ _ Ha) Ha) as (hv & Hhv & Hb).
      rewrite Hts in Hb. rewrite u32_id in Hb by (unfold u32_max; lia).
      exists hv. split; [done|]. right. rewrite Hb. lia. }
  destruct Hcase as (hv & Hhv & Hb). exists hv. split; [done|].
  apply land_half; [done | lia | done].
Qed.

Lemma placed_unlink (s s3 : state) bs (i : nat) l1 l2 (item : N) :
  placed s bs → bs !! i = Some (l1 ++ item :: l2) →
  hashes s3 = hashes s → tabsize s3 = tabsize s →
  placed s3 (<[i := l1 ++ l2]> bs).
Proof.
  intros Hpl Hi Hh Hts j l a Hl Ha. rewrite Hh, Hts.
  apply list_lookup_insert_Some in Hl as [(<- & <- & _) | (_ & Hl)].
  - apply (Hpl _ _ _ Hi). rewrite elem_of_app, elem_of_cons.
    apply elem_of_app in Ha. tauto.
  - by apply (Hpl _ _ _ Hl).
Qed.

(** The shrink check that ends [del] and [pop], on the state that has lost
    one item. *)
Lemma after_remove (fuel : nat) (s2 : state) bs2 :
  wf s2 bs2 → maxsize s2 = 0 → minsize s2 = 0 →
  count s2 = Z.of_nat (length (concat bs2)) → count s2 + 1 < 2 ^ 31 →
  tabsize s2 = 2 ^ (Z.log2 (count s2 + 1) + 1) →
  (length (concat bs2) < fuel)%nat → (2 ≤ fuel)%nat →
  ∃ s' bs',
    (if decide (HASH_SHRINK_THRESHOLD s2) then typesafe_hash_shrink fuel s2
     else Some s2) = Some s' ∧
    inv s' bs' ∧ concat bs' ≡ₚ concat bs2 ∧ hashes s' = hashes s2 ∧
    (placed s2 bs2 → placed s' bs').
Proof.
  intros Hwf Hmx Hmn Hcnt Hlim Hts Hf Hf2.
  set (L := Z.log2 (count s2 + 1)) in *.
  assert (HL : 0 <= L < 31).
  { split; [apply Z.log2_nonneg|]. apply Z.log2_lt_pow2; lia. }
  pose proof (Z.log2_spec (count s2 + 1) ltac:(lia)) as HLs. fold L in HLs.
  rewrite <- Z.add_1_r in HLs.
  assert (HP : 2 ^ (L + 1) = 2 * 2 ^ L) by (rewrite Z.pow_add_r; lia).
  assert (HP0 : 0 < 2 ^ L) by (apply Z.pow_pos_nonneg; lia).
  assert (HT31 : 2 ^ (L + 1) <= 2 ^ 31)
    by (apply Z.pow_le_mono_r; lia).
  assert (Hu : u32 (tabsize s2 - 1) = tabsize s2 - 1).
  { apply u32_id. unfold u32_max. lia. }
  assert (Hdiv : (2 * 2 ^ L - 1) / 2 = 2 ^ L - 1).
  { symmetry. apply (Z.div_unique _ 2 _ 1); lia. }
  destruct (decide (HASH_SHRINK_THRESHOLD s2)) as [Hth|Hth];
    unfold HASH_SHRINK_THRESHOLD in Hth; rewrite Hu, Hts, HP, Hdiv in Hth.
  - assert (Hc : count s2 = 2 ^ L - 1) by lia.
    destruct (decide (count s2 = 0)) as [Hz|Hnz].
    + unfold typesafe_hash_shrink. rewrite decide_True by done.
      exists (set_tabsize (set_entries s2 []) 0), []. split; [done|].
      assert (Hnil : concat bs2 = []).
      { apply length_zero_iff_nil. lia. }
      split; [|split; [by rewrite Hnil|split; [done|]];
               intros _ i l a Hl; by rewrite lookup_nil in Hl].
      split.
      { split; [done|]. split; [done|]. split; [constructor|].
        split; [intros i l Hl; by rewrite lookup_nil in Hl|].
        split; [intros i l Hl | intros i j li lj a Hl];
          by rewrite lookup_nil in Hl. }
      split; [by left|]. done.
    + assert (HL1 : 1 <= L).
      { destruct (decide (L = 0)) as [HL0|]; [|lia].
        rewrite HL0 in Hc. simpl in Hc. lia. }
      assert (HPm : 2 ^ L = 2 * 2 ^ (L - 1)).
      { replace L with (L - 1 + 1) at 1 by lia. rewrite Z.pow_add_r; lia. }
      assert (HPm0 : 0 < 2 ^ (L - 1)) by (apply Z.pow_pos_nonneg; lia).
      assert (Hnew : hash_newsize (count s2) = 2 ^ L).
      { assert (HLe : 2 ^ (L - 1 + 1) = 2 ^ L) by (f_equal; lia).
        rewrite (hash_newsize_range (L - 1)); [done | lia |].
        rewrite HLe. lia. }
      assert (Hlog : hash_newsize (count s2) = 2 ^ (Z.log2 (count s2) + 1))
        by (apply hash_newsize_pow2; lia).
      destruct (shrink_half fuel s2 bs2 (Z.to_nat (2 ^ L)))
        as (s' & Hs & Hts' & Hwf' & Hh' & Hc' & Hmx' & Hmn'); try done; try lia.
      pose proof Hwf as (Hlen & _ & HF & _).
      assert (Hlb : length bs2 = (2 * Z.to_nat (2 ^ L))%nat).
      { apply Forall2_length in HF. lia. }
      exists s', (folded (Z.to_nat (2 ^ L)) bs2). split; [done|].
      pose proof (folded_perm _ _ Hlb) as Hperm.
      split; [|split; [done|split; [done|]];
               apply (folded_placed s2 s' bs2 L); try done; lia].
      split; [done|]. split.
      { right. rewrite Hc', Hts'. split; [lia|]. lia. }
      split; [congruence|]. split; [congruence|].
      rewrite Hc', (Permutation_length Hperm). done.
  - assert (Hc : 2 ^ L <= count s2) by lia.
    assert (Hnew : hash_newsize (count s2) = 2 ^ (L + 1))
      by (apply hash_newsize_range; lia).
    assert (Hlog : hash_newsize (count s2) = 2 ^ (Z.log2 (count s2) + 1))
      by (apply hash_newsize_pow2; lia).
    exists s2, bs2. split; [done|]. split; [|done].
    split; [done|]. split; [|done]. right. split; [lia|]. congruence.
Qed.

Lemma chain_head_cons (m : gmap N N) (a : N) l :
  a ≠ NULL → chain (load m) a l → ∃ l', l = a :: l'.
Proof.
  intros Ha Hc. destruct l as [|b l]; simpl in Hc; [done|].
  destruct Hc as (-> & _). by eexists.
Qed.

Lemma length_concat_remove (bs : list (list N)) (i : nat) l1 l2 (item : N) :
  bs !! i = Some (l1 ++ item :: l2) →
  concat bs ≡ₚ item :: concat (<[i := l1 ++ l2]> bs).
Proof.
  intros Hi. pose proof (lookup_lt_Some _ _ _ Hi) as Hil.
  rewrite <- (concat_insert_perm (<[i := l1 ++ l2]> bs) i l1 l2 item)
    by by apply list_lookup_insert_eq.
  by rewrite list_insert_insert_eq, list_insert_id.
Qed.

(** [del] keeps the invariant, and removes nothing but the item. *)
Lemma del_inv (hashfn : N → Z) (s : state) bs (item : N) (fuel : nat) :
  inv s bs → item ≠ NULL → (length (concat bs) < fuel)%nat →
  ∃ s' bs',
    del hashfn fuel s item = Some s' ∧ inv s' bs' ∧
    ((s' = s ∧ bs' = bs) ∨
     (concat bs ≡ₚ item :: concat bs' ∧ hashes s' = hashes s)) ∧
    (placed s bs → placed s' bs').
Proof.
  intros Hinv Hiz Hf. pose proof (inv_count_bound _ _ Hinv) as Hcb.
  pose proof Hinv as (Hwf & Hsz & Hmx & Hmn & Hcnt).
  unfold del. destruct (decide (tabsize s = 0)) as [|Hts].
  { exists s, bs. split; [done|]. split; [done|]. split; [by left | done]. }
  pose proof (u32_range (hashfn item)) as Hhr.
  destruct (thash_bucket s bs (u32 (hashfn item)) Hwf Hts) as (l & Hl & Hon);
    [lia|].
  destruct Hon as (p & Hp & Hc & _).
  pose proof Hwf as (Hlen & Hu32 & HF & Hh & Hdj).
  pose proof (length_bucket_le _ _ _ Hl) as Hll.
  set (hb := Z.land (u32 (hashfn item)) (u32 (tabsize s - 1))) in *.
  assert (Hhb : 0 <= hb).
  { apply Z.land_nonneg. left. lia. }
  destruct (lt_scan_split s (u32 (hashfn item)) l fuel (SlotEntry hb) p)
    as (la & lb' & q & -> & Hs & Hg & Hq & _); [done | done | by eapply Hh | lia |].
  rewrite Hs. cbn -[decide].
  destruct (del_run_split s item (u32 (hashfn item)) lb' fuel
              (cut_slot (SlotEntry hb) la) q)
    as (lb & lc & q2 & -> & Hd & Hg2 & Hq2); [done | done | | |].
  { intros a Ha. apply (Hh _ _ Hl). apply elem_of_app. by right. }
  { rewrite length_app in Hll. lia. }
  rewrite Hd. cbn -[decide]. rewrite Hg2. cbn -[decide].
  destruct (decide (q2 ≠ item)) as [Hne|Heq].
  { exists s, bs. split; [done|]. split; [done|]. split; [by left | done]. }
  assert (q2 = item) as -> by (destruct (decide (q2 = item)); [done | tauto]).
  destruct (chain_head_cons _ _ _ Hiz Hq2) as (lc' & ->).
  rewrite cut_slot_app in *. rewrite (assoc_L app) in Hl.
  destruct (unlink_wf s bs _ (la ++ lb) lc' item (u32 (count s - 1)) Hwf Hl)
    as (nx & s1 & _ & Hnx & _ & Hset & (Hh1 & Hc1 & Hmx1 & Hmn1) & Hts1 & Hwf3).
  rewrite Z2Nat.id in Hset by done.
  rewrite Hnx. cbn -[decide]. rewrite Hset. cbn -[decide].
  rewrite store_ok by done. cbn -[decide typesafe_hash_shrink].
  pose proof (length_concat_remove _ _ _ _ _ Hl) as Hperm.
  pose proof (Permutation_length Hperm) as Hpl. simpl in Hpl.
  assert (Hu : u32 (count s - 1) = count s - 1)
    by (apply u32_id; unfold u32_max; lia).
  rewrite Hc1.
  destruct (after_remove fuel
              (set_count (set_nexts s1 (<[item := NULL]> (nexts s1)))
                         (u32 (count s - 1)))
              (<[Z.to_nat hb := (la ++ lb) ++ lc']> bs))
    as (s' & bs' & Hres & Hinv' & Hperm' & Hh' & Hpl').
  { done. }
  { cbn. congruence. }
  { cbn. congruence. }
  { cbn. lia. }
  { cbn. lia. }
  { cbn. rewrite Hu, Hts1. replace (count s - 1 + 1) with (count s) by lia.
    destruct Hsz as [[? ?]|[_ ?]]; [lia | done]. }
  { lia. }
  { lia. }
  exists s', bs'. split; [exact Hres|]. split; [done|]. split.
  - right. split; [by rewrite Hperm' | by rewrite Hh'].
  - intros Hpl0. apply Hpl'. by apply (placed_unlink s _ bs _ _ _ item).
Qed.

Lemma scan_entries_spec (es : list N) : ∀ n i,
  (Z.to_nat i + n = length es)%nat → 0 <= i →
  ∃ k, scan_entries es n i = Some k ∧ i <= k <= Z.of_nat (length es) ∧
       (∀ j, (Z.to_nat i ≤ j < Z.to_nat k)%nat → es !! j = Some NULL) ∧
       (k < Z.of_nat (length es) →
        ∃ e, es !! Z.to_nat k = Some e ∧ e ≠ NULL).
Proof.
  induction n as [|n IH]; intros i Hn Hi; simpl.
  - exists i. split; [done|]. split; [lia|]. split; [lia | lia].
  - destruct (lookup_lt_is_Some_2 es (Z.to_nat i)) as [e He]; [lia|].
    rewrite He. cbn -[decide].
    destruct (decide (e ≠ NULL)) as [Hne|Heq].
    + exists i. split; [done|]. split; [lia|]. split; [lia|].
      intros _. by exists e.
    + assert (e = NULL) as -> by (destruct (decide (e = NULL)); [done|tauto]).
      destruct (IH (i + 1)) as (k & Hk & Hr & Hall & Hex); [lia | lia |].
      exists k. split; [done|]. split; [lia|]. split; [|done].
      intros j Hj. destruct (decide (j = Z.to_nat i)) as [->|]; [done|].
      apply Hall. lia.
Qed.

Lemma all_null_empty (m : gmap N N) (es : list N) (bs : list (list N)) :
  Forall2 (chain (load m)) es bs →
  (∀ j, (j < length es)%nat → es !! j = Some NULL) → concat bs = [].
Proof.
  intros HF Hall. apply elem_of_nil_inv. intros a Ha.
  apply elem_of_concat in Ha as (i & l & Hl & Ha).
  destruct (Forall2_lookup_r _ _ _ _ _ HF Hl) as (e & He & Hc).
  rewrite Hall in He by by eapply lookup_lt_Some. injection He as He.
  destruct l; [by apply elem_of_nil in Ha|]. simpl in Hc.
  destruct Hc as (Heq & Hn & _). congruence.
Qed.

(** [pop] keeps the invariant; it returns NULL on the empty table only, and
    otherwise takes out the item it returns. *)
Lemma pop_inv (s : state) bs (fuel : nat) :
  inv s bs → (length (concat bs) < fuel)%nat →
  ∃ r s' bs',
    pop fuel s = Some (r, s') ∧ inv s' bs' ∧
    ((r = NULL ∧ concat bs = [] ∧ s' = s) ∨
     (r ≠ NULL ∧ concat bs ≡ₚ r :: concat bs' ∧ hashes s' = hashes s)) ∧
    (placed s bs → placed s' bs').
Proof.
  intros Hinv Hf. pose proof (inv_count_bound _ _ Hinv) as Hcb.
  pose proof Hinv as (Hwf & Hsz & Hmx & Hmn & Hcnt).
  pose proof Hwf as (Hlen & Hu32 & HF & Hh & Hdj).
  unfold pop.
  destruct (scan_entries_spec (entries s) (Z.to_nat (tabsize s)) 0)
    as (k & -> & Hk & Hall & Hex); [lia | done |].
  cbn -[decide typesafe_hash_shrink]. rewrite Hlen in Hk, Hex.
  destruct (decide (k < tabsize s)) as [Hlt|Hge].
  - destruct (Hex Hlt) as (e & He & Hez). rewrite He.
    cbn -[decide typesafe_hash_shrink].
    destruct (Forall2_lookup_l _ _ _ _ _ HF He) as (l & Hl & Hc).
    destruct (chain_head_cons _ _ _ Hez Hc) as (l2 & ->).
    destruct (unlink_wf s bs _ [] l2 e (u32 (count s - 1)) Hwf Hl)
      as (nx & s1 & _ & Hnx & _ & Hset & (Hh1 & Hc1 & Hmx1 & Hmn1) & Hts1
          & Hwf3).
    unfold cut_slot in Hset. simpl in Hset.
    rewrite Z2Nat.id in Hset by lia.
    rewrite Hnx. cbn -[decide typesafe_hash_shrink]. rewrite Hset.
    cbn -[decide typesafe_hash_shrink].
    rewrite store_ok by done. cbn -[decide typesafe_hash_shrink].
    pose proof (length_concat_remove _ _ [] _ _ Hl) as Hperm.
    change ([] ++ l2) with l2 in Hperm, Hwf3.
    pose proof (Permutation_length Hperm) as Hpl. simpl in Hpl.
    assert (Hu : u32 (count s - 1) = count s - 1)
      by (apply u32_id; unfold u32_max; lia).
    rewrite Hc1.
    destruct (after_remove fuel
                (set_count (set_nexts s1 (<[e := NULL]> (nexts s1)))
                           (u32 (count s - 1)))
                (<[Z.to_nat k := l2]> bs))
      as (s' & bs' & Hres & Hinv' & Hperm' & Hh' & Hpl').
    { done. }
    { cbn. congruence. }
    { cbn. congruence. }
    { cbn. lia. }
    { cbn. lia. }
    { cbn. rewrite Hu, Hts1. replace (count s - 1 + 1) with (count s) by lia.
      destruct Hsz as [[? ?]|[_ ?]]; [lia | done]. }
    { lia. }
    { lia. }
    cbn -[decide typesafe_hash_shrink] in Hres.
    exists e, s', bs'.
    split.
    { change (set_nexts (set_count s1 (u32 (count s - 1)))
                        (<[e := NULL]> (nexts s1)))
        with (set_count (set_nexts s1 (<[e := NULL]> (nexts s1)))
                        (u32 (count s - 1))).
      by rewrite Hres. }
    split; [done|]. split.
    + right. split; [done|]. split; [by rewrite Hperm' | by rewrite Hh'].
    + intros Hpl0. apply Hpl'. by apply (placed_unlink s _ bs _ [] _ e).
  - exists NULL, s, bs. split; [done|]. split; [done|]. split; [|done]. left.
    split; [done|]. split; [|done].
    eapply all_null_empty; [done|]. intros j Hj. apply Hall. lia.
Qed.

End HashRemove.


(** X12: the hash table's [del] keeps the invariant of a table without
    configured bounds, shrinking the bucket array when the count falls to
    half the size or below, and it removes nothing but the item: either the
    table is returned as it was, or exactly the item has left it and every
    other item is still resident with its cached hash value.  When every
    item sat in the bucket that its hash value selects, this is so
    afterwards. *)
Theorem thash_del_keeps_invariant (hashfn : N → Z) (s : THash.state)
    (bs : list (list N)) (item : N) (fuel : nat) :
  THash.inv s bs → item ≠ NULL → (length (concat bs) < fuel)%nat →
  ∃ s' bs',
    THash.del hashfn fuel s item = Some s' ∧ THash.inv s' bs' ∧
    ((s' = s ∧ bs' = bs) ∨
     (concat bs ≡ₚ item :: concat bs' ∧ THash.hashes s' = THash.hashes s)) ∧
    (THash.placed s bs → THash.placed s' bs').
Proof. apply HashRemove.del_inv. Qed.

Lemma thash_del_keeps_invariant_witness :
  ∃ s' bs',
    THash.del Examples.key 3 Examples.hash_4 64%N = Some s' ∧
    THash.inv s' bs' ∧
    ((s' = Examples.hash_4 ∧ bs' = [[64%N]; []]) ∨
     (concat [[64%N]; []] ≡ₚ 64%N :: concat bs' ∧
      THash.hashes s' = THash.hashes Examples.hash_4)) ∧
    (THash.placed Examples.hash_4 [[64%N]; []] → THash.placed s' bs').
Proof.
  apply (thash_del_keeps_invariant Examples.key Examples.hash_4
           [[64%N]; []] 64%N 3).
  - exact hash_4_inv.
  - done.
  - simpl. lia.
Defined.

(** X13: the hash table's [pop] keeps the invariant of a table without
    configured bounds.  It returns NULL, and the table as it was, only when no
    item is resident; otherwise it returns a resident item, and exactly that
    item has left the table.  When every item sat in the bucket that its hash
    value selects, this is so afterwards. *)
Theorem thash_pop_keeps_invariant (s : THash.state) (bs : list (list N))
    (fuel : nat) :
  THash.inv s bs → (length (concat bs) < fuel)%nat →
  ∃ r s' bs',
    THash.pop fuel s = Some (r, s') ∧ THash.inv s' bs' ∧
    ((r = NULL ∧ concat bs = [] ∧ s' = s) ∨
     (r ≠ NULL ∧ concat bs ≡ₚ r :: concat bs' ∧
      THash.hashes s' = THash.hashes s)) ∧
    (THash.placed s bs → THash.placed s' bs').
Proof. apply HashRemove.pop_inv. Qed.

Lemma thash_pop_keeps_invariant_witness :
  ∃ r s' bs',
    THash.pop 3 Examples.hash_4 = Some (r, s') ∧ THash.inv s' bs' ∧
    ((r = NULL ∧ concat [[64%N]; []] = [] ∧ s' = Examples.hash_4) ∨
     (r ≠ NULL ∧ concat [[64%N]; []] ≡ₚ r :: concat bs' ∧
      THash.hashes s' = THash.hashes Examples.hash_4)) ∧
    (THash.placed Examples.hash_4 [[64%N]; []] → THash.placed s' bs').
Proof.
  apply (thash_pop_keeps_invariant Examples.hash_4 [[64%N]; []] 3).
  - exact hash_4_inv.
  - simpl. lia.
Defined.

(** X14: on a well-formed hash table [first] returns the head of the first
    bucket whose chain is not empty, and NULL when every chain is empty. *)
Theorem thash_first_is_first_resident (s : THash.state)
    (bs : list (list N)) :
  THash.wf s bs →
  ∃ r, THash.first_item s = Some r ∧
       ((r = NULL ∧ concat bs = []) ∨
        (r ≠ NULL ∧
         ∃ k l, bs !! k = Some (r :: l) ∧
                ∀ j, (j < k)%nat → bs !! j = Some [])).
Proof.
  intros Hwf. pose proof Hwf as (Hlen & Hu32 & HF & Hh & Hdj).
  unfold THash.first_item.
  destruct (HashRemove.scan_entries_spec (THash.entries s)
              (Z.to_nat (THash.tabsize s)) 0)
    as (k & -> & Hk & Hall & Hex); [lia | done |].
  cbn -[decide]. rewrite Hlen in Hk, Hex.
  destruct (decide (k < THash.tabsize s)) as [Hlt|Hge].
  - destruct (Hex Hlt) as (e & He & Hez). exists e. split; [done|]. right.
    split; [done|].
    destruct (Forall2_lookup_l _ _ _ _ _ HF He) as (l & Hl & Hc).
    destruct (HashRemove.chain_head_cons _ _ _ Hez Hc) as (l2 & ->).
    exists (Z.to_nat k), l2. split; [done|]. intros j Hj.
    destruct (lookup_lt_is_Some_2 bs j) as [lj Hlj].
    { apply lookup_lt_Some in Hl. lia. }
    destruct (Forall2_lookup_r _ _ _ _ _ HF Hlj) as (ej & Hej & Hcj).
    rewrite Hall in Hej by lia. injection Hej as Hej.
    destruct lj as [|b lj]; [done|]. simpl in Hcj.
    destruct Hcj as (Heq & Hb & _). congruence.
  - exists NULL. split; [done|]. left. split; [done|].
    eapply HashRemove.all_null_empty; [done|]. intros j Hj. apply Hall. lia.
Qed.

Lemma thash_first_is_first_resident_witness :
  ∃ r, THash.first_item Examples.hash_6_of_4 = Some r ∧
       ((r = NULL ∧ concat [[]; []; [96%N]; []] = []) ∨
        (r ≠ NULL ∧
         ∃ k l, [[]; []; [96%N]; []] !! k = Some (r :: l) ∧
                ∀ j, (j < k)%nat →
                     [[]; []; [96%N]; []] !! j = Some ([] : list N))).
Proof.
  apply (thash_first_is_first_resident Examples.hash_6_of_4
           [[]; []; [96%N]; []]).
  exact hash_6_of_4_wf.
Defined.


(** ** Hash table: items in their buckets *)

Module HashPlaced.
Import THash SListFacts SListOps DelAbsent HashSize GrowFacts HashScan.
Import HashAdd HashMeta HashShrink HashRemove.

Lemma first_scan_from (s : state) :
  first_item s = scan_from s (Z.to_nat (tabsize s)) 0.
Proof. done. Qed.

(** [next] of the items of one bucket: along the chain, and from the last
    item to what the scan from the next bucket finds. *)
Lemma bucket_chain (s : state) (k n : nat) (p' : N) (rest : list N) l :
  ∀ e,
  chain (load (nexts s)) e l → l ≠ [] →
  (∀ a, a ∈ l → ∃ hv, hashes s !! a = Some hv ∧
                      Z.land hv (u32 (tabsize s - 1)) = Z.of_nat k) →
  tabsize s = Z.of_nat (S k + n) → tabsize s < u32_max →
  scan_from s n (Z.of_nat (S k)) = Some p' → chain (next s) p' rest →
  chain (next s) e (l ++ rest).
Proof.
  induction l as [|a l IH]; intros e Hc Hne Hpl Hts Hu Hsc Hrest; [done|].
  simpl in Hc. destruct Hc as (-> & Ha & nx & Hnx & Hc).
  simpl. split; [done|]. split; [done|].
  destruct l as [|b l].
  - simpl in Hc. subst nx. exists p'. split; [|done].
    unfold next. rewrite Hnx. cbn -[decide]. rewrite decide_False by tauto.
    destruct (Hpl a) as (hv & Hhv & Hk); [by left|].
    rewrite (load_lookup _ _ _ Ha Hhv). cbn -[decide]. rewrite Hk.
    replace (u32 (Z.of_nat k + 1)) with (Z.of_nat (S k))
      by (rewrite u32_id; lia).
    replace (Z.to_nat (tabsize s - Z.of_nat (S k))) with n by lia.
    exact Hsc.
  - exists nx. pose proof Hc as (-> & Hb & _). split.
    + unfold next. rewrite Hnx. cbn -[decide]. by rewrite decide_True.
    + apply (IH b); try done. intros x Hx. apply Hpl. by right.
Qed.

(** The scan from bucket [k] heads the items of the buckets from [k] on. *)
Lemma scan_chain (s : state) bs :
  wf s bs → placed s bs → ∀ n k,
  (k + n = length bs)%nat →
  ∃ p, scan_from s n (Z.of_nat k) = Some p ∧
       chain (next s) p (concat (drop k bs)).
Proof.
  intros (Hlen & Hu & HF & Hh & Hdj) Hpl.
  pose proof (Forall2_length _ _ _ HF) as Hl2.
  induction n as [|n IH]; intros k Hk.
  - exists NULL. unfold scan_from. simpl. rewrite decide_False by lia.
    split; [done|]. by rewrite drop_ge by lia.
  - destruct (lookup_lt_is_Some_2 bs k) as [l Hl]; [lia|].
    destruct (Forall2_lookup_r _ _ _ _ _ HF Hl) as (e & He & Hc).
    destruct (IH (S k)) as (p' & Hsc & Hrest); [lia|].
    rewrite (drop_S _ _ _ Hl). simpl.
    destruct l as [|a l].
    + simpl in Hc. subst e. exists p'. split; [|done].
      unfold scan_from in *. simpl. rewrite Nat2Z.id, He. cbn -[decide].
      rewrite decide_False by tauto.
      replace (Z.of_nat k + 1) with (Z.of_nat (S k)) by lia. exact Hsc.
    + pose proof Hc as (-> & Ha & _). exists a. split.
      * unfold scan_from. simpl. rewrite Nat2Z.id, He. cbn -[decide].
        rewrite decide_True by done. cbn -[decide].
        rewrite decide_True by lia. by rewrite Nat2Z.id.
      * apply (bucket_chain s k n p' _ (a :: l)); try done; [|lia].
        intros x Hx. by apply (Hpl k (a :: l)).
Qed.

Lemma hash_sorted_app (hs : gmap N Z) l1 l2 :
  hash_sorted hs (l1 ++ l2) ↔
  hash_sorted hs l1 ∧ hash_sorted hs l2 ∧
  ∀ a b ha hb, a ∈ l1 → b ∈ l2 → hs !! a = Some ha → hs !! b = Some hb →
               ha <= hb.
Proof.
  induction l1 as [|c l1 IH]; simpl.
  - split; [|tauto]. intros H. split; [done|]. split; [done|].
    intros a b ha hb Ha. by apply elem_of_nil in Ha.
  - rewrite IH, Forall_app, !Forall_forall. split.
    + intros ((H1 & H2) & Hs1 & Hs2 & H12). split; [done|]. split; [done|].
      intros a b ha hb Ha Hb. apply elem_of_cons in Ha as [->|Ha].
      * by apply H2.
      * by apply H12.
    + intros ((H1 & Hs1) & Hs2 & H12). split; [split|]; [done | |].
      * intros b Hb ha hb. apply H12; [by left | done].
      * split; [done|]. split; [done|]. intros a b ha hb Ha.
        apply H12. by right.
Qed.

(** The second loop of [find] reaches an equal item that follows items of
    the same hash value. *)
Lemma find_run_complete (cmpfn : N → N → Z) (s : state) (item : N)
    (hval : Z) (e : N) lb la : ∀ fuel p,
  chain (load (nexts s)) p (la ++ e :: lb) →
  Forall (λ a, hashes s !! a = Some hval) la →
  hashes s !! e = Some hval → cmpfn e item = 0 →
  (length la < fuel)%nat →
  ∃ r, find_run cmpfn fuel s item hval p = Some r ∧ r ∈ la ++ [e] ∧
       cmpfn r item = 0.
Proof.
  induction la as [|a la IH]; intros fuel p Hc Hall He Heq Hf;
    (destruct fuel as [|f]; [simpl in Hf; lia|]); simpl in Hc |- *;
    destruct Hc as (-> & Ha & n & Hn & Hc); rewrite decide_False by done.
  - rewrite (load_lookup _ _ _ Ha He). cbn -[decide].
    rewrite decide_True by done. rewrite decide_True by done.
    exists e. split; [done|]. split; [by left | done].
  - apply Forall_cons in Hall as [Hha Hall].
    rewrite (load_lookup _ _ _ Ha Hha). cbn -[decide].
    rewrite decide_True by done.
    destruct (decide (cmpfn a item = 0)) as [Hz|Hnz].
    + exists a. split; [done|]. split; [by left | done].
    + rewrite Hn. cbn -[decide].
      destruct (IH f n) as (r & Hr & Hin & Hrz); try done; [simpl in Hf; lia|].
      exists r. split; [done|]. split; [by right | done].
Qed.

Lemma find_complete (cmpfn : N → N → Z) (hashfn : N → Z) (s : state) bs
    (item e : N) (fuel : nat) :
  wf s bs → placed s bs → ordered s bs → e ∈ concat bs →
  hashes s !! e = Some (u32 (hashfn item)) → cmpfn e item = 0 →
  (length (concat bs) < fuel)%nat →
  ∃ r, find cmpfn hashfn fuel s item = Some r ∧ r ∈ concat bs ∧
       cmpfn r item = 0.
Proof.
  intros Hwf Hpl Hord He Hhe Heq Hf.
  pose proof Hwf as (Hlen & Hu & HF & Hh & Hdj).
  apply elem_of_concat in He as (i & l & Hl & He).
  destruct (Hpl _ _ _ Hl He) as (hv & Hhv & Hi).
  rewrite Hhe in Hhv. injection Hhv as <-.
  pose proof (lookup_lt_Some _ _ _ Hl) as Hil.
  apply Forall2_length in HF.
  unfold find. rewrite decide_False by lia. rewrite Hi.
  destruct (Forall2_lookup_r _ _ _ _ _ (proj1 (proj2 (proj2 Hwf))) Hl)
    as (p & Hp & Hc).
  pose proof (length_bucket_le _ _ _ Hl) as Hll.
  destruct (lt_scan_split s (u32 (hashfn item)) l fuel
              (SlotEntry (Z.of_nat i)) p)
    as (l1 & l2 & q & -> & Hs & Hg & Hq & Hlt & Hhd);
    [simpl; by rewrite Nat2Z.id | done | by eapply Hh | lia |].
  rewrite Hs. cbn -[decide]. rewrite Hg. cbn -[decide].
  assert (He2 : e ∈ l2).
  { apply elem_of_app in He as [He|He]; [|done].
    destruct (proj1 (Forall_forall _ _) Hlt _ He) as (hv & Hhv & Hlt').
    rewrite Hhe in Hhv. injection Hhv as <-. lia. }
  apply list_elem_of_split in He2 as (la & lb & ->).
  pose proof (Hord _ _ Hl) as Hso.
  apply hash_sorted_app in Hso as (_ & Hso & _).
  apply hash_sorted_app in Hso as (Hsa & _ & Hae).
  assert (Hall : Forall (λ a, hashes s !! a = Some (u32 (hashfn item))) la).
  { apply Forall_forall. intros a Ha.
    destruct (Hh _ _ Hl a) as (ha & Hha & _).
    { apply elem_of_app. right. apply elem_of_app. by left. }
    assert (Hle : ha <= u32 (hashfn item)).
    { apply (Hae a e); [done | by left | done | done]. }
    assert (Hge : u32 (hashfn item) <= ha).
    { destruct la as [|h0 la]; [by apply elem_of_nil in Ha|].
      destruct (Hhd h0) as (h0v & Hh0 & Hge0); [done|].
      apply elem_of_cons in Ha as [->|Ha].
      - rewrite Hha in Hh0. injection Hh0 as <-. done.
      - simpl in Hsa. destruct Hsa as [Hfa _].
        pose proof (proj1 (Forall_forall _ _) Hfa _ Ha _ _ Hh0 Hha). lia. }
    rewrite Hha. f_equal. lia. }
  destruct (find_run_complete cmpfn s item (u32 (hashfn item)) e lb la fuel q)
    as (r & Hr & Hin & Hrz); try done.
  { rewrite !length_app in Hll. lia. }
  exists r. split; [done|]. split; [|done].
  apply elem_of_concat. exists i, (l1 ++ la ++ e :: lb). split; [done|].
  apply elem_of_app. right.
  apply elem_of_app in Hin as [Hin|Hin].
  - apply elem_of_app. by left.
  - apply list_elem_of_singleton in Hin as ->. apply elem_of_app. right.
    by left.
Qed.

End HashPlaced.

(** X15: on a well-formed hash table in which every item sits in the bucket
    that its cached hash value selects, the [first]/[next] traversal visits
    every resident item exactly once, bucket after bucket and each chain in
    its order. *)
Theorem thash_traverse_visits_all (s : THash.state) (bs : list (list N))
    (fuel : nat) :
  THash.wf s bs → THash.placed s bs → (length (concat bs) < fuel)%nat →
  THash.traverse fuel s = Some (concat bs).
Proof.
  intros Hwf Hpl Hf. unfold THash.traverse.
  rewrite HashPlaced.first_scan_from.
  destruct (HashPlaced.scan_chain s bs Hwf Hpl (Z.to_nat (THash.tabsize s)) 0)
    as (p & Hp & Hc).
  { destruct Hwf as (Hlen & _ & HF & _). apply Forall2_length in HF. lia. }
  change (Z.of_nat 0) with 0 in Hp. rewrite Hp. simpl.
  by apply walk_chain.
Qed.

Lemma hash_4_placed : THash.placed Examples.hash_4 [[64%N]; []].
Proof.
  intros [|[|i]] l a Hl Ha; simplify_eq/=.
  - apply list_elem_of_singleton in Ha as ->. by exists 4.
  - by apply elem_of_nil in Ha.
Defined.

Lemma thash_traverse_visits_all_witness :
  THash.traverse 2 Examples.hash_4 = Some (concat [[64%N]; []]).
Proof.
  apply (thash_traverse_visits_all Examples.hash_4 [[64%N]; []] 2).
  - exact (hash_4_wf 1).
  - exact hash_4_placed.
  - simpl. lia.
Defined.

(** X16: on a well-formed hash table whose items sit in the buckets their
    cached hash values select and whose chains are in hash order, [find]
    returns a resident item that compares equal to the reference whenever
    such an item is resident with the reference's hash value cached. *)
Theorem thash_find_finds_equal (cmpfn : N → N → Z) (hashfn : N → Z)
    (s : THash.state) (bs : list (list N)) (item e : N) (fuel : nat) :
  THash.wf s bs → THash.placed s bs → THash.ordered s bs →
  e ∈ concat bs → THash.hashes s !! e = Some (u32 (hashfn item)) →
  cmpfn e item = 0 → (length (concat bs) < fuel)%nat →
  ∃ r, THash.find cmpfn hashfn fuel s item = Some r ∧ r ∈ concat bs ∧
       cmpfn r item = 0.
Proof. apply HashPlaced.find_complete. Qed.

Lemma hash_4_ordered : THash.ordered Examples.hash_4 [[64%N]; []].
Proof.
  intros [|[|i]] l Hl; simplify_eq/=; [|done]. split; [constructor | done].
Defined.

Lemma thash_find_finds_equal_witness :
  ∃ r, THash.find Examples.cmp_key Examples.key 2 Examples.hash_4 64%N
       = Some r ∧
       r ∈ concat [[64%N]; []] ∧ Examples.cmp_key r 64%N = 0.
Proof.
  apply (thash_find_finds_equal Examples.cmp_key Examples.key Examples.hash_4
           [[64%N]; []] 64%N 64%N 2).
  - exact (hash_4_wf 1).
  - exact hash_4_placed.
  - exact hash_4_ordered.
  - simpl. by left.
  - reflexivity.
  - reflexivity.
  - simpl. lia.
Defined.


(** ** Hash table: insertion keeps items in their buckets *)

Module HashPlacedAdd.
Import THash SListFacts SListOps DelAbsent HashSize GrowFacts HashScan.
Import HashAdd HashMeta HashShrink HashRemove HashPlaced.

Lemma hash_sorted_fresh (hs : gmap N Z) (item : N) (v : Z) l :
  item ∉ l → hash_sorted hs l → hash_sorted (<[item := v]> hs) l.
Proof.
  induction l as [|a l IH]; simpl; [done|].
  intros Hin [Hall Hs]. apply not_elem_of_cons in Hin as [Hne Hin].
  split; [|by apply IH]. rewrite Forall_forall in Hall |- *.
  intros b Hb ha hb. rewrite !lookup_insert_ne.
  - by apply Hall.
  - intros ->. by apply Hin.
  - done.
Qed.

Lemma add_placed (hashfn : N → Z) (s : state) bs (item : N) (fuel : nat) :
  wf s bs → placed s bs → ordered s bs →
  tabsize s ≠ 0 → u32 (count s + 1) < tabsize s →
  item ≠ NULL → item ∉ concat bs → (length (concat bs) < fuel)%nat →
  ∃ s' bs',
    add hashfn fuel s item = Some s' ∧ wf s' bs' ∧ placed s' bs' ∧
    ordered s' bs' ∧ concat bs' ≡ₚ item :: concat bs ∧
    hashes s' !! item = Some (u32 (hashfn item)).
Proof.
  intros Hwf Hpl Hord Hts Hroom Hiz Hfresh Hf.
  assert (Hfr : ∀ j l, bs !! j = Some l → item ∉ l).
  { intros j l Hjl Hin. apply Hfresh. by eapply elem_of_bucket. }
  destruct (add_nogrow hashfn s bs item fuel Hwf Hts Hroom Hiz Hfr)
    as (s' & l1 & l2 & Ha & Hl & Hwf' & Hlt & Hhd & Hh' & Hc' & Hts' & _).
  { intros i l Hil. pose proof (length_bucket_le _ _ _ Hil). lia. }
  pose proof (u32_range (hashfn item)) as Hhr.
  set (hval := u32 (hashfn item)) in *.
  set (hb := Z.land hval (u32 (tabsize s - 1))) in *.
  assert (Hhb : 0 <= hb) by (apply Z.land_nonneg; left; lia).
  pose proof Hwf as (_ & _ & _ & Hh & _).
  assert (Hother : ∀ j l a, bs !! j = Some l → a ∈ l →
                            hashes s' !! a = hashes s !! a).
  { intros j l a Hjl Hal. rewrite Hh'. apply lookup_insert_ne.
    intros ->. by apply (Hfr _ _ Hjl). }
  exists s', (<[Z.to_nat hb := l1 ++ item :: l2]> bs).
  split; [done|]. split; [done|]. split; [|split; [|split]].
  - intros j l a Hjl Hal. rewrite Hts'.
    apply list_lookup_insert_Some in Hjl as [(<- & <- & _) | (Hne & Hjl)].
    + rewrite elem_of_app, elem_of_cons in Hal.
      destruct (decide (a = item)) as [->|Hne].
      * exists hval. split; [by rewrite Hh', lookup_insert_eq|].
        by rewrite Z2Nat.id.
      * assert (Ha' : a ∈ l1 ++ l2) by (rewrite elem_of_app; tauto).
        rewrite (Hother _ _ _ Hl Ha'). by apply (Hpl _ _ _ Hl).
    + rewrite (Hother _ _ _ Hjl Hal). by apply (Hpl _ _ _ Hjl).
  - intros j l Hjl. rewrite Hh'.
    apply list_lookup_insert_Some in Hjl as [(<- & <- & _) | (Hne & Hjl)];
      [|by apply hash_sorted_fresh; [eapply Hfr | eapply Hord]].
    pose proof (Hord _ _ Hl) as Hso. pose proof (Hfr _ _ Hl) as Hfr12.
    apply not_elem_of_app in Hfr12 as [Hfr1 Hfr2].
    apply hash_sorted_app in Hso as (Hs1 & Hs2 & H12).
    assert (Hge : ∀ b hbv, b ∈ l2 → hashes s !! b = Some hbv → hval <= hbv).
    { intros b hbv Hb Hbv. destruct l2 as [|h0 l2]; [by apply elem_of_nil in Hb|].
      destruct (Hhd h0) as (h0v & Hh0 & Hge0); [done|].
      apply elem_of_cons in Hb as [->|Hb].
      - rewrite Hbv in Hh0. injection Hh0 as <-. done.
      - simpl in Hs2. destruct Hs2 as [Hfa _].
        pose proof (proj1 (Forall_forall _ _) Hfa _ Hb _ _ Hh0 Hbv). lia. }
    apply hash_sorted_app. split; [by apply hash_sorted_fresh|]. split.
    + simpl. split; [|by apply hash_sorted_fresh].
      apply Forall_forall. intros b Hb ha hbv.
      rewrite lookup_insert_eq, lookup_insert_ne by (intros ->; by apply Hfr2).
      intros [= <-] Hbv. by eapply Hge.
    + intros a b ha hbv Hal Hbl.
      rewrite lookup_insert_ne by (intros ->; by apply Hfr1).
      intros Hav.
      destruct (proj1 (Forall_forall _ _) Hlt _ Hal) as (ha' & Hav' & Hlt').
      rewrite Hav in Hav'. injection Hav' as <-.
      apply elem_of_cons in Hbl as [->|Hbl].
      * rewrite lookup_insert_eq. intros [= <-]. lia.
      * rewrite lookup_insert_ne by (intros ->; by apply Hfr2).
        intros Hbv. pose proof (Hge _ _ Hbl Hbv). lia.
  - by apply concat_insert_perm.
  - by rewrite Hh', lookup_insert_eq.
Qed.

End HashPlacedAdd.

(** X17: while the table has room for one more item, so that it does not
    grow, the hash table's [add] of a non-NULL item that is not resident keeps
    every item in the bucket its cached hash value selects and every chain in
    hash order; the table holds the old items and the new one, whose hash
    value is cached. *)
Theorem thash_add_keeps_placement (hashfn : N → Z) (s : THash.state)
    (bs : list (list N)) (item : N) (fuel : nat) :
  THash.wf s bs → THash.placed s bs → THash.ordered s bs →
  THash.tabsize s ≠ 0 → u32 (THash.count s + 1) < THash.tabsize s →
  item ≠ NULL → item ∉ concat bs → (length (concat bs) < fuel)%nat →
  ∃ s' bs',
    THash.add hashfn fuel s item = Some s' ∧ THash.wf s' bs' ∧
    THash.placed s' bs' ∧ THash.ordered s' bs' ∧
    concat bs' ≡ₚ item :: concat bs ∧
    THash.hashes s' !! item = Some (u32 (hashfn item)).
Proof. apply HashPlacedAdd.add_placed. Qed.

Lemma hash_6_of_4_placed :
  THash.placed Examples.hash_6_of_4 [[]; []; [96%N]; []].
Proof.
  intros [|[|[|[|i]]]] l a Hl Ha; simplify_eq/=;
    try by apply elem_of_nil in Ha.
  apply list_elem_of_singleton in Ha as ->. by exists 6.
Defined.

Lemma hash_6_of_4_ordered :
  THash.ordered Examples.hash_6_of_4 [[]; []; [96%N]; []].
Proof.
  intros [|[|[|[|i]]]] l Hl; by simplify_eq/=.
Defined.

Lemma thash_add_keeps_placement_witness :
  ∃ s' bs',
    THash.add Examples.key 2 Examples.hash_6_of_4 64%N = Some s' ∧
    THash.wf s' bs' ∧ THash.placed s' bs' ∧ THash.ordered s' bs' ∧
    concat bs' ≡ₚ 64%N :: concat [[]; []; [96%N]; []] ∧
    THash.hashes s' !! 64%N = Some (u32 (Examples.key 64%N)).
Proof.
  apply (thash_add_keeps_placement Examples.key Examples.hash_6_of_4
           [[]; []; [96%N]; []] 64%N 2).
  - exact hash_6_of_4_wf.
  - exact hash_6_of_4_placed.
  - exact hash_6_of_4_ordered.
  - done.
  - by vm_compute.
  - done.
  - by apply (bool_decide_unpack _).
  - simpl. lia.
Defined.

(** X18: insert and look up.  While the table does not grow, [find] after
    [add] of a non-NULL item that is not resident returns a resident item
    that compares equal to the added one, when the comparison function says
    that the item equals itself. *)
Theorem thash_add_then_find (cmpfn : N → N → Z) (hashfn : N → Z)
    (s : THash.state) (bs : list (list N)) (item : N) (fuel : nat) :
  THash.wf s bs → THash.placed s bs → THash.ordered s bs →
  THash.tabsize s ≠ 0 → u32 (THash.count s + 1) < THash.tabsize s →
  item ≠ NULL → item ∉ concat bs → cmpfn item item = 0 →
  (length (concat bs) < fuel)%nat →
  ∃ s' r,
    THash.add hashfn fuel s item = Some s' ∧
    THash.find cmpfn hashfn (S fuel) s' item = Some r ∧
    (r = item ∨ r ∈ concat bs) ∧ cmpfn r item = 0.
Proof.
  intros Hwf Hpl Hord Hts Hroom Hiz Hfresh Hrefl Hf.
  destruct (HashPlacedAdd.add_placed hashfn s bs item fuel)
    as (s' & bs' & Ha & Hwf' & Hpl' & Hord' & Hperm & Hh); try done.
  destruct (HashPlaced.find_complete cmpfn hashfn s' bs' item item (S fuel))
    as (r & Hr & Hin & Hrz); try done.
  { rewrite Hperm. by left. }
  { rewrite (Permutation_length Hperm). simpl. lia. }
  exists s', r. split; [done|]. split; [done|]. split; [|done].
  rewrite Hperm in Hin. by apply elem_of_cons in Hin.
Qed.

Lemma thash_add_then_find_witness :
  ∃ s' r,
    THash.add Examples.key 2 Examples.hash_6_of_4 64%N = Some s' ∧
    THash.find Examples.cmp_key Examples.key 3 s' 64%N = Some r ∧
    (r = 64%N ∨ r ∈ concat [[]; []; [96%N]; []]) ∧
    Examples.cmp_key r 64%N = 0.
Proof.
  apply (thash_add_then_find Examples.cmp_key Examples.key
           Examples.hash_6_of_4 [[]; []; [96%N]; []] 64%N 2).
  - exact hash_6_of_4_wf.
  - exact hash_6_of_4_placed.
  - exact hash_6_of_4_ordered.
  - done.
  - by vm_compute.
  - done.
  - by apply (bool_decide_unpack _).
  - reflexivity.
  - simpl. lia.
Defined.


(** ** Skip list: memory of the levels *)

Module SkipMem.
Import SSkip GrowFacts SListOps.

#[local] Arguments SKIPLIST_OVERFLOW : simpl never.
#[local] Arguments SKIPLIST_EMBED : simpl never.
#[local] Arguments SKIPLIST_MAXDEPTH : simpl never.

Lemma mask_bits n :
  N.testbit PTR_MASK n = bool_decide (2 ≤ n)%N && bool_decide (n < 64)%N.
Proof.
  change PTR_MASK with (N.shiftl (N.ones 62) 2).
  destruct (decide (2 ≤ n)%N) as [H2|H2].
  - rewrite N.shiftl_spec_high' by done. rewrite bool_decide_true by done.
    rewrite andb_true_l. destruct (decide (n < 64)%N).
    + rewrite N.ones_spec_low by lia. by rewrite bool_decide_true.
    + rewrite N.ones_spec_high by lia. by rewrite bool_decide_false.
  - rewrite N.shiftl_spec_low by lia. by rewrite bool_decide_false.
Qed.

Lemma aligned_bits (b n : N) :
  (b mod 4 = 0)%N → (n < 2)%N → N.testbit b n = false.
Proof.
  intros Hb Hn. change 4%N with (2 ^ 2)%N in Hb.
  rewrite <- (N.mod_pow2_bits_low b 2 n) by done. rewrite Hb. apply N.bits_0.
Qed.

Lemma high_bits (b n : N) :
  (b < 2 ^ 64)%N → (64 ≤ n)%N → N.testbit b n = false.
Proof.
  intros Hb Hn. rewrite <- (N.mod_small b (2 ^ 64)) by done.
  by apply N.mod_pow2_bits_high.
Qed.

(** Tagging an aligned address and stripping the tag gives the address. *)
Lemma tag_strip (b : N) :
  (b mod 4 = 0)%N → (b < 2 ^ 64)%N → N.land (N.lor b 1) PTR_MASK = b.
Proof.
  intros Hal Hlt. apply N.bits_inj. intros n.
  rewrite N.land_spec, N.lor_spec, mask_bits.
  destruct (decide (2 ≤ n)%N) as [H2|H2].
  - rewrite bool_decide_true by done.
    destruct (decide (n < 64)%N).
    + rewrite bool_decide_true by done.
      replace (N.testbit 1 n) with false; [by destruct (N.testbit b n)|].
      symmetry. change 1%N with (2 ^ 0)%N. apply N.pow2_bits_false. lia.
    + rewrite bool_decide_false by done. rewrite high_bits by (done || lia).
      by rewrite andb_false_r.
  - rewrite bool_decide_false by done. rewrite aligned_bits by (done || lia).
    by rewrite andb_false_r.
Qed.

Lemma tag_set (b : N) : N.land (N.lor b 1) 1 = 1%N.
Proof.
  apply N.bits_inj. intros n. rewrite N.land_spec, N.lor_spec.
  destruct (N.testbit 1 n); [by rewrite orb_true_r | by rewrite andb_false_r].
Qed.

Lemma aligned_even (b : N) : (b mod 4 = 0)%N → N.land b 1 = 0%N.
Proof.
  intros Hb. apply N.bits_inj. intros n. rewrite N.land_spec, N.bits_0.
  destruct (decide (n < 2)%N).
  - by rewrite aligned_bits.
  - replace (N.testbit 1 n) with false; [by rewrite andb_false_r|].
    symmetry. change 1%N with (2 ^ 0)%N. apply N.pow2_bits_false. lia.
Qed.

(** Reading a level of an item with its memory. *)
Lemma get_inline (s : state) (a : N) (h k : nat) nx :
  a ≠ NULL → items s !! a = Some nx →
  (k < SKIPLIST_OVERFLOW)%nat → sl_level_get s a k = nx !! k.
Proof.
  intros Ha Hnx Hk. unfold sl_level_get.
  rewrite (load_lookup _ _ _ Ha Hnx). cbn -[decide].
  by rewrite decide_True.
Qed.

Lemma get_last_inline (s : state) (a : N) nx n3 :
  a ≠ NULL → items s !! a = Some nx → nx !! SKIPLIST_OVERFLOW = Some n3 →
  N.land n3 1 = 0%N → sl_level_get s a SKIPLIST_OVERFLOW = Some n3.
Proof.
  intros Ha Hnx Hn3 Htag. unfold sl_level_get.
  rewrite (load_lookup _ _ _ Ha Hnx). cbn -[decide].
  rewrite decide_False by (unfold SKIPLIST_OVERFLOW, SKIPLIST_EMBED; lia).
  rewrite Hn3. cbn -[decide]. by rewrite decide_True.
Qed.

Lemma get_block (s : state) (a : N) (k : nat) nx n3 ob :
  a ≠ NULL → items s !! a = Some nx → nx !! SKIPLIST_OVERFLOW = Some n3 →
  N.land n3 1 ≠ 0%N → N.land n3 PTR_MASK ≠ NULL →
  blocks s !! N.land n3 PTR_MASK = Some ob → (SKIPLIST_OVERFLOW ≤ k)%nat →
  sl_level_get s a k = ob !! (k - SKIPLIST_OVERFLOW)%nat.
Proof.
  intros Ha Hnx Hn3 Htag Hbz Hob Hk. unfold sl_level_get.
  rewrite (load_lookup _ _ _ Ha Hnx). cbn -[decide].
  rewrite decide_False by lia. rewrite Hn3. cbn -[decide].
  rewrite decide_False by tauto.
  rewrite (load_lookup _ _ _ Hbz Hob). done.
Qed.

Lemma get_total (s : state) hts (a : N) (h k : nat) :
  layout s hts → hts !! a = Some h → (k < h)%nat →
  ∃ v, sl_level_get s a k = Some v.
Proof.
  intros [Hok _] Ha Hk.
  destruct (Hok _ _ Ha) as (Haz & Hh & nx & n3 & Hnx & Hlen & Hn3 & Hcase).
  destruct (decide (k < SKIPLIST_OVERFLOW)%nat) as [Hlow|Hhigh].
  - rewrite (get_inline s a h k nx) by done.
    apply lookup_lt_is_Some_2. rewrite Hlen.
    unfold SKIPLIST_OVERFLOW, SKIPLIST_EMBED in *. lia.
  - destruct (decide (h ≤ SKIPLIST_EMBED)%nat) as [Hs|Ht].
    + assert (k = SKIPLIST_OVERFLOW) as ->
        by (unfold SKIPLIST_OVERFLOW, SKIPLIST_EMBED in *; lia).
      exists n3. by eapply get_last_inline.
    + destruct Hcase as (Htag & Hbz & ob & Hob & Hlob).
      rewrite (get_block s a k nx n3 ob) by (done || lia).
      apply lookup_lt_is_Some_2. lia.
Qed.

(** Writing a level: the level reads back, every other level of every item
    reads as before, and the layout stays. *)
Lemma set_spec (s : state) hts (a : N) (h k : nat) (v : N) :
  layout s hts → hts !! a = Some h → (k < h)%nat → N.land v 1 = 0%N →
  ∃ s', sl_level_set s a k v = Some s' ∧ layout s' hts ∧
        hd s' = hd s ∧ count s' = count s ∧
        sl_level_get s' a k = Some v ∧
        ∀ a' h' k', hts !! a' = Some h' → (k' < h')%nat →
                    (a' ≠ a ∨ k' ≠ k) →
                    sl_level_get s' a' k' = sl_level_get s a' k'.
Proof.
  intros [Hok Hdis] Ha Hk Hv.
  destruct (Hok _ _ Ha) as (Haz & Hh & nx & n3 & Hnx & Hlen & Hn3 & Hcase).
  unfold sl_level_set. rewrite (load_lookup _ _ _ Haz Hnx). cbn -[decide].
  assert (Hinline :
    (k < SKIPLIST_OVERFLOW)%nat ∨
    (k = SKIPLIST_OVERFLOW ∧ (h ≤ SKIPLIST_EMBED)%nat) →
    ∃ s', (nx' ← array_set nx k v;
           Some (set_items s (<[a := nx']> (items s)))) = Some s' ∧
          layout s' hts ∧ hd s' = hd s ∧ count s' = count s ∧
          sl_level_get s' a k = Some v ∧
          ∀ a' h' k', hts !! a' = Some h' → (k' < h')%nat →
                      (a' ≠ a ∨ k' ≠ k) →
                      sl_level_get s' a' k' = sl_level_get s a' k').
  { intros Hwhere.
    assert (Hkl : (k < length nx)%nat).
    { rewrite Hlen. unfold SKIPLIST_OVERFLOW, SKIPLIST_EMBED in *. lia. }
    unfold array_set. rewrite decide_True by done. cbn -[decide].
    set (nx' := <[k := v]> nx).
    set (s' := set_items s (<[a := nx']> (items s))).
    assert (Hn3' : ∃ n3', nx' !! SKIPLIST_OVERFLOW = Some n3' ∧
                          (k ≠ SKIPLIST_OVERFLOW → n3' = n3) ∧
                          (k = SKIPLIST_OVERFLOW → n3' = v)).
    { destruct (decide (k = SKIPLIST_OVERFLOW)) as [->|Hne].
      - exists v. split; [by apply list_lookup_insert_eq | done].
      - exists n3. split; [|done]. subst nx'.
        by rewrite list_lookup_insert_ne. }
    destruct Hn3' as (n3' & Hn3' & Hsame & Hnew).
    assert (Hblk : ∀ a', block_of s' a' = block_of s a' ∨
                         (a' = a ∧ k = SKIPLIST_OVERFLOW)).
    { intros a'. unfold block_of. cbn.
      destruct (decide (a' = a)) as [->|Hne].
      - rewrite lookup_insert_eq, Hnx. cbn. rewrite Hn3', Hn3. cbn.
        destruct (decide (k = SKIPLIST_OVERFLOW)); [by right|].
        left. by rewrite Hsame.
      - left. by rewrite lookup_insert_ne. }
    exists s'. split; [done|]. split; [|split; [done|split; [done|split]]].
    - split.
      + intros a' h' Ha'. destruct (Hok _ _ Ha')
          as (Haz' & Hh' & nx0 & n30 & Hnx0 & Hlen0 & Hn30 & Hcase0).
        split; [done|]. split; [done|].
        destruct (decide (a' = a)) as [->|Hne].
        * assert (h' = h) as -> by congruence.
          exists nx', n3'. cbn. rewrite lookup_insert_eq.
          split; [done|]. split; [by subst nx'; rewrite length_insert|].
          split; [done|].
          destruct (decide (h ≤ SKIPLIST_EMBED)%nat) as [Hs|Ht].
          -- destruct (decide (k = SKIPLIST_OVERFLOW)) as [Hk3|Hk3].
             ++ by rewrite (Hnew Hk3).
             ++ by rewrite (Hsame Hk3).
          -- assert (Hk3 : k ≠ SKIPLIST_OVERFLOW) by (destruct Hwhere; lia).
             by rewrite (Hsame Hk3).
        * exists nx0, n30. cbn. rewrite lookup_insert_ne by done. done.
      + intros a1 a2 h1 h2 b H1 H2 Ht1 Ht2 Hb1 Hb2.
        destruct (Hblk a1) as [E1|[-> Hk3]];
          [|assert (h1 = h) by congruence; destruct Hwhere; lia].
        destruct (Hblk a2) as [E2|[-> Hk3]];
          [|assert (h2 = h) by congruence; destruct Hwhere; lia].
        rewrite E1 in Hb1. rewrite E2 in Hb2. by eapply Hdis.
    - destruct Hwhere as [Hlow|[-> Hs]].
      + rewrite (get_inline s' a h k nx') by (done || apply lookup_insert_eq).
        by apply list_lookup_insert_eq.
      + apply (get_last_inline s' a nx' v); try done.
        * apply lookup_insert_eq.
        * by rewrite Hn3', (Hnew eq_refl).
    - intros a' h' k' Ha' Hk' Hdiff.
      destruct (Hok _ _ Ha')
        as (Haz' & Hh' & nx0 & n30 & Hnx0 & Hlen0 & Hn30 & Hcase0).
      unfold sl_level_get. cbn -[decide].
      destruct (decide (a' = a)) as [->|Hne].
      * assert (h' = h) as -> by congruence.
        assert (Hkk : k' ≠ k) by (destruct Hdiff; done).
        rewrite (load_lookup _ a nx') by (done || apply lookup_insert_eq).
        rewrite (load_lookup _ _ _ Haz Hnx). cbn -[decide].
        destruct (decide (k' < SKIPLIST_OVERFLOW)%nat).
        { subst nx'. by rewrite list_lookup_insert_ne. }
        rewrite Hn3', Hn3. cbn -[decide].
        assert (Hk3 : k ≠ SKIPLIST_OVERFLOW).
        { destruct Hwhere as [?|[-> Hs]]; [lia|].
          unfold SKIPLIST_OVERFLOW, SKIPLIST_EMBED in *. lia. }
        by rewrite (Hsame Hk3).
      * unfold load. destruct (decide (a' = NULL)); [done|].
        cbn. by rewrite lookup_insert_ne. }
  destruct (decide (k < SKIPLIST_OVERFLOW)%nat) as [Hlow|Hhigh].
  { apply Hinline. by left. }
  rewrite Hn3. cbn -[decide].
  destruct (decide (h ≤ SKIPLIST_EMBED)%nat) as [Hs|Ht].
  { assert (k = SKIPLIST_OVERFLOW) as Hk3
      by (unfold SKIPLIST_OVERFLOW, SKIPLIST_EMBED in *; lia).
    rewrite decide_True by done. apply Hinline. by right. }
  destruct Hcase as (Htag & Hbz & ob & Hob & Hlob).
  rewrite decide_False by tauto.
  rewrite (load_lookup _ _ _ Hbz Hob). cbn -[decide].
  unfold array_set. rewrite decide_True by lia. cbn -[decide].
  set (b := N.land n3 PTR_MASK) in *.
  set (ob' := <[(k - SKIPLIST_OVERFLOW)%nat := v]> ob).
  set (s' := set_blocks s (<[b := ob']> (blocks s))).
  assert (Hba : block_of s a = Some b).
  { unfold block_of. by rewrite Hnx; cbn; rewrite Hn3. }
  exists s'. split; [done|]. split; [|split; [done|split; [done|split]]].
  - split.
    + intros a' h' Ha'. destruct (Hok _ _ Ha')
        as (Haz' & Hh' & nx0 & n30 & Hnx0 & Hlen0 & Hn30 & Hcase0).
      split; [done|]. split; [done|]. exists nx0, n30. cbn.
      split; [done|]. split; [done|]. split; [done|].
      destruct (decide (h' ≤ SKIPLIST_EMBED)%nat); [done|].
      destruct Hcase0 as (Htag0 & Hbz0 & ob0 & Hob0 & Hlob0).
      split; [done|]. split; [done|].
      destruct (decide (N.land n30 PTR_MASK = b)) as [Heq|Hne].
      * assert (a' = a) as ->.
        { apply (Hdis a' a h' h b); try done; try lia.
          unfold block_of. rewrite Hnx0. cbn. rewrite Hn30. cbn.
          by rewrite Heq. }
        assert (h' = h) as -> by congruence.
        exists ob'. rewrite Heq, lookup_insert_eq. split; [done|].
        subst ob'. by rewrite length_insert.
      * exists ob0. by rewrite lookup_insert_ne.
    + intros a1 a2 h1 h2 b0 H1 H2 Ht1 Ht2 Hb1 Hb2. by eapply Hdis.
  - rewrite (get_block s' a k nx n3 ob') by (done || lia || apply lookup_insert_eq).
    apply list_lookup_insert_eq. lia.
  - intros a' h' k' Ha' Hk' Hdiff.
    destruct (Hok _ _ Ha')
      as (Haz' & Hh' & nx0 & n30 & Hnx0 & Hlen0 & Hn30 & Hcase0).
    unfold sl_level_get. cbn -[decide].
    rewrite (load_lookup _ _ _ Haz' Hnx0). cbn -[decide].
    destruct (decide (k' < SKIPLIST_OVERFLOW)%nat); [done|].
    rewrite Hn30. cbn -[decide].
    destruct (decide (k' = SKIPLIST_OVERFLOW ∧ N.land n30 1 = 0%N)); [done|].
    destruct (decide (N.land n30 PTR_MASK = b)) as [Heq|Hne].
    + destruct (decide (h' ≤ SKIPLIST_EMBED)%nat) as [Hs'|Ht'].
      { exfalso. unfold SKIPLIST_OVERFLOW, SKIPLIST_EMBED in *.
        assert (k' = 3)%nat by lia. tauto. }
      assert (a' = a) as ->.
      { apply (Hdis a' a h' h b); try done; try lia.
        unfold block_of. rewrite Hnx0. cbn. rewrite Hn30. cbn.
        by rewrite Heq. }
      rewrite Heq. rewrite (load_lookup _ _ _ Hbz Hob).
      rewrite (load_lookup _ b ob') by (done || apply lookup_insert_eq).
      cbn. subst ob'. rewrite list_lookup_insert_ne; [done|].
      destruct Hdiff; [done | lia].
    + unfold load. destruct (decide (N.land n30 PTR_MASK = NULL)); [done|].
      by rewrite lookup_insert_ne.
Qed.

End SkipMem.


(** ** Skip list: positions on the levels *)

Module SkipPos.
Import SSkip GrowFacts SListOps SkipMem.

#[local] Arguments SKIPLIST_OVERFLOW : simpl never.
#[local] Arguments SKIPLIST_EMBED : simpl never.
#[local] Arguments SKIPLIST_MAXDEPTH : simpl never.

Lemma chain_head (f : N → option N) p l :
  chain f p l → p = default NULL (head l).
Proof. destruct l; simpl; [done|]. by intros (-> & _). Qed.

(** Linking [item] behind [prev]. *)
Lemma chain_link_fn (f f' : N → option N) l1 l2 (prev item : N) : ∀ p,
  chain f p (l1 ++ l2) → last l1 = Some prev → item ∉ l1 ++ l2 →
  item ≠ NULL → f' item = Some (default NULL (head l2)) →
  f' prev = Some item → (∀ a, a ∈ l1 ++ l2 → a ≠ prev → f' a = f a) →
  chain f' p (l1 ++ item :: l2).
Proof.
  intros p Hc. pose proof (chain_NoDup _ _ _ Hc) as Hnd. revert p Hc Hnd.
  induction l1 as [|a l1 IH]; intros p Hc Hnd Hlast Hin Hiz Hfi Hfp Hsame;
    [done|].
  simpl in Hc. destruct Hc as (-> & Ha & n & Hn & Hc).
  simpl in Hnd. apply NoDup_cons in Hnd as [Hal Hnd].
  simpl. split; [done|]. split; [done|].
  destruct l1 as [|b l1].
  - simpl in Hlast. injection Hlast as <-. exists item. split; [done|].
    simpl. split; [done|]. split; [done|]. exists n. split.
    + rewrite Hfi. f_equal. symmetry. by eapply chain_head.
    + apply (chain_ext f); [|done]. intros x Hx. symmetry.
      apply Hsame; [by right|]. intros ->. by apply Hal.
  - rewrite last_cons_cons in Hlast. exists n. split.
    + rewrite Hsame; [done | by left|]. intros ->. apply Hal.
      apply elem_of_app. left. by apply last_Some_elem_of.
    + apply IH; try done.
      * intros Hx. apply Hin. by right.
      * intros x Hx Hne. apply Hsame; [by right | done].
Qed.

(** Unlinking [item] from behind [prev]. *)
Lemma chain_unlink_fn (f f' : N → option N) l1 l2 (prev item : N) : ∀ p,
  chain f p (l1 ++ item :: l2) → last l1 = Some prev →
  f' prev = f item → (∀ a, a ∈ l1 ++ l2 → a ≠ prev → f' a = f a) →
  chain f' p (l1 ++ l2).
Proof.
  intros p Hc. pose proof (chain_NoDup _ _ _ Hc) as Hnd. revert p Hc Hnd.
  induction l1 as [|a l1 IH]; intros p Hc Hnd Hlast Hfp Hsame; [done|].
  simpl in Hc. destruct Hc as (-> & Ha & n & Hn & Hc).
  simpl in Hnd. apply NoDup_cons in Hnd as [Hal Hnd].
  simpl. split; [done|]. split; [done|].
  destruct l1 as [|b l1].
  - simpl in Hlast. injection Hlast as <-.
    simpl in Hc. destruct Hc as (-> & Hiz & n' & Hn' & Hc).
    exists n'. split; [by rewrite Hfp|].
    apply (chain_ext f); [|done]. intros x Hx. symmetry.
    apply Hsame; [by right|]. intros ->. apply Hal. by right.
  - rewrite last_cons_cons in Hlast. exists n. split.
    + rewrite Hsame; [done | by left|]. intros ->. apply Hal.
      apply elem_of_app. left. by apply last_Some_elem_of.
    + apply IH; try done. intros x Hx Hne. apply Hsame; [by right | done].
Qed.

Lemma steps_S (ls : list (list N)) (k : nat) l :
  ls !! k = Some l → steps ls (S k) = (steps ls k + length l + 1)%nat.
Proof.
  intros Hl. unfold steps. rewrite (take_S_r _ _ _ Hl), concat_app, length_app.
  simpl. rewrite app_nil_r. lia.
Qed.

Lemma steps_le (ls : list (list N)) (k : nat) :
  (steps ls k ≤ length (concat ls) + k)%nat.
Proof.
  unfold steps. rewrite <- (take_drop k ls) at 2.
  rewrite concat_app, length_app. lia.
Qed.

Section Wfp.

Context (link : N → nat → Prop) (s : state) (hts : gmap N nat)
        (ls : list (list N)).
Hypothesis Hwf : wfg link s hts ls.

Lemma wfp_level (k : nat) :
  (k < SKIPLIST_MAXDEPTH)%nat → ∃ l, ls !! k = Some l.
Proof.
  intros Hk. destruct Hwf as (_ & _ & Hlen & _).
  apply lookup_lt_is_Some_2. by rewrite Hlen.
Qed.

Lemma wfp_level_lt (k : nat) l :
  ls !! k = Some l → (k < SKIPLIST_MAXDEPTH)%nat.
Proof.
  intros Hl. destruct Hwf as (_ & _ & Hlen & _).
  rewrite <- Hlen. by eapply lookup_lt_Some.
Qed.

Lemma wfp_valid (k : nat) l (a : N) :
  ls !! k = Some l → a ∈ hd s :: l → ∃ h, hts !! a = Some h ∧ (k < h)%nat.
Proof.
  intros Hl Ha. pose proof (wfp_level_lt _ _ Hl) as Hk.
  destruct Hwf as (_ & Hhd & _ & _ & Hch).
  apply elem_of_cons in Ha as [->|Ha]; [by exists SKIPLIST_MAXDEPTH|].
  destruct (Hch _ _ Hl) as [_ Hmem].
  apply Hmem in Ha as (_ & h & Hh & Hkh & _). by exists h.
Qed.

Lemma wfp_hd_not_in (k : nat) l : ls !! k = Some l → hd s ∉ l.
Proof.
  intros Hl Hin. destruct Hwf as (_ & _ & _ & _ & Hch).
  destruct (Hch _ _ Hl) as [_ Hmem]. by apply Hmem in Hin as [? _].
Qed.

Lemma wfg_down (k : nat) l' l (a : N) :
  ls !! S k = Some l' → ls !! k = Some l → a ∈ hd s :: l' →
  (link a (S k) → link a k) → a ∈ hd s :: l.
Proof.
  intros Hl' Hl Ha Hnp. destruct Hwf as (_ & _ & _ & _ & Hch).
  apply elem_of_cons in Ha as [->|Ha]; [by left|]. right.
  destruct (Hch _ _ Hl') as [_ Hmem']. destruct (Hch _ _ Hl) as [_ Hmem].
  apply Hmem' in Ha as (Hne & h & Hh & Hkh & Hlk). apply Hmem.
  split; [done|]. exists h. split; [done|]. split; [lia|]. by apply Hnp.
Qed.

Lemma wfg_to_zero (k : nat) l l0 (a : N) :
  ls !! k = Some l → ls !! O = Some l0 → a ∈ l →
  (link a k → link a O) → a ∈ l0.
Proof.
  intros Hl Hl0 Ha Hnp. destruct Hwf as (_ & _ & _ & _ & Hch).
  destruct (Hch _ _ Hl) as [_ Hmem]. destruct (Hch _ _ Hl0) as [_ Hmem0].
  apply Hmem in Ha as (Hne & h & Hh & Hkh & Hlk). apply Hmem0.
  split; [done|]. exists h. split; [done|]. split; [lia|]. by apply Hnp.
Qed.

Lemma wfp_even (k : nat) l (a : N) :
  ls !! k = Some l → a ∈ hd s :: l → N.land a 1 = 0%N.
Proof.
  intros Hl Ha. destruct (wfp_valid _ _ _ Hl Ha) as (h & Hh & _).
  destruct Hwf as (_ & _ & _ & Hev & _). by eapply Hev.
Qed.

Lemma pos_start (k : nat) l :
  ls !! k = Some l → at_pos s ls k (hd s) [hd s] l.
Proof. intros Hl. by exists l. Qed.

Lemma pos_mem (k : nat) (prev : N) l1 l2 l :
  at_pos s ls k prev l1 l2 → ls !! k = Some l → prev ∈ hd s :: l.
Proof.
  intros (l' & Hl' & Heq & Hlast) Hl. assert (l' = l) as -> by congruence.
  rewrite Heq. apply elem_of_app. left. by apply last_Some_elem_of.
Qed.

Lemma pos_len (k : nat) (prev : N) l1 l2 l :
  at_pos s ls k prev l1 l2 → ls !! k = Some l → (length l2 ≤ length l)%nat.
Proof.
  intros (l' & Hl' & Heq & Hlast) Hl. assert (l' = l) as -> by congruence.
  apply (f_equal length) in Heq. rewrite length_app in Heq. simpl in Heq.
  destruct l1; [done|]. simpl in Heq. lia.
Qed.

Lemma pos_get (k : nat) (prev : N) l1 l2 :
  at_pos s ls k prev l1 l2 →
  sl_level_get s prev k = Some (default NULL (head l2)) ∧
  chain (lev s k) (default NULL (head l2)) l2.
Proof.
  intros (l & Hl & Heq & Hlast). destruct Hwf as (_ & _ & _ & _ & Hch).
  destruct (Hch _ _ Hl) as [Hc _]. rewrite Heq in Hc.
  destruct (chain_app_inv _ _ _ _ Hc) as (q & Hq & Hnx).
  rewrite Hlast in Hnx. rewrite <- (chain_head _ _ _ Hq). done.
Qed.

Lemma pos_next_not_null (k : nat) (prev a : N) l1 l2 :
  at_pos s ls k prev l1 (a :: l2) → a ≠ NULL.
Proof.
  intros Hp. destruct (pos_get _ _ _ _ Hp) as [_ Hc]. simpl in Hc. tauto.
Qed.

Lemma pos_step (k : nat) (prev a : N) l1 l2 :
  at_pos s ls k prev l1 (a :: l2) → at_pos s ls k a (l1 ++ [a]) l2.
Proof.
  intros (l & Hl & Heq & Hlast). exists l. split; [done|].
  split; [by rewrite <- (assoc_L app) | by rewrite last_snoc].
Qed.

Lemma pos_at (k : nat) l (a : N) :
  ls !! k = Some l → a ∈ hd s :: l → ∃ l1 l2, at_pos s ls k a l1 l2.
Proof.
  intros Hl Ha. apply list_elem_of_split in Ha as (la & lb & Heq).
  exists (la ++ [a]), lb, l. split; [done|].
  split; [by rewrite <- (assoc_L app) | by rewrite last_snoc].
Qed.

Lemma pos_down_g (k : nat) (prev : N) l1 l2 :
  at_pos s ls (S k) prev l1 l2 → (link prev (S k) → link prev k) →
  ∃ l1' l2', at_pos s ls k prev l1' l2'.
Proof.
  intros Hp Hnp. pose proof Hp as (l' & Hl' & _).
  pose proof (wfp_level_lt _ _ Hl') as Hk.
  destruct (wfp_level k) as (l & Hl); [lia|].
  apply (pos_at k l); [done|]. eapply wfg_down; try done.
  by eapply pos_mem.
Qed.

End Wfp.

Section WfpDown.

Context (pend : option (N * nat)) (s : state) (hts : gmap N nat)
        (ls : list (list N)).
Hypothesis Hwf : wfp pend s hts ls.

Lemma wfp_down (k : nat) l' l (a : N) :
  ls !! S k = Some l' → ls !! k = Some l → a ∈ hd s :: l' →
  (∀ m, pend ≠ Some (a, m)) → a ∈ hd s :: l.
Proof.
  intros Hl' Hl Ha Hnp. apply (wfg_down _ _ _ _ Hwf k l' l a Hl' Hl Ha).
  intros _ m Hm. by destruct (Hnp m).
Qed.

Lemma wfp_to_zero (k : nat) l l0 (a : N) :
  ls !! k = Some l → ls !! O = Some l0 → a ∈ l →
  (∀ m, pend ≠ Some (a, m)) → a ∈ l0.
Proof.
  intros Hl Hl0 Ha Hnp. apply (wfg_to_zero _ _ _ _ Hwf k l l0 a Hl Hl0 Ha).
  intros _ m Hm. by destruct (Hnp m).
Qed.

Lemma pos_down (k : nat) (prev : N) l1 l2 :
  at_pos s ls (S k) prev l1 l2 → (∀ m, pend ≠ Some (prev, m)) →
  ∃ l1' l2', at_pos s ls k prev l1' l2'.
Proof.
  intros Hp Hnp. apply (pos_down_g _ _ _ _ Hwf k prev l1 l2 Hp).
  intros _ m Hm. by destruct (Hnp m).
Qed.

End WfpDown.

End SkipPos.


(** ** Sorted sequences *)

Module SortedFacts.
Import SSort.

Section WithCmp.

Variable cmpfn : N → N → Z.

Lemma sorted_app l1 l2 :
  sorted cmpfn (l1 ++ l2) ↔
  sorted cmpfn l1 ∧ sorted cmpfn l2 ∧
  ∀ a b, a ∈ l1 → b ∈ l2 → cmpfn a b <= 0.
Proof.
  induction l1 as [|c l1 IH]; simpl.
  - split; [|tauto]. intros H. split; [done|]. split; [done|].
    intros a b Ha. by apply elem_of_nil in Ha.
  - rewrite IH, Forall_app, !Forall_forall. split.
    + intros ((H1 & H2) & Hs1 & Hs2 & H12). split; [done|]. split; [done|].
      intros a b Ha Hb. apply elem_of_cons in Ha as [->|Ha]; [by apply H2|].
      by apply H12.
    + intros ((H1 & Hs1) & Hs2 & H12). split; [split|]; [done | |].
      * intros b Hb. apply H12; [by left | done].
      * split; [done|]. split; [done|]. intros a b Ha. apply H12. by right.
Qed.

Lemma sorted_le_last l (p e : N) :
  sorted cmpfn l → last l = Some p → e ∈ l → e = p ∨ cmpfn e p <= 0.
Proof.
  intros Hs Hl He. apply last_Some in Hl as (l' & ->).
  apply sorted_app in Hs as (_ & _ & H12).
  apply elem_of_app in He as [He|He].
  - right. apply H12; [done | by left].
  - left. by apply list_elem_of_singleton in He.
Qed.

(** The order laws of a comparison function. *)
Hypothesis cmp_trans :
  ∀ a b c, cmpfn a b <= 0 → cmpfn b c <= 0 → cmpfn a c <= 0.
Hypothesis cmp_flip : ∀ a b, cmpfn a b < 0 ↔ 0 < cmpfn b a.

Lemma cmp_le_lt (a b c : N) : cmpfn a b <= 0 → cmpfn b c < 0 → cmpfn a c < 0.
Proof.
  intros Hab Hbc. pose proof (cmp_trans a b c Hab ltac:(lia)) as Hac.
  destruct (decide (cmpfn a c = 0)) as [Hz|]; [|lia].
  assert (Hca : cmpfn c a <= 0).
  { destruct (decide (cmpfn c a <= 0)); [done|].
    assert (cmpfn a c < 0) by (apply cmp_flip; lia). lia. }
  pose proof (cmp_trans c a b Hca Hab) as Hcb.
  apply cmp_flip in Hbc. lia.
Qed.

Lemma cmp_ge_flip (a b : N) : ¬ cmpfn a b < 0 → cmpfn b a <= 0.
Proof.
  intros Hge. destruct (decide (cmpfn b a <= 0)); [done|].
  exfalso. apply Hge. apply cmp_flip. lia.
Qed.

(** Insertion between the items that are less and an item that is not. *)
Lemma sorted_link l1 l2 (item : N) :
  sorted cmpfn (l1 ++ l2) → Forall (λ a, cmpfn a item < 0) l1 →
  (∀ a, head l2 = Some a → ¬ cmpfn a item < 0) →
  sorted cmpfn (l1 ++ item :: l2).
Proof.
  intros Hs Hlt Hhd. apply sorted_app in Hs as (Hs1 & Hs2 & H12).
  apply sorted_app. split; [done|]. split.
  - simpl. split; [|done]. destruct l2 as [|a l2]; [constructor|].
    pose proof (cmp_ge_flip _ _ (Hhd a eq_refl)) as Hia.
    simpl in Hs2. destruct Hs2 as [Hall _]. constructor; [done|].
    apply Forall_forall. intros b Hb. apply (cmp_trans _ a); [done|].
    by apply (proj1 (Forall_forall _ _) Hall).
  - intros a b Ha Hb. apply elem_of_cons in Hb as [->|Hb].
    + pose proof (proj1 (Forall_forall _ _) Hlt _ Ha) as Hai. simpl in Hai.
      lia.
    + by apply H12.
Qed.

End WithCmp.

(** Where [sorted_insert] puts the item. *)
Lemma sorted_insert_at (cmpfn : N → N → Z) l1 l2 (item : N) :
  Forall (λ a, cmpfn a item < 0) l1 →
  (∀ a, head l2 = Some a → ¬ cmpfn a item < 0) →
  sorted_insert cmpfn item (l1 ++ l2) = l1 ++ item :: l2.
Proof.
  intros Hlt Hhd. induction l1 as [|a l1 IH]; simpl.
  - destruct l2 as [|b l2]; [done|]. simpl.
    by rewrite decide_False by by apply Hhd.
  - apply Forall_cons in Hlt as [Ha Hlt]. rewrite decide_True by done.
    by rewrite IH.
Qed.

End SortedFacts.

(** ** Skip list: search *)

Module SkipFind.
Import SSkip GrowFacts SListOps SkipMem SkipPos SortedFacts.

#[local] Arguments SKIPLIST_OVERFLOW : simpl never.
#[local] Arguments SKIPLIST_EMBED : simpl never.
#[local] Arguments SKIPLIST_MAXDEPTH : simpl never.

Section Find.

Context (cmpfn : N → N → Z) (s : state) (hts : gmap N nat)
        (ls : list (list N)) (l0 : list N) (item : N).
Hypothesis Hwf : wf s hts ls.
Hypothesis Hl0 : ls !! O = Some l0.

(** Behind items that are less and in front of an item that is greater, a
    sorted level holds no equal item. *)
Lemma absent_at (l : list N) (prev : N) l1 l2 :
  (∀ a b c, cmpfn a b <= 0 → cmpfn b c <= 0 → cmpfn a c <= 0) →
  (∀ a b, cmpfn a b < 0 ↔ 0 < cmpfn b a) →
  SSort.sorted cmpfn l → hd s ∉ l → hd s :: l = l1 ++ l2 →
  last l1 = Some prev → (prev = hd s ∨ cmpfn prev item < 0) →
  (∀ a, head l2 = Some a → 0 < cmpfn a item) →
  ∀ e, e ∈ l → cmpfn e item ≠ 0.
Proof.
  intros Htr Hfl Hs Hhd Heq Hlast Hprev Hnext e He Hz.
  destruct l1 as [|x l1]; [done|]. simpl in Heq. injection Heq as <- ->.
  apply sorted_app in Hs as (Hs1 & Hs2 & H12).
  apply elem_of_app in He as [He|He].
  - destruct l1 as [|y l1]; [by apply elem_of_nil in He|].
    rewrite last_cons_cons in Hlast.
    assert (Hpin : prev ∈ y :: l1) by by apply last_Some_elem_of.
    destruct Hprev as [->|Hlt].
    { apply Hhd. apply elem_of_app. by left. }
    destruct (sorted_le_last cmpfn _ _ _ Hs1 Hlast He) as [->|Hle]; [lia|].
    pose proof (cmp_le_lt cmpfn Htr Hfl _ _ _ Hle Hlt). lia.
  - destruct l2 as [|a l2]; [by apply elem_of_nil in He|].
    pose proof (Hnext a eq_refl) as Hgt.
    apply elem_of_cons in He as [->|He]; [lia|].
    simpl in Hs2. destruct Hs2 as [Hall _].
    pose proof (proj1 (Forall_forall _ _) Hall _ He) as Hae.
    pose proof (Htr a e item Hae ltac:(lia)). lia.
Qed.

Lemma find_loop_spec : ∀ fuel k prev l1 l2,
  at_pos s ls k prev l1 l2 →
  (length l2 + steps ls k + 1 < fuel)%nat →
  ∃ r, find_loop cmpfn fuel s item (S k) prev = Some r ∧
       ((r ≠ NULL ∧ r ∈ l0 ∧ cmpfn r item = 0) ∨
        (r = NULL ∧
         ((∀ a b c, cmpfn a b <= 0 → cmpfn b c <= 0 → cmpfn a c <= 0) →
          (∀ a b, cmpfn a b < 0 ↔ 0 < cmpfn b a) →
          SSort.sorted cmpfn l0 → (prev = hd s ∨ cmpfn prev item < 0) →
          ∀ e, e ∈ l0 → cmpfn e item ≠ 0))).
Proof.
  induction fuel as [|f IH]; intros k prev l1 l2 Hp Hf; [lia|].
  cbn [find_loop]. rewrite decide_False by lia.
  replace (S k - 1)%nat with k by lia.
  destruct (pos_get _ _ _ _ Hwf _ _ _ _ Hp) as [Hget Hc]. rewrite Hget.
  cbn -[decide find_loop].
  assert (Hdesc :
    (∀ a, head l2 = Some a → 0 < cmpfn a item) →
    ∃ r, find_loop cmpfn f s item k prev = Some r ∧
         ((r ≠ NULL ∧ r ∈ l0 ∧ cmpfn r item = 0) ∨
          (r = NULL ∧
           ((∀ a b c, cmpfn a b <= 0 → cmpfn b c <= 0 → cmpfn a c <= 0) →
            (∀ a b, cmpfn a b < 0 ↔ 0 < cmpfn b a) →
            SSort.sorted cmpfn l0 → (prev = hd s ∨ cmpfn prev item < 0) →
            ∀ e, e ∈ l0 → cmpfn e item ≠ 0)))).
  { intros Hnext. destruct k as [|k].
    - destruct f as [|f]; [lia|]. exists NULL. split; [done|]. right.
      split; [done|]. intros Htr Hfl Hs Hprev.
      destruct Hp as (l & Hl & Heq & Hlast).
      assert (l = l0) as -> by congruence.
      eapply absent_at; try done. by eapply wfp_hd_not_in.
    - destruct (pos_down _ _ _ _ Hwf _ _ _ _ Hp) as (l1' & l2' & Hp');
        [done|].
      pose proof Hp' as (l & Hl & _).
      assert (Hlen : (length l2' ≤ length l)%nat) by (eapply pos_len; eauto).
      rewrite (steps_S _ _ _ Hl) in Hf.
      apply (IH k prev l1' l2' Hp'). lia. }
  destruct l2 as [|a l2]; cbn -[decide find_loop].
  - rewrite decide_True by done. apply Hdesc. by intros a [=].
  - pose proof (pos_next_not_null _ _ _ _ Hwf _ _ _ _ _ Hp) as Ha.
    rewrite decide_False by done.
    destruct (decide (cmpfn a item < 0)) as [Hlt|Hge].
    + destruct (IH k a (l1 ++ [a]) l2) as (r & Hr & Hres).
      { by eapply pos_step. }
      { simpl in Hf. lia. }
      exists r. split; [done|]. destruct Hres as [?|[-> Habs]]; [by left|].
      right. split; [done|]. intros Htr Hfl Hs _. apply Habs; try done.
      by right.
    + destruct (decide (cmpfn a item = 0)) as [Hz|Hnz].
      * exists a. split; [done|]. left. split; [done|]. split; [|done].
        destruct Hp as (l & Hl & Heq & Hlast).
        destruct l1 as [|x l1]; [done|]. simpl in Heq.
        injection Heq as _ ->.
        apply (wfp_to_zero _ _ _ _ Hwf k (l1 ++ a :: l2)); try done.
        apply elem_of_app. right. by left.
      * apply Hdesc. intros b [= <-]. lia.
Qed.

End Find.

End SkipFind.


(** ** Skip list: the empty list and a fresh item *)

Module SkipAlloc.
Import SSkip GrowFacts SListOps SkipMem SkipPos.

#[local] Arguments SKIPLIST_OVERFLOW : simpl never.
#[local] Arguments SKIPLIST_EMBED : simpl never.
#[local] Arguments SKIPLIST_MAXDEPTH : simpl never.

Lemma init_wf (its blks : gmap N (list N)) (h : N) :
  h ≠ NULL → (h mod 4 = 0)%N → (h + 32 < 2 ^ 64)%N →
  wf (init its blks h) {[h := SKIPLIST_MAXDEPTH]}
     (replicate SKIPLIST_MAXDEPTH []).
Proof.
  intros Hz Hal Hlt.
  assert (Hal' : (head_overflow h mod 4 = 0)%N).
  { unfold head_overflow. change (8 * N.of_nat SKIPLIST_EMBED)%N with (8 * 4)%N.
    rewrite N.Div0.add_mod, Hal. done. }
  assert (Hlt' : (head_overflow h < 2 ^ 64)%N) by exact Hlt.
  assert (Hoz : head_overflow h ≠ NULL).
  { unfold head_overflow, NULL. change (N.of_nat SKIPLIST_EMBED) with 4%N.
    lia. }
  pose proof (tag_strip _ Hal' Hlt') as Hstrip.
  pose proof (tag_set (head_overflow h)) as Htag.
  set (s := init its blks h).
  assert (Hget : ∀ k, (k < SKIPLIST_MAXDEPTH)%nat →
                      sl_level_get s h k = Some NULL).
  { intros k Hk. destruct (decide (k < SKIPLIST_OVERFLOW)%nat) as [Hlow|Hhigh].
    - rewrite (get_inline s h SKIPLIST_MAXDEPTH k
                 [NULL; NULL; NULL; N.lor (head_overflow h) 1]);
        [|done|apply lookup_insert_eq|done].
      unfold SKIPLIST_OVERFLOW, SKIPLIST_EMBED in Hlow.
      by destruct k as [|[|[|k]]]; [| | |lia].
    - rewrite (get_block s h k
                 [NULL; NULL; NULL; N.lor (head_overflow h) 1]
                 (N.lor (head_overflow h) 1)
                 (replicate (SKIPLIST_MAXDEPTH - SKIPLIST_OVERFLOW) NULL));
        try done.
      + apply lookup_replicate_2. lia.
      + apply lookup_insert_eq.
      + by rewrite Htag.
      + by rewrite Hstrip.
      + rewrite Hstrip. apply lookup_insert_eq.
      + lia. }
  split; [|split; [apply lookup_insert_eq|split; [by rewrite length_replicate|split]]].
  - split.
    + intros a ht Ha. apply lookup_singleton_Some in Ha as [<- <-].
      split; [done|]. split; [unfold SKIPLIST_MAXDEPTH; lia|].
      exists [NULL; NULL; NULL; N.lor (head_overflow h) 1],
             (N.lor (head_overflow h) 1).
      split; [apply lookup_insert_eq|]. split; [done|]. split; [done|].
      rewrite decide_False
        by (unfold SKIPLIST_MAXDEPTH, SKIPLIST_EMBED; lia).
      split; [by rewrite Htag|]. split; [by rewrite Hstrip|].
      exists (replicate (SKIPLIST_MAXDEPTH - SKIPLIST_OVERFLOW) NULL).
      rewrite Hstrip. split; [apply lookup_insert_eq|].
      by rewrite length_replicate.
    + intros a a' ht ht' b Ha Ha' _ _ _ _.
      apply lookup_singleton_Some in Ha as [<- _].
      by apply lookup_singleton_Some in Ha' as [<- _].
  - intros a ht Ha. apply lookup_singleton_Some in Ha as [<- _].
    by apply aligned_even.
  - intros k l Hl. apply lookup_replicate in Hl as [-> Hk]. split.
    + simpl. split; [done|]. split; [done|]. exists NULL. split; [|done].
      by apply Hget.
    + intros a. split; [by intros Ha%elem_of_nil|].
      intros (Hne & ht & Ha & _). by apply lookup_singleton_Some in Ha as [<- _].
Qed.

(** The prologue of [typesafe_skiplist_add]. *)
Lemma add_unfold (cmpfn : N → N → Z) (fuel : nat) (rnd : Z) (oflow : N)
    (s : state) (item : N) :
  item ≠ NULL → 0 < rnd →
  ((SKIPLIST_EMBED < newlevel_of rnd)%nat → oflow ≠ NULL) →
  typesafe_skiplist_add cmpfn fuel rnd oflow s item
  = (let s1 := add_prepared s item (newlevel_of rnd) oflow in
     r ← add_descend cmpfn fuel s1 item (newlevel_of rnd) SKIPLIST_MAXDEPTH
           (hd s1) NULL;
     s2 ← sl_level_set s1 item r.1.1 r.2;
     s3 ← sl_level_set s2 r.1.2 r.1.1 item;
     add_lower cmpfn fuel s3 item r.1.1 r.1.2).
Proof.
  intros Hiz Hrnd Hof. unfold typesafe_skiplist_add, add_prepared.
  destruct rnd as [|p|p]; [lia| |lia]. cbn [newlevel_of] in *.
  set (h := Nat.min (ctz p + 1) SKIPLIST_MAXDEPTH) in *.
  unfold store. rewrite decide_False by done. cbn -[decide].
  destruct (decide (SKIPLIST_EMBED < h)%nat) as [Ht|Hs].
  - rewrite decide_False by auto. cbn -[decide].
    unfold load. rewrite decide_False by done. cbn -[decide].
    rewrite lookup_insert_eq. cbn -[decide].
    unfold array_set at 1. rewrite decide_True
      by (rewrite length_replicate;
          unfold SKIPLIST_OVERFLOW, SKIPLIST_EMBED; lia).
    cbn -[decide]. unfold set_blocks, set_items. cbn -[decide].
    apply option_bind_ext_fun. by intros [[level prev] next].
  - cbn -[decide]. apply option_bind_ext_fun. by intros [[level prev] next].
Qed.

(** The state that enters the first loop holds the item, of [h] levels that
    all read NULL, beside the unchanged list. *)
Lemma prepared_spec (s : state) hts ls (item : N) (h : nat) (oflow : N) :
  wf s hts ls → hts !! item = None → item ≠ NULL → N.land item 1 = 0%N →
  (0 < h ≤ SKIPLIST_MAXDEPTH)%nat →
  ((SKIPLIST_EMBED < h)%nat →
   oflow ≠ NULL ∧ (oflow mod 4 = 0)%N ∧ (oflow < 2 ^ 64)%N ∧
   ∀ a h', hts !! a = Some h' → (SKIPLIST_EMBED < h')%nat →
           block_of s a ≠ Some oflow) →
  wfp (Some (item, h)) (add_prepared s item h oflow) (<[item := h]> hts) ls ∧
  hd (add_prepared s item h oflow) = hd s ∧
  count (add_prepared s item h oflow) = count s.
Proof.
  intros (Hlay & Hhd & Hlen & Hev & Hch) Hfresh Hiz Hie Hh Hof.
  set (s1 := add_prepared s item h oflow).
  assert (Hhd1 : hd s1 = hd s).
  { unfold s1, add_prepared. by destruct (decide _). }
  assert (Hc1 : count s1 = count s).
  { unfold s1, add_prepared. by destruct (decide _). }
  assert (Hit : ∀ a, a ≠ item → items s1 !! a = items s !! a).
  { intros a Ha. unfold s1, add_prepared. destruct (decide _); cbn.
    - by rewrite !lookup_insert_ne.
    - by rewrite lookup_insert_ne. }
  assert (Hbl : ∀ b, ((SKIPLIST_EMBED < h)%nat → b ≠ oflow) →
                     blocks s1 !! b = blocks s !! b).
  { intros b Hb. unfold s1, add_prepared. destruct (decide _); cbn; [|done].
    rewrite lookup_insert_ne; [done|]. intros ->. by apply Hb. }
  destruct Hlay as [Hok Hdis].
  assert (Hne : ∀ a h', hts !! a = Some h' → a ≠ item).
  { intros a h' Ha ->. congruence. }
  assert (Hblock : ∀ a h', hts !! a = Some h' →
                           block_of s1 a = block_of s a).
  { intros a h' Ha. unfold block_of. by rewrite (Hit _ (Hne _ _ Ha)). }
  assert (Hgetold : ∀ a h' k, hts !! a = Some h' → (k < h')%nat →
                              sl_level_get s1 a k = sl_level_get s a k).
  { intros a h' k Ha Hk.
    destruct (Hok _ _ Ha)
      as (Haz & Hh' & nx & n3 & Hnx & Hlnx & Hn3 & Hcase).
    unfold sl_level_get. unfold load. rewrite !decide_False by done.
    rewrite (Hit _ (Hne _ _ Ha)), Hnx. cbn -[decide].
    destruct (decide (k < SKIPLIST_OVERFLOW)%nat); [done|].
    rewrite Hn3. cbn -[decide].
    destruct (decide (k = SKIPLIST_OVERFLOW ∧ N.land n3 1 = 0%N)); [done|].
    destruct (decide (h' ≤ SKIPLIST_EMBED)%nat) as [Hs'|Ht'].
    { exfalso. unfold SKIPLIST_OVERFLOW, SKIPLIST_EMBED in *.
      assert (k = 3)%nat by lia. tauto. }
    destruct Hcase as (Htag & Hbz & ob & Hob & Hlob).
    rewrite !decide_False by done. rewrite Hbl; [done|].
    intros Ht Heq. destruct (Hof Ht) as (_ & _ & _ & Hfr).
    apply (Hfr a h' Ha); [lia|]. unfold block_of. rewrite Hnx. cbn.
    rewrite Hn3. cbn. by rewrite Heq. }
  split; [|done]. split; [|split; [|split; [done|split]]].
  - split.
    + intros a h' Ha. apply lookup_insert_Some in Ha as [[<- <-]|[Hna Ha]].
      * split; [done|]. split; [done|].
        unfold s1, add_prepared.
        destruct (decide (SKIPLIST_EMBED < h)%nat) as [Ht|Hs]; cbn.
        -- destruct (Hof Ht) as (Hoz & Hal & Hlt & _).
           eexists _, (N.lor oflow 1). rewrite lookup_insert_eq.
           split; [done|]. split; [done|]. split; [done|].
           rewrite decide_False by lia.
           rewrite tag_strip by done. split; [by rewrite tag_set|].
           split; [done|]. eexists. rewrite lookup_insert_eq.
           split; [done|]. by rewrite length_replicate.
        -- eexists _, NULL. rewrite lookup_insert_eq.
           split; [done|]. split; [done|]. split; [done|].
           by rewrite decide_True by lia.
      * destruct (Hok _ _ Ha)
          as (Haz & Hh' & nx & n3 & Hnx & Hlnx & Hn3 & Hcase).
        split; [done|]. split; [done|]. exists nx, n3.
        rewrite (Hit _ (Hne _ _ Ha)).
        split; [done|]. split; [done|]. split; [done|].
        destruct (decide (h' ≤ SKIPLIST_EMBED)%nat); [done|].
        destruct Hcase as (Htag & Hbz & ob & Hob & Hlob).
        split; [done|]. split; [done|]. exists ob. split; [|done].
        rewrite Hbl; [done|]. intros Ht Heq.
        destruct (Hof Ht) as (_ & _ & _ & Hfr).
        apply (Hfr a h' Ha); [lia|]. unfold block_of. rewrite Hnx. cbn.
        rewrite Hn3. cbn. by rewrite Heq.
    + assert (Hbi : (SKIPLIST_EMBED < h)%nat →
                    block_of s1 item = Some oflow).
      { intros Ht. destruct (Hof Ht) as (Hoz & Hal & Hlt & _).
        unfold block_of, s1, add_prepared. rewrite decide_True by done. cbn.
        rewrite lookup_insert_eq. unfold SKIPLIST_OVERFLOW, SKIPLIST_EMBED.
        cbn. by rewrite tag_strip. }
      intros a a' h1 h2 b Ha Ha' Ht1 Ht2 Hb Hb'.
      apply lookup_insert_Some in Ha as [[<- <-]|[Hna Ha]];
        apply lookup_insert_Some in Ha' as [[<- <-]|[Hna' Ha']]; try done.
      * rewrite (Hbi Ht1) in Hb. injection Hb as <-.
        rewrite (Hblock _ _ Ha') in Hb'.
        destruct (Hof Ht1) as (_ & _ & _ & Hfr). by destruct (Hfr _ _ Ha' Ht2).
      * rewrite (Hbi Ht2) in Hb'. injection Hb' as <-.
        rewrite (Hblock _ _ Ha) in Hb.
        destruct (Hof Ht2) as (_ & _ & _ & Hfr). by destruct (Hfr _ _ Ha Ht1).
      * rewrite (Hblock _ _ Ha) in Hb. rewrite (Hblock _ _ Ha') in Hb'.
        by eapply Hdis.
  - rewrite Hhd1. rewrite lookup_insert_ne; [done|]. intros Heq.
    rewrite Heq in Hfresh. congruence.
  - intros a h' Ha. apply lookup_insert_Some in Ha as [[<- <-]|[Hna Ha]];
      [done | by eapply Hev].
  - intros k l Hl. destruct (Hch _ _ Hl) as [Hc Hmem]. rewrite Hhd1. split.
    + apply (chain_ext (lev s k)); [|done]. intros a Ha. unfold lev.
      symmetry. apply elem_of_cons in Ha as [->|Ha].
      * apply (Hgetold _ _ _ Hhd). rewrite <- Hlen. by eapply lookup_lt_Some.
      * apply Hmem in Ha as (_ & h' & Ha & Hk & _). by eapply Hgetold.
    + intros a. rewrite Hmem. split.
      * intros (Hna & h' & Ha & Hk & _). split; [done|]. exists h'.
        split; [by rewrite lookup_insert_ne by (intros <-; congruence)|].
        split; [done|]. intros m [= -> _]. congruence.
      * intros (Hna & h' & Ha & Hk & Hp). split; [done|].
        apply lookup_insert_Some in Ha as [[<- <-]|[Hnai Ha]].
        -- specialize (Hp h eq_refl). lia.
        -- exists h'. split; [done|]. split; [done|]. by intros m [=].
Qed.

End SkipAlloc.


(** ** Skip list: insertion *)

Module SkipAdd.
Import SSkip GrowFacts SListOps SkipMem SkipPos SortedFacts SkipAlloc.

#[local] Arguments SKIPLIST_OVERFLOW : simpl never.
#[local] Arguments SKIPLIST_EMBED : simpl never.
#[local] Arguments SKIPLIST_MAXDEPTH : simpl never.

Section Add.

Context (cmpfn : N → N → Z) (hts : gmap N nat) (item : N) (h : nat).

(** The inner loop of the second phase stops behind the items that are
    less. *)
Lemma advance_spec pend (s : state) ls (k : nat) :
  wfp pend s hts ls →
  ∀ l2 fuel prev l1,
  at_pos s ls k prev l1 l2 → (length l2 < fuel)%nat →
  ∃ prev' w l2',
    add_advance cmpfn fuel s item k prev
    = Some (prev', default NULL (head l2')) ∧
    l2 = w ++ l2' ∧ at_pos s ls k prev' (l1 ++ w) l2' ∧
    (∀ a, head l2' = Some a → ¬ cmpfn a item < 0) ∧
    (prev' = prev ∨ cmpfn prev' item < 0).
Proof.
  intros Hwf. induction l2 as [|a l2 IH]; intros fuel prev l1 Hp Hf;
    (destruct fuel as [|f]; [simpl in Hf; lia|]); cbn [add_advance];
    destruct (pos_get _ _ _ _ Hwf _ _ _ _ Hp) as [Hget _]; rewrite Hget;
    cbn -[decide add_advance].
  - rewrite decide_False by tauto. exists prev, [], [].
    split; [done|]. split; [done|]. split; [by rewrite app_nil_r|].
    split; [by intros ? [=] | by left].
  - pose proof (pos_next_not_null _ _ _ _ Hwf _ _ _ _ _ Hp) as Ha.
    destruct (decide (a ≠ NULL ∧ cmpfn a item < 0)) as [[_ Hlt]|Hge].
    + destruct (IH f a (l1 ++ [a]))
        as (prev' & w & l2' & Hadv & -> & Hp' & Hhd & Hprev');
        [by eapply pos_step | simpl in Hf; lia |].
      exists prev', (a :: w), l2'. split; [done|]. split; [done|].
      split; [by rewrite <- (assoc_L app) in Hp'|]. split; [done|]. right.
      by destruct Hprev' as [->|?].
    + exists prev, [], (a :: l2).
      split; [done|]. split; [done|]. split; [by rewrite app_nil_r|].
      split; [|by left].
      intros b [= <-] Hlt. by apply Hge.
Qed.

Lemma pend_absent (s : state) ls (m k hh : nat) l :
  wfp (Some (item, m)) s hts ls → hts !! item = Some hh →
  ls !! k = Some l → (k < m ∨ hh ≤ k)%nat → item ∉ l.
Proof.
  intros (_ & _ & _ & _ & Hch) Hh Hl Hk Hin.
  destruct (Hch _ _ Hl) as [_ Hmem].
  apply Hmem in Hin as (_ & h' & Hh' & Hkh & Hp).
  rewrite Hh in Hh'. injection Hh' as <-.
  specialize (Hp m eq_refl). lia.
Qed.

(** The first loop comes down to the level below the height of the item. *)
Lemma descend_spec (s : state) ls (h0 : nat) :
  wfp (Some (item, S h0)) s hts ls → hts !! item = Some (S h0) →
  item ≠ hd s →
  ∀ fuel k prev l1 l2 nxt0,
  (h0 ≤ k)%nat → at_pos s ls k prev l1 l2 →
  (prev = hd s ∨ cmpfn prev item < 0) →
  (length l2 + steps ls k + 2 < fuel)%nat →
  ∃ prev' l1' l2',
    add_descend cmpfn fuel s item (S h0) (S k) prev nxt0
    = Some (h0, prev', default NULL (head l2')) ∧
    at_pos s ls h0 prev' l1' l2' ∧ (prev' = hd s ∨ cmpfn prev' item < 0) ∧
    (∀ a, head l2' = Some a → ¬ cmpfn a item < 0).
Proof.
  intros Hwf Hh Hih.
  induction fuel as [|f IH]; intros k prev l1 l2 nxt0 Hk Hp Hprev Hf; [lia|].
  cbn [add_descend]. rewrite decide_True by lia.
  replace (S k - 1)%nat with k by lia.
  destruct (pos_get _ _ _ _ Hwf _ _ _ _ Hp) as [Hget _]. rewrite Hget.
  cbn -[decide add_descend].
  assert (Hdesc :
    (∀ a, head l2 = Some a → ¬ cmpfn a item < 0) →
    ∃ prev' l1' l2',
      add_descend cmpfn f s item (S h0) k prev (default NULL (head l2))
      = Some (h0, prev', default NULL (head l2')) ∧
      at_pos s ls h0 prev' l1' l2' ∧
      (prev' = hd s ∨ cmpfn prev' item < 0) ∧
      (∀ a, head l2' = Some a → ¬ cmpfn a item < 0)).
  { intros Hnext. destruct (decide (k = h0)) as [->|Hne].
    - destruct f as [|f]; [lia|]. cbn [add_descend].
      rewrite decide_False by lia. by exists prev, l1, l2.
    - destruct k as [|k]; [lia|].
      assert (Hnp : ∀ m, Some (item, S h0) ≠ Some (prev, m)).
      { intros m [= <- _]. pose proof Hp as (l & Hl & _).
        assert (Hin : item ∈ hd s :: l) by (eapply pos_mem; eauto).
        apply elem_of_cons in Hin as [?|Hin]; [done|].
        eapply pend_absent; eauto. right. lia. }
      destruct (pos_down _ _ _ _ Hwf _ _ _ _ Hp Hnp) as (l1' & l2' & Hp').
      pose proof Hp' as (l & Hl & _).
      assert (Hlen : (length l2' ≤ length l)%nat) by (eapply pos_len; eauto).
      rewrite (steps_S _ _ _ Hl) in Hf.
      apply (IH k prev l1' l2'); [lia | done | done | lia]. }
  destruct l2 as [|a l2]; cbn -[decide add_descend].
  - rewrite decide_True by done. apply Hdesc. by intros a [=].
  - pose proof (pos_next_not_null _ _ _ _ Hwf _ _ _ _ _ Hp) as Ha.
    rewrite decide_False by done.
    destruct (decide (cmpfn a item < 0)) as [Hlt|Hge].
    + apply (IH k a (l1 ++ [a]) l2); [done | by eapply pos_step | by right |].
      simpl in Hf. lia.
    + apply Hdesc. by intros b [= <-].
Qed.

(** Linking the item on one level. *)
Lemma link_level (s : state) ls (k : nat) (prev : N) l1 l2 :
  wfp (Some (item, S k)) s hts ls → hts !! item = Some h → (k < h)%nat →
  item ≠ hd s → at_pos s ls k prev l1 l2 →
  ∃ s2 s3,
    sl_level_set s item k (default NULL (head l2)) = Some s2 ∧
    sl_level_set s2 prev k item = Some s3 ∧
    wfp (Some (item, k)) s3 hts (<[k := tail l1 ++ item :: l2]> ls) ∧
    hd s3 = hd s ∧ count s3 = count s.
Proof.
  intros Hwf Hh Hk Hih Hp.
  pose proof Hwf as (Hlay & Hhd & Hlen & Hev & Hch).
  pose proof Hp as (l & Hl & Heq & Hlast).
  destruct l1 as [|x l1]; [done|]. simpl in Heq. injection Heq as <- ->.
  cbn [tail].
  assert (Hnotin : item ∉ l1 ++ l2).
  { eapply pend_absent; eauto. }
  assert (Hnotin' : item ∉ hd s :: l1 ++ l2).
  { intros Hin. apply elem_of_cons in Hin as [?|?]; [done | by apply Hnotin]. }
  assert (Hpin : prev ∈ hd s :: l1 ++ l2).
  { apply (elem_of_app (hd s :: l1) l2). left. by apply last_Some_elem_of. }
  destruct (wfp_valid _ _ _ _ Hwf k _ prev Hl Hpin) as (hp & Hhp & Hkp).
  assert (Hpi : prev ≠ item) by (by intros ->).
  assert (Hnev : N.land (default NULL (head l2)) 1 = 0%N).
  { destruct l2 as [|a l2]; [done|]. simpl.
    apply (wfp_even _ _ _ _ Hwf k _ a Hl). right. apply elem_of_app. right.
    by left. }
  assert (Hiz : item ≠ NULL).
  { destruct Hlay as [Hok _]. by destruct (Hok _ _ Hh). }
  destruct (set_spec s hts item h k _ Hlay Hh Hk Hnev)
    as (s2 & Hs2 & Hlay2 & Hhd2 & Hc2 & Hg2 & Hfr2).
  destruct (set_spec s2 hts prev hp k item Hlay2 Hhp Hkp (Hev _ _ Hh))
    as (s3 & Hs3 & Hlay3 & Hhd3 & Hc3 & Hg3 & Hfr3).
  exists s2, s3. split; [done|]. split; [done|].
  split; [|split; congruence].
  assert (Hfr : ∀ a h' k', hts !! a = Some h' → (k' < h')%nat →
                           (k' ≠ k ∨ (a ≠ item ∧ a ≠ prev)) →
                           sl_level_get s3 a k' = sl_level_get s a k').
  { intros a h' k' Ha Hk' Hd.
    rewrite (Hfr3 a h' k' Ha Hk'), (Hfr2 a h' k' Ha Hk'); [done| |];
      destruct Hd as [?|[? ?]]; auto. }
  assert (Hgi : sl_level_get s3 item k = Some (default NULL (head l2))).
  { rewrite (Hfr3 item h k Hh Hk); [done|]. left. congruence. }
  split; [done|]. split; [by rewrite Hhd3, Hhd2|].
  split; [by rewrite length_insert|]. split; [done|].
  intros k' l' Hl'. rewrite Hhd3, Hhd2.
  apply list_lookup_insert_Some in Hl' as [(<- & <- & _)|(Hne & Hl')].
  - destruct (Hch _ _ Hl) as [Hc Hmem]. split.
    + apply (chain_link_fn (lev s k) (lev s3 k) (hd s :: l1) l2 prev item);
        try done.
      intros a Ha Hnp. unfold lev.
      destruct (wfp_valid _ _ _ _ Hwf k _ a Hl Ha) as (ha & Hha & Hka).
      apply (Hfr a ha k Hha Hka). right. split; [|done]. by intros ->.
    + intros a. rewrite elem_of_app, elem_of_cons. split.
      * intros Hin. destruct (decide (a = item)) as [->|Hnai].
        { split; [done|]. exists h. split; [done|]. split; [done|].
          intros m [= <-]. lia. }
        assert (Ha : a ∈ l1 ++ l2) by (rewrite elem_of_app; tauto).
        apply Hmem in Ha as (Hna & h' & Ha' & Hk' & _).
        split; [done|]. exists h'. split; [done|]. split; [done|].
        intros m [= <- _]. done.
      * intros (Hna & h' & Ha' & Hk' & Hp').
        destruct (decide (a = item)) as [->|Hnai]; [right; by left|].
        assert (Hin : a ∈ l1 ++ l2).
        { apply Hmem. split; [done|]. exists h'. split; [done|].
          split; [done|]. intros m [= <- _]. done. }
        apply elem_of_app in Hin as [?|?]; [by left | right; by right].
  - destruct (Hch _ _ Hl') as [Hc Hmem]. split.
    + apply (chain_ext (lev s k')); [|done]. intros a Ha. unfold lev.
      symmetry.
      destruct (wfp_valid _ _ _ _ Hwf k' _ a Hl' Ha) as (ha & Hha & Hka).
      apply (Hfr a ha k' Hha Hka). left. congruence.
    + intros a. rewrite Hmem.
      split; intros (Hna & h' & Ha' & Hk' & Hp');
        (split; [done|]); exists h'; (split; [done|]); (split; [done|]);
        intros m [= <- <-].
      * specialize (Hp' (S k) eq_refl). lia.
      * specialize (Hp' k eq_refl). lia.
Qed.

Lemma last_tail (x p q : N) (l : list N) :
  last (x :: l) = Some q → last l = Some p → p = q.
Proof. rewrite last_cons. intros H1 H2. rewrite H2 in H1. congruence. Qed.

(** The second loop links the item on the levels below [n]. *)
Lemma lower_spec (fuel : nat) : ∀ n s ls prev,
  wfp (Some (item, n)) s hts ls → hts !! item = Some h → (n < h)%nat →
  item ≠ hd s → (∃ l, ls !! n = Some l ∧ prev ∈ hd s :: l) → prev ≠ item →
  (prev = hd s ∨ cmpfn prev item < 0) →
  (∀ k l, (k < n)%nat → ls !! k = Some l → (length l < fuel)%nat) →
  ∃ s' ls',
    add_lower cmpfn fuel s item n prev = Some s' ∧
    wfp (Some (item, O)) s' hts ls' ∧ hd s' = hd s ∧ count s' = count s ∧
    (∀ k, (n ≤ k)%nat → ls' !! k = ls !! k) ∧
    (∀ k l, (k < n)%nat → ls !! k = Some l →
       ∃ l1 l2, l = l1 ++ l2 ∧ ls' !! k = Some (l1 ++ item :: l2) ∧
                (∀ p, last l1 = Some p → cmpfn p item < 0) ∧
                (∀ a, head l2 = Some a → ¬ cmpfn a item < 0)).
Proof.
  induction n as [|lv IH];
    intros s ls prev Hwf Hh Hn Hih (ln & Hln & Hpin) Hpi Hprev Hf.
  - exists s, ls. simpl. split; [done|]. split; [done|]. split; [done|].
    split; [done|]. split; [done|]. intros; lia.
  - cbn [add_lower].
    pose proof (wfp_level_lt _ _ _ _ Hwf _ _ Hln) as Hlv.
    destruct (wfp_level _ _ _ _ Hwf lv) as (l & Hl); [lia|].
    assert (Hpin' : prev ∈ hd s :: l).
    { eapply wfp_down; eauto. intros m [= <- _]. done. }
    destruct (pos_at _ _ _ _ _ Hl Hpin') as (l1 & l2 & Hp).
    destruct (advance_spec _ s ls lv Hwf l2 fuel prev l1 Hp)
      as (prev' & w & l2' & Hadv & -> & Hp' & Hhd & Hprev').
    { assert (length l2 ≤ length l)%nat by (eapply pos_len; eauto).
      specialize (Hf lv l ltac:(lia) Hl). lia. }
    rewrite Hadv. cbn -[sl_level_set add_lower].
    destruct (link_level s ls lv prev' (l1 ++ w) l2' Hwf Hh ltac:(lia) Hih Hp')
      as (s2 & s3 & Hs2 & Hs3 & Hwf3 & Hhd3 & Hc3).
    rewrite Hs2. cbn -[sl_level_set add_lower]. rewrite Hs3.
    cbn -[sl_level_set add_lower].
    pose proof Hp' as (l' & Hl' & Heq & Hlast).
    assert (l' = l) as -> by congruence.
    destruct l1 as [|x l1]; [by destruct Hp as (? & ? & ? & ?)|].
    simpl in Heq. injection Heq as <- ->. cbn [tail app] in Hwf3.
    assert (Hprev3 : prev' = hd s ∨ cmpfn prev' item < 0).
    { destruct Hprev' as [->|?]; [done | by right]. }
    assert (Hnotin : item ∉ hd s :: (l1 ++ w) ++ l2').
    { intros Hin. apply elem_of_cons in Hin as [?|Hin]; [done|].
      apply (pend_absent s ls (S lv) lv h _ Hwf Hh Hl); [left; lia | done]. }
    assert (Hp'in : prev' ∈ hd s :: (l1 ++ w) ++ l2').
    { apply (elem_of_app (hd s :: l1 ++ w) l2'). left.
      by apply last_Some_elem_of. }
    destruct (IH s3 (<[lv := (l1 ++ w) ++ item :: l2']> ls) prev')
      as (s' & ls' & Hlow & Hwf' & Hhd' & Hc' & Hsame & Hins); try done.
    { lia. }
    { by rewrite Hhd3. }
    { rewrite Hhd3. eexists. split.
      - apply list_lookup_insert_eq. by eapply lookup_lt_Some.
      - apply elem_of_cons in Hp'in as [->|Hin]; [by left|]. right.
        rewrite elem_of_app, elem_of_cons.
        apply elem_of_app in Hin as [?|?]; [by left | right; by right]. }
    { by intros ->. }
    { by rewrite Hhd3. }
    { intros k lk Hk Hlk. rewrite list_lookup_insert_ne in Hlk by lia.
      apply (Hf k lk); [lia | done]. }
    exists s', ls'. split; [done|]. split; [done|].
    split; [congruence|]. split; [congruence|]. split.
    + intros k Hk. rewrite Hsame by lia.
      apply list_lookup_insert_ne. lia.
    + intros k lk Hk Hlk. destruct (decide (k = lv)) as [->|Hne].
      * assert (lk = (l1 ++ w) ++ l2') as -> by congruence.
        exists (l1 ++ w), l2'. split; [done|]. split.
        { rewrite Hsame by lia. apply list_lookup_insert_eq.
          by eapply lookup_lt_Some. }
        split; [|done]. intros p Hlp.
        pose proof (last_tail _ _ _ _ Hlast Hlp) as ->.
        destruct Hprev3 as [->|?]; [|done].
        exfalso. apply (wfp_hd_not_in _ _ _ _ Hwf _ _ Hl).
        apply elem_of_app. left. by apply last_Some_elem_of.
      * apply Hins; [lia|]. by rewrite list_lookup_insert_ne by done.
Qed.

End Add.

Lemma wfp_done (s : state) hts ls (item : N) :
  wfp (Some (item, O)) s hts ls → wf s hts ls.
Proof.
  intros (Hlay & Hhd & Hlen & Hev & Hch).
  split; [done|]. split; [done|]. split; [done|]. split; [done|].
  intros k l Hl. destruct (Hch _ _ Hl) as [Hc Hmem]. split; [done|].
  intros a. rewrite Hmem.
  split; intros (Hna & h' & Ha' & Hk' & Hp');
    (split; [done|]); exists h'; (split; [done|]); (split; [done|]).
  - by intros m [=].
  - intros m [= <- <-]. lia.
Qed.

(** [typesafe_skiplist_add]: the item is linked on every level below its
    height, behind the items that are less; the count is left alone. *)
Lemma add_spec (cmpfn : N → N → Z) (hts : gmap N nat) (item : N) (h : nat)
    (s : state) ls (rnd : Z) (oflow : N) (fuel : nat) :
  wf s hts ls → hts !! item = None → item ≠ NULL → N.land item 1 = 0%N →
  0 < rnd → h = newlevel_of rnd →
  ((SKIPLIST_EMBED < h)%nat →
   oflow ≠ NULL ∧ (oflow mod 4 = 0)%N ∧ (oflow < 2 ^ 64)%N ∧
   ∀ a h', hts !! a = Some h' → (SKIPLIST_EMBED < h')%nat →
           block_of s a ≠ Some oflow) →
  (length (concat ls) + 2 * SKIPLIST_MAXDEPTH < fuel)%nat →
  ∃ s' ls',
    typesafe_skiplist_add cmpfn fuel rnd oflow s item = Some s' ∧
    wf s' (<[item := h]> hts) ls' ∧ hd s' = hd s ∧ count s' = count s ∧
    (0 < h ≤ SKIPLIST_MAXDEPTH)%nat ∧
    (∀ k, (h ≤ k)%nat → ls' !! k = ls !! k) ∧
    (∀ k l, (k < h)%nat → ls !! k = Some l →
       ∃ l1 l2, l = l1 ++ l2 ∧ ls' !! k = Some (l1 ++ item :: l2) ∧
                (∀ p, last l1 = Some p → cmpfn p item < 0) ∧
                (∀ a, head l2 = Some a → ¬ cmpfn a item < 0)).
Proof.
  intros Hwf Hfresh Hiz Hie Hrnd Hh Hof Hf.
  assert (Hhr : (0 < h ≤ SKIPLIST_MAXDEPTH)%nat).
  { subst h. destruct rnd as [|p|p]; [lia| |lia]. simpl.
    unfold SKIPLIST_MAXDEPTH. lia. }
  rewrite add_unfold; [|done|done|];
    [|rewrite <- Hh; intros Ht; by destruct (Hof Ht)].
  rewrite <- Hh. cbn zeta.
  destruct (prepared_spec s hts ls item h oflow Hwf Hfresh Hiz Hie Hhr Hof)
    as (Hwf1 & Hhd1 & Hc1).
  set (s1 := add_prepared s item h oflow) in *.
  set (hts' := <[item := h]> hts) in *.
  assert (Hh' : hts' !! item = Some h) by apply lookup_insert_eq.
  assert (Hih : item ≠ hd s).
  { intros ->. destruct Hwf as (_ & Hhd & _). congruence. }
  assert (Hih1 : item ≠ hd s1) by (by rewrite Hhd1).
  destruct h as [|h0]; [lia|].
  destruct (wfp_level _ _ _ _ Hwf1 15) as (l15 & Hl15);
    [unfold SKIPLIST_MAXDEPTH; lia|].
  assert (Hb15 : (length l15 + steps ls 15 + 2 < fuel)%nat).
  { pose proof (steps_S _ _ _ Hl15) as HS. pose proof (steps_le ls 16) as Hle.
    unfold SKIPLIST_MAXDEPTH in Hf. lia. }
  change SKIPLIST_MAXDEPTH with (S 15) at 1.
  destruct (descend_spec cmpfn hts' item s1 ls h0 Hwf1 Hh' Hih1 fuel 15 (hd s1) [hd s1] l15 NULL)
    as (prev & l1 & l2 & Hdesc & Hp & Hprev & Hnext);
    [unfold SKIPLIST_MAXDEPTH in Hhr; lia | by eapply pos_start | by left
    | done |].
  rewrite Hdesc. cbn -[sl_level_set add_lower].
  destruct (link_level cmpfn hts' item (S h0) s1 ls h0 prev l1 l2 Hwf1 Hh'
              ltac:(lia) Hih1 Hp)
    as (s2 & s3 & Hs2 & Hs3 & Hwf3 & Hhd3 & Hc3).
  rewrite Hs2. cbn -[sl_level_set add_lower]. rewrite Hs3.
  cbn -[sl_level_set add_lower].
  pose proof Hp as (l & Hl & Heq & Hlast).
  destruct l1 as [|x l1]; [done|]. simpl in Heq. injection Heq as <- ->.
  cbn [tail] in Hwf3.
  assert (Hnotin : item ∉ hd s1 :: l1 ++ l2).
  { intros Hin. apply elem_of_cons in Hin as [?|Hin]; [congruence|].
    apply (pend_absent hts' item s1 ls (S h0) h0 (S h0) _ Hwf1 Hh' Hl);
      [left; lia | done]. }
  assert (Hpin : prev ∈ hd s1 :: l1 ++ l2).
  { apply (elem_of_app (hd s1 :: l1) l2). left. by apply last_Some_elem_of. }
  destruct (lower_spec cmpfn hts' item (S h0) fuel h0 s3
              (<[h0 := l1 ++ item :: l2]> ls) prev)
    as (s' & ls' & Hlow & Hwf' & Hhd' & Hc' & Hsame & Hins); try done.
  { lia. }
  { congruence. }
  { rewrite Hhd3. eexists. split.
    - apply list_lookup_insert_eq. by eapply lookup_lt_Some.
    - apply elem_of_cons in Hpin as [->|Hin]; [by left|]. right.
      rewrite elem_of_app, elem_of_cons.
      apply elem_of_app in Hin as [?|?]; [by left | right; by right]. }
  { by intros ->. }
  { by rewrite Hhd3. }
  { intros k lk Hk Hlk. rewrite list_lookup_insert_ne in Hlk by lia.
    pose proof (HashMeta.length_bucket_le _ _ _ Hlk). lia. }
  exists s', ls'. split; [done|]. split; [by eapply wfp_done|].
  split; [congruence|]. split; [congruence|]. split; [done|]. split.
  - intros k Hk. rewrite Hsame by lia. apply list_lookup_insert_ne. lia.
  - intros k lk Hk Hlk. destruct (decide (k = h0)) as [->|Hne].
    + assert (lk = l1 ++ l2) as -> by congruence.
      exists l1, l2. split; [done|]. split.
      { rewrite Hsame by lia. apply list_lookup_insert_eq.
        by eapply lookup_lt_Some. }
      split; [|done]. intros p Hlp.
      pose proof (last_tail _ _ _ _ Hlast Hlp) as ->.
      destruct Hprev as [->|?]; [|done].
      exfalso. apply (wfp_hd_not_in _ _ _ _ Hwf1 _ _ Hl).
      apply elem_of_app. left. by apply last_Some_elem_of.
    + apply Hins; [lia|]. by rewrite list_lookup_insert_ne by done.
Qed.

End SkipAdd.


(** ** Skip list: order and traversal *)

Module SkipOrder.
Import SSkip GrowFacts SListOps SkipMem SkipPos SortedFacts SkipAlloc SkipAdd.

#[local] Arguments SKIPLIST_OVERFLOW : simpl never.
#[local] Arguments SKIPLIST_EMBED : simpl never.
#[local] Arguments SKIPLIST_MAXDEPTH : simpl never.

Lemma next_lev (s : state) (a : N) : next s a = sl_level_get s a O.
Proof. unfold next, sl_level_get. by destruct (load _ _). Qed.

Lemma first_lev (s : state) : first_item s = sl_level_get s (hd s) O.
Proof. unfold first_item, sl_level_get. by destruct (load _ _). Qed.

(** The traversal visits level 0. *)
Lemma traverse_level0 (s : state) hts ls l0 (fuel : nat) :
  wf s hts ls → ls !! O = Some l0 → (length l0 < fuel)%nat →
  traverse fuel s = Some l0.
Proof.
  intros (_ & _ & _ & _ & Hch) Hl0 Hf. destruct (Hch _ _ Hl0) as [Hc _].
  simpl in Hc. destruct Hc as (_ & _ & p & Hp & Hc).
  unfold traverse. rewrite first_lev. unfold lev in Hp. rewrite Hp. simpl.
  apply walk_chain; [|done]. apply (chain_ext (lev s O)); [|done].
  intros a _. by rewrite next_lev.
Qed.

Section Laws.

Context (cmpfn : N → N → Z).
Hypothesis cmp_trans :
  ∀ a b c, cmpfn a b <= 0 → cmpfn b c <= 0 → cmpfn a c <= 0.
Hypothesis cmp_flip : ∀ a b, cmpfn a b < 0 ↔ 0 < cmpfn b a.

(** On a sorted level the items in front of one that is less are less. *)
Lemma less_before (item : N) l1 l2 :
  SSort.sorted cmpfn (l1 ++ l2) →
  (∀ p, last l1 = Some p → cmpfn p item < 0) →
  Forall (λ a, cmpfn a item < 0) l1.
Proof.
  intros Hs Hlast. apply sorted_app in Hs as (Hs1 & _ & _).
  apply Forall_forall. intros a Ha.
  destruct (last l1) as [p|] eqn:Hl.
  - specialize (Hlast p eq_refl).
    destruct (sorted_le_last cmpfn _ _ _ Hs1 Hl Ha) as [->|Hle]; [done|].
    by apply (cmp_le_lt cmpfn cmp_trans cmp_flip a p item).
  - apply last_None in Hl. subst l1. by apply elem_of_nil in Ha.
Qed.

Lemma add_sorted (hts : gmap N nat) (item : N) (s : state) ls (rnd : Z)
    (oflow : N) (fuel : nat) :
  wf s hts ls → sorted_levels cmpfn ls →
  hts !! item = None → item ≠ NULL → N.land item 1 = 0%N → 0 < rnd →
  ((SKIPLIST_EMBED < newlevel_of rnd)%nat →
   oflow ≠ NULL ∧ (oflow mod 4 = 0)%N ∧ (oflow < 2 ^ 64)%N ∧
   ∀ a h', hts !! a = Some h' → (SKIPLIST_EMBED < h')%nat →
           block_of s a ≠ Some oflow) →
  (length (concat ls) + 2 * SKIPLIST_MAXDEPTH < fuel)%nat →
  ∃ s' ls',
    add cmpfn fuel rnd oflow s item = Some s' ∧
    wf s' (<[item := newlevel_of rnd]> hts) ls' ∧
    sorted_levels cmpfn ls' ∧ hd s' = hd s ∧ count s' = count s ∧
    (0 < newlevel_of rnd ≤ SKIPLIST_MAXDEPTH)%nat ∧
    ∀ k l, ls !! k = Some l →
           ls' !! k = Some (if decide (k < newlevel_of rnd)%nat
                            then SSort.sorted_insert cmpfn item l else l).
Proof.
  intros Hwf Hsl Hfresh Hiz Hie Hrnd Hof Hf.
  destruct (add_spec cmpfn hts item (newlevel_of rnd) s ls rnd oflow fuel)
    as (s' & ls' & Hadd & Hwf' & Hhd' & Hc' & Hh & Hsame & Hins); try done.
  assert (Hlev : ∀ k l, ls !! k = Some l →
            ls' !! k = Some (if decide (k < newlevel_of rnd)%nat
                             then SSort.sorted_insert cmpfn item l else l) ∧
            SSort.sorted cmpfn
              (if decide (k < newlevel_of rnd)%nat
               then SSort.sorted_insert cmpfn item l else l)).
  { intros k l Hl. pose proof (Hsl _ _ Hl) as Hs.
    destruct (decide (k < newlevel_of rnd)%nat) as [Hk|Hk].
    - destruct (Hins _ _ Hk Hl) as (l1 & l2 & -> & Hl' & Hlast & Hhead).
      pose proof (less_before item l1 l2 Hs Hlast) as Hlt.
      rewrite (sorted_insert_at cmpfn l1 l2 item Hlt Hhead).
      split; [done|]. by apply sorted_link.
    - split; [|done]. rewrite Hsame by lia. done. }
  exists s', ls'. split; [done|]. split; [done|]. split.
  - intros k l' Hl'. pose proof (wfp_level_lt _ _ _ _ Hwf' _ _ Hl') as Hk.
    destruct (wfp_level _ _ _ _ Hwf k Hk) as (l & Hl).
    destruct (Hlev _ _ Hl) as [Heq Hs]. rewrite Hl' in Heq.
    injection Heq as ->. done.
  - split; [done|]. split; [done|]. split; [done|].
    intros k l Hl. by destruct (Hlev _ _ Hl).
Qed.

End Laws.

End SkipOrder.


Lemma cmp_val_flip (a b : N) :
  Examples.cmp_val a b < 0 ↔ 0 < Examples.cmp_val b a.
Proof. unfold Examples.cmp_val. lia. Defined.

Lemma skip_init_wf :
  SSkip.wf (SSkip.init ∅ ∅ 4096) {[4096%N := 16%nat]} (replicate 16 []).
Proof. by apply SkipAlloc.init_wf. Defined.

Lemma skip_64_wf :
  SSkip.wf Examples.skip_64_state (<[64%N := 1%nat]> {[4096%N := 16%nat]})
           ([64%N] :: replicate 15 []).
Proof.
  destruct (SkipAdd.add_spec Examples.cmp_val {[4096%N := 16%nat]} 64 1
              (SSkip.init ∅ ∅ 4096) (replicate 16 []) 1 NULL 64)
    as (s' & ls' & Hadd & Hwf' & _ & _ & _ & Hsame & Hins);
    [exact skip_init_wf | done | done | done | done | done | | |].
  { intros Ht. exfalso. vm_compute in Ht. lia. }
  { vm_compute. lia. }
  assert (Hs : SSkip.typesafe_skiplist_add Examples.cmp_val 64 1 NULL
                 (SSkip.init ∅ ∅ 4096) 64 = Some Examples.skip_64_state)
    by (by vm_compute).
  rewrite Hs in Hadd. injection Hadd as <-.
  assert (ls' = [64%N] :: replicate 15 []) as <-; [|done].
  apply list_eq. intros i.
  destruct (decide (i < 1)%nat) as [Hi|Hi].
  - destruct (Hins i [] Hi) as (l1 & l2 & Heq & Hl' & _).
    { apply lookup_replicate_2. lia. }
    symmetry in Heq. apply app_eq_nil in Heq as [-> ->].
    rewrite Hl'. by destruct i; [|lia].
  - rewrite Hsame by lia. by destruct i as [|i]; [lia|].
Qed.

(** X19: [sl_level_set] and [sl_level_get] agree on where a level lives.  On
    items laid out as [typesafe_skiplist_add] leaves them (at most four levels
    inline, more levels in the tagged overflow block), writing an untagged
    pointer to a level of an item makes that level read back the pointer and
    leaves every other level of every item as it was. *)
Theorem sskip_level_set_get (s : SSkip.state) (hts : gmap N nat) (a : N)
    (h k : nat) (v : N) :
  SSkip.layout s hts → hts !! a = Some h → (k < h)%nat → N.land v 1 = 0%N →
  ∃ s', SSkip.sl_level_set s a k v = Some s' ∧ SSkip.layout s' hts ∧
        SSkip.sl_level_get s' a k = Some v ∧
        ∀ a' h' k', hts !! a' = Some h' → (k' < h')%nat →
                    (a' ≠ a ∨ k' ≠ k) →
                    SSkip.sl_level_get s' a' k' = SSkip.sl_level_get s a' k'.
Proof.
  intros Hlay Ha Hk Hv.
  destruct (SkipMem.set_spec s hts a h k v Hlay Ha Hk Hv)
    as (s' & Hs & Hlay' & _ & _ & Hg & Hfr).
  by exists s'.
Qed.

Lemma sskip_level_set_get_witness :
  ∃ s', SSkip.sl_level_set (SSkip.init ∅ ∅ 4096) 4096 5 64 = Some s' ∧
        SSkip.layout s' {[4096%N := 16%nat]} ∧
        SSkip.sl_level_get s' 4096 5 = Some 64%N ∧
        ∀ a' h' k', ({[4096%N := 16%nat]} : gmap N nat) !! a' = Some h' →
                    (k' < h')%nat → (a' ≠ 4096%N ∨ k' ≠ 5%nat) →
                    SSkip.sl_level_get s' a' k'
                    = SSkip.sl_level_get (SSkip.init ∅ ∅ 4096) a' k'.
Proof.
  apply (sskip_level_set_get (SSkip.init ∅ ∅ 4096) {[4096%N := 16%nat]}
           4096 16 5 64).
  - exact (proj1 skip_init_wf).
  - reflexivity.
  - lia.
  - reflexivity.
Defined.

(** X20: the skip list's [add] links a non-resident item on every level below
    the height drawn for it, on each of them in front of the first item that
    is not less.  With an order as comparison function the list stays well
    formed and sorted on every level, the traversal visits the old items with
    the new one at its place, and the count is not touched. *)
Theorem sskip_add_inserts_sorted (cmpfn : N → N → Z) (s : SSkip.state)
    (hts : gmap N nat) (ls : list (list N)) (l0 : list N) (item : N)
    (rnd : Z) (oflow : N) (fuel : nat) :
  (∀ a b c, cmpfn a b <= 0 → cmpfn b c <= 0 → cmpfn a c <= 0) →
  (∀ a b, cmpfn a b < 0 ↔ 0 < cmpfn b a) →
  SSkip.wf s hts ls → SSkip.sorted_levels cmpfn ls → ls !! O = Some l0 →
  hts !! item = None → item ≠ NULL → N.land item 1 = 0%N → 0 < rnd →
  ((SSkip.SKIPLIST_EMBED < SSkip.newlevel_of rnd)%nat →
   oflow ≠ NULL ∧ (oflow mod 4 = 0)%N ∧ (oflow < 2 ^ 64)%N ∧
   ∀ a h', hts !! a = Some h' → (SSkip.SKIPLIST_EMBED < h')%nat →
           SSkip.block_of s a ≠ Some oflow) →
  (length (concat ls) + 2 * SSkip.SKIPLIST_MAXDEPTH < fuel)%nat →
  ∃ s' ls',
    SSkip.add cmpfn fuel rnd oflow s item = Some s' ∧
    SSkip.wf s' (<[item := SSkip.newlevel_of rnd]> hts) ls' ∧
    SSkip.sorted_levels cmpfn ls' ∧
    (∀ k l, ls !! k = Some l →
            ls' !! k = Some (if decide (k < SSkip.newlevel_of rnd)%nat
                             then SSort.sorted_insert cmpfn item l else l)) ∧
    SSkip.traverse fuel s' = Some (SSort.sorted_insert cmpfn item l0) ∧
    SSkip.count_items s' = SSkip.count_items s.
Proof.
  intros Htr Hfl Hwf Hsl Hl0 Hfresh Hiz Hie Hrnd Hof Hf.
  destruct (SkipOrder.add_sorted cmpfn Htr Hfl hts item s ls rnd oflow fuel)
    as (s' & ls' & Hadd & Hwf' & Hsl' & _ & Hc & Hh & Hlev); try done.
  exists s', ls'. split; [done|]. split; [done|]. split; [done|].
  split; [done|]. split; [|done].
  eapply SkipOrder.traverse_level0; [exact Hwf'| |].
  - rewrite (Hlev _ _ Hl0). by rewrite decide_True by lia.
  - rewrite SSortOps.length_sorted_insert.
    pose proof (HashMeta.length_bucket_le _ _ _ Hl0). lia.
Qed.

Lemma sskip_add_inserts_sorted_witness :
  ∃ s' ls',
    SSkip.add Examples.cmp_val 64 1 NULL (SSkip.init ∅ ∅ 4096) 64 = Some s' ∧
    SSkip.wf s' (<[64%N := SSkip.newlevel_of 1]> {[4096%N := 16%nat]}) ls' ∧
    SSkip.sorted_levels Examples.cmp_val ls' ∧
    (∀ k l, replicate 16 ([] : list N) !! k = Some l →
            ls' !! k = Some (if decide (k < SSkip.newlevel_of 1)%nat
                             then SSort.sorted_insert Examples.cmp_val 64 l
                             else l)) ∧
    SSkip.traverse 64 s' = Some (SSort.sorted_insert Examples.cmp_val 64 []) ∧
    SSkip.count_items s' = SSkip.count_items (SSkip.init ∅ ∅ 4096).
Proof.
  apply (sskip_add_inserts_sorted Examples.cmp_val (SSkip.init ∅ ∅ 4096)
           {[4096%N := 16%nat]} (replicate 16 []) [] 64 1 NULL 64).
  - exact cmp_val_trans.
  - exact cmp_val_flip.
  - exact skip_init_wf.
  - intros k l Hl. apply lookup_replicate in Hl as [-> _]. exact I.
  - reflexivity.
  - reflexivity.
  - done.
  - reflexivity.
  - lia.
  - intros Ht. exfalso. vm_compute in Ht. lia.
  - vm_compute. lia.
Defined.

(** X21: the skip list's [find] returns within a number of steps bounded by
    the items on the levels, and it returns NULL or a linked item that
    compares equal to the reference. *)
Theorem sskip_find_sound (cmpfn : N → N → Z) (s : SSkip.state)
    (hts : gmap N nat) (ls : list (list N)) (l0 : list N) (item : N)
    (fuel : nat) :
  SSkip.wf s hts ls → ls !! O = Some l0 →
  (length (concat ls) + 2 * SSkip.SKIPLIST_MAXDEPTH < fuel)%nat →
  ∃ r, SSkip.find cmpfn fuel s item = Some r ∧
       (r = NULL ∨ (r ∈ l0 ∧ cmpfn r item = 0)).
Proof.
  intros Hwf Hl0 Hf.
  destruct (SkipPos.wfp_level _ _ _ _ Hwf 15) as (l15 & Hl15);
    [unfold SSkip.SKIPLIST_MAXDEPTH; lia|].
  destruct (SkipFind.find_loop_spec cmpfn s hts ls l0 item Hwf Hl0 fuel 15
              (SSkip.hd s) [SSkip.hd s] l15) as (r & Hr & Hres).
  { by apply SkipPos.pos_start. }
  { pose proof (SkipPos.steps_S _ _ _ Hl15).
    pose proof (SkipPos.steps_le ls 16).
    unfold SSkip.SKIPLIST_MAXDEPTH in Hf. lia. }
  exists r. split; [exact Hr|].
  destruct Hres as [(_ & ? & ?)|[-> _]]; [by right | by left].
Qed.

Lemma sskip_find_sound_witness :
  ∃ r, SSkip.find Examples.cmp_val 64 Examples.skip_64_state 24 = Some r ∧
       (r = NULL ∨ (r ∈ [64%N] ∧ Examples.cmp_val r 24 = 0)).
Proof.
  apply (sskip_find_sound Examples.cmp_val Examples.skip_64_state
           (<[64%N := 1%nat]> {[4096%N := 16%nat]})
           ([64%N] :: replicate 15 []) [64%N] 24 64).
  - exact skip_64_wf.
  - reflexivity.
  - vm_compute. lia.
Defined.

(** X22: with an order as comparison function and level 0 sorted, the skip
    list's [find] returns a linked item that compares equal to the reference
    whenever such an item is linked. *)
Theorem sskip_find_finds_equal (cmpfn : N → N → Z) (s : SSkip.state)
    (hts : gmap N nat) (ls : list (list N)) (l0 : list N) (item e : N)
    (fuel : nat) :
  (∀ a b c, cmpfn a b <= 0 → cmpfn b c <= 0 → cmpfn a c <= 0) →
  (∀ a b, cmpfn a b < 0 ↔ 0 < cmpfn b a) →
  SSkip.wf s hts ls → ls !! O = Some l0 → SSort.sorted cmpfn l0 →
  e ∈ l0 → cmpfn e item = 0 →
  (length (concat ls) + 2 * SSkip.SKIPLIST_MAXDEPTH < fuel)%nat →
  ∃ r, SSkip.find cmpfn fuel s item = Some r ∧ r ∈ l0 ∧ cmpfn r item = 0.
Proof.
  intros Htr Hfl Hwf Hl0 Hs He Hz Hf.
  destruct (SkipPos.wfp_level _ _ _ _ Hwf 15) as (l15 & Hl15);
    [unfold SSkip.SKIPLIST_MAXDEPTH; lia|].
  destruct (SkipFind.find_loop_spec cmpfn s hts ls l0 item Hwf Hl0 fuel 15
              (SSkip.hd s) [SSkip.hd s] l15) as (r & Hr & Hres).
  { by apply SkipPos.pos_start. }
  { pose proof (SkipPos.steps_S _ _ _ Hl15).
    pose proof (SkipPos.steps_le ls 16).
    unfold SSkip.SKIPLIST_MAXDEPTH in Hf. lia. }
  exists r. split; [exact Hr|].
  destruct Hres as [(_ & ? & ?)|[-> Habs]]; [done|].
  exfalso. apply (Habs Htr Hfl Hs (or_introl eq_refl) e He Hz).
Qed.

Lemma sskip_find_finds_equal_witness :
  ∃ r, SSkip.find Examples.cmp_val 64 Examples.skip_64_state 64 = Some r ∧
       r ∈ [64%N] ∧ Examples.cmp_val r 64 = 0.
Proof.
  apply (sskip_find_finds_equal Examples.cmp_val Examples.skip_64_state
           (<[64%N := 1%nat]> {[4096%N := 16%nat]})
           ([64%N] :: replicate 15 []) [64%N] 64 64 64).
  - exact cmp_val_trans.
  - exact cmp_val_flip.
  - exact skip_64_wf.
  - reflexivity.
  - split; [constructor | exact I].
  - by left.
  - reflexivity.
  - vm_compute. lia.
Defined.


(** ** Skip list: removal *)

Module SkipDel.
Import SSkip GrowFacts SListOps SkipMem SkipPos SortedFacts SkipAlloc.

#[local] Arguments SKIPLIST_OVERFLOW : simpl never.
#[local] Arguments SKIPLIST_EMBED : simpl never.
#[local] Arguments SKIPLIST_MAXDEPTH : simpl never.

Lemma wf_wfd (s : state) hts ls (item : N) :
  wf s hts ls → wfd item SKIPLIST_MAXDEPTH s hts ls.
Proof.
  intros (Hlay & Hhd & Hlen & Hev & Hch).
  split; [done|]. split; [done|]. split; [done|]. split; [done|].
  intros k l Hl. destruct (Hch _ _ Hl) as [Hc Hmem]. split; [done|].
  assert (Hk : (k < SKIPLIST_MAXDEPTH)%nat).
  { rewrite <- Hlen. by eapply lookup_lt_Some. }
  intros a. rewrite Hmem.
  split; intros (Hna & h' & Ha' & Hk' & _);
    (split; [done|]); exists h'; (split; [done|]); (split; [done|]).
  - done.
  - by intros m [=].
Qed.

(** A level on which the item is not linked. *)
Lemma wfd_skip (s : state) hts ls (item : N) (k : nat) l :
  wfd item (S k) s hts ls → ls !! k = Some l → item ∉ l →
  wfd item k s hts ls.
Proof.
  intros (Hlay & Hhd & Hlen & Hev & Hch) Hl Hnot.
  split; [done|]. split; [done|]. split; [done|]. split; [done|].
  intros j lj Hlj. destruct (Hch _ _ Hlj) as [Hc Hmem]. split; [done|].
  intros a. split.
  - intros Ha. pose proof (proj1 (Hmem a) Ha) as (Hna & h' & Ha' & Hk' & Hlk).
    split; [done|]. exists h'. split; [done|]. split; [done|].
    intros ->. specialize (Hlk eq_refl).
    destruct (decide (j = k)) as [->|]; [|lia].
    assert (lj = l) as -> by congruence. done.
  - intros (Hna & h' & Ha' & Hk' & Hlk). apply Hmem.
    split; [done|]. exists h'. split; [done|]. split; [done|].
    intros Heq. specialize (Hlk Heq). lia.
Qed.

(** Unlinking the item on one level. *)
Lemma unlink_level (s : state) hts ls (item : N) (k : nat) (prev : N)
    l1 l2 :
  wfd item (S k) s hts ls → at_pos s ls k prev l1 (item :: l2) →
  ∃ v s1,
    sl_level_get s item k = Some v ∧ sl_level_set s prev k v = Some s1 ∧
    wfd item k s1 hts (<[k := tail l1 ++ l2]> ls) ∧
    hd s1 = hd s ∧ count s1 = count s.
Proof.
  intros Hwf Hp.
  pose proof Hwf as (Hlay & Hhd & Hlen & Hev & Hch).
  pose proof Hp as (l & Hl & Heq & Hlast).
  destruct l1 as [|x l1]; [done|]. simpl in Heq. injection Heq as <- ->.
  cbn [tail].
  destruct (Hch _ _ Hl) as [Hc Hmem].
  pose proof (chain_NoDup _ _ _ Hc) as Hnd.
  assert (Hi1 : item ∉ hd s :: l1).
  { intros Hin. change (hd s :: l1 ++ item :: l2)
      with ((hd s :: l1) ++ item :: l2) in Hnd.
    apply NoDup_app in Hnd as (_ & Hnd & _). apply (Hnd _ Hin). by left. }
  assert (Hi2 : item ∉ l2).
  { intros Hin. change (hd s :: l1 ++ item :: l2)
      with ((hd s :: l1) ++ item :: l2) in Hnd.
    apply NoDup_app in Hnd as (_ & _ & Hnd).
    by apply NoDup_cons in Hnd as [? _]. }
  assert (Hpin : prev ∈ hd s :: l1) by by apply last_Some_elem_of.
  assert (Hpi : prev ≠ item) by (by intros ->).
  assert (Hpin' : prev ∈ hd s :: l1 ++ item :: l2).
  { apply (elem_of_app (hd s :: l1)). by left. }
  destruct (wfp_valid _ _ _ _ Hwf k _ prev Hl Hpin') as (hp & Hhp & Hkp).
  destruct (pos_get _ _ _ _ Hwf k item ((hd s :: l1) ++ [item]) l2)
    as [Hgi Hci].
  { exists (l1 ++ item :: l2). split; [done|].
    split; [by rewrite <- (assoc_L app) | by rewrite last_snoc]. }
  assert (Hnev : N.land (default NULL (head l2)) 1 = 0%N).
  { destruct l2 as [|a l2]; [done|]. simpl.
    apply (wfp_even _ _ _ _ Hwf k _ a Hl). right. apply elem_of_app. right.
    right. by left. }
  destruct (set_spec s hts prev hp k _ Hlay Hhp Hkp Hnev)
    as (s1 & Hs1 & Hlay1 & Hhd1 & Hc1 & Hg1 & Hfr1).
  exists (default NULL (head l2)), s1. split; [done|]. split; [done|].
  split; [|done].
  split; [done|]. split; [by rewrite Hhd1|].
  split; [by rewrite length_insert|]. split; [done|].
  intros k' l' Hl'. rewrite Hhd1.
  apply list_lookup_insert_Some in Hl' as [(<- & <- & _)|(Hne & Hl')].
  - split.
    + apply (chain_unlink_fn (lev s k) (lev s1 k) (hd s :: l1) l2 prev item);
        try done.
      * unfold lev. by rewrite Hg1, Hgi.
      * intros a Ha Hnp. unfold lev.
        assert (Ha' : a ∈ hd s :: l1 ++ item :: l2).
        { apply (elem_of_app (hd s :: l1)) in Ha as [?|?].
          - apply (elem_of_app (hd s :: l1)). by left.
          - apply (elem_of_app (hd s :: l1)). right. by right. }
        destruct (wfp_valid _ _ _ _ Hwf k _ a Hl Ha') as (ha & Hha & Hka).
        apply (Hfr1 a ha k Hha Hka). by left.
    + intros a. split.
      * intros Ha. assert (Hai : a ≠ item).
        { intros ->. apply elem_of_app in Ha as [?|?]; [|done].
          apply Hi1. by right. }
        assert (Ha' : a ∈ l1 ++ item :: l2).
        { rewrite elem_of_app, elem_of_cons.
          apply elem_of_app in Ha as [?|?]; tauto. }
        apply Hmem in Ha' as (Hna & h' & Hh' & Hk' & _).
        split; [done|]. exists h'. split; [done|]. split; [done|]. done.
      * intros (Hna & h' & Hh' & Hk' & Hlk).
        assert (Hai : a ≠ item) by (intros ->; specialize (Hlk eq_refl); lia).
        assert (Ha' : a ∈ l1 ++ item :: l2).
        { apply Hmem. split; [done|]. exists h'. split; [done|].
          split; [done|]. done. }
        rewrite elem_of_app, elem_of_cons in Ha'. rewrite elem_of_app. tauto.
  - destruct (Hch _ _ Hl') as [Hc' Hmem']. split.
    + apply (chain_ext (lev s k')); [|done]. intros a Ha. unfold lev.
      symmetry.
      destruct (wfp_valid _ _ _ _ Hwf k' _ a Hl' Ha) as (ha & Hha & Hka).
      apply (Hfr1 a ha k' Hha Hka). right. congruence.
    + intros a. rewrite Hmem'.
      split; intros (Hna & h' & Ha' & Hk' & Hlk);
        (split; [done|]); exists h'; (split; [done|]); (split; [done|]);
        intros Heq; specialize (Hlk Heq); lia.
Qed.

Section Del.

Context (cmpfn : N → N → Z) (hts : gmap N nat) (item : N).
Hypothesis cmp_flip : ∀ a b, cmpfn a b < 0 ↔ 0 < cmpfn b a.

(** The item is behind a position whose item is less. *)
Lemma item_ahead (s : state) ls (k : nat) l (prev : N) l1 l2 m :
  wfd item m s hts ls → ls !! k = Some l → SSort.sorted cmpfn l →
  at_pos s ls k prev l1 l2 → (prev = hd s ∨ cmpfn prev item < 0) →
  item ∈ l → item ∈ l2.
Proof.
  intros Hwf Hl Hs (l' & Hl' & Heq & Hlast) Hprev Hin.
  assert (l' = l) as -> by congruence.
  destruct l1 as [|x l1]; [done|]. simpl in Heq. injection Heq as <- ->.
  apply elem_of_app in Hin as [Hin|Hin]; [|done]. exfalso.
  destruct l1 as [|y l1]; [by apply elem_of_nil in Hin|].
  rewrite last_cons_cons in Hlast.
  assert (Hpin : prev ∈ y :: l1) by by apply last_Some_elem_of.
  destruct Hprev as [->|Hlt].
  { apply (wfp_hd_not_in _ _ _ _ Hwf _ _ Hl). apply elem_of_app. by left. }
  apply sorted_app in Hs as (Hs1 & _ & _).
  destruct (sorted_le_last cmpfn _ _ _ Hs1 Hlast Hin) as [->|Hle].
  - pose proof (proj1 (cmp_flip _ _) Hlt). lia.
  - pose proof (proj1 (cmp_flip _ _) Hlt). lia.
Qed.

Lemma steps_insert (ls : list (list N)) (k j : nat) (x : list N) :
  (j ≤ k)%nat → steps (<[k := x]> ls) j = steps ls j.
Proof. intros Hj. unfold steps. by rewrite take_insert_ge by lia. Qed.

Lemma sorted_levels_unlink ls (k : nat) l1 l2 :
  sorted_levels cmpfn ls → ls !! k = Some (l1 ++ item :: l2) →
  sorted_levels cmpfn (<[k := l1 ++ l2]> ls).
Proof.
  intros Hsl Hl j lj Hlj.
  apply list_lookup_insert_Some in Hlj as [(<- & <- & _)|(Hne & Hlj)];
    [|by eapply Hsl].
  pose proof (Hsl _ _ Hl) as Hs.
  apply sorted_app in Hs as (Hs1 & Hs2 & H12). simpl in Hs2.
  destruct Hs2 as [_ Hs2]. apply sorted_app. split; [done|]. split; [done|].
  intros a b Ha Hb. apply H12; [done | by right].
Qed.

(** The loop of [typesafe_skiplist_del] unlinks the item on every level. *)
Lemma del_loop_spec : ∀ fuel k s ls prev l1 l2,
  wfd item (S k) s hts ls → sorted_levels cmpfn ls →
  (∀ a h', hts !! a = Some h' → a ≠ item → a ≠ hd s → cmpfn a item ≠ 0) →
  at_pos s ls k prev l1 l2 → (prev = hd s ∨ cmpfn prev item < 0) →
  (length l2 + steps ls k + 1 < fuel)%nat →
  ∃ s' ls',
    del_loop cmpfn fuel s item (S k) prev = Some s' ∧
    wfd item O s' hts ls' ∧ hd s' = hd s ∧ count s' = count s ∧
    (∀ j, (k < j)%nat → ls' !! j = ls !! j) ∧
    (∀ j l, (j ≤ k)%nat → ls !! j = Some l →
            ls' !! j = Some (filter (λ x, x ≠ item) l)).
Proof.
  induction fuel as [|f IH];
    intros k s ls prev l1 l2 Hwf Hsl Huniq Hp Hprev Hf; [lia|].
  cbn [del_loop]. rewrite decide_False by lia.
  replace (S k - 1)%nat with k by lia.
  destruct (pos_get _ _ _ _ Hwf _ _ _ _ Hp) as [Hget _]. rewrite Hget.
  cbn -[decide del_loop].
  pose proof Hp as (l & Hl & Heq & Hlast).
  (* going down from a state in which level [k] is done *)
  assert (Hdown : ∀ s1 ls1 (lk : list N) l1' l2',
    wfd item k s1 hts ls1 → sorted_levels cmpfn ls1 →
    hd s1 = hd s → count s1 = count s →
    at_pos s1 ls1 k prev l1' l2' → ls1 !! k = Some lk → item ∉ lk →
    (∀ j, j ≠ k → ls1 !! j = ls !! j) →
    lk = filter (λ x, x ≠ item) l →
    ∃ s' ls',
      del_loop cmpfn f s1 item k prev = Some s' ∧
      wfd item O s' hts ls' ∧ hd s' = hd s ∧ count s' = count s ∧
      (∀ j, (k < j)%nat → ls' !! j = ls !! j) ∧
      (∀ j l, (j ≤ k)%nat → ls !! j = Some l →
              ls' !! j = Some (filter (λ x, x ≠ item) l))).
  { intros s1 ls1 lk l1' l2' Hwf1 Hsl1 Hhd1 Hc1 Hp1 Hlk Hnot Hsame Hfil.
    destruct k as [|k].
    - destruct f as [|f]; [lia|]. exists s1, ls1. split; [done|].
      split; [done|]. split; [done|]. split; [done|]. split.
      + intros j Hj. apply Hsame. lia.
      + intros j lj Hj Hlj. assert (j = O) as -> by lia.
        assert (lj = l) as -> by congruence. by rewrite Hlk, Hfil.
    - destruct (pos_down_g _ _ _ _ Hwf1 _ _ _ _ Hp1) as (l1'' & l2'' & Hp');
        [intros Hlk' Heq'; specialize (Hlk' Heq'); lia|].
      pose proof Hp' as (l' & Hl' & _).
      assert (Hlen : (length l2'' ≤ length l')%nat)
        by (eapply pos_len; eauto).
      assert (Hl'0 : ls !! k = Some l') by (rewrite <- Hsame by lia; done).
      rewrite (steps_S _ _ _ Hl'0) in Hf.
      destruct (IH k s1 ls1 prev l1'' l2'' Hwf1 Hsl1)
        as (s' & ls' & Hdel & Hwf' & Hhd' & Hc' & Hup & Hlow).
      { by rewrite Hhd1. }
      { done. }
      { by rewrite Hhd1. }
      { assert (Ht : take k ls1 = take k ls).
        { apply list_eq. intros i. destruct (decide (i < k)%nat).
          - rewrite !lookup_take_lt by done. apply Hsame. lia.
          - by rewrite !lookup_take_ge by lia. }
        unfold steps in *. rewrite Ht. lia. }
      exists s', ls'. split; [done|]. split; [done|].
      split; [congruence|]. split; [congruence|]. split.
      + intros j Hj. rewrite Hup by lia. apply Hsame. lia.
      + intros j lj Hj Hlj. destruct (decide (j = S k)) as [->|Hne].
        * assert (lj = l) as -> by congruence.
          rewrite Hup by lia. by rewrite Hlk, Hfil.
        * apply Hlow; [lia|]. rewrite Hsame by done. done. }
  (* level [k] does not hold the item *)
  assert (Hskip : item ∉ l →
    ∃ s' ls',
      del_loop cmpfn f s item k prev = Some s' ∧
      wfd item O s' hts ls' ∧ hd s' = hd s ∧ count s' = count s ∧
      (∀ j, (k < j)%nat → ls' !! j = ls !! j) ∧
      (∀ j l, (j ≤ k)%nat → ls !! j = Some l →
              ls' !! j = Some (filter (λ x, x ≠ item) l))).
  { intros Hnot. apply (Hdown s ls l l1 l2); try done.
    - by eapply wfd_skip.
    - by rewrite filter_ne_absent. }
  destruct l2 as [|a l2]; cbn -[decide del_loop].
  - rewrite decide_True by done. apply Hskip. intros Hin.
    pose proof (item_ahead s ls k l prev l1 [] _ Hwf Hl (Hsl _ _ Hl) Hp Hprev
                  Hin) as Hin2.
    by apply elem_of_nil in Hin2.
  - pose proof (pos_next_not_null _ _ _ _ Hwf _ _ _ _ _ Hp) as Ha.
    rewrite decide_False by done.
    destruct (decide (a = item)) as [->|Hai].
    + destruct (unlink_level s hts ls item k prev l1 l2 Hwf Hp)
        as (v & s1 & Hgi & Hs1 & Hwf1 & Hhd1 & Hc1).
      rewrite Hgi. cbn -[decide del_loop]. rewrite Hs1.
      cbn -[decide del_loop].
      destruct l1 as [|x l1]; [done|]. simpl in Heq.
      injection Heq as <- ->. cbn [tail] in Hwf1.
      destruct (proj2 (proj2 (proj2 (proj2 Hwf))) _ _ Hl) as [Hc _].
      pose proof (chain_NoDup _ _ _ Hc) as Hnd.
      change (hd s :: l1 ++ item :: l2)
        with ((hd s :: l1) ++ item :: l2) in Hnd.
      apply NoDup_app in Hnd as (_ & Hnd1 & Hnd2).
      apply NoDup_cons in Hnd2 as [Hi2 _].
      assert (Hi1 : item ∉ l1).
      { intros Hin. apply (Hnd1 item); [by right | by left]. }
      apply (Hdown s1 (<[k := l1 ++ l2]> ls) (l1 ++ l2) (hd s :: l1) l2);
        try done.
      * by eapply sorted_levels_unlink.
      * exists (l1 ++ l2). rewrite Hhd1. split; [|done].
        apply list_lookup_insert_eq. by eapply lookup_lt_Some.
      * apply list_lookup_insert_eq. by eapply lookup_lt_Some.
      * rewrite elem_of_app. tauto.
      * intros j Hj. by apply list_lookup_insert_ne.
      * by rewrite filter_ne_split.
    + destruct (decide (cmpfn a item < 0)) as [Hlt|Hge].
      * apply (IH k s ls a (l1 ++ [a]) l2); try done.
        -- by eapply pos_step.
        -- by right.
        -- simpl in Hf. lia.
      * apply Hskip. intros Hin.
        pose proof (item_ahead s ls k l prev l1 (a :: l2) _ Hwf Hl
                      (Hsl _ _ Hl) Hp Hprev Hin) as Hin2.
        apply elem_of_cons in Hin2 as [?|Hin2]; [done|].
        destruct l1 as [|x l1]; [done|]. simpl in Heq.
        injection Heq as <- ->.
        pose proof (Hsl _ _ Hl) as Hs.
        apply sorted_app in Hs as (_ & Hs2 & _). simpl in Hs2.
        destruct Hs2 as [Hall _].
        pose proof (proj1 (Forall_forall _ _) Hall _ Hin2) as Hle.
        simpl in Hle.
        assert (Hz : cmpfn a item = 0) by lia.
        assert (Hain : a ∈ hd s :: l1 ++ a :: l2).
        { right. apply elem_of_app. right. by left. }
        destruct (wfp_valid _ _ _ _ Hwf k _ a Hl Hain) as (ha & Hha & _).
        apply (Huniq a ha Hha Hai); [|done]. intros ->.
        apply (wfp_hd_not_in _ _ _ _ Hwf _ _ Hl). apply elem_of_app. right.
        by left.
Qed.

Lemma sorted_filter (P : N → Prop) `{!∀ x, Decision (P x)} l :
  SSort.sorted cmpfn l → SSort.sorted cmpfn (filter P l).
Proof.
  induction l as [|a l IH]; [done|]. simpl. intros [Hall Hs].
  destruct (decide (P a)).
  - rewrite filter_cons_True by done. simpl. split; [|by apply IH].
    apply Forall_forall. intros b Hb. apply list_elem_of_filter in Hb as [_ Hb].
    by apply (proj1 (Forall_forall _ _) Hall).
  - rewrite filter_cons_False by done. by apply IH.
Qed.

End Del.

(** Memory that a change leaves alone reads as before. *)
Lemma get_frame (s s' : state) hts (a : N) (h k : nat) :
  layout s hts → hts !! a = Some h → (k < h)%nat →
  items s' !! a = items s !! a →
  (∀ b, (SKIPLIST_EMBED < h)%nat → block_of s a = Some b →
        blocks s' !! b = blocks s !! b) →
  sl_level_get s' a k = sl_level_get s a k.
Proof.
  intros [Hok _] Ha Hk Hit Hbl.
  destruct (Hok _ _ Ha) as (Haz & Hh & nx & n3 & Hnx & Hlnx & Hn3 & Hcase).
  unfold sl_level_get. unfold load. rewrite !decide_False by done.
  rewrite Hit, Hnx. cbn -[decide].
  destruct (decide (k < SKIPLIST_OVERFLOW)%nat); [done|].
  rewrite Hn3. cbn -[decide].
  destruct (decide (k = SKIPLIST_OVERFLOW ∧ N.land n3 1 = 0%N)); [done|].
  destruct (decide (h ≤ SKIPLIST_EMBED)%nat) as [Hs'|Ht'].
  { exfalso. unfold SKIPLIST_OVERFLOW, SKIPLIST_EMBED in *.
    assert (k = 3)%nat by lia. tauto. }
  destruct Hcase as (Htag & Hbz & ob & Hob & Hlob).
  rewrite !decide_False by done. rewrite Hbl; [done | lia |].
  unfold block_of. rewrite Hnx. cbn. by rewrite Hn3.
Qed.

Lemma item_ok_frame (s s' : state) (a : N) (h : nat) :
  item_ok s a h → items s' !! a = items s !! a →
  (∀ b, (SKIPLIST_EMBED < h)%nat → block_of s a = Some b →
        blocks s' !! b = blocks s !! b) →
  item_ok s' a h.
Proof.
  intros (Haz & Hh & nx & n3 & Hnx & Hlnx & Hn3 & Hcase) Hit Hbl.
  split; [done|]. split; [done|]. exists nx, n3. rewrite Hit.
  split; [done|]. split; [done|]. split; [done|].
  destruct (decide (h ≤ SKIPLIST_EMBED)%nat); [done|].
  destruct Hcase as (Htag & Hbz & ob & Hob & Hlob).
  split; [done|]. split; [done|]. exists ob. split; [|done].
  rewrite Hbl; [done | lia |].
  unfold block_of. rewrite Hnx. cbn. by rewrite Hn3.
Qed.

(** The end of [typesafe_skiplist_del]: the overflow block freed and the
    item zeroed. *)
Lemma del_finish (s1 : state) hts ls (item : N) (h : nat) :
  wfd item O s1 hts ls → hts !! item = Some h → item ≠ hd s1 →
  ∃ sf,
    (nx ← load (items s1) item;
     n3 ← nx !! SKIPLIST_OVERFLOW;
     let s2 := if decide (N.land n3 1 ≠ 0%N)
               then set_blocks s1 (delete (N.land n3 PTR_MASK) (blocks s1))
               else s1 in
     m ← store (items s2) item (replicate SKIPLIST_EMBED NULL);
     Some (set_items s2 m)) = Some sf ∧
    wf sf (delete item hts) ls ∧ hd sf = hd s1 ∧ count sf = count s1.
Proof.
  intros (Hlay & Hhd & Hlen & Hev & Hch) Hh Hih.
  pose proof Hlay as [Hok Hdis].
  destruct (Hok _ _ Hh) as (Hiz & Hhr & nx & n3 & Hnx & Hlnx & Hn3 & Hcase).
  rewrite (load_lookup _ _ _ Hiz Hnx). cbn -[decide]. rewrite Hn3.
  cbn -[decide]. unfold store.
  set (s2 := if decide (N.land n3 1 ≠ 0%N)
             then set_blocks s1 (delete (N.land n3 PTR_MASK) (blocks s1))
             else s1).
  rewrite decide_False by done. cbn -[decide].
  set (sf := set_items s2 (<[item := replicate SKIPLIST_EMBED NULL]>
                             (items s2))).
  assert (Hhd2 : hd s2 = hd s1)
    by (unfold s2; by destruct (decide (N.land n3 1 ≠ 0%N))).
  assert (Hc2 : count s2 = count s1)
    by (unfold s2; by destruct (decide (N.land n3 1 ≠ 0%N))).
  assert (Hi2 : items s2 = items s1)
    by (unfold s2; by destruct (decide (N.land n3 1 ≠ 0%N))).
  assert (Hit : ∀ a, a ≠ item → items sf !! a = items s1 !! a).
  { intros a Ha. unfold sf. cbn. rewrite lookup_insert_ne by done.
    by rewrite Hi2. }
  assert (Hbl : ∀ a h' b, hts !! a = Some h' → a ≠ item →
                          (SKIPLIST_EMBED < h')%nat →
                          block_of s1 a = Some b →
                          blocks sf !! b = blocks s1 !! b).
  { intros a h' b Ha Hne Ht Hb. unfold sf, s2. cbn.
    destruct (decide (N.land n3 1 ≠ 0%N)) as [Htag|Hnt]; [|done]. cbn.
    apply lookup_delete_ne. intros <-.
    destruct (decide (h ≤ SKIPLIST_EMBED)%nat) as [Hs|Hti]; [done|].
    apply Hne. apply (Hdis a item h' h (N.land n3 PTR_MASK)); try done; try lia.
    unfold block_of. rewrite Hnx. cbn. by rewrite Hn3. }
  exists sf. split; [done|]. split; [|split; [by rewrite <- Hhd2|by rewrite <- Hc2]].
  assert (Hold : ∀ a h', delete item hts !! a = Some h' →
                         hts !! a = Some h' ∧ a ≠ item).
  { intros a h' Ha. apply lookup_delete_Some in Ha as [? ?]. done. }
  assert (Hblock : ∀ a, a ≠ item → block_of sf a = block_of s1 a).
  { intros a Ha. unfold block_of. by rewrite Hit. }
  split; [|split; [|split; [done|split]]].
  - split.
    + intros a h' Ha. destruct (Hold _ _ Ha) as [Ha' Hne].
      apply (item_ok_frame s1); [by apply Hok | by apply Hit |].
      intros b Ht Hb. by eapply Hbl.
    + intros a a' h1 h2 b Ha Ha' Ht1 Ht2 Hb Hb'.
      destruct (Hold _ _ Ha) as [Ha1 Hne1].
      destruct (Hold _ _ Ha') as [Ha2 Hne2].
      rewrite Hblock in Hb by done. rewrite Hblock in Hb' by done.
      by eapply Hdis.
  - change (hd sf) with (hd s2). rewrite Hhd2.
    by rewrite lookup_delete_ne by done.
  - intros a h' Ha. destruct (Hold _ _ Ha) as [Ha' _]. by eapply Hev.
  - intros k l Hl. destruct (Hch _ _ Hl) as [Hc Hmem].
    change (hd sf) with (hd s2). rewrite Hhd2.
    assert (Hnot : item ∉ hd s1 :: l).
    { intros Hin. apply elem_of_cons in Hin as [?|Hin]; [done|].
      apply Hmem in Hin as (_ & h' & _ & _ & Hlk). specialize (Hlk eq_refl).
      lia. }
    split.
    + apply (chain_ext (lev s1 k)); [|done]. intros a Ha. unfold lev.
      symmetry.
      assert (Hne : a ≠ item) by (by intros ->).
      assert (Hv : ∃ ha, hts !! a = Some ha ∧ (k < ha)%nat).
      { apply elem_of_cons in Ha as [->|Ha].
        - exists SKIPLIST_MAXDEPTH. split; [done|]. rewrite <- Hlen.
          by eapply lookup_lt_Some.
        - apply Hmem in Ha as (_ & ha & Hha & Hka & _). by exists ha. }
      destruct Hv as (ha & Hha & Hka).
      apply (get_frame s1 sf hts a ha k Hlay Hha Hka); [by apply Hit|].
      intros b Ht Hb. by eapply Hbl.
    + intros a. rewrite Hmem. split.
      * intros (Hna & h' & Ha' & Hk' & Hlk). split; [done|]. exists h'.
        split; [|split; [done | by intros m [=]]].
        apply lookup_delete_Some. split; [|done].
        intros <-. specialize (Hlk eq_refl). lia.
      * intros (Hna & h' & Ha' & Hk' & _). destruct (Hold _ _ Ha') as [? ?].
        split; [done|]. exists h'. split; [done|]. split; [done|].
        by intros ->.
Qed.

(** [typesafe_skiplist_del] of a linked item that no other linked item
    equals. *)
Lemma del_spec (cmpfn : N → N → Z) (hts : gmap N nat) (item : N) (h : nat)
    (s : state) ls (fuel : nat) :
  (∀ a b, cmpfn a b < 0 ↔ 0 < cmpfn b a) →
  wf s hts ls → sorted_levels cmpfn ls →
  hts !! item = Some h → item ≠ hd s →
  (∀ a h', hts !! a = Some h' → a ≠ item → a ≠ hd s → cmpfn a item ≠ 0) →
  (length (concat ls) + 2 * SKIPLIST_MAXDEPTH < fuel)%nat →
  ∃ s' ls',
    typesafe_skiplist_del cmpfn fuel s item = Some s' ∧
    wf s' (delete item hts) ls' ∧ sorted_levels cmpfn ls' ∧
    hd s' = hd s ∧ count s' = count s ∧
    ∀ k l, ls !! k = Some l → ls' !! k = Some (filter (λ x, x ≠ item) l).
Proof.
  intros Hfl Hwf Hsl Hh Hih Huniq Hf.
  pose proof (wf_wfd s hts ls item Hwf) as Hwfd.
  destruct (wfp_level _ _ _ _ Hwf 15) as (l15 & Hl15);
    [unfold SKIPLIST_MAXDEPTH; lia|].
  unfold typesafe_skiplist_del.
  change SKIPLIST_MAXDEPTH with (S 15) at 1.
  destruct (del_loop_spec cmpfn hts item Hfl fuel 15 s ls (hd s) [hd s] l15)
    as (s1 & ls1 & Hdel & Hwf1 & Hhd1 & Hc1 & _ & Hlow); try done.
  { by eapply pos_start. }
  { by left. }
  { pose proof (steps_S _ _ _ Hl15). pose proof (steps_le ls 16).
    unfold SKIPLIST_MAXDEPTH in Hf. lia. }
  rewrite Hdel. cbn -[decide].
  destruct (del_finish s1 hts ls1 item h Hwf1 Hh ltac:(congruence))
    as (sf & Hfin & Hwff & Hhdf & Hcf).
  cbn zeta in Hfin. rewrite Hfin.
  assert (Hlev : ∀ k l, ls !! k = Some l →
                        ls1 !! k = Some (filter (λ x, x ≠ item) l)).
  { intros k l Hl. apply Hlow; [|done].
    pose proof (wfp_level_lt _ _ _ _ Hwf _ _ Hl).
    unfold SKIPLIST_MAXDEPTH in *. lia. }
  exists sf, ls1. split; [done|]. split; [done|]. split.
  - intros k l' Hl'. pose proof (wfp_level_lt _ _ _ _ Hwff _ _ Hl') as Hk.
    destruct (wfp_level _ _ _ _ Hwf k Hk) as (l & Hl).
    rewrite (Hlev _ _ Hl) in Hl'. injection Hl' as <-.
    apply sorted_filter. by eapply Hsl.
  - split; [congruence|]. split; [congruence|]. done.
Qed.

End SkipDel.


Lemma skip_64_sorted :
  SSkip.sorted_levels Examples.cmp_val ([64%N] :: replicate 15 []).
Proof.
  intros [|k] l Hl.
  - injection Hl as <-. by split.
  - change (replicate 15 ([] : list N) !! k = Some l) in Hl.
    apply lookup_replicate in Hl as [-> _]. exact I.
Defined.

(** ** Skip list: removal and traversal *)

(** ** Skip list: [del] returns, whatever compares equal to the item *)

Module SkipRuns.
Import SSkip GrowFacts SListOps SkipMem SkipPos SkipAlloc SkipDel.

#[local] Arguments SKIPLIST_OVERFLOW : simpl never.
#[local] Arguments SKIPLIST_EMBED : simpl never.
#[local] Arguments SKIPLIST_MAXDEPTH : simpl never.

(** Unlinking the item on one level; [K] holds of the levels on which it is
    linked. *)
Lemma unlink_level_g (K : nat → Prop) (s : state) hts ls (item : N)
    (k : nat) (prev : N) l1 l2 :
  wfg (λ a j, a = item → K j) s hts ls →
  at_pos s ls k prev l1 (item :: l2) →
  ∃ v s1,
    sl_level_get s item k = Some v ∧ sl_level_set s prev k v = Some s1 ∧
    wfg (λ a j, a = item → K j ∧ j ≠ k) s1 hts
        (<[k := tail l1 ++ l2]> ls) ∧
    hd s1 = hd s ∧ count s1 = count s.
Proof.
  intros Hwf Hp.
  pose proof Hwf as (Hlay & Hhd & Hlen & Hev & Hch).
  pose proof Hp as (l & Hl & Heq & Hlast).
  destruct l1 as [|x l1]; [done|]. simpl in Heq. injection Heq as <- ->.
  cbn [tail].
  destruct (Hch _ _ Hl) as [Hc Hmem].
  pose proof (chain_NoDup _ _ _ Hc) as Hnd.
  assert (Hi1 : item ∉ hd s :: l1).
  { intros Hin. change (hd s :: l1 ++ item :: l2)
      with ((hd s :: l1) ++ item :: l2) in Hnd.
    apply NoDup_app in Hnd as (_ & Hnd & _). apply (Hnd _ Hin). by left. }
  assert (Hi2 : item ∉ l2).
  { intros Hin. change (hd s :: l1 ++ item :: l2)
      with ((hd s :: l1) ++ item :: l2) in Hnd.
    apply NoDup_app in Hnd as (_ & _ & Hnd).
    by apply NoDup_cons in Hnd as [? _]. }
  assert (Hpin : prev ∈ hd s :: l1) by by apply last_Some_elem_of.
  assert (Hpi : prev ≠ item) by (by intros ->).
  assert (Hpin' : prev ∈ hd s :: l1 ++ item :: l2).
  { apply (elem_of_app (hd s :: l1)). by left. }
  destruct (wfp_valid _ _ _ _ Hwf k _ prev Hl Hpin') as (hp & Hhp & Hkp).
  destruct (pos_get _ _ _ _ Hwf k item ((hd s :: l1) ++ [item]) l2)
    as [Hgi Hci].
  { exists (l1 ++ item :: l2). split; [done|].
    split; [by rewrite <- (assoc_L app) | by rewrite last_snoc]. }
  assert (Hnev : N.land (default NULL (head l2)) 1 = 0%N).
  { destruct l2 as [|a l2]; [done|]. simpl.
    apply (wfp_even _ _ _ _ Hwf k _ a Hl). right. apply elem_of_app. right.
    right. by left. }
  destruct (set_spec s hts prev hp k _ Hlay Hhp Hkp Hnev)
    as (s1 & Hs1 & Hlay1 & Hhd1 & Hc1 & Hg1 & Hfr1).
  exists (default NULL (head l2)), s1. split; [done|]. split; [done|].
  split; [|done].
  split; [done|]. split; [by rewrite Hhd1|].
  split; [by rewrite length_insert|]. split; [done|].
  intros k' l' Hl'. rewrite Hhd1.
  apply list_lookup_insert_Some in Hl' as [(<- & <- & _)|(Hne & Hl')].
  - split.
    + apply (chain_unlink_fn (lev s k) (lev s1 k) (hd s :: l1) l2 prev item);
        try done.
      * unfold lev. by rewrite Hg1, Hgi.
      * intros a Ha Hnp. unfold lev.
        assert (Ha' : a ∈ hd s :: l1 ++ item :: l2).
        { apply (elem_of_app (hd s :: l1)) in Ha as [?|?].
          - apply (elem_of_app (hd s :: l1)). by left.
          - apply (elem_of_app (hd s :: l1)). right. by right. }
        destruct (wfp_valid _ _ _ _ Hwf k _ a Hl Ha') as (ha & Hha & Hka).
        apply (Hfr1 a ha k Hha Hka). by left.
    + intros a. split.
      * intros Ha. assert (Hai : a ≠ item).
        { intros ->. apply elem_of_app in Ha as [?|?]; [|done].
          apply Hi1. by right. }
        assert (Ha' : a ∈ l1 ++ item :: l2).
        { rewrite elem_of_app, elem_of_cons.
          apply elem_of_app in Ha as [?|?]; tauto. }
        apply Hmem in Ha' as (Hna & h' & Hh' & Hk' & _).
        split; [done|]. exists h'. split; [done|]. split; [done|].
        intros Heq. by destruct Hai.
      * intros (Hna & h' & Hh' & Hk' & Hlk).
        assert (Hai : a ≠ item).
        { intros ->. by destruct (Hlk eq_refl) as [_ ?]. }
        assert (Ha' : a ∈ l1 ++ item :: l2).
        { apply Hmem. split; [done|]. exists h'. split; [done|].
          split; [done|]. intros Heq. by destruct Hai. }
        rewrite elem_of_app, elem_of_cons in Ha'. rewrite elem_of_app. tauto.
  - destruct (Hch _ _ Hl') as [Hc' Hmem']. split.
    + apply (chain_ext (lev s k')); [|done]. intros a Ha. unfold lev.
      symmetry.
      destruct (wfp_valid _ _ _ _ Hwf k' _ a Hl' Ha) as (ha & Hha & Hka).
      apply (Hfr1 a ha k' Hha Hka). right. congruence.
    + intros a. rewrite Hmem'.
      split; intros (Hna & h' & Ha' & Hk' & Hlk);
        (split; [done|]); exists h'; (split; [done|]); (split; [done|]);
        intros Heq.
      * split; [by apply Hlk | congruence].
      * by destruct (Hlk Heq).
Qed.

Section Runs.

Context (cmpfn : N → N → Z) (hts : gmap N nat) (item : N).

(** The loop of [typesafe_skiplist_del] comes to its end on every
    well-formed list; no property of the comparison function is needed. *)
Lemma del_loop_runs : ∀ fuel k (K : nat → Prop) s ls prev l1 l2,
  wfg (λ a j, a = item → K j) s hts ls →
  at_pos s ls k prev l1 l2 → prev ≠ item →
  (length l2 + steps ls k + 1 < fuel)%nat →
  ∃ s' ls' (K' : nat → Prop),
    del_loop cmpfn fuel s item (S k) prev = Some s' ∧
    wfg (λ a j, a = item → K' j) s' hts ls' ∧
    hd s' = hd s ∧ count s' = count s.
Proof.
  induction fuel as [|f IH];
    intros k K s ls prev l1 l2 Hwf Hp Hprev Hf; [lia|].
  cbn [del_loop]. rewrite decide_False by lia.
  replace (S k - 1)%nat with k by lia.
  destruct (pos_get _ _ _ _ Hwf _ _ _ _ Hp) as [Hget _]. rewrite Hget.
  cbn -[decide del_loop].
  pose proof Hp as (l & Hl & Heq & Hlast).
  (* going down from level [k] *)
  assert (Hdown : ∀ (K1 : nat → Prop) s1 ls1 l1' l2',
    wfg (λ a j, a = item → K1 j) s1 hts ls1 →
    hd s1 = hd s → count s1 = count s →
    at_pos s1 ls1 k prev l1' l2' →
    (∀ j, (j < k)%nat → ls1 !! j = ls !! j) →
    ∃ s' ls' (K' : nat → Prop),
      del_loop cmpfn f s1 item k prev = Some s' ∧
      wfg (λ a j, a = item → K' j) s' hts ls' ∧
      hd s' = hd s ∧ count s' = count s).
  { intros K1 s1 ls1 l1' l2' Hwf1 Hhd1 Hc1 Hp1 Hsame.
    destruct k as [|k].
    - destruct f as [|f]; [lia|]. by exists s1, ls1, K1.
    - destruct (pos_down_g _ _ _ _ Hwf1 _ _ _ _ Hp1) as (l1'' & l2'' & Hp');
        [intros _ Heq'; by destruct Hprev|].
      pose proof Hp' as (l' & Hl' & _).
      assert (Hlen : (length l2'' ≤ length l')%nat)
        by (eapply pos_len; eauto).
      assert (Hl'0 : ls !! k = Some l') by (rewrite <- Hsame by lia; done).
      rewrite (steps_S _ _ _ Hl'0) in Hf.
      destruct (IH k K1 s1 ls1 prev l1'' l2'' Hwf1 Hp' Hprev)
        as (s' & ls' & K' & Hdel & Hwf' & Hhd' & Hc').
      { assert (Ht : take k ls1 = take k ls).
        { apply list_eq. intros i. destruct (decide (i < k)%nat).
          - rewrite !lookup_take_lt by done. apply Hsame. lia.
          - by rewrite !lookup_take_ge by lia. }
        unfold steps in *. rewrite Ht. lia. }
      exists s', ls', K'. split; [done|]. split; [done|].
      split; congruence. }
  destruct l2 as [|a l2]; cbn -[decide del_loop].
  - rewrite decide_True by done. by apply (Hdown K s ls l1 []).
  - pose proof (pos_next_not_null _ _ _ _ Hwf _ _ _ _ _ Hp) as Ha.
    rewrite decide_False by done.
    destruct (decide (a = item)) as [->|Hai].
    + destruct (unlink_level_g K s hts ls item k prev l1 l2 Hwf Hp)
        as (v & s1 & Hgi & Hs1 & Hwf1 & Hhd1 & Hc1).
      rewrite Hgi. cbn -[decide del_loop]. rewrite Hs1.
      cbn -[decide del_loop].
      destruct l1 as [|x l1]; [done|]. simpl in Heq.
      injection Heq as <- ->. cbn [tail] in Hwf1.
      apply (Hdown (λ j, K j ∧ j ≠ k) s1 (<[k := l1 ++ l2]> ls)
               (hd s :: l1) l2); try done.
      * exists (l1 ++ l2). rewrite Hhd1. split; [|done].
        apply list_lookup_insert_eq. by eapply lookup_lt_Some.
      * intros j Hj. apply list_lookup_insert_ne. lia.
    + destruct (decide (cmpfn a item < 0)) as [Hlt|Hge].
      * apply (IH k K s ls a (l1 ++ [a]) l2); try done.
        -- by eapply pos_step.
        -- simpl in Hf. lia.
      * by apply (Hdown K s ls l1 (a :: l2)).
Qed.

End Runs.

(** [typesafe_skiplist_del] of a linked item returns, and leaves the count
    alone. *)
Lemma del_returns (cmpfn : N → N → Z) (s : state) (hts : gmap N nat)
    (ls : list (list N)) (l0 : list N) (item : N) (fuel : nat) :
  wf s hts ls → ls !! O = Some l0 → item ∈ l0 →
  (length (concat ls) + 2 * SKIPLIST_MAXDEPTH < fuel)%nat →
  ∃ s', typesafe_skiplist_del cmpfn fuel s item = Some s' ∧
        count s' = count s.
Proof.
  intros Hwf Hl0 Hin Hf.
  pose proof Hwf as (Hlay & Hhd & Hlen & Hev & Hch).
  destruct (Hch _ _ Hl0) as [_ Hmem].
  pose proof (proj1 (Hmem item) Hin) as (Hih & h & Hh & _).
  destruct (wfp_level _ _ _ _ Hwf 15) as (l15 & Hl15);
    [unfold SKIPLIST_MAXDEPTH; lia|].
  unfold typesafe_skiplist_del.
  change SKIPLIST_MAXDEPTH with (S 15) at 1.
  destruct (del_loop_runs cmpfn hts item fuel 15 (λ _, True) s ls (hd s)
              [hd s] l15)
    as (s1 & ls1 & K1 & Hdel & Hwf1 & Hhd1 & Hc1).
  { destruct (wf_wfd s hts ls item Hwf) as (? & ? & ? & ? & Hch').
    split; [done|]. split; [done|]. split; [done|]. split; [done|].
    intros k l Hl. destruct (Hch _ _ Hl) as [Hc Hm]. split; [done|].
    intros a. rewrite Hm.
    split; intros (Hna & h' & Ha' & Hk' & _);
      (split; [done|]); exists h'; (split; [done|]); (split; [done|]).
    - done.
    - by intros m [=]. }
  { by eapply pos_start. }
  { done. }
  { pose proof (steps_S _ _ _ Hl15). pose proof (steps_le ls 16).
    pose proof (HashMeta.length_bucket_le _ _ _ Hl15).
    unfold SKIPLIST_MAXDEPTH in Hf. lia. }
  rewrite Hdel. cbn -[decide].
  destruct Hwf1 as ([Hok1 _] & _).
  destruct (Hok1 _ _ Hh) as (Hiz & _ & nx & n3 & Hnx & _ & Hn3 & _).
  rewrite (load_lookup _ _ _ Hiz Hnx). cbn -[decide]. rewrite Hn3.
  cbn -[decide]. unfold store.
  rewrite (decide_False (P := item = NULL)) by done.
  cbn -[decide]. eexists. split; [done|]. cbn.
  by destruct (decide (N.land n3 1 ≠ 0%N)).
Qed.

End SkipRuns.

Module SkipRemove.

Lemma del_removes (cmpfn : N → N → Z) (s : SSkip.state)
    (hts : gmap N nat) (ls : list (list N)) (l0 : list N) (item : N)
    (fuel : nat) :
  (∀ a b, cmpfn a b < 0 ↔ 0 < cmpfn b a) →
  SSkip.wf s hts ls → SSkip.sorted_levels cmpfn ls → ls !! O = Some l0 →
  item ∈ l0 → (∀ a, a ∈ l0 → a ≠ item → cmpfn a item ≠ 0) →
  (length (concat ls) + 2 * SSkip.SKIPLIST_MAXDEPTH < fuel)%nat →
  ∃ s' ls',
    SSkip.del cmpfn fuel s item = Some s' ∧
    SSkip.wf s' (delete item hts) ls' ∧ SSkip.sorted_levels cmpfn ls' ∧
    (∀ k l, ls !! k = Some l →
            ls' !! k = Some (filter (λ x, x ≠ item) l)) ∧
    SSkip.traverse fuel s' = Some (filter (λ x, x ≠ item) l0) ∧
    SSkip.count_items s' = SSkip.count_items s.
Proof.
  intros Hfl Hwf Hsl Hl0 Hin Huniq Hf.
  pose proof Hwf as (Hlay & Hhd & Hlen & Hev & Hch).
  destruct (Hch _ _ Hl0) as [_ Hmem].
  pose proof (proj1 (Hmem item) Hin) as (Hih & h & Hh & _).
  destruct (SkipDel.del_spec cmpfn hts item h s ls fuel Hfl Hwf Hsl Hh Hih)
    as (s' & ls' & Hdel & Hwf' & Hsl' & _ & Hc & Hlev); [|done|].
  { intros a h' Ha Hne Hnh. apply Huniq; [|done]. apply Hmem.
    split; [done|]. exists h'. split; [done|].
    split; [|by intros m [=]].
    destruct Hlay as [Hok _]. destruct (Hok _ _ Ha) as (_ & ? & _). lia. }
  exists s', ls'. split; [done|]. split; [done|]. split; [done|].
  split; [done|]. split; [|done].
  eapply SkipOrder.traverse_level0; [exact Hwf' | by apply Hlev |].
  pose proof (length_filter (λ x, x ≠ item) l0).
  pose proof (HashMeta.length_bucket_le _ _ _ Hl0). lia.
Qed.

End SkipRemove.

(** X23: the skip list's [del] of a linked item that no other linked item
    compares equal to unlinks the item on every level; the list stays well
    formed and sorted, the traversal visits the remaining items in their
    order, and the count is not touched. *)
Theorem sskip_del_removes_item (cmpfn : N → N → Z) (s : SSkip.state)
    (hts : gmap N nat) (ls : list (list N)) (l0 : list N) (item : N)
    (fuel : nat) :
  (∀ a b, cmpfn a b < 0 ↔ 0 < cmpfn b a) →
  SSkip.wf s hts ls → SSkip.sorted_levels cmpfn ls → ls !! O = Some l0 →
  item ∈ l0 → (∀ a, a ∈ l0 → a ≠ item → cmpfn a item ≠ 0) →
  (length (concat ls) + 2 * SSkip.SKIPLIST_MAXDEPTH < fuel)%nat →
  ∃ s' ls',
    SSkip.del cmpfn fuel s item = Some s' ∧
    SSkip.wf s' (delete item hts) ls' ∧ SSkip.sorted_levels cmpfn ls' ∧
    (∀ k l, ls !! k = Some l →
            ls' !! k = Some (filter (λ x, x ≠ item) l)) ∧
    SSkip.traverse fuel s' = Some (filter (λ x, x ≠ item) l0) ∧
    SSkip.count_items s' = SSkip.count_items s.
Proof. apply SkipRemove.del_removes. Qed.

Lemma sskip_del_removes_item_witness :
  ∃ s' ls',
    SSkip.del Examples.cmp_val 64 Examples.skip_64_state 64 = Some s' ∧
    SSkip.wf s' (delete 64%N (<[64%N := 1%nat]> {[4096%N := 16%nat]})) ls' ∧
    SSkip.sorted_levels Examples.cmp_val ls' ∧
    (∀ k l, ([64%N] :: replicate 15 []) !! k = Some l →
            ls' !! k = Some (filter (λ x, x ≠ 64%N) l)) ∧
    SSkip.traverse 64 s' = Some (filter (λ x, x ≠ 64%N) [64%N]) ∧
    SSkip.count_items s' = SSkip.count_items Examples.skip_64_state.
Proof.
  apply (sskip_del_removes_item Examples.cmp_val Examples.skip_64_state
           (<[64%N := 1%nat]> {[4096%N := 16%nat]})
           ([64%N] :: replicate 15 []) [64%N] 64 64).
  - exact cmp_val_flip.
  - exact skip_64_wf.
  - exact skip_64_sorted.
  - reflexivity.
  - by left.
  - intros a Ha Hne. apply list_elem_of_singleton in Ha. done.
  - vm_compute. lia.
Defined.

(** The list of [skip_24_32_state] is well formed: the items 24 and 32, of
    the same value, on level 0. *)
Lemma skip_24_32_wf :
  SSkip.wf Examples.skip_24_32_state
           (<[24%N := 1%nat]> (<[32%N := 1%nat]> {[4096%N := 16%nat]}))
           ([24%N; 32%N] :: replicate 15 []).
Proof.
  destruct (SkipAdd.add_spec Examples.cmp_val {[4096%N := 16%nat]} 32 1
              (SSkip.init ∅ ∅ 4096) (replicate 16 []) 1 NULL 64)
    as (s1 & ls1 & Hadd1 & Hwf1 & _ & _ & _ & Hsame1 & Hins1);
    [exact skip_init_wf | done | done | done | done | done | | |].
  { intros Ht. exfalso. vm_compute in Ht. lia. }
  { vm_compute. lia. }
  assert (Hs1 : SSkip.typesafe_skiplist_add Examples.cmp_val 64 1 NULL
                  (SSkip.init ∅ ∅ 4096) 32 = Some Examples.skip_32_state)
    by (by vm_compute).
  rewrite Hs1 in Hadd1. injection Hadd1 as <-.
  assert (ls1 = [32%N] :: replicate 15 []) as ->.
  { apply list_eq. intros i. destruct (decide (i < 1)%nat) as [Hi|Hi].
    - destruct (Hins1 i [] Hi) as (l1 & l2 & Heq & Hl' & _).
      { apply lookup_replicate_2. lia. }
      symmetry in Heq. apply app_eq_nil in Heq as [-> ->].
      rewrite Hl'. by destruct i; [|lia].
    - rewrite Hsame1 by lia. by destruct i as [|i]; [lia|]. }
  destruct (SkipAdd.add_spec Examples.cmp_val
              (<[32%N := 1%nat]> {[4096%N := 16%nat]}) 24 1
              Examples.skip_32_state ([32%N] :: replicate 15 []) 1 NULL 64)
    as (s2 & ls2 & Hadd2 & Hwf2 & _ & _ & _ & Hsame2 & Hins2);
    [exact Hwf1 | done | done | done | done | done | | |].
  { intros Ht. exfalso. vm_compute in Ht. lia. }
  { vm_compute. lia. }
  assert (Hs2 : SSkip.typesafe_skiplist_add Examples.cmp_val 64 1 NULL
                  Examples.skip_32_state 24 = Some Examples.skip_24_32_state)
    by (by vm_compute).
  rewrite Hs2 in Hadd2. injection Hadd2 as <-.
  assert (ls2 = [24%N; 32%N] :: replicate 15 []) as <-; [|done].
  apply list_eq. intros i. destruct (decide (i < 1)%nat) as [Hi|Hi].
  - assert (i = O) as -> by lia.
    destruct (Hins2 O [32%N] Hi) as (l1 & l2 & Heq & Hl' & Hlast & _);
      [done|].
    rewrite Hl'. destruct l1 as [|x l1]; simpl in Heq.
    + by subst l2.
    + exfalso. injection Heq as <- Heq.
      symmetry in Heq. apply app_eq_nil in Heq as [-> ->].
      specialize (Hlast 32%N eq_refl). vm_compute in Hlast. done.
  - rewrite Hsame2 by lia. by destruct i as [|i]; [lia|].
Qed.

(** X24: the skip list's [pop] returns NULL and leaves the list alone when no
    item is linked; otherwise it returns the first item, whatever compares
    equal to it, and does not touch the count.  When no other linked item
    compares equal to the first one, [pop] unlinks it on every level: the
    list stays well formed and sorted and the traversal visits the rest. *)
Theorem sskip_pop_takes_first (cmpfn : N → N → Z) (s : SSkip.state)
    (hts : gmap N nat) (ls : list (list N)) (l0 : list N) (fuel : nat) :
  SSkip.wf s hts ls → ls !! O = Some l0 →
  (length (concat ls) + 2 * SSkip.SKIPLIST_MAXDEPTH < fuel)%nat →
  match l0 with
  | [] => SSkip.pop cmpfn fuel s = Some (NULL, s)
  | a :: l' =>
      ∃ s',
        SSkip.pop cmpfn fuel s = Some (a, s') ∧
        SSkip.count_items s' = SSkip.count_items s ∧
        ((∀ x y, cmpfn x y < 0 ↔ 0 < cmpfn y x) →
         SSkip.sorted_levels cmpfn ls →
         (∀ b, b ∈ a :: l' → b ≠ a → cmpfn b a ≠ 0) →
         ∃ ls',
           SSkip.wf s' (delete a hts) ls' ∧
           SSkip.sorted_levels cmpfn ls' ∧
           (∀ k l, ls !! k = Some l →
                   ls' !! k = Some (filter (λ x, x ≠ a) l)) ∧
           SSkip.traverse fuel s' = Some l')
  end.
Proof.
  intros Hwf Hl0 Hf.
  pose proof Hwf as (Hlay & Hhd & Hlen & Hev & Hch).
  destruct (Hch _ _ Hl0) as [Hc Hmem].
  pose proof (SListOps.chain_NoDup _ _ _ Hc) as Hnd.
  simpl in Hc. destruct Hc as (_ & Hhz & p & Hp & Hc).
  assert (Hpop : SSkip.pop cmpfn fuel s
                 = (sitem ← SSkip.sl_level_get s (SSkip.hd s) O;
                    if decide (sitem = NULL) then Some (NULL, s)
                    else s1 ← SSkip.typesafe_skiplist_del cmpfn fuel s sitem;
                         Some (sitem, s1))).
  { unfold SSkip.pop, SSkip.sl_level_get. by destruct (load _ _). }
  rewrite Hpop. unfold SSkip.lev in Hp. rewrite Hp. cbn -[decide].
  destruct l0 as [|a l'].
  - simpl in Hc. subst p. by rewrite decide_True.
  - simpl in Hc. destruct Hc as (-> & Ha & _). rewrite decide_False by done.
    destruct (SkipRuns.del_returns cmpfn s hts ls (a :: l') a fuel)
      as (s' & Hdel & Hcnt); [done | done | by left | done |].
    rewrite Hdel. cbn. exists s'. split; [done|]. split; [done|].
    intros Hfl Hsl Huniq.
    destruct (SkipRemove.del_removes cmpfn s hts ls (a :: l') a fuel)
      as (s'' & ls' & Hdel' & Hwf' & Hsl' & Hlev & Htrav & _); try done.
    { by left. }
    unfold SSkip.del in Hdel'. rewrite Hdel in Hdel'. injection Hdel' as <-.
    exists ls'. split; [done|]. split; [done|]. split; [done|].
    rewrite Htrav. f_equal.
    apply NoDup_cons in Hnd as [_ Hnd]. apply NoDup_cons in Hnd as [Hal _].
    rewrite filter_cons_False by (intros H; by apply H).
    by apply SListOps.filter_ne_absent.
Qed.

Lemma sskip_pop_takes_first_witness :
  ∃ s',
    SSkip.pop Examples.cmp_val 64 Examples.skip_24_32_state
    = Some (24%N, s') ∧
    SSkip.count_items s' = SSkip.count_items Examples.skip_24_32_state ∧
    ((∀ x y, Examples.cmp_val x y < 0 ↔ 0 < Examples.cmp_val y x) →
     SSkip.sorted_levels Examples.cmp_val
       ([24%N; 32%N] :: replicate 15 []) →
     (∀ b, b ∈ [24%N; 32%N] → b ≠ 24%N → Examples.cmp_val b 24 ≠ 0) →
     ∃ ls',
       SSkip.wf s'
         (delete 24%N
            (<[24%N := 1%nat]> (<[32%N := 1%nat]> {[4096%N := 16%nat]})))
         ls' ∧
       SSkip.sorted_levels Examples.cmp_val ls' ∧
       (∀ k l, ([24%N; 32%N] :: replicate 15 []) !! k = Some l →
               ls' !! k = Some (filter (λ x, x ≠ 24%N) l)) ∧
       SSkip.traverse 64 s' = Some [32%N]).
Proof.
  apply (sskip_pop_takes_first Examples.cmp_val Examples.skip_24_32_state
           (<[24%N := 1%nat]> (<[32%N := 1%nat]> {[4096%N := 16%nat]}))
           ([24%N; 32%N] :: replicate 15 []) [24%N; 32%N] 64).
  - exact skip_24_32_wf.
  - reflexivity.
  - vm_compute. lia.
Defined.


(** ** Skip list: insert and look up *)

Module SkipRoundTrip.

Lemma concat_length_bound (A B : list (list N)) :
  length A = length B →
  (∀ k a b, A !! k = Some a → B !! k = Some b →
            (length b ≤ length a + 1)%nat) →
  (length (concat B) ≤ length (concat A) + length A)%nat.
Proof.
  revert B. induction A as [|a A IH]; intros [|b B] Hlen Hle;
    simplify_eq/=; [lia|].
  rewrite !length_app. pose proof (Hle O a b eq_refl eq_refl).
  specialize (IH B Hlen (λ k, Hle (S k))). lia.
Qed.

Lemma add_then_find (cmpfn : N → N → Z) (s : SSkip.state)
    (hts : gmap N nat) (ls : list (list N)) (l0 : list N) (item : N)
    (rnd : Z) (oflow : N) (fuel : nat) :
  (∀ a b c, cmpfn a b <= 0 → cmpfn b c <= 0 → cmpfn a c <= 0) →
  (∀ a b, cmpfn a b < 0 ↔ 0 < cmpfn b a) →
  SSkip.wf s hts ls → SSkip.sorted_levels cmpfn ls → ls !! O = Some l0 →
  hts !! item = None → item ≠ NULL → N.land item 1 = 0%N → 0 < rnd →
  ((SSkip.SKIPLIST_EMBED < SSkip.newlevel_of rnd)%nat →
   oflow ≠ NULL ∧ (oflow mod 4 = 0)%N ∧ (oflow < 2 ^ 64)%N ∧
   ∀ a h', hts !! a = Some h' → (SSkip.SKIPLIST_EMBED < h')%nat →
           SSkip.block_of s a ≠ Some oflow) →
  (length (concat ls) + 2 * SSkip.SKIPLIST_MAXDEPTH < fuel)%nat →
  ∃ s' r,
    SSkip.add cmpfn fuel rnd oflow s item = Some s' ∧
    SSkip.find cmpfn (fuel + SSkip.SKIPLIST_MAXDEPTH) s' item = Some r ∧
    (r = item ∨ r ∈ l0) ∧ cmpfn r item = 0.
Proof.
  intros Htr Hfl Hwf Hsl Hl0 Hfresh Hiz Hie Hrnd Hof Hf.
  destruct (SkipOrder.add_sorted cmpfn Htr Hfl hts item s ls rnd oflow fuel)
    as (s' & ls' & Hadd & Hwf' & Hsl' & _ & Hc & Hh & Hlev); try done.
  assert (Hl0' : ls' !! O = Some (SSort.sorted_insert cmpfn item l0)).
  { rewrite (Hlev _ _ Hl0). by rewrite decide_True by lia. }
  assert (Hlen : (length (concat ls') ≤ length (concat ls) + length ls)%nat).
  { apply concat_length_bound.
    - destruct Hwf as (_ & _ & -> & _). by destruct Hwf' as (_ & _ & -> & _).
    - intros k a b Ha Hb. rewrite (Hlev _ _ Ha) in Hb. injection Hb as <-.
      destruct (decide _); [|lia].
      rewrite SSortOps.length_sorted_insert. lia. }
  assert (Hls : length ls = SSkip.SKIPLIST_MAXDEPTH)
    by by destruct Hwf as (_ & _ & -> & _).
  assert (Hzz : cmpfn item item = 0).
  { destruct (decide (cmpfn item item < 0)) as [Hlt|].
    - pose proof (proj1 (Hfl _ _) Hlt). lia.
    - destruct (decide (0 < cmpfn item item)) as [Hgt|]; [|lia].
      pose proof (proj2 (Hfl _ _) Hgt). lia. }
  destruct (SkipPos.wfp_level _ _ _ _ Hwf' 15) as (l15 & Hl15);
    [unfold SSkip.SKIPLIST_MAXDEPTH; lia|].
  destruct (SkipFind.find_loop_spec cmpfn s' _ ls' _ item Hwf' Hl0'
              (fuel + SSkip.SKIPLIST_MAXDEPTH) 15
              (SSkip.hd s') [SSkip.hd s'] l15) as (r & Hr & Hres).
  { by apply SkipPos.pos_start. }
  { pose proof (SkipPos.steps_S _ _ _ Hl15).
    pose proof (SkipPos.steps_le ls' 16).
    unfold SSkip.SKIPLIST_MAXDEPTH in *. lia. }
  exists s', r. split; [done|]. split; [exact Hr|].
  destruct Hres as [(_ & Hin & Hz)|[-> Habs]].
  - split; [|done].
    apply SSortOps.elem_of_sorted_insert in Hin. tauto.
  - exfalso.
    apply (Habs Htr Hfl (Hsl' _ _ Hl0') (or_introl eq_refl) item); [|done].
    apply SSortOps.elem_of_sorted_insert. by left.
Qed.

End SkipRoundTrip.

(** X25: insert and look up in the skip list.  With an order as comparison
    function, [find] after [add] of a non-resident item returns a linked item
    that compares equal to the added one. *)
Theorem sskip_add_then_find (cmpfn : N → N → Z) (s : SSkip.state)
    (hts : gmap N nat) (ls : list (list N)) (l0 : list N) (item : N)
    (rnd : Z) (oflow : N) (fuel : nat) :
  (∀ a b c, cmpfn a b <= 0 → cmpfn b c <= 0 → cmpfn a c <= 0) →
  (∀ a b, cmpfn a b < 0 ↔ 0 < cmpfn b a) →
  SSkip.wf s hts ls → SSkip.sorted_levels cmpfn ls → ls !! O = Some l0 →
  hts !! item = None → item ≠ NULL → N.land item 1 = 0%N → 0 < rnd →
  ((SSkip.SKIPLIST_EMBED < SSkip.newlevel_of rnd)%nat →
   oflow ≠ NULL ∧ (oflow mod 4 = 0)%N ∧ (oflow < 2 ^ 64)%N ∧
   ∀ a h', hts !! a = Some h' → (SSkip.SKIPLIST_EMBED < h')%nat →
           SSkip.block_of s a ≠ Some oflow) →
  (length (concat ls) + 2 * SSkip.SKIPLIST_MAXDEPTH < fuel)%nat →
  ∃ s' r,
    SSkip.add cmpfn fuel rnd oflow s item = Some s' ∧
    SSkip.find cmpfn (fuel + SSkip.SKIPLIST_MAXDEPTH) s' item = Some r ∧
    (r = item ∨ r ∈ l0) ∧ cmpfn r item = 0.
Proof. apply SkipRoundTrip.add_then_find. Qed.

Lemma sskip_add_then_find_witness :
  ∃ s' r,
    SSkip.add Examples.cmp_val 64 32 8192 Examples.skip_64_state 24 = Some s' ∧
    SSkip.find Examples.cmp_val (64 + SSkip.SKIPLIST_MAXDEPTH) s' 24 = Some r ∧
    (r = 24%N ∨ r ∈ [64%N]) ∧ Examples.cmp_val r 24 = 0.
Proof.
  apply (sskip_add_then_find Examples.cmp_val Examples.skip_64_state
           (<[64%N := 1%nat]> {[4096%N := 16%nat]})
           ([64%N] :: replicate 15 []) [64%N] 24 32 8192 64).
  - exact cmp_val_trans.
  - exact cmp_val_flip.
  - exact skip_64_wf.
  - exact skip_64_sorted.
  - reflexivity.
  - reflexivity.
  - done.
  - reflexivity.
  - lia.
  - intros _. split; [done|]. split; [reflexivity|]. split; [reflexivity|].
    intros a h' Ha Ht.
    apply lookup_insert_Some in Ha as [[<- <-]|[_ Ha]];
      [vm_compute in Ht; lia|].
    apply lookup_singleton_Some in Ha as [<- _]. by vm_compute.
  - vm_compute. lia.
Defined.


(** * Sequences of operations on the sorted list *)

Module SSortRun.
Import SSort.

Section Run.

Variable cmpfn : N → N → Z.

Lemma sorted_length_abs_step (l : list N) (o : op) :
  (length (abs_step cmpfn l o) ≤ S (length l))%nat.
Proof.
  destruct o; simpl.
  - rewrite SSortOps.length_sorted_insert. lia.
  - pose proof (length_filter (λ x, x ≠ a) l). lia.
  - destruct l; simpl; lia.
Qed.

Lemma sorted_pop_empty (s : state) : wf s [] → pop s = Some (NULL, s).
Proof.
  intros (Hc & _). simpl in Hc. unfold pop. by rewrite decide_True.
Qed.

Lemma sorted_step_wf (fuel : nat) (s : state) (l : list N) (o : op) :
  wf s l → op_ok l o → (length l < fuel)%nat →
  ∃ s', step cmpfn fuel s o = Some s' ∧ wf s' (abs_step cmpfn l o).
Proof.
  intros Hwf Hok Hf. destruct o as [a|a|]; simpl in *.
  - destruct Hok. by apply SSortOps.add_wf.
  - destruct (decide (a ∈ l)) as [Hin|Hin].
    + by apply SSortOps.sorted_del_member_wf.
    + exists s. rewrite SListOps.filter_ne_absent by done.
      split; [|done]. by apply (DelAbsent.ssort_del_absent s l).
  - destruct l as [|a l].
    + exists s. by rewrite (sorted_pop_empty s Hwf).
    + destruct (SSortOps.sorted_pop_wf s a l Hwf) as (s' & -> & Hwf').
      by exists s'.
Qed.

Lemma sorted_run_wf (fuel : nat) (os : list op) : ∀ (s : state) (l : list N),
  wf s l → ops_ok cmpfn l os → (length l + length os < fuel)%nat →
  ∃ s', run cmpfn fuel os s = Some s' ∧ wf s' (foldl (abs_step cmpfn) l os).
Proof.
  induction os as [|o os IH]; intros s l Hwf Hok Hf; simpl in *.
  - by exists s.
  - destruct Hok as [Ho Hok].
    destruct (sorted_step_wf fuel s l o Hwf Ho) as (s1 & -> & Hwf1); [lia|].
    cbn. apply IH; [done | done |].
    pose proof (sorted_length_abs_step l o). lia.
Qed.

Lemma sorted_length_foldl_abs_step (os : list op) : ∀ l : list N,
  (length (foldl (abs_step cmpfn) l os) ≤ length l + length os)%nat.
Proof.
  induction os as [|o os IH]; intros l; simpl; [lia|].
  pose proof (IH (abs_step cmpfn l o)).
  pose proof (sorted_length_abs_step l o). lia.
Qed.

Hypothesis cmp_trans : ∀ a b c, cmpfn a b <= 0 → cmpfn b c <= 0 → cmpfn a c <= 0.
Hypothesis cmp_anti : ∀ a b, 0 <= cmpfn a b → cmpfn b a <= 0.

Lemma abs_step_sorted (l : list N) (o : op) :
  sorted cmpfn l → sorted cmpfn (abs_step cmpfn l o).
Proof.
  intros Hs. destruct o as [a|a|]; simpl.
  - by apply SSortOps.sorted_insert_sorted.
  - by apply SkipDel.sorted_filter.
  - destruct l as [|b l]; [done|]. by destruct Hs.
Qed.

Lemma foldl_abs_step_sorted (os : list op) : ∀ l : list N,
  sorted cmpfn l → sorted cmpfn (foldl (abs_step cmpfn) l os).
Proof.
  induction os as [|o os IH]; intros l Hs; simpl; [done|].
  by apply IH, abs_step_sorted.
Qed.

End Run.

End SSortRun.

(** X26.  Any sequence of insertions of fresh non-NULL items, deletions and
    pops, run on an empty sorted list, succeeds; under a comparison function
    that orders the items the list then holds exactly the items that sorted
    insertion, filtering and dropping the first give, it is sorted, a
    traversal reads them in this order, and the count is their number. *)
Theorem ssort_run_refines (cmpfn : N → N → Z) (m : gmap N N)
    (os : list SSort.op) (fuel : nat) :
  (∀ a b c, cmpfn a b <= 0 → cmpfn b c <= 0 → cmpfn a c <= 0) →
  (∀ a b, 0 <= cmpfn a b → cmpfn b a <= 0) →
  SSort.ops_ok cmpfn [] os → (length os < fuel)%nat →
  ∃ s, SSort.run cmpfn fuel os (SSort.init m) = Some s ∧
       SSort.wf s (foldl (SSort.abs_step cmpfn) [] os) ∧
       SSort.sorted cmpfn (foldl (SSort.abs_step cmpfn) [] os) ∧
       SSort.traverse fuel s = Some (foldl (SSort.abs_step cmpfn) [] os) ∧
       SSort.count_items s
       = Z.of_nat (length (foldl (SSort.abs_step cmpfn) [] os)) mod size_max.
Proof.
  intros Htr Hanti Hok Hf.
  destruct (SSortRun.sorted_run_wf cmpfn fuel os (SSort.init m) [])
    as (s & Hrun & Hwf); [by split | done | simpl; lia |].
  exists s. split; [done|]. split; [done|].
  split; [by apply SSortRun.foldl_abs_step_sorted|].
  pose proof (SSortRun.sorted_length_foldl_abs_step cmpfn os []) as Hlen.
  simpl in Hlen. destruct Hwf as (Hc & Hcnt). split; [|done].
  apply walk_chain; [done | lia].
Qed.

Lemma ssort_run_refines_witness :
  ∃ s, SSort.run Examples.cmp_val 6
         [SSort.OpAdd 24%N; SSort.OpAdd 8%N; SSort.OpAdd 16%N;
          SSort.OpDel 24%N; SSort.OpPop] (SSort.init ∅) = Some s ∧
       SSort.wf s [8%N] ∧ SSort.sorted Examples.cmp_val [8%N] ∧
       SSort.traverse 6 s = Some [8%N] ∧
       SSort.count_items s = 1.
Proof.
  apply (ssort_run_refines Examples.cmp_val ∅
           [SSort.OpAdd 24%N; SSort.OpAdd 8%N; SSort.OpAdd 16%N;
            SSort.OpDel 24%N; SSort.OpPop] 6).
  - exact cmp_val_trans.
  - exact cmp_val_anti.
  - simpl. repeat split; try done; by apply (bool_decide_unpack _).
  - simpl. lia.
Defined.
